(** * happy: a TCP happy-eyeballs probing tool (happy.c)

    Shallow embedding of [happy.c]: the completion collector [update],
    the scheduler [prepare], the round driver [collect] and the probing
    loop of [main]; [expand], [import] and the option loop of [main];
    the ranker [cmp]/[sort]; the two report renderers; [trim].

    Conventions.
    - C [int] and [unsigned int] are 32 bits wide and [long] 64 bits;
      values are kept in [Z] and every wrap-around is written out with
      [to_uint] and [to_int].
    - A [struct timeval] is a record; [timersub], [timeradd] and
      [timercmp] follow the macros of <sys/time.h>.
    - The linked list of targets is a list; every member has its host,
      its port and its endpoint vector, so [target_valid] holds until
      the end of the list.
    - The endpoint vector of a target is the calloc'ed array of
      [1 + num_endpoints] cells; the last cell is all zero and stops the
      [endpoint_valid] scans.
    - An [fd_set] is the array of FD_SETSIZE = 1024 bits in 64-bit
      words of glibc on x86-64, kept as the list of the bits that are
      set; FD_SET and FD_ISSET reach the bit of a descriptor as the
      macros compute it, and leave the set for a descriptor of
      FD_SETSIZE or more.
    - Calls into the operating system are answered by an environment
      [env], indexed by the number of calls made so far; the computation
      threads that counter and a log of the calls it made.
    - A computation ends in [Done], in [Exit] (the code called
      [exit(EXIT_FAILURE)]), in [Fault] (an access outside an allocated
      object) or in [Fuel] (a [while (1)] loop was cut off).

    The first part of the file holds the definitions, the second part
    the lemmas and the theorems about the specification. *)

From Stdlib Require Import ZArith List Bool Lia String Ascii DecimalString.
From Stdlib Require Import Sorting.Sorted Sorting.Permutation.
Import ListNotations.
Local Open Scope Z_scope.

(* ------------------------------------------------------------------ *)
(** ** Machine integers *)

Definition UINT_MOD : Z := 2 ^ 32.
Definition INT_MAX : Z := 2 ^ 31 - 1.
Definition INT_MIN : Z := - 2 ^ 31.

(** conversion to [unsigned int] *)
Definition to_uint (z : Z) : Z := z mod UINT_MOD.

(** conversion to [int] (two's complement) *)
Definition to_int (z : Z) : Z :=
  let u := z mod UINT_MOD in
  if u <? 2 ^ 31 then u else u - UINT_MOD.

(* ------------------------------------------------------------------ *)
(** ** struct timeval and the <sys/time.h> macros *)

Record timeval : Type := mkTimeval { tv_sec : Z; tv_usec : Z }.

Definition timersub (a b : timeval) : timeval :=
  let sec := tv_sec a - tv_sec b in
  let usec := tv_usec a - tv_usec b in
  if usec <? 0 then mkTimeval (sec - 1) (usec + 1000000)
  else mkTimeval sec usec.

Definition timeradd (a b : timeval) : timeval :=
  let sec := tv_sec a + tv_sec b in
  let usec := tv_usec a + tv_usec b in
  if usec >=? 1000000 then mkTimeval (sec + 1) (usec - 1000000)
  else mkTimeval sec usec.

(** [timercmp(a, b, <)] *)
Definition timercmp_lt (a b : timeval) : bool :=
  if tv_sec a =? tv_sec b then tv_usec a <? tv_usec b
  else tv_sec a <? tv_sec b.

(** microseconds held by a timeval *)
Definition usec_of (t : timeval) : Z := tv_sec t * 1000000 + tv_usec t.

(* ------------------------------------------------------------------ *)
(** ** Data model *)

Record endpoint : Type := mkEndpoint {
  family : Z;
  socktype : Z;
  protocol : Z;
  addr : string;
  addrlen : Z;
  socket : Z;
  tvs : timeval;
  sum : Z;
  tot : Z;
  idx : Z;
  cnt : Z;
  values : list Z
}.

Record target : Type := mkTarget {
  host : string;
  port : string;
  num_endpoints : Z;
  endpoints : list endpoint
}.

(** the process-wide settings *)
Record globals : Type := mkGlobals {
  nqueries : Z;
  timeout : Z;
  delay : Z
}.

Definition default_globals : globals := mkGlobals 3 2000 25.

Definition endpoint_valid (ep : endpoint) : bool := negb (addrlen ep =? 0).

(** field assignments *)
Definition set_socket (ep : endpoint) (v : Z) : endpoint :=
  mkEndpoint (family ep) (socktype ep) (protocol ep) (addr ep) (addrlen ep)
             v (tvs ep) (sum ep) (tot ep) (idx ep) (cnt ep) (values ep).
Definition set_tvs (ep : endpoint) (v : timeval) : endpoint :=
  mkEndpoint (family ep) (socktype ep) (protocol ep) (addr ep) (addrlen ep)
             (socket ep) v (sum ep) (tot ep) (idx ep) (cnt ep) (values ep).
Definition set_sum (ep : endpoint) (v : Z) : endpoint :=
  mkEndpoint (family ep) (socktype ep) (protocol ep) (addr ep) (addrlen ep)
             (socket ep) (tvs ep) v (tot ep) (idx ep) (cnt ep) (values ep).
Definition set_tot (ep : endpoint) (v : Z) : endpoint :=
  mkEndpoint (family ep) (socktype ep) (protocol ep) (addr ep) (addrlen ep)
             (socket ep) (tvs ep) (sum ep) v (idx ep) (cnt ep) (values ep).
Definition set_idx (ep : endpoint) (v : Z) : endpoint :=
  mkEndpoint (family ep) (socktype ep) (protocol ep) (addr ep) (addrlen ep)
             (socket ep) (tvs ep) (sum ep) (tot ep) v (cnt ep) (values ep).
Definition set_cnt (ep : endpoint) (v : Z) : endpoint :=
  mkEndpoint (family ep) (socktype ep) (protocol ep) (addr ep) (addrlen ep)
             (socket ep) (tvs ep) (sum ep) (tot ep) (idx ep) v (values ep).
Definition set_values (ep : endpoint) (v : list Z) : endpoint :=
  mkEndpoint (family ep) (socktype ep) (protocol ep) (addr ep) (addrlen ep)
             (socket ep) (tvs ep) (sum ep) (tot ep) (idx ep) (cnt ep) v.
Definition set_endpoints (tp : target) (v : list endpoint) : target :=
  mkTarget (host tp) (port tp) (num_endpoints tp) v.

(** the all-zero cell calloc leaves at the end of an endpoint vector *)
Definition zero_endpoint : endpoint :=
  mkEndpoint 0 0 0 EmptyString 0 0 (mkTimeval 0 0) 0 0 0 0 [].

(* ------------------------------------------------------------------ *)
(** ** Outcomes, the operating system, and the computation monad *)

Inductive outcome (A : Type) : Type :=
| Done (a : A)
| Exit
| Fault
| Fuel.
Arguments Done {A} a.
Arguments Exit {A}.
Arguments Fault {A}.
Arguments Fuel {A}.

(** errno values (Linux numbering) *)
Definition EPROTONOSUPPORT : Z := 93.
Definition EAFNOSUPPORT : Z := 97.
Definition ECONNREFUSED : Z := 111.
Definition EINPROGRESS : Z := 115.

(** What the operating system answers to the n-th call.
    - [clock n]: the time [gettimeofday] stores;
    - [os_select n fds]: [None] when [select] returns -1, otherwise the
      descriptors that are ready;
    - [os_getsockopt n fd]: [None] when [getsockopt] returns -1, otherwise
      the value of SO_ERROR;
    - [os_socket n family socktype protocol]: the return value of
      [socket] and errno;
    - [os_setfl n]: the return value of [fcntl(F_SETFL)];
    - [os_connect n]: the return value of [connect] and errno;
    - [os_getaddrinfo host port]: [None] when [getaddrinfo] fails,
      otherwise the list it returns. *)
Record addrinfo : Type := mkAddrinfo {
  ai_family : Z;
  ai_socktype : Z;
  ai_protocol : Z;
  ai_addr : string;
  ai_addrlen : Z
}.

Record env : Type := mkEnv {
  clock : nat -> timeval;
  os_select : nat -> list Z -> option (list Z);
  os_getsockopt : nat -> Z -> option Z;
  os_socket : nat -> Z -> Z -> Z -> Z * Z;
  os_setfl : nat -> Z;
  os_connect : nat -> Z * Z;
  os_getaddrinfo : string -> string -> option (list addrinfo)
}.

(** the calls a run makes, newest first *)
Inductive event : Type :=
| EvTime (t : timeval)
| EvSelect (bound : option timeval) (fds : list Z)
| EvUpdate
| EvSocket
| EvClose (fd : Z).

Record world : Type := mkWorld { tick : nat; trace : list event }.

Definition M (A : Type) : Type := world -> outcome (A * world).

Definition ret {A} (a : A) : M A := fun w => Done (a, w).

Definition bind {A B} (c : M A) (k : A -> M B) : M B :=
  fun w => match c w with
           | Done (a, w') => k a w'
           | Exit => Exit
           | Fault => Fault
           | Fuel => Fuel
           end.

Definition exit_failure {A} : M A := fun _ => Exit.
Definition fault {A} : M A := fun _ => Fault.
Definition out_of_fuel {A} : M A := fun _ => Fuel.

Declare Scope happy_scope.
Delimit Scope happy_scope with happy.
Notation "x <- c ;; k" := (bind c (fun x => k))
  (at level 100, c at next level, right associativity) : happy_scope.
Notation "c ;;; k" := (bind c (fun _ => k))
  (at level 100, right associativity) : happy_scope.
Local Open Scope happy_scope.

(** one call into the operating system: consume a tick, log the event *)
Definition syscall {A} (f : nat -> A) (ev : A -> event) : M A :=
  fun w => let a := f (tick w) in
           Done (a, mkWorld (S (tick w)) (ev a :: trace w)).

Definition log (ev : event) : M unit :=
  fun w => Done (tt, mkWorld (tick w) (ev :: trace w)).

(* ------------------------------------------------------------------ *)
(** ** Arrays *)

(** [a[i] = v] on an array of [int]; a store outside the array is a
    [Fault] *)
Fixpoint store_nat (l : list Z) (i : nat) (v : Z) : option (list Z) :=
  match l, i with
  | [], _ => None
  | _ :: r, O => Some (v :: r)
  | x :: r, S i' => match store_nat r i' v with
                    | Some r' => Some (x :: r')
                    | None => None
                    end
  end.

Definition store (l : list Z) (i : Z) (v : Z) : M (list Z) :=
  if i <? 0 then fault
  else match store_nat l (Z.to_nat i) v with
       | Some l' => ret l'
       | None => fault
       end.

(** the recorded samples of an endpoint: [values[0 .. idx-1]] *)
Definition samples (ep : endpoint) : list Z :=
  firstn (Z.to_nat (idx ep)) (values ep).

(** [fd_set] is an array of [FD_SETSIZE] bits in words of [NFDBITS]
    bits; it is kept as the list of the bits that are set.  FD_SET and
    FD_ISSET address bit [fd % NFDBITS] of word [fd / NFDBITS], with the
    division and remainder of C.  [fd_bit fd] is the bit they reach:
    - a descriptor [0 .. FD_SETSIZE-1] has its own bit;
    - a descriptor [-63 .. -1] falls into word 0, and the shift by the
      negative count [fd % NFDBITS] takes the count modulo 64 as the
      x86-64 shift does: descriptor -1 is bit 63;
    - any other descriptor addresses a word outside the set ([None]),
      and the access is a [Fault]. *)
Definition FD_SETSIZE : Z := 1024.
Definition NFDBITS : Z := 64.

Definition fd_bit (fd : Z) : option Z :=
  if (0 <=? fd) && (fd <? FD_SETSIZE) then Some fd
  else if (- NFDBITS <? fd) && (fd <? 0) then Some (NFDBITS + fd)
  else None.

(** the descriptors FD_SET and FD_ISSET can take without leaving the
    set *)
Definition in_fd_set (fd : Z) : bool :=
  match fd_bit fd with
  | Some _ => true
  | None => false
  end.

Definition bit_set (b : Z) (fdset : list Z) : bool :=
  existsb (Z.eqb b) fdset.

Definition FD_ISSET (fd : Z) (fdset : list Z) : bool :=
  match fd_bit fd with
  | Some b => bit_set b fdset
  | None => false
  end.

Section Happy.

Variable G : globals.
Variable E : env.

(* ------------------------------------------------------------------ *)
(** ** System calls *)

Definition gettimeofday : M timeval := syscall (clock E) EvTime.

Definition close (fd : Z) : M unit :=
  syscall (fun _ => tt) (fun _ => EvClose fd).

(** [getsockopt(fd, SOL_SOCKET, SO_ERROR, &soerror, &soerrorlen)] *)
Definition getsockopt (fd : Z) : M (option Z) :=
  fun w => Done (os_getsockopt E (tick w) fd, mkWorld (S (tick w)) (trace w)).

(** [select(nfds, NULL, &fdset, NULL, bound)]: only the descriptors
    [0 .. nfds-1] are examined, and the set is rewritten in whole words
    up to the word of descriptor [nfds-1] (the kernel copies the set in
    and out in words of [NFDBITS] bits).  In these words a bit below
    [nfds] stays when its descriptor is ready and a bit at or above
    [nfds] is cleared; the words behind them are left as they were.
    With [nfds = 0] nothing is rewritten: a bit set before the call is
    still set after it. *)
Definition select_words (nfds : Z) : Z :=
  NFDBITS * ((nfds + NFDBITS - 1) / NFDBITS).

Definition select (nfds : Z) (fdset : list Z) (bound : option timeval)
  : M (option (list Z)) :=
  fun w =>
    let r := match os_select E (tick w) fdset with
             | None => None
             | Some ready =>
                 Some (filter (fun b => if b <? nfds then bit_set b ready
                                        else select_words nfds <=? b) fdset)
             end in
    Done (r, mkWorld (S (tick w)) (EvSelect bound fdset :: trace w)).

(* ------------------------------------------------------------------ *)
(** ** generate_fdset *)

Fixpoint generate_fdset_eps (eps : list endpoint) (acc : Z * list Z)
  : outcome (Z * list Z) :=
  match eps with
  | [] => Fault
  | ep :: rest =>
      if endpoint_valid ep then
        let '(max, fdset) := acc in
        if negb (socket ep =? 0) then
          match fd_bit (socket ep) with
          | Some b =>
              generate_fdset_eps rest
                (if socket ep >? max then socket ep else max, b :: fdset)
          | None => Fault
          end
        else generate_fdset_eps rest acc
      else Done acc
  end.

Fixpoint generate_fdset_from (tps : list target) (acc : Z * list Z)
  : outcome (Z * list Z) :=
  match tps with
  | [] => Done acc
  | tp :: rest =>
      match generate_fdset_eps (endpoints tp) acc with
      | Done acc' => generate_fdset_from rest acc'
      | Exit => Exit
      | Fault => Fault
      | Fuel => Fuel
      end
  end.

(** returns [max] and the descriptor set; FD_SET of a descriptor that
    has no bit in the set writes outside it *)
Definition generate_fdset (targets : list target) : M (Z * list Z) :=
  fun w => match generate_fdset_from targets (-1, []) with
           | Done r => Done (r, w)
           | Exit => Exit
           | Fault => Fault
           | Fuel => Fuel
           end.

(* ------------------------------------------------------------------ *)
(** ** update: the completion collector *)

(** the elapsed time [us] computed for an endpoint at time [tv] *)
Definition elapsed_us (tv : timeval) (ep : endpoint) : Z :=
  let td := timersub tv (tvs ep) in
  to_uint (tv_sec td * 1000000 + tv_usec td).

(** the test [us >= timeout * 1000], in unsigned arithmetic *)
Definition timed_out (us : Z) : bool := us >=? to_uint (timeout G * 1000).

(** the body of the inner loop of [update]; the test
    [FD_ISSET(ep->socket, fdset)] is reached only by a pending attempt
    that has not timed out, and reads outside the set for a descriptor
    that has no bit in it *)
Definition update_ep (tv : timeval) (fdset : list Z) (ep : endpoint)
  : M endpoint :=
  let us := elapsed_us tv ep in
  if negb (socket ep =? 0) && timed_out us then
    vs <- store (values ep) (idx ep) (to_int (to_uint (- us))) ;;
    let ep := set_values ep vs in
    let ep := set_idx ep (to_uint (idx ep + 1)) in
    close (socket ep) ;;;
    ret (set_socket ep 0)
  else if negb (socket ep =? 0) && negb (in_fd_set (socket ep)) then
    fault
  else if negb (socket ep =? 0) && FD_ISSET (socket ep) fdset then
    r <- getsockopt (socket ep) ;;
    match r with
    | None => exit_failure
    | Some soerror =>
        ep <- (if soerror =? 0 then
                 vs <- store (values ep) (idx ep) (to_int us) ;;
                 let ep := set_values ep vs in
                 let ep := set_sum ep (to_uint (sum ep + us)) in
                 let ep := set_tot ep (to_uint (tot ep + 1)) in
                 let ep := set_cnt ep (to_uint (cnt ep + 1)) in
                 ret (set_idx ep (to_uint (idx ep + 1)))
               else
                 vs <- store (values ep) (idx ep) (to_int (to_uint (- us))) ;;
                 let ep := set_values ep vs in
                 let ep := set_cnt ep (to_uint (cnt ep + 1)) in
                 ret (set_idx ep (to_uint (idx ep + 1)))) ;;
        close (socket ep) ;;;
        ret (set_socket ep 0)
    end
  else ret ep.

Fixpoint update_eps (tv : timeval) (fdset : list Z) (eps : list endpoint)
  : M (list endpoint) :=
  match eps with
  | [] => fault
  | ep :: rest =>
      if endpoint_valid ep then
        ep' <- update_ep tv fdset ep ;;
        rest' <- update_eps tv fdset rest ;;
        ret (ep' :: rest')
      else ret eps
  end.

Fixpoint update_from (tv : timeval) (fdset : list Z) (tps : list target)
  : M (list target) :=
  match tps with
  | [] => ret []
  | tp :: rest =>
      eps <- update_eps tv fdset (endpoints tp) ;;
      rest' <- update_from tv fdset rest ;;
      ret (set_endpoints tp eps :: rest')
  end.

Definition update (targets : list target) (fdset : list Z)
  : M (list target) :=
  log EvUpdate ;;;
  tv <- gettimeofday ;;
  update_from tv fdset targets.

(* ------------------------------------------------------------------ *)
(** ** prepare: the scheduler *)

(** [socket], [fcntl(F_SETFL)] and [connect] *)
Definition sys_socket (family socktype protocol : Z) : M (Z * Z) :=
  syscall (fun n => os_socket E n family socktype protocol)
          (fun _ => EvSocket).

Definition sys_setfl : M Z :=
  fun w => Done (os_setfl E (tick w), mkWorld (S (tick w)) (trace w)).

Definition sys_connect : M (Z * Z) :=
  fun w => Done (os_connect E (tick w), mkWorld (S (tick w)) (trace w)).

(** the cell [tp->endpoints[ei]] of the [ti]-th target *)
Definition get_ep (targets : list target) (ti ei : nat) : option endpoint :=
  match nth_error targets ti with
  | Some tp => nth_error (endpoints tp) ei
  | None => None
  end.

Fixpoint replace_nth {A} (l : list A) (i : nat) (v : A) : list A :=
  match l, i with
  | [], _ => []
  | _ :: r, O => v :: r
  | x :: r, S i' => x :: replace_nth r i' v
  end.

Definition put_ep (targets : list target) (ti ei : nat) (ep : endpoint)
  : list target :=
  match nth_error targets ti with
  | Some tp =>
      replace_nth targets ti
        (set_endpoints tp (replace_nth (endpoints tp) ei ep))
  | None => targets
  end.

(** [dd]: the pacing interval as a timeval *)
Definition dd : timeval :=
  mkTimeval (Z.quot (delay G) 1000) (Z.rem (delay G) 1000 * 1000).

(** the [while (1)] loop of the nap taken before each connect *)
Fixpoint nap_loop (fuel : nat) (dts : timeval) (targets : list target)
  : M (list target) :=
  match fuel with
  | O => out_of_fuel
  | S fuel' =>
      mf <- generate_fdset targets ;;
      let '(max, fdset) := mf in
      dtn <- gettimeofday ;;
      let dtd := timersub dtn dts in
      if timercmp_lt dd dtd then ret targets
      else
        let to := timeradd dts dd in
        let to := timersub to dtn in
        rc <- select (1 + max) fdset (Some to) ;;
        match rc with
        | None => exit_failure
        | Some fdset =>
            targets <- update targets fdset ;;
            nap_loop fuel' dts targets
        end
  end.

Definition nap (fuel : nat) (targets : list target) : M (list target) :=
  if negb (delay G =? 0) then
    dts <- gettimeofday ;;
    nap_loop fuel dts targets
  else ret targets.

(** the rest of the loop body: create the socket and start the
    non-blocking connect *)
Definition start_connect (ep : endpoint) : M endpoint :=
  se <- sys_socket (family ep) (socktype ep) (protocol ep) ;;
  let '(rc, errno) := se in
  let ep := set_socket ep rc in
  if socket ep <? 0 then
    if (errno =? EAFNOSUPPORT) || (errno =? EPROTONOSUPPORT) then ret ep
    else ret (set_socket ep 0)
  else
    rc <- sys_setfl ;;
    if rc =? -1 then
      close (socket ep) ;;;
      ret (set_socket ep 0)
    else
      ce <- sys_connect ;;
      let '(rc, errno) := ce in
      if (rc =? -1) && negb (errno =? EINPROGRESS) then
        close (socket ep) ;;;
        ret (set_socket ep 0)
      else
        tv <- gettimeofday ;;
        ret (set_tvs ep tv).

(** the inner loop over [tp->endpoints]; [k] bounds the cells still to
    visit *)
Fixpoint prepare_eps (fuel k ti ei : nat) (targets : list target)
  : M (list target) :=
  match k with
  | O => fault
  | S k' =>
      match get_ep targets ti ei with
      | None => fault
      | Some ep =>
          if endpoint_valid ep then
            targets <- nap fuel targets ;;
            match get_ep targets ti ei with
            | None => fault
            | Some ep =>
                ep <- start_connect ep ;;
                prepare_eps fuel k' ti (S ei) (put_ep targets ti ei ep)
            end
          else ret targets
      end
  end.

(** the outer loop over the list of targets *)
Fixpoint prepare_from (fuel k ti : nat) (targets : list target)
  : M (list target) :=
  match k with
  | O => ret targets
  | S k' =>
      match nth_error targets ti with
      | None => ret targets
      | Some tp =>
          targets <-
            prepare_eps fuel (S (List.length (endpoints tp))) ti 0 targets ;;
          prepare_from fuel k' (S ti) targets
      end
  end.

Definition prepare (fuel : nat) (targets : list target) : M (list target) :=
  match targets with
  | [] => exit_failure
  | tp :: _ =>
      if num_endpoints tp =? 0 then ret targets
      else prepare_from fuel (List.length targets) 0 targets
  end.

(* ------------------------------------------------------------------ *)
(** ** collect: the round driver *)

(** the bound handed to [select]: [&to], or NULL when [timeout] is 0 *)
Definition collect_bound : option timeval :=
  if negb (timeout G =? 0) then
    Some (mkTimeval (Z.quot (timeout G) 1000)
                    (Z.rem (timeout G) 1000 * 1000))
  else None.

Fixpoint collect (fuel : nat) (targets : list target) : M (list target) :=
  match fuel with
  | O => out_of_fuel
  | S fuel' =>
      mf <- generate_fdset targets ;;
      let '(max, fdset) := mf in
      if max =? -1 then ret targets
      else
        rc <- select (1 + max) fdset collect_bound ;;
        match rc with
        | None => exit_failure
        | Some fdset =>
            targets <- update targets fdset ;;
            collect fuel' targets
        end
  end.

(** the probing loop of [main]: [nqueries] rounds *)
Fixpoint rounds (fuel n : nat) (targets : list target) : M (list target) :=
  match n with
  | O => ret targets
  | S n' =>
      targets <- prepare fuel targets ;;
      targets <- collect fuel targets ;;
      rounds fuel n' targets
  end.

Definition probe (fuel : nat) (targets : list target) : M (list target) :=
  rounds fuel (Z.to_nat (nqueries G)) targets.

End Happy.

(* ------------------------------------------------------------------ *)
(** ** expand: resolving a target *)

Section Expand.

Variable G : globals.
Variable E : env.

(** one cell of the endpoint vector, filled from an [addrinfo];
    [values] is the zeroed array of [nqueries] slots *)
Definition endpoint_of_addrinfo (ai : addrinfo) : endpoint :=
  mkEndpoint (ai_family ai) (ai_socktype ai) (ai_protocol ai)
             (ai_addr ai) (ai_addrlen ai)
             0 (mkTimeval 0 0) 0 0 0 0
             (repeat 0 (Z.to_nat (nqueries G))).

(** [None] is the NULL returned when the name does not resolve *)
Definition expand (host port : string) : option target :=
  match os_getaddrinfo E host port with
  | None => None
  | Some ai_list =>
      Some (mkTarget host port (Z.of_nat (List.length ai_list))
              (map endpoint_of_addrinfo ai_list ++ [zero_endpoint]))
  end.

(** [append(expand(host, ports[j]))] for every port *)
Fixpoint expand_ports (host : string) (ports : list string)
    (targets : list target) : list target :=
  match ports with
  | [] => targets
  | port :: rest =>
      expand_ports host rest
        (match expand host port with
         | Some tp => targets ++ [tp]
         | None => targets
         end)
  end.

End Expand.

(* ------------------------------------------------------------------ *)
(** ** cmp and sort: the ranker *)

Definition cmp (pa pb : endpoint) : Z :=
  if (tot pa =? 0) || (tot pb =? 0) then 0
  else if sum pa / tot pa <? sum pb / tot pb then -1
  else if sum pa / tot pa >? sum pb / tot pb then 1
  else 0.

Section Sort.

(** [qsort] of the C library, specialised to arrays of endpoints *)
Variable qsort : (endpoint -> endpoint -> Z) -> list endpoint -> list endpoint.

(** [qsort] over [tp->endpoints] with [tp->num_endpoints] cells: the
    first [num_endpoints] cells are sorted, the closing cell stays *)
Definition sort_target (tp : target) : target :=
  let n := Z.to_nat (num_endpoints tp) in
  set_endpoints tp
    (qsort cmp (firstn n (endpoints tp)) ++ skipn n (endpoints tp)).

Definition sort (targets : list target) : list target :=
  map sort_target targets.

End Sort.

(** insertion sort, one admissible implementation of [qsort] *)
Fixpoint insert_sorted (c : endpoint -> endpoint -> Z) (x : endpoint)
    (l : list endpoint) : list endpoint :=
  match l with
  | [] => [x]
  | y :: r => if c x y <=? 0 then x :: y :: r
              else y :: insert_sorted c x r
  end.

Fixpoint insertion_sort (c : endpoint -> endpoint -> Z) (l : list endpoint)
  : list endpoint :=
  match l with
  | [] => []
  | x :: r => insert_sorted c x (insertion_sort c r)
  end.

(** what the C standard asks of the comparison function: the same two
    cells always compare the same way round, and the comparison orders
    the cells of the array consistently *)
Definition consistent (c : endpoint -> endpoint -> Z) (l : list endpoint)
  : Prop :=
  (forall a b, In a l -> In b l ->
     (c a b < 0 <-> c b a > 0) /\ (c a b = 0 <-> c b a = 0)) /\
  (forall a b d, In a l -> In b l -> In d l ->
     c a b <= 0 -> c b d <= 0 -> c a d <= 0).

(** what the C standard promises of [qsort] in return: the array is
    rearranged into ascending order according to the comparison *)
Definition qsort_contract
    (qsort : (endpoint -> endpoint -> Z) -> list endpoint -> list endpoint)
  : Prop :=
  forall c l, consistent c l ->
    Permutation l (qsort c l) /\
    Sorted (fun a b => c a b <= 0) (qsort c l).

(** ascending mean latency, with the mean as [cmp] computes it *)
Definition mean_le (a b : endpoint) : Prop := sum a / tot a <= sum b / tot b.

Definition has_data (ep : endpoint) : bool := negb (tot ep =? 0).

(** the cells [qsort] is run on *)
Definition ranked (tp : target) : list endpoint :=
  firstn (Z.to_nat (num_endpoints tp)) (endpoints tp).

(** the ranking the specification describes: ascending means when every
    endpoint has data, and in any case ascending means among the
    endpoints that have data *)
Definition spec_ranking (tp : target) : Prop :=
  (forallb has_data (ranked tp) = true -> StronglySorted mean_le (ranked tp))
  /\ StronglySorted mean_le (filter has_data (ranked tp)).

(* ------------------------------------------------------------------ *)
(** ** The report renderers *)

Local Open Scope string_scope.

(** decimal numeral, as printed by [%d], [%u] and [%lu] *)
Definition dec (z : Z) : string := NilZero.string_of_int (Z.to_int z).

Fixpoint replicate (n : nat) (c : ascii) : string :=
  match n with
  | O => EmptyString
  | S n' => String c (replicate n' c)
  end.

(** minimum field width: pad on the left *)
Definition pad_left (width : nat) (c : ascii) (s : string) : string :=
  replicate (width - String.length s)%nat c ++ s.

(** the samples [values[0 .. idx-1]] as the report loops read them;
    [None] when the loop would run off the array *)
Definition read_samples (ep : endpoint) : option (list Z) :=
  if ((0 <=? idx ep) && (idx ep <=? Z.of_nat (List.length (values ep))))%Z
  then Some (samples ep) else None.

(** one field of the human report:
    [printf(" %4u.%03u", v / 1000, v % 1000)] or the marker *)
Definition report_field (v : Z) : string :=
  if (v >=? 0)%Z then
    " " ++ pad_left 4 " " (dec (Z.quot v 1000)) ++ "."
        ++ pad_left 3 "0" (dec (Z.rem v 1000))
  else "     *   ".

(** the line of an endpoint in the human report; [numeric] is the
    address [getnameinfo] produced *)
Definition report_line (ep : endpoint) (numeric : string) : option string :=
  match read_samples ep with
  | None => None
  | Some vs =>
      let len := Z.of_nat (String.length (" " ++ numeric)) in
      Some (" " ++ numeric
                ++ replicate (Z.to_nat (Z.abs (42 - len)%Z)) " "
                ++ String.concat "" (map report_field vs)
                ++ "
")
  end.

(** the field the specification describes: seconds and milliseconds *)
Definition spec_report_field (v : Z) : string :=
  if (v >=? 0)%Z then
    " " ++ pad_left 4 " " (dec (v / 1000000)%Z) ++ "."
        ++ pad_left 3 "0" (dec ((v / 1000) mod 1000)%Z)
  else "     *   ".

(** the fields of an endpoint's line in the machine-readable report:
    [printf("HAPPY.0;%lu;%s;%s;%s;%s", now, ep->cnt ? "OK" : "FAIL",
            tp->host, tp->port, host)] and one [";%d"] per sample *)
Definition report_sk_fields (now : Z) (tp : target) (ep : endpoint)
    (numeric : string) : option (list string) :=
  match read_samples ep with
  | None => None
  | Some vs =>
      Some (["HAPPY.0"; dec now;
             (if negb (cnt ep =? 0)%Z then "OK" else "FAIL");
             host tp; port tp; numeric] ++ map dec vs)%list
  end.

(** the status the specification describes: OK when some sample is a
    success *)
Definition spec_status (ep : endpoint) : string :=
  if existsb (fun v => (0 <=? v)%Z) (samples ep) then "OK" else "FAIL".

Definition report_sk_line (now : Z) (tp : target) (ep : endpoint)
    (numeric : string) : option string :=
  match report_sk_fields now tp ep numeric with
  | None => None
  | Some fields => Some (String.concat ";" fields ++ "
")
  end.

Local Close Scope string_scope.

(* ------------------------------------------------------------------ *)
(** ** strtol and the numeric options of main *)

Definition LONG_MAX : Z := 2 ^ 63 - 1.
Definition LONG_MIN : Z := - 2 ^ 63.

(** [isspace] in the C locale *)
Definition isspace (c : ascii) : bool :=
  let n := nat_of_ascii c in
  ((n =? 32) || ((9 <=? n) && (n <=? 13)))%nat.

Definition isdigit (c : ascii) : bool :=
  let n := nat_of_ascii c in ((48 <=? n) && (n <=? 57))%nat.

Definition digit_value (c : ascii) : Z := Z.of_nat (nat_of_ascii c) - 48.

Fixpoint skip_spaces (s : string) : string :=
  match s with
  | String c r => if isspace c then skip_spaces r else s
  | EmptyString => s
  end.

(** the digits at the head of [s]: their value on top of [acc], whether
    there was any, and the rest of the string *)
Fixpoint read_digits (s : string) (acc : Z) (any : bool)
  : Z * bool * string :=
  match s with
  | String c r =>
      if isdigit c then read_digits r (acc * 10 + digit_value c) true
      else (acc, any, s)
  | EmptyString => (acc, any, s)
  end.

(** [strtol(nptr, &endptr, 10)]: the value, clamped to the range of
    [long], and the string [endptr] points to *)
Definition strtol (nptr : string) : Z * string :=
  let s := skip_spaces nptr in
  let '(neg, s) :=
    match s with
    | String "-" r => (true, r)
    | String "+" r => (false, r)
    | _ => (false, s)
    end in
  let '(v, any, rest) := read_digits s 0 false in
  if any then
    (if neg then Z.max (- v) LONG_MIN else Z.min v LONG_MAX, rest)
  else (0, nptr).

(** [case 't']: the new value of [timeout], or [None] when main prints
    the diagnostic and exits with EXIT_FAILURE *)
Definition parse_timeout (optarg : string) : option Z :=
  let '(v, endptr) := strtol optarg in
  let num := to_int v in
  if (num >? 0) && (String.eqb endptr EmptyString) then Some num else None.

(** [case 'q'] *)
Definition parse_nqueries (optarg : string) : option Z :=
  let '(v, endptr) := strtol optarg in
  let num := to_int v in
  if (num >? 0) && (String.eqb endptr EmptyString) then Some num else None.

(** [case 'd']; [delay] is an [unsigned int] *)
Definition parse_delay (optarg : string) : option Z :=
  let '(v, endptr) := strtol optarg in
  let num := to_int v in
  if (num >=? 0) && (String.eqb endptr EmptyString) then Some (to_uint num)
  else None.

(** the numeral written with the decimal digits [ds] *)
Definition digit_char (d : nat) : ascii := ascii_of_nat (48 + d).

Fixpoint numeral (ds : list nat) : string :=
  match ds with
  | [] => EmptyString
  | d :: r => String (digit_char d) (numeral r)
  end.

Fixpoint numeral_value (ds : list nat) (acc : Z) : Z :=
  match ds with
  | [] => acc
  | d :: r => numeral_value r (acc * 10 + Z.of_nat d)
  end.

(* ------------------------------------------------------------------ *)
(** ** trim *)

Definition NUL : ascii := "000"%char.

Definition is_nul (c : ascii) : bool := Ascii.eqb c NUL.

(** the bytes of a buffer that holds the C string [s]: its characters
    and the terminator; index 0 is the first byte of the buffer *)
Definition c_string (s : string) : list ascii :=
  list_ascii_of_string s ++ [NUL].

(** [b[i]]; [None] when [i] lies outside the buffer *)
Definition load (b : list ascii) (i : Z) : option ascii :=
  if i <? 0 then None else nth_error b (Z.to_nat i).

Fixpoint strlen (b : list ascii) : nat :=
  match b with
  | [] => O
  | c :: r => if is_nul c then O else S (strlen r)
  end.

(** the C string that starts at [b + p] *)
Fixpoint until_nul (b : list ascii) : list ascii :=
  match b with
  | [] => []
  | c :: r => if is_nul c then [] else c :: until_nul r
  end.

Definition string_at (b : list ascii) (p : nat) : string :=
  string_of_list_ascii (until_nul (skipn p b)).

(** [while(isspace(p[l-1]) && l) p[--l] = 0;]  The byte [p[l-1]] is
    read before [l] is tested. *)
Fixpoint trim_tail (b : list ascii) (l : nat) : outcome (list ascii * nat) :=
  match load b (Z.of_nat l - 1) with
  | None => Fault
  | Some c =>
      match l with
      | S l' => if isspace c then trim_tail (replace_nth b l' NUL) l'
                else Done (b, l)
      | O => Done (b, l)
      end
  end.

(** [while( *p && isspace( *p) && l) ++p, --l;] *)
Fixpoint trim_head (b : list ascii) (p l : nat) : outcome nat :=
  match load b (Z.of_nat p) with
  | None => Fault
  | Some c =>
      if negb (is_nul c) && isspace c then
        match l with
        | S l' => trim_head b (S p) l'
        | O => Done p
        end
      else Done p
  end.

Definition trim (s : string) : outcome string :=
  let b := c_string s in
  let l := strlen b in
  match trim_tail b l with
  | Done (b, l) =>
      match trim_head b 0 l with
      | Done p => Done (string_at b p)
      | Exit => Exit
      | Fault => Fault
      | Fuel => Fuel
      end
  | Exit => Exit
  | Fault => Fault
  | Fuel => Fuel
  end.

(** the string without its leading and trailing white space *)
Fixpoint drop_spaces (l : list ascii) : list ascii :=
  match l with
  | [] => []
  | c :: r => if isspace c then drop_spaces r else l
  end.

Definition strip (s : string) : string :=
  string_of_list_ascii
    (rev (drop_spaces (rev (drop_spaces (list_ascii_of_string s))))).

Definition all_spaces (s : string) : bool :=
  forallb isspace (list_ascii_of_string s).

Definition spaces (l : list ascii) : Prop :=
  Forall (fun c => isspace c = true) l.

Definition nul_free (l : list ascii) : Prop :=
  Forall (fun c => is_nul c = false) l.

Definition no_nul (s : string) : Prop := nul_free (list_ascii_of_string s).

(* ------------------------------------------------------------------ *)
(** ** import and main *)

(** the options as [getopt] hands them to main, in command-line order;
    for -f the argument is replaced by what [fopen] and the successive
    calls of [fgets] give: [None] when the file cannot be opened,
    otherwise the lines read *)
Inductive option_arg : Type :=
| Opt_d (optarg : string)
| Opt_p (optarg : string)
| Opt_q (optarg : string)
| Opt_f (file : option (list string))
| Opt_m
| Opt_s
| Opt_t (optarg : string)
| Opt_h.

(** the variables main and the option loop work on *)
Record settings : Type := mkSettings {
  globs : globals;
  smode : bool;
  skmode : bool;
  usr_ports : option (list string);
  targets_of : list target
}.

Definition initial_settings : settings :=
  mkSettings default_globals false false None [].

(** [ports]: the ports given with -p, or the default port 80 *)
Definition ports_of (st : settings) : list string :=
  match usr_ports st with
  | Some l => l
  | None => ["80"%string]
  end.

Section Main.

Variable E : env.

(** the [while (fgets(...))] loop of [import] *)
Fixpoint import_lines (G : globals) (ports : list string)
    (lines : list string) (targets : list target)
  : outcome (list target) :=
  match lines with
  | [] => Done targets
  | line :: rest =>
      match trim line with
      | Done host =>
          import_lines G ports rest
            (if negb (String.eqb host EmptyString)
             then expand_ports G E host ports targets
             else targets)
      | Exit => Exit
      | Fault => Fault
      | Fuel => Fuel
      end
  end.

Definition import (G : globals) (ports : list string)
    (file : option (list string)) (targets : list target)
  : outcome (list target) :=
  match file with
  | None => Exit
  | Some lines => import_lines G ports lines targets
  end.

(** one turn of the [getopt] loop *)
Definition handle_option (st : settings) (o : option_arg)
  : outcome settings :=
  let G := globs st in
  match o with
  | Opt_d optarg =>
      match parse_delay optarg with
      | Some num =>
          Done (mkSettings (mkGlobals (nqueries G) (timeout G) num)
                  (smode st) (skmode st) (usr_ports st) (targets_of st))
      | None => Exit
      end
  | Opt_p optarg =>
      Done (mkSettings G (smode st) (skmode st)
              (Some (match usr_ports st with
                     | Some l => l ++ [optarg]
                     | None => [optarg]
                     end))
              (targets_of st))
  | Opt_q optarg =>
      match parse_nqueries optarg with
      | Some num =>
          Done (mkSettings (mkGlobals num (timeout G) (delay G))
                  (smode st) (skmode st) (usr_ports st) (targets_of st))
      | None => Exit
      end
  | Opt_f file =>
      match import G (ports_of st) file (targets_of st) with
      | Done targets =>
          Done (mkSettings G (smode st) (skmode st) (usr_ports st) targets)
      | Exit => Exit
      | Fault => Fault
      | Fuel => Fuel
      end
  | Opt_m => Done (mkSettings G (smode st) true (usr_ports st) (targets_of st))
  | Opt_s => Done (mkSettings G true (skmode st) (usr_ports st) (targets_of st))
  | Opt_t optarg =>
      match parse_timeout optarg with
      | Some num =>
          Done (mkSettings (mkGlobals (nqueries G) num (delay G))
                  (smode st) (skmode st) (usr_ports st) (targets_of st))
      | None => Exit
      end
  | Opt_h => Exit
  end.

Fixpoint handle_options (st : settings) (opts : list option_arg)
  : outcome settings :=
  match opts with
  | [] => Done st
  | o :: rest =>
      match handle_option st o with
      | Done st' => handle_options st' rest
      | Exit => Exit
      | Fault => Fault
      | Fuel => Fuel
      end
  end.

(** the hostnames left on the command line *)
Fixpoint expand_hosts (G : globals) (ports : list string)
    (hosts : list string) (targets : list target) : list target :=
  match hosts with
  | [] => targets
  | h :: rest =>
      expand_hosts G ports rest (expand_ports G E h ports targets)
  end.

(** main up to the end of the probing loop: the settings and the
    targets with their samples *)
Definition main_probe (fuel : nat) (opts : list option_arg)
    (hosts : list string) : M settings :=
  fun w =>
    match handle_options initial_settings opts with
    | Done st =>
        let G := globs st in
        let targets := expand_hosts G (ports_of st) hosts (targets_of st) in
        match targets with
        | [] => Done (st, w)
        | _ =>
            match probe G E fuel targets w with
            | Done (targets', w') =>
                Done (mkSettings G (smode st) (skmode st) (usr_ports st)
                        targets', w')
            | Exit => Exit
            | Fault => Fault
            | Fuel => Fuel
            end
        end
    | Exit => Exit
    | Fault => Fault
    | Fuel => Fuel
    end.

End Main.

(* ------------------------------------------------------------------ *)
(** ** Invariants of the per-endpoint counters *)

(** number of non-negative entries *)
Definition count_nonneg (l : list Z) : Z :=
  Z.of_nat (List.length (filter (fun v => 0 <=? v) l)).

(** the invariant as the specification words it:
    successCount <= totalAttemptCount == len(samples), and the
    non-negative samples are exactly the successes *)
Definition spec_invariant (ep : endpoint) : Prop :=
  tot ep <= cnt ep /\ cnt ep = idx ep /\ count_nonneg (samples ep) = tot ep.

(** what [update] keeps of the counters *)
Definition counters_ok (ep : endpoint) : Prop :=
  0 <= tot ep /\ tot ep <= cnt ep /\ cnt ep <= idx ep /\
  idx ep <= Z.of_nat (List.length (values ep)) /\
  Z.of_nat (List.length (values ep)) < UINT_MOD.

Definition signs_ok (ep : endpoint) : Prop :=
  count_nonneg (samples ep) = tot ep.

(** an elapsed time that is neither zero nor beyond [INT_MAX]
    microseconds *)
Definition plausible (tv : timeval) (ep : endpoint) : Prop :=
  socket ep <> 0 -> 0 < elapsed_us tv ep < 2 ^ 31.

Definition all_eps (P : endpoint -> Prop) (targets : list target) : Prop :=
  Forall (fun tp => Forall P (endpoints tp)) targets.


(* ------------------------------------------------------------------ *)
(** ** Concrete environments and states used in examples *)

(** address families and the one address every name resolves to *)
Definition AF_INET : Z := 2.
Definition AF_INET6 : Z := 10.

Definition resolve_v4 (host port : string) : option (list addrinfo) :=
  Some [mkAddrinfo AF_INET 1 6 "192.0.2.1" 16].

Definition resolve_v6_v4 (host port : string) : option (list addrinfo) :=
  Some [mkAddrinfo AF_INET6 1 6 "2001:db8::1" 28;
        mkAddrinfo AF_INET 1 6 "192.0.2.1" 16].

(** a host where every call succeeds at once: the clock advances one
    millisecond per call, [select] reports every descriptor ready,
    SO_ERROR is 0, [socket] hands out fresh descriptors and [connect]
    answers EINPROGRESS *)
Definition env_ok : env :=
  mkEnv (fun n => mkTimeval 1000 (Z.of_nat n * 1000))
        (fun _ fds => Some fds)
        (fun _ _ => Some 0)
        (fun n _ _ _ => (3 + Z.of_nat n, 0))
        (fun _ => 0)
        (fun _ => (-1, EINPROGRESS))
        resolve_v4.

(** the same host, but every connection is refused *)
Definition env_refused : env :=
  mkEnv (clock env_ok) (os_select env_ok)
        (fun _ _ => Some ECONNREFUSED)
        (os_socket env_ok) (os_setfl env_ok) (os_connect env_ok)
        resolve_v4.

(** a host that never answers: the clock advances one second per call
    and [select] reports nothing ready *)
Definition env_silent : env :=
  mkEnv (fun n => mkTimeval (1000 + Z.of_nat n) 0)
        (fun _ _ => Some [])
        (fun _ _ => Some 0)
        (fun n _ _ _ => (3 + Z.of_nat n, 0))
        (fun _ => 0)
        (fun _ => (-1, EINPROGRESS))
        resolve_v4.

(** a host without IPv6: [socket(AF_INET6, ...)] fails with
    EAFNOSUPPORT; the clock advances 30 ms per call *)
Definition env_no_ipv6 : env :=
  mkEnv (fun n => mkTimeval 1000 (Z.of_nat n * 30000))
        (fun _ fds => Some fds)
        (fun _ _ => Some 0)
        (fun n fam _ _ => if fam =? AF_INET6 then (-1, EAFNOSUPPORT)
                          else (3 + Z.of_nat n, 0))
        (fun _ => 0)
        (fun _ => (-1, EINPROGRESS))
        resolve_v6_v4.

(** an IPv4 endpoint with three sample slots and no attempt yet *)
Definition fresh_endpoint : endpoint :=
  mkEndpoint 2 1 6 "192.0.2.1" 16 0 (mkTimeval 0 0) 0 0 0 0 [0; 0; 0].

(** the same endpoint with a connect started at second 1000 on
    descriptor 5 *)
Definition pending_endpoint : endpoint :=
  set_tvs (set_socket fresh_endpoint 5) (mkTimeval 1000 0).

Definition one_target (ep : endpoint) : list target :=
  [mkTarget "example.net" "80" 1 [ep; zero_endpoint]].

Definition world0 : world := mkWorld 0 [].

(** [pending_endpoint] after its connection was refused one
    millisecond after the connect started *)
Definition refused_endpoint : endpoint :=
  set_socket
    (set_idx (set_cnt (set_values pending_endpoint [-1000; 0; 0]) 1) 1) 0.

(** endpoints with a given sum of latencies and number of successes *)
Definition measured (s t : Z) : endpoint :=
  set_tot (set_sum fresh_endpoint s) t.

(** a target whose second endpoint never connected *)
Definition mixed_target : target :=
  mkTarget "example.net" "80" 3
    [measured 5000 1; measured 0 0; measured 3000 1; zero_endpoint].

Definition measured_target : target :=
  mkTarget "example.net" "80" 3
    [measured 5000 1; measured 8000 2; measured 3000 1; zero_endpoint].

(* ------------------------------------------------------------------ *)
(** ** Logs *)

(** the events a computation adds to the log all satisfy [P] *)
Definition extends (P : event -> Prop) (w w' : world) : Prop :=
  exists seg, trace w' = seg ++ trace w /\ Forall P seg.

Definition emits {A} (P : event -> Prop) (c : M A) : Prop :=
  forall w a w', c w = Done (a, w') -> extends P w w'.

(** neither a [select] nor a [socket] call *)
Definition quiet (ev : event) : Prop :=
  match ev with
  | EvSelect _ _ => False
  | EvSocket => False
  | _ => True
  end.


(** the log of a nap that started at [dts] and is still going on,
    newest call first: the reading of [dts], then for every turn of the
    loop that did not leave it the reading [dtn], the [select] bounded
    by what is left of the delay, and the pass of [update] that follows
    it *)
Inductive waiting (G : globals) (dts : timeval) : list event -> Prop :=
| waiting_start : waiting G dts [EvTime dts]
| waiting_select seg dtn fds useg :
    waiting G dts seg ->
    timercmp_lt (dd G) (timersub dtn dts) = false ->
    Forall quiet useg ->
    waiting G dts
      (useg ++ EvUpdate
            :: EvSelect (Some (timersub (timeradd dts (dd G)) dtn)) fds
            :: EvTime dtn :: seg).

(** the log of a paced round, newest call first: before every [socket]
    call lies a nap whose last reading [dtn] of the clock is more than
    [dd] after its first reading [dts] *)
Inductive paced (G : globals) : list event -> Prop :=
| paced_nil : paced G []
| paced_connect seg dts wseg dtn cseg :
    paced G seg ->
    waiting G dts wseg ->
    timercmp_lt (dd G) (timersub dtn dts) = true ->
    Forall quiet cseg ->
    paced G (cseg ++ EvSocket :: EvTime dtn :: wseg ++ seg).

(** a timeval as [gettimeofday] stores it *)
Definition normalized (t : timeval) : Prop := 0 <= tv_usec t < 1000000.

(** the result of a computation that is known to return *)
Definition result_of {A} (r : outcome (A * world)) (default : A)
  : A * world :=
  match r with
  | Done x => x
  | _ => (default, world0)
  end.

(** what a run leaves in the endpoints: family, [idx] and the samples *)
Definition summary (targets : list target) : list (list (Z * Z * list Z)) :=
  map (fun tp => map (fun ep => (family ep, idx ep, samples ep))
                     (endpoints tp)) targets.

(** a file with the single line "example.net" *)
Definition hosts_file : option (list string) :=
  Some [String.append "example.net" (String "010" EmptyString)].

(* ------------------------------------------------------------------ *)
(** ** Staying inside the arrays *)

(** [c] ends in a [Fault] only if [U] holds, and a result it returns
    satisfies [Q] *)
Definition safe_unless (U : Prop) {A} (c : M A) (Q : A -> Prop) : Prop :=
  forall w, match c w with
            | Done (a, _) => Q a
            | Fault => U
            | _ => True
            end.

(** 1 while an attempt is recorded as pending *)
Definition pend (ep : endpoint) : Z := if socket ep =? 0 then 0 else 1.

(** an endpoint whose counters are in order, that has used at most
    [n] of its [slots] sample slots, counting the one a pending attempt
    will take, and whose descriptor FD_SET and FD_ISSET can take.  [U]
    lifts the last condition: it stands for an operating system that
    hands out a descriptor an [fd_set] has no bit for. *)
Definition within (U : Prop) (slots n : Z) (ep : endpoint) : Prop :=
  endpoint_valid ep = true ->
  (0 <= tot ep /\ tot ep <= cnt ep /\ cnt ep <= idx ep) /\
  idx ep + pend ep <= n /\
  Z.of_nat (List.length (values ep)) = slots /\
  (in_fd_set (socket ep) = true \/ U).

(** the vector has its closing cell *)
Definition terminated (eps : list endpoint) : Prop :=
  Exists (fun ep => endpoint_valid ep = false) eps.

Definition well_shaped (targets : list target) : Prop :=
  Forall (fun tp => terminated (endpoints tp)) targets.

(** the endpoint [ep'] stands where [ep] stood and has used no more
    slots than [ep] was entitled to *)
Definition evolved (U : Prop) (slots : Z) (ep ep' : endpoint) : Prop :=
  addrlen ep' = addrlen ep /\
  forall n, within U slots n ep -> within U slots n ep'.

Definition target_evolved (U : Prop) (slots : Z) (tp tp' : target) : Prop :=
  Forall2 (evolved U slots) (endpoints tp) (endpoints tp').

Definition advances (U : Prop) (slots : Z) (targets targets' : list target)
  : Prop :=
  Forall2 (target_evolved U slots) targets targets'.

(** during round [r], with [prepare] at cell [ei] of target [ti]: the
    cells already passed may have used [r] slots, the others [r - 1] *)
Definition budget_of (r : Z) (ti ei i j : nat) : Z :=
  if ((i <? ti) || ((i =? ti) && (j <? ei)))%nat then r else r - 1.

Definition staged (U : Prop) (slots r : Z) (ti ei : nat)
    (targets : list target) : Prop :=
  forall i j ep, get_ep targets i j = Some ep ->
    within U slots (budget_of r ti ei i j) ep.

Definition all_within (U : Prop) (slots n : Z) (targets : list target)
  : Prop :=
  forall i j ep, get_ep targets i j = Some ep -> within U slots n ep.

(** targets as [expand] leaves them *)
Definition fresh (slots : Z) (targets : list target) : Prop :=
  well_shaped targets /\
  forall i j ep, get_ep targets i j = Some ep ->
    endpoint_valid ep = true ->
    tot ep = 0 /\ cnt ep = 0 /\ idx ep = 0 /\ socket ep = 0 /\
    Z.of_nat (List.length (values ep)) = slots.

(** [socket] returns -1 or a descriptor an [fd_set] has a bit for *)
Definition descriptors_fit (E : env) : Prop :=
  forall n fam st pr, -1 <= fst (os_socket E n fam st pr) < FD_SETSIZE.

(** no target is imported from a file *)
Definition no_import (opts : list option_arg) : Prop :=
  Forall (fun o => match o with Opt_f _ => False | _ => True end) opts.

(* ------------------------------------------------------------------ *)
(** ** Scans and passes *)

(** the cells a scan [for (ep = tp->endpoints; endpoint_valid(ep); ep++)]
    visits: those before the first cell with [addrlen == 0] *)
Fixpoint scanned (eps : list endpoint) : list endpoint :=
  match eps with
  | [] => []
  | ep :: rest => if endpoint_valid ep then ep :: scanned rest else []
  end.

(** the non-zero descriptor fields of the cells the scans visit *)
Definition pending_fds (targets : list target) : list Z :=
  flat_map (fun tp => filter (fun fd => negb (fd =? 0))
                             (map socket (scanned (endpoints tp))))
           targets.

(** the bits FD_SET sets for a list of descriptors *)
Definition bits_of (fds : list Z) : list Z :=
  flat_map (fun fd => match fd_bit fd with
                      | Some b => [b]
                      | None => []
                      end) fds.

(** a vector with one endpoint that [socket] refused for its family
    (descriptor -1) and one pending on descriptor 5 *)
Definition dual_stack : list target :=
  [mkTarget "example.net" "80" 2
     [set_socket fresh_endpoint (-1); pending_endpoint; zero_endpoint]].

(** a host like [env_silent] whose [getsockopt] fails on a descriptor
    that is not open (EBADF) *)
Definition env_strict : env :=
  mkEnv (clock env_silent) (os_select env_silent)
        (fun _ fd => if fd <? 0 then None else Some 0)
        (os_socket env_silent) (os_setfl env_silent) (os_connect env_silent)
        resolve_v4.

(** an endpoint left with descriptor -1 whose start time is one second
    before the clock of [env_silent] starts *)
Definition stale_endpoint : endpoint :=
  set_tvs (set_socket fresh_endpoint (-1)) (mkTimeval 999 0).

(** the fields a pass of [update] never writes *)
Definition same_identity (ep ep' : endpoint) : Prop :=
  family ep' = family ep /\ socktype ep' = socktype ep /\
  protocol ep' = protocol ep /\ addr ep' = addr ep /\
  addrlen ep' = addrlen ep /\ tvs ep' = tvs ep.

(** the attempt of [ep] was finalized with the sample [v]: the socket is
    cleared and [v] is appended to the samples *)
Definition finalized (ep ep' : endpoint) (v : Z) : Prop :=
  same_identity ep ep' /\ socket ep' = 0 /\ idx ep' = idx ep + 1 /\
  List.length (values ep') = List.length (values ep) /\
  samples ep' = samples ep ++ [v].

(** what a pass of [update] at time [tv] with the ready set [fdset]
    does to a cell it visits *)
Definition pass_effect (G : globals) (tv : timeval) (fdset : list Z)
    (ep ep' : endpoint) : Prop :=
  let us := elapsed_us tv ep in
  if negb (socket ep =? 0) && timed_out G us then
    finalized ep ep' (to_int (to_uint (- us))) /\
    tot ep' = tot ep /\ cnt ep' = cnt ep /\ sum ep' = sum ep
  else if negb (socket ep =? 0) && FD_ISSET (socket ep) fdset then
    cnt ep' = cnt ep + 1 /\
    ((finalized ep ep' (to_int us) /\
      tot ep' = tot ep + 1 /\ sum ep' = to_uint (sum ep + us)) \/
     (finalized ep ep' (to_int (to_uint (- us))) /\
      tot ep' = tot ep /\ sum ep' = sum ep))
  else ep' = ep.

(** the same for a whole endpoint vector: the visited cells change as
    [pass_effect] says, the cells behind them stay *)
Definition vector_effect (G : globals) (tv : timeval) (fdset : list Z)
    (eps eps' : list endpoint) : Prop :=
  exists visited',
    eps' = visited' ++ skipn (List.length (scanned eps)) eps /\
    Forall2 (pass_effect G tv fdset) (scanned eps) visited'.

Definition target_effect (G : globals) (tv : timeval) (fdset : list Z)
    (tp tp' : target) : Prop :=
  host tp' = host tp /\ port tp' = port tp /\
  num_endpoints tp' = num_endpoints tp /\
  vector_effect G tv fdset (endpoints tp) (endpoints tp').

(** an operating system whose [select] and [getsockopt] never fail *)
Definition reliable (E : env) : Prop :=
  (forall n fds, os_select E n fds <> None) /\
  (forall n fd, os_getsockopt E n fd <> None).

(** a computation never ends in [Exit], and what it returns
    satisfies [Q] *)
Definition steady {A} (c : M A) (Q : A -> Prop) : Prop :=
  forall w, match c w with
            | Done (a, _) => Q a
            | Exit => False
            | _ => True
            end.

(** a timeval that [select] accepts as its bound *)
Definition valid_timeout (to : timeval) : Prop :=
  0 <= tv_sec to /\ normalized to.

(** the event is not a [select] with a bound the kernel would refuse *)
Definition select_bound_valid (ev : event) : Prop :=
  match ev with
  | EvSelect (Some to) _ => valid_timeout to
  | _ => True
  end.

(** a host like [env_ok] whose clock advances 10 ms per call and
    returns normalized timevals for ever *)
Definition env_steady : env :=
  mkEnv (fun n => mkTimeval (1000 + Z.of_nat n / 100)
                            (Z.of_nat n mod 100 * 10000))
        (os_select env_ok) (os_getsockopt env_ok)
        (os_socket env_ok) (os_setfl env_ok) (os_connect env_ok)
        resolve_v4.

(** the same host handing out the descriptors 3 to 10 only *)
Definition env_low : env :=
  mkEnv (clock env_steady) (os_select env_ok) (os_getsockopt env_ok)
        (fun n _ _ _ => (3 + Z.of_nat n mod 8, 0))
        (os_setfl env_ok) (os_connect env_ok)
        resolve_v4.

(** a whole run of three rounds on that host *)
Definition example_probe : list target * world :=
  Eval vm_compute in
    result_of (probe default_globals env_steady 10
                 (one_target fresh_endpoint) world0) [].

(* ------------------------------------------------------------------ *)
(** ** One sample per round *)

(** an operating system that creates every socket, with a positive
    descriptor, and starts every connect *)
Definition cooperative (E : env) : Prop :=
  (forall n fam st pr, 0 < fst (os_socket E n fam st pr)) /\
  (forall n, os_setfl E n <> -1) /\
  (forall n, fst (os_connect E n) <> -1 \/
             snd (os_connect E n) = EINPROGRESS).

(** an endpoint that has taken [n] samples, counting the one its
    pending attempt will take *)
Definition tight (slots n : Z) (ep : endpoint) : Prop :=
  endpoint_valid ep = true ->
  (0 <= tot ep /\ tot ep <= cnt ep /\ cnt ep <= idx ep) /\
  idx ep + pend ep = n /\
  Z.of_nat (List.length (values ep)) = slots /\
  0 <= socket ep.

(** an endpoint with [n] samples and no attempt pending *)
Definition settled (slots n : Z) (ep : endpoint) : Prop :=
  endpoint_valid ep = true ->
  (0 <= tot ep /\ tot ep <= cnt ep /\ cnt ep <= idx ep) /\
  idx ep = n /\
  Z.of_nat (List.length (values ep)) = slots /\
  socket ep = 0.

(** [ep'] stands where [ep] stood and is as far as [ep] was *)
Definition kept (slots : Z) (ep ep' : endpoint) : Prop :=
  addrlen ep' = addrlen ep /\
  (forall n, tight slots n ep -> tight slots n ep') /\
  (forall n, settled slots n ep -> settled slots n ep').

Definition target_kept (slots : Z) (tp tp' : target) : Prop :=
  num_endpoints tp' = num_endpoints tp /\
  Forall2 (kept slots) (endpoints tp) (endpoints tp').

Definition follows (slots : Z) (targets targets' : list target) : Prop :=
  Forall2 (target_kept slots) targets targets'.

(** [prepare], standing at cell [ei] of target [ti], has passed cell
    [j] of target [i] *)
Definition visited (ti ei i j : nat) : bool :=
  ((i <? ti) || ((i =? ti) && (j <? ei)))%nat.

(** during round [r]: the cells [prepare] has passed hold [r] samples or
    wait for the [r]-th, the others hold [r - 1] and have no attempt
    pending *)
Definition in_round (slots r : Z) (ti ei : nat) (targets : list target)
  : Prop :=
  forall i j ep, get_ep targets i j = Some ep ->
    if visited ti ei i j then tight slots r ep else settled slots (r - 1) ep.

Definition all_tight (slots n : Z) (targets : list target) : Prop :=
  forall i j ep, get_ep targets i j = Some ep -> tight slots n ep.

Definition all_settled (slots n : Z) (targets : list target) : Prop :=
  forall i j ep, get_ep targets i j = Some ep -> settled slots n ep.

(** the closing cell is the last cell of every vector, as [expand]
    allocates it *)
Definition closed (targets : list target) : Prop :=
  forall i j ep, get_ep targets i j = Some ep ->
    endpoint_valid ep = false -> get_ep targets i (S j) = None.

(** [prepare] does not leave at once *)
Definition probed (targets : list target) : Prop :=
  match targets with
  | tp :: _ => num_endpoints tp <> 0
  | [] => True
  end.

(** a resolver as [getaddrinfo] is specified: a successful call returns
    at least one address, and every address has a length *)
Definition resolver_ok (E : env) : Prop :=
  forall host port l, os_getaddrinfo E host port = Some l ->
    l <> [] /\ Forall (fun ai => ai_addrlen ai <> 0) l.

(** the targets one hostname contributes: one per port that resolves,
    in the order of the ports *)
Definition resolved (G : globals) (E : env) (ports : list string)
    (host : string) : list target :=
  flat_map (fun port => match expand G E host port with
                        | Some tp => [tp]
                        | None => []
                        end) ports.

(** a run of main with the options -q 2 -p 443 and one hostname *)
Definition example_main : settings * world :=
  Eval vm_compute in
    result_of (main_probe env_steady 10
                 [Opt_q "2"%string; Opt_p "443"%string]
                 ["example.net"%string] world0) initial_settings.

(** [s] does not go on with a digit *)
Definition no_digit_ahead (s : string) : Prop :=
  match s with
  | String c _ => isdigit c = false
  | EmptyString => True
  end.

(** the ranges main's option loop keeps the settings in *)
Definition settings_ok (G : globals) : Prop :=
  0 < nqueries G <= INT_MAX /\ 0 < timeout G <= INT_MAX /\
  0 <= delay G <= INT_MAX.

(** the arguments of the -p options, in the order given *)
Definition p_args (opts : list option_arg) : list string :=
  flat_map (fun o => match o with Opt_p a => [a] | _ => [] end) opts.

(** the settings after [-f hosts -p 443] *)
Definition imported_settings : settings :=
  Eval vm_compute in
    match handle_options env_ok initial_settings
            [Opt_f hosts_file; Opt_p "443"%string] with
    | Done st => st
    | _ => initial_settings
    end.

(** the calls [prepare] makes to start an attempt: [socket], the
    reading of the start time, and [close] after a failure *)
Definition connecting (ev : event) : Prop :=
  match ev with
  | EvSocket | EvTime _ | EvClose _ => True
  | _ => False
  end.

(* ------------------------------------------------------------------ *)
(** ** The report loops *)

Definition newline : string := String "010" EmptyString.

(** a hosts file with an empty line after its first line *)
Definition hosts_file_blank : option (list string) :=
  Some [String.append "example.net" newline; newline].

Section Report.

(** [getnameinfo] with NI_NUMERICHOST: the address as text, or [None]
    when it fails *)
Variable getnameinfo : endpoint -> option string.

(** the inner loop of a report over one vector of endpoints; [line]
    renders an endpoint, [None] when it reads outside [values].  An
    endpoint whose address [getnameinfo] cannot render is skipped. *)
Fixpoint report_eps (line : endpoint -> string -> option string)
    (eps : list endpoint) : outcome (list string) :=
  match eps with
  | [] => Fault
  | ep :: rest =>
      if endpoint_valid ep then
        match getnameinfo ep with
        | None => report_eps line rest
        | Some numeric =>
            match line ep numeric with
            | None => Fault
            | Some l =>
                match report_eps line rest with
                | Done ls => Done (l :: ls)
                | other => other
                end
            end
        end
      else Done []
  end.

(** [report]: what goes to standard output, one string per header and
    per line of an endpoint; every target but the first has an empty
    line before its header *)
Fixpoint report_from (first : bool) (targets : list target)
  : outcome (list string) :=
  match targets with
  | [] => Done []
  | tp :: rest =>
      let header :=
        String.append (if first then EmptyString else newline)
          (String.append (host tp)
             (String.append ":" (String.append (port tp) newline))) in
      match report_eps report_line (endpoints tp) with
      | Done ls =>
          match report_from false rest with
          | Done ls' => Done (header :: ls ++ ls')
          | other => other
          end
      | other => other
      end
  end.

Definition report (targets : list target) : outcome (list string) :=
  report_from true targets.

(** [report_sk]; [now] is the value of [time(NULL)] *)
Fixpoint report_sk (now : Z) (targets : list target)
  : outcome (list string) :=
  match targets with
  | [] => Done []
  | tp :: rest =>
      match report_eps (report_sk_line now tp) (endpoints tp) with
      | Done ls =>
          match report_sk now rest with
          | Done ls' => Done (ls ++ ls')
          | other => other
          end
      | other => other
      end
  end.

(** the endpoints of a vector that get a line *)
Definition named (eps : list endpoint) : list endpoint :=
  filter (fun ep => match getnameinfo ep with
                    | Some _ => true
                    | None => false
                    end) (scanned eps).

End Report.

(* ------------------------------------------------------------------ *)
(** ** Termination *)

(** a host on which [select] reports every descriptor it is asked
    about, and [getsockopt] does not fail *)
Definition responsive (E : env) : Prop :=
  (forall n fds, os_select E n fds = Some fds) /\
  (forall n fd, os_getsockopt E n fd <> None).

(** a clock that returns normalized timevals and advances at least [q]
    microseconds from one call into the operating system to the next *)
Definition ticking (q : Z) (E : env) : Prop :=
  0 < q /\
  (forall n, normalized (clock E n)) /\
  (forall n, usec_of (clock E n) + q <= usec_of (clock E (S n))).

(** a computation that does not turn the call counter back *)
Definition ticks {A} (c : M A) : Prop :=
  forall w a w', c w = Done (a, w') -> (tick w <= tick w')%nat.

(** a computation with no loop that can run out of fuel *)
Definition fuelless {A} (c : M A) : Prop := forall w, c w <> Fuel.

(* ------------------------------------------------------------------ *)
(** ** The sum of the successful latencies *)

(** the sum of the samples that record a success *)
Fixpoint total_latency (l : list Z) : Z :=
  match l with
  | [] => 0
  | v :: r => (if 0 <=? v then v else 0) + total_latency r
  end.

(** [sum] holds the successful latencies, in unsigned arithmetic *)
Definition sum_ok (ep : endpoint) : Prop :=
  sum ep = to_uint (total_latency (samples ep)).

(** the endpoints the scans of [update] and [generate_fdset] visit *)
Definition scanned_cells (targets : list target) : list endpoint :=
  flat_map (fun tp => scanned (endpoints tp)) targets.

(** those of them with an attempt recorded as pending *)
Definition pending_cells (targets : list target) : list endpoint :=
  filter (fun ep => negb (socket ep =? 0)) (scanned_cells targets).

(** a clock that advances at most [Q] microseconds from one call into
    the operating system to the next *)
Definition bounded_clock (Q : Z) (E : env) : Prop :=
  forall n, usec_of (clock E (S n)) <= usec_of (clock E n) + Q.

(* ------------------------------------------------------------------ *)
(** ** append: the linked list of targets *)

(** a [target_t] in memory: the target and its [next] pointer; a
    pointer is the index of a node, [None] is NULL *)
Record node : Type := mkNode {
  payload : target;
  next : option nat
}.

(** the nodes allocated so far, the global [targets] and the static
    [last_target] of [append] *)
Record chain : Type := mkChain {
  nodes : list node;
  head : option nat;
  last_target : option nat
}.

Definition empty_chain : chain := mkChain [] None None.

(** the node [expand] allocates with [xcalloc]: its [next] is NULL *)
Definition new_node (tp : target) (c : chain) : nat * chain :=
  (List.length (nodes c),
   mkChain (nodes c ++ [mkNode tp None]) (head c) (last_target c)).

(** [append(target)]; following a NULL [last_target] is a [Fault] *)
Definition append (target : option nat) (c : chain) : outcome chain :=
  match target with
  | None => Done c
  | Some p =>
      match head c with
      | None => Done (mkChain (nodes c) (Some p) (Some p))
      | Some _ =>
          match last_target c with
          | None => Fault
          | Some l =>
              match nth_error (nodes c) l with
              | None => Fault
              | Some nd =>
                  Done (mkChain
                          (replace_nth (nodes c) l
                             (mkNode (payload nd) (Some p)))
                          (head c) (Some p))
              end
          end
      end
  end.

(** [append(expand(host, port))], with the target [expand] returned or
    [None] for its NULL *)
Definition append_expanded (r : option target) (c : chain) : outcome chain :=
  match r with
  | None => append None c
  | Some tp => let '(p, c1) := new_node tp c in append (Some p) c1
  end.

(** the traversal [for (tp = targets; tp; tp = tp->next)]: the targets
    met; [None] when it follows a dangling pointer or needs more than
    [fuel] steps *)
Fixpoint walk (fuel : nat) (ns : list node) (p : option nat)
  : option (list target) :=
  match p with
  | None => Some []
  | Some i =>
      match fuel with
      | O => None
      | S fuel' =>
          match nth_error ns i with
          | None => None
          | Some nd =>
              match walk fuel' ns (next nd) with
              | Some l => Some (payload nd :: l)
              | None => None
              end
          end
      end
  end.

(** the chain holds the targets [l], linked in this order, and
    [last_target] points to the last of them *)
Definition linked (c : chain) (l : list target) : Prop :=
  List.length (nodes c) = List.length l /\
  (forall i tp, nth_error l i = Some tp ->
     nth_error (nodes c) i =
       Some (mkNode tp (if (S i <? List.length l)%nat then Some (S i)
                        else None))) /\
  head c = (if (List.length l =? 0)%nat then None else Some 0%nat) /\
  last_target c = (if (List.length l =? 0)%nat then None
                   else Some (List.length l - 1)%nat).

(* ------------------------------------------------------------------ *)
(** ** The paced pass of the scheduler *)

Section Paced.

Variable G : globals.
Variable E : env.

(** the world after [gettimeofday] has been called in [w] *)
Definition after_time (w : world) : world :=
  mkWorld (S (tick w)) (EvTime (clock E (tick w)) :: trace w).

(** the collector ran in [w] with the set [ready]: it read the clock at
    once, and every endpoint it visited is as a pass at that reading
    leaves it: finalized if its attempt has timed out or its descriptor
    is in [ready], with the time elapsed at that reading as its sample,
    and untouched otherwise *)
Definition collected (ready : list Z) (targets : list target) (w : world)
    (targets' : list target) (w' : world) : Prop :=
  Forall2 (target_effect G (clock E (tick w)) ready) targets targets' /\
  (tick w < tick w')%nat /\
  exists useg,
    trace w' = useg ++ EvTime (clock E (tick w)) :: EvUpdate :: trace w /\
    Forall quiet useg.

(** The pacing wait that began at the reading [dts], from a turn of its
    loop on.  A turn reads the clock ([dtn]).  If more than [delay] has
    passed since [dts] the wait is over.  Otherwise [select] is called
    on the descriptors of the pending attempts, to wait for what is left
    of the delay and no longer, and as soon as it returns the collector
    runs on the descriptors it reports; then the next turn begins. *)
Inductive napping (dts : timeval)
  : list target -> world -> list target -> world -> Prop :=
| napping_over targets w :
    timercmp_lt (dd G) (timersub (clock E (tick w)) dts) = true ->
    napping dts targets w targets (after_time w)
| napping_turn targets w ready wsel targets1 w1 targets' w' :
    timercmp_lt (dd G) (timersub (clock E (tick w)) dts) = false ->
    select E (1 + fold_left Z.max (pending_fds targets) (-1))
      (rev (bits_of (pending_fds targets)))
      (Some (timersub (timeradd dts (dd G)) (clock E (tick w))))
      (after_time w) = Done (Some ready, wsel) ->
    collected ready targets wsel targets1 w1 ->
    napping dts targets1 w1 targets' w' ->
    napping dts targets w targets' w'.

(** A pass of the scheduler from [targets] in [w]: a sequence of
    issuances.  Each one comes after a pacing wait which begins, with
    the reading of [dts], where the issuance before it ended (or the
    pass began), and it starts the connect of one cell of the vectors
    in the state the wait has left.  [ns] lists the calls, newest
    first, at which the attempts were issued: the calls of [socket]. *)
Inductive pacing (targets : list target) (w : world)
  : list nat -> list target -> world -> Prop :=
| pacing_start : pacing targets w [] targets w
| pacing_issue ns t1 w1 t2 w2 ti ei ep ep' w3 :
    pacing targets w ns t1 w1 ->
    napping (clock E (tick w1)) t1 (after_time w1) t2 w2 ->
    get_ep t2 ti ei = Some ep ->
    start_connect E ep w2 = Done (ep', w3) ->
    pacing targets w (tick w2 :: ns) (put_ep t2 ti ei ep') w3.

(** the calls [ns], newest first, are in order, and between two of them
    that follow each other the clock has advanced by more than
    [delay] *)
Fixpoint spaced (ns : list nat) : Prop :=
  match ns with
  | [] => True
  | n2 :: rest =>
      match rest with
      | [] => True
      | n1 :: _ =>
          (n1 < n2)%nat /\
          delay G * 1000 < usec_of (clock E n2) - usec_of (clock E n1)
      end /\ spaced rest
  end.

End Paced.

(** a clock that returns normalized timevals and never runs backwards *)
Definition monotone (E : env) : Prop :=
  (forall n, normalized (clock E n)) /\
  (forall n m, (n <= m)%nat -> usec_of (clock E n) <= usec_of (clock E m)).

(** the number of [socket] calls in a log *)
Definition sockets (l : list event) : nat :=
  List.length (filter (fun ev => match ev with
                                 | EvSocket => true
                                 | _ => false
                                 end) l).

(** a target with two endpoints *)
Definition two_endpoints : list target :=
  [mkTarget "example.net" "80" 2
     [fresh_endpoint;
      mkEndpoint 2 1 6 "192.0.2.2" 16 0 (mkTimeval 0 0) 0 0 0 0 [0; 0; 0];
      zero_endpoint]].

(** one pass of [prepare] over them, on a host whose clock advances
    10 ms per call and where every connect is through at once *)
Definition example_paced : list target * world :=
  Eval vm_compute in
    result_of (prepare default_globals env_low 10 two_endpoints world0) [].
(* ------------------------------------------------------------------ *)
(** ** The model at work *)

Example to_int_of_negated : to_int (to_uint (- 5000000)) = -5000000.
Proof. reflexivity. Qed.

Example to_int_wraps : to_int 4294967295 = -1.
Proof. reflexivity. Qed.

Example timersub_borrows :
  timersub (mkTimeval 1001 200) (mkTimeval 1000 900000) = mkTimeval 0 100200.
Proof. reflexivity. Qed.

Example strtol_stops_at_letter : strtol " -12ms" = (-12, "ms"%string).
Proof. reflexivity. Qed.

Example strtol_without_digits : strtol "ms" = (0, "ms"%string).
Proof. reflexivity. Qed.

Example parse_nqueries_rejects : parse_nqueries "3x" = None.
Proof. reflexivity. Qed.

Example trim_line :
  trim (String.append "  example.net " (String "010" "")) = Done "example.net"%string.
Proof. reflexivity. Qed.

Example cmp_orders_by_mean : cmp (measured 3000 1) (measured 8000 2) = -1.
Proof. reflexivity. Qed.

Example report_field_of_failure : report_field (-2000000) = "     *   "%string.
Proof. reflexivity. Qed.

(** three rounds against a host that accepts every connection: three
    successes of 2 ms each *)
Example main_probe_default :
  exists st w,
    main_probe env_ok 10 [] ["example.net"%string] world0 = Done (st, w) /\
    summary (targets_of st) = [[(AF_INET, 3, [2000; 2000; 2000]); (0, 0, [])]].
Proof.
  eexists. eexists. split; [vm_compute; reflexivity | reflexivity].
Qed.

(** against a host that never answers every attempt times out; the nap
    loop is cut off when it gets too little fuel *)
Example main_probe_silent :
  exists st w,
    main_probe env_silent 10 [] ["example.net"%string] world0 = Done (st, w) /\
    summary (targets_of st) =
      [[(AF_INET, 3, [-2000000; -2000000; -2000000]); (0, 0, [])]].
Proof.
  eexists. eexists. split; [vm_compute; reflexivity | reflexivity].
Qed.

Example main_probe_out_of_fuel :
  main_probe env_ok 3 [] ["example.net"%string] world0 = Fuel.
Proof. vm_compute. reflexivity. Qed.

(* ------------------------------------------------------------------ *)
(** ** Reasoning about computations *)

Lemma bind_Done {A B} (c : M A) (k : A -> M B) w r :
  bind c k w = Done r ->
  exists a w1, c w = Done (a, w1) /\ k a w1 = Done r.
Proof.
  unfold bind. destruct (c w) as [[a w1]| | |]; try discriminate.
  intros H. exists a, w1. split; [reflexivity | exact H].
Qed.

Lemma ret_Done {A} (a : A) w r : ret a w = Done r -> r = (a, w).
Proof. unfold ret. intros H. injection H as <-. reflexivity. Qed.

Tactic Notation "inv_bind" hyp(H) "as" ident(a) ident(w1) ident(H1) :=
  apply bind_Done in H; destruct H as (a & w1 & H1 & H).

Ltac inv_ret H := apply ret_Done in H; injection H as ? ?; subst.

(** turns boolean tests on [nat] in the context into propositions *)
Ltac nat_tests :=
  repeat match goal with
         | H : (_ <? _)%nat = true |- _ => apply Nat.ltb_lt in H
         | H : (_ <? _)%nat = false |- _ => apply Nat.ltb_ge in H
         | H : (_ =? _)%nat = true |- _ => apply Nat.eqb_eq in H
         | H : (_ =? _)%nat = false |- _ => apply Nat.eqb_neq in H
         end.

Lemma to_uint_small z : 0 <= z < UINT_MOD -> to_uint z = z.
Proof. intros H. unfold to_uint. apply Z.mod_small. exact H. Qed.

Lemma to_uint_range z : 0 <= to_uint z < UINT_MOD.
Proof. unfold to_uint, UINT_MOD. apply Z.mod_pos_bound. lia. Qed.

Lemma to_int_small z : 0 <= z < 2 ^ 31 -> to_int z = z.
Proof.
  intros H. unfold to_int, UINT_MOD. rewrite Z.mod_small by lia.
  destruct (z <? 2 ^ 31) eqn:Hc; [reflexivity | apply Z.ltb_ge in Hc; lia].
Qed.

Lemma to_int_neg z : 0 < z <= 2 ^ 31 -> to_int (to_uint (- z)) = - z.
Proof.
  intros H. unfold to_int, to_uint, UINT_MOD. rewrite Z.mod_mod by lia.
  replace (- z) with (2 ^ 32 - z + (-1) * 2 ^ 32) by lia.
  rewrite Z.mod_add by lia. rewrite Z.mod_small by lia.
  destruct (2 ^ 32 - z <? 2 ^ 31) eqn:Hc; [apply Z.ltb_lt in Hc; lia | lia].
Qed.

Lemma store_nat_Some l i v l' :
  store_nat l i v = Some l' ->
  (i < List.length l)%nat /\ List.length l' = List.length l /\
  firstn (S i) l' = firstn i l ++ [v].
Proof.
  revert i l'. induction l as [|x r IH]; intros i l' H; simpl in H.
  - discriminate.
  - destruct i as [|i'].
    + injection H as <-. simpl. repeat split; lia.
    + destruct (store_nat r i' v) as [r'|] eqn:Hr; [|discriminate].
      injection H as <-. destruct (IH _ _ Hr) as (Hlt & Hlen & Hfst).
      simpl. repeat split; try lia.
      change (firstn (S i') r') with (firstn (S i') r') in *.
      simpl in Hfst. rewrite Hfst. reflexivity.
Qed.

Lemma store_Done l i v w l' w' :
  store l i v w = Done (l', w') ->
  w' = w /\ 0 <= i < Z.of_nat (List.length l) /\
  List.length l' = List.length l /\
  firstn (Z.to_nat (i + 1)) l' = firstn (Z.to_nat i) l ++ [v].
Proof.
  unfold store. destruct (i <? 0) eqn:Hi; [discriminate|].
  apply Z.ltb_ge in Hi.
  destruct (store_nat l (Z.to_nat i) v) as [l1|] eqn:Hs; [|discriminate].
  intros H. inv_ret H. apply store_nat_Some in Hs.
  destruct Hs as (Hlt & Hlen & Hfst).
  replace (Z.to_nat (i + 1)) with (S (Z.to_nat i)) by lia.
  repeat split; try assumption; lia.
Qed.

Lemma count_nonneg_app l v :
  count_nonneg (l ++ [v]) = count_nonneg l + (if 0 <=? v then 1 else 0).
Proof.
  unfold count_nonneg. rewrite filter_app, length_app. simpl.
  destruct (0 <=? v); simpl; lia.
Qed.

(* ------------------------------------------------------------------ *)
(** ** The counters across one pass of [update] *)

Section UpdateInvariant.

Variable G : globals.
Variable E : env.

Lemma close_Done fd w r : close fd w = Done r -> fst r = tt.
Proof. unfold close, syscall. intros H. injection H as <-. reflexivity. Qed.

Lemma samples_after_store ep vs v w w' :
  store (values ep) (idx ep) v w = Done (vs, w') ->
  counters_ok ep ->
  forall ep', values ep' = vs -> idx ep' = to_uint (idx ep + 1) ->
  idx ep' = idx ep + 1 /\
  samples ep' = samples ep ++ [v] /\
  idx ep + 1 <= Z.of_nat (List.length (values ep)) /\
  List.length (values ep') = List.length (values ep).
Proof.
  intros Hs (H0 & H1 & H2 & H3 & H4) ep' Hv Hi.
  apply store_Done in Hs. destruct Hs as (_ & Hr & Hlen & Hfst).
  rewrite to_uint_small in Hi by lia.
  unfold samples. rewrite Hi, Hv, Hfst, Hlen. repeat split; lia.
Qed.

Lemma update_ep_invariant tv fdset ep w ep' w' :
  update_ep G E tv fdset ep w = Done (ep', w') ->
  counters_ok ep ->
  counters_ok ep' /\
  (signs_ok ep -> plausible tv ep -> signs_ok ep').
Proof.
  intros H Hok. unfold update_ep in H.
  assert (Hok' := Hok). destruct Hok' as (H0 & H1 & H2 & H3 & H4).
  destruct (negb (socket ep =? 0)) eqn:Hsock; simpl in H.
  - assert (Hne : socket ep <> 0)
      by (apply negb_true_iff in Hsock; apply Z.eqb_neq in Hsock; exact Hsock).
    destruct (timed_out G (elapsed_us tv ep)) eqn:Hto.
    + (* timed out *)
      inv_bind H as vs w1 Hst. inv_bind H as u w2 Hcl. inv_ret H.
      destruct (samples_after_store _ _ _ _ _ Hst Hok
                  (set_socket (set_idx (set_values ep vs)
                                 (to_uint (idx ep + 1))) 0)
                  eq_refl eq_refl) as (Hi & Hsm & Hle & Hlen).
      split.
      * unfold counters_ok in *. simpl in *. rewrite Hlen. lia.
      * intros Hs Hp. specialize (Hp Hne). unfold signs_ok in *.
        rewrite Hsm, count_nonneg_app, Hs.
        rewrite to_int_neg by lia.
        destruct (0 <=? - elapsed_us tv ep) eqn:Hc0;
          [apply Z.leb_le in Hc0; lia | simpl; lia].
    + destruct (in_fd_set (socket ep)); [simpl in H | discriminate H].
      destruct (FD_ISSET (socket ep) fdset) eqn:Hset.
      * inv_bind H as r w1 Hgs. destruct r as [soerror|]; [|discriminate].
        inv_bind H as ep1 w2 Hbr. inv_bind H as u w3 Hcl. inv_ret H.
        destruct (soerror =? 0) eqn:Herr.
        -- inv_bind Hbr as vs w4 Hst. inv_ret Hbr.
           destruct (samples_after_store _ _ _ _ _ Hst Hok
              (set_socket (set_idx (set_cnt (set_tot (set_sum
                 (set_values ep vs) (to_uint (sum ep + elapsed_us tv ep)))
                 (to_uint (tot ep + 1))) (to_uint (cnt ep + 1)))
                 (to_uint (idx ep + 1))) 0)
              eq_refl eq_refl) as (Hi & Hsm & Hle & Hlen).
           simpl in Hi.
           assert (Ht : to_uint (tot ep + 1) = tot ep + 1)
             by (apply to_uint_small; lia).
           assert (Hn : to_uint (cnt ep + 1) = cnt ep + 1)
             by (apply to_uint_small; lia).
           split.
           ++ unfold counters_ok. simpl in *. rewrite Ht, Hn, Hi, Hlen. lia.
           ++ intros Hs Hp. specialize (Hp Hne). unfold signs_ok in *.
              rewrite Hsm, count_nonneg_app, Hs. simpl tot. rewrite Ht.
              rewrite to_int_small by lia.
              destruct (0 <=? elapsed_us tv ep) eqn:Hc0;
                [reflexivity | apply Z.leb_gt in Hc0; lia].
        -- inv_bind Hbr as vs w4 Hst. inv_ret Hbr.
           destruct (samples_after_store _ _ _ _ _ Hst Hok
              (set_socket (set_idx (set_cnt (set_values ep vs)
                 (to_uint (cnt ep + 1))) (to_uint (idx ep + 1))) 0)
              eq_refl eq_refl) as (Hi & Hsm & Hle & Hlen).
           simpl in Hi.
           assert (Hn : to_uint (cnt ep + 1) = cnt ep + 1)
             by (apply to_uint_small; lia).
           split.
           ++ unfold counters_ok. simpl in *. rewrite Hn, Hi, Hlen. lia.
           ++ intros Hs Hp. specialize (Hp Hne). unfold signs_ok in *.
              rewrite Hsm, count_nonneg_app, Hs. simpl tot.
              rewrite to_int_neg by lia.
              destruct (0 <=? - elapsed_us tv ep) eqn:Hc0;
                [apply Z.leb_le in Hc0; lia | lia].
      * inv_ret H. split; [exact Hok | intros; assumption].
  - inv_ret H. split; [exact Hok | intros; assumption].
Qed.

End UpdateInvariant.

Section UpdatePass.

Variable G : globals.
Variable E : env.

Lemma update_eps_invariant tv fdset eps w eps' w' :
  update_eps G E tv fdset eps w = Done (eps', w') ->
  Forall counters_ok eps ->
  Forall counters_ok eps' /\
  (Forall signs_ok eps -> Forall (plausible tv) eps -> Forall signs_ok eps').
Proof.
  revert w eps' w'. induction eps as [|ep rest IH]; intros w eps' w' H Hok.
  - discriminate.
  - simpl in H. destruct (endpoint_valid ep).
    + inv_bind H as ep1 w1 Hep. inv_bind H as rest1 w2 Hrest. inv_ret H.
      inversion Hok as [|? ? Hok1 Hok2]; subst.
      destruct (update_ep_invariant G E _ _ _ _ _ _ Hep Hok1) as (Ha & Hb).
      destruct (IH _ _ _ Hrest Hok2) as (Hc & Hd).
      split.
      * constructor; assumption.
      * intros Hs Hp. inversion Hs; inversion Hp; subst.
        constructor; [apply Hb | apply Hd]; assumption.
    + inv_ret H. split; [exact Hok | intros; assumption].
Qed.

Lemma update_from_invariant tv fdset targets w targets' w' :
  update_from G E tv fdset targets w = Done (targets', w') ->
  all_eps counters_ok targets ->
  all_eps counters_ok targets' /\
  (all_eps signs_ok targets -> all_eps (plausible tv) targets ->
   all_eps signs_ok targets').
Proof.
  unfold all_eps.
  revert w targets' w'.
  induction targets as [|tp rest IH]; intros w targets' w' H Hok; simpl in H.
  - inv_ret H. split; [constructor | intros; constructor].
  - inv_bind H as eps1 w1 Heps. inv_bind H as rest1 w2 Hrest. inv_ret H.
    inversion Hok as [|? ? Hok1 Hok2]; subst.
    destruct (update_eps_invariant _ _ _ _ _ _ Heps Hok1) as (Ha & Hb).
    destruct (IH _ _ _ Hrest Hok2) as (Hc & Hd).
    split.
    + constructor; assumption.
    + intros Hs Hp. inversion Hs; inversion Hp; subst.
      constructor; [apply Hb | apply Hd]; assumption.
Qed.

Lemma update_unfold targets fdset w :
  update G E targets fdset w =
  update_from G E (clock E (tick w)) fdset targets
    (mkWorld (S (tick w)) (EvTime (clock E (tick w)) :: EvUpdate :: trace w)).
Proof. reflexivity. Qed.

(** what the time-out branch does to an endpoint *)
Lemma update_ep_timed_out tv fdset ep w ep' w' :
  update_ep G E tv fdset ep w = Done (ep', w') ->
  counters_ok ep ->
  socket ep <> 0 -> timed_out G (elapsed_us tv ep) = true ->
  idx ep' = idx ep + 1 /\ cnt ep' = cnt ep /\ tot ep' = tot ep /\
  socket ep' = 0 /\
  samples ep' = samples ep ++ [to_int (to_uint (- elapsed_us tv ep))].
Proof.
  intros H Hok Hne Hto. unfold update_ep in H.
  apply Z.eqb_neq in Hne. rewrite Hne, Hto in H. simpl in H.
  inv_bind H as vs w1 Hst. inv_bind H as u w2 Hcl. inv_ret H.
  destruct (samples_after_store _ _ _ _ _ Hst Hok
              (set_socket (set_idx (set_values ep vs)
                             (to_uint (idx ep + 1))) 0)
              eq_refl eq_refl) as (Hi & Hsm & _).
  simpl in *. repeat split; assumption.
Qed.

End UpdatePass.

(** the counters hold for an endpoint as [expand] builds it, and
    [start_connect] does not touch them *)
Lemma counters_established G ai :
  0 <= nqueries G < UINT_MOD ->
  counters_ok (endpoint_of_addrinfo G ai) /\
  signs_ok (endpoint_of_addrinfo G ai).
Proof.
  intros H. unfold counters_ok, signs_ok, samples. simpl.
  rewrite repeat_length. repeat split; try lia.
Qed.

Lemma start_connect_keeps_counters E ep w ep' w' :
  start_connect E ep w = Done (ep', w') ->
  tot ep' = tot ep /\ cnt ep' = cnt ep /\ idx ep' = idx ep /\
  values ep' = values ep.
Proof.
  intros H. unfold start_connect in H. inv_bind H as se w1 Hs.
  destruct se as [rc errno].
  destruct (socket (set_socket ep rc) <? 0).
  - destruct ((errno =? EAFNOSUPPORT) || (errno =? EPROTONOSUPPORT));
      inv_ret H; repeat split.
  - inv_bind H as rc2 w2 Hf. destruct (rc2 =? -1).
    + inv_bind H as u w3 Hc. inv_ret H. repeat split.
    + inv_bind H as ce w3 Hc. destruct ce as [rc3 errno3].
      destruct ((rc3 =? -1) && negb (errno3 =? EINPROGRESS)).
      * inv_bind H as u w4 Hcl. inv_ret H. repeat split.
      * inv_bind H as tv w4 Ht. inv_ret H. repeat split.
Qed.

(* ------------------------------------------------------------------ *)
(** ** C1: the counters after a pass of the completion collector *)

Ltac decide_all :=
  repeat first [ constructor | split | reflexivity | discriminate
               | (intro; discriminate) ].

(** C1 (as amended).  After every pass of [update] that returns, every
    endpoint satisfies [tot <= cnt <= idx <= len(values)]: the successes
    are counted in [tot], the attempts answered through [select] in
    [cnt], all samples in [idx].  The number of non-negative samples
    equals [tot] as long as every elapsed time recorded is strictly
    between 0 and 2^31 microseconds.  Finalizing an attempt as timed out
    appends the negated elapsed time, clears the socket and increments
    [idx] alone: [cnt] and [tot] stay as they were. *)
Theorem update_keeps_counters (G : globals) (E : env)
    (targets : list target) (fdset : list Z) (w : world)
    (targets' : list target) (w' : world) :
  update G E targets fdset w = Done (targets', w') ->
  all_eps counters_ok targets ->
  all_eps counters_ok targets' /\
  (all_eps signs_ok targets ->
   all_eps (plausible (clock E (tick w))) targets ->
   all_eps signs_ok targets') /\
  (forall tv ep w1 ep' w1',
     update_ep G E tv fdset ep w1 = Done (ep', w1') ->
     counters_ok ep ->
     socket ep <> 0 -> timed_out G (elapsed_us tv ep) = true ->
     idx ep' = idx ep + 1 /\ cnt ep' = cnt ep /\ tot ep' = tot ep /\
     socket ep' = 0 /\
     samples ep' = samples ep ++ [to_int (to_uint (- elapsed_us tv ep))]).
Proof.
  intros H Hok. rewrite update_unfold in H.
  destruct (update_from_invariant G E _ _ _ _ _ _ H Hok) as (Ha & Hb).
  split; [exact Ha | split; [exact Hb |]].
  intros tv ep w1 ep' w1'. apply update_ep_timed_out.
Qed.

Lemma update_keeps_counters_witness :
  all_eps counters_ok
    (one_target (set_socket
       (set_idx (set_values pending_endpoint [-5000000; 0; 0]) 1) 0)).
Proof.
  apply (update_keeps_counters default_globals env_silent
           (one_target pending_endpoint) [] (mkWorld 5 [])
           (one_target (set_socket
              (set_idx (set_values pending_endpoint [-5000000; 0; 0]) 1) 0))
           (mkWorld 7 [EvClose 5; EvTime (mkTimeval 1005 0); EvUpdate])).
  - vm_compute. reflexivity.
  - unfold all_eps, one_target. repeat constructor; vm_compute; decide_all.
Defined.

(** C1 as stated fails: an attempt that times out gets a sample but is
    not counted in [cnt], so [cnt == idx] is lost.  Besides, a
    connection refused within the microsecond in which it was started
    is recorded as the sample 0, which is not negative. *)
Lemma update_breaks_spec_invariant :
  all_eps spec_invariant (one_target pending_endpoint) /\
  update default_globals env_silent (one_target pending_endpoint) []
         (mkWorld 5 []) =
    Done (one_target (set_socket
            (set_idx (set_values pending_endpoint [-5000000; 0; 0]) 1) 0),
          mkWorld 7 [EvClose 5; EvTime (mkTimeval 1005 0); EvUpdate]) /\
  ~ all_eps spec_invariant
      (one_target (set_socket
         (set_idx (set_values pending_endpoint [-5000000; 0; 0]) 1) 0)) /\
  update default_globals env_refused (one_target pending_endpoint) [5]
         world0 =
    Done (one_target (set_socket (set_idx (set_cnt pending_endpoint 1) 1) 0),
          mkWorld 3 [EvClose 5; EvTime (mkTimeval 1000 0); EvUpdate]) /\
  count_nonneg
    (samples (set_socket (set_idx (set_cnt pending_endpoint 1) 1) 0)) = 1 /\
  tot (set_socket (set_idx (set_cnt pending_endpoint 1) 1) 0) = 0.
Proof.
  split; [| split; [| split; [| split; [| split]]]].
  - unfold all_eps, one_target, spec_invariant.
    repeat constructor; vm_compute; decide_all.
  - vm_compute. reflexivity.
  - intros H. unfold all_eps, one_target in H.
    inversion H as [|? ? H1 _]; subst. inversion H1 as [|? ? H2 _]; subst.
    destruct H2 as (_ & Heq & _). discriminate Heq.
  - vm_compute. reflexivity.
  - reflexivity.
  - reflexivity.
Qed.

(* ------------------------------------------------------------------ *)
(** ** The report renderers *)

Lemma length_replicate n c : String.length (replicate n c) = n.
Proof. induction n as [|n IH]; simpl; [reflexivity | rewrite IH; reflexivity]. Qed.

Lemma length_append (s t : string) :
  String.length (s ++ t) = (String.length s + String.length t)%nat.
Proof. induction s as [|c s IH]; simpl; [reflexivity | rewrite IH; reflexivity]. Qed.

Lemma length_pad_left width c s :
  (String.length s <= width)%nat ->
  String.length (pad_left width c s) = width.
Proof.
  intros H. unfold pad_left. rewrite length_append, length_replicate. lia.
Qed.

(** numerals below [10^k] have at most [k] digits, checked by running
    [dec] on all of them *)
Lemma dec_width_below (k : nat) (bound : Z) :
  forallb (fun n => (String.length (dec (Z.of_nat n)) <=? k)%nat)
          (seq 0 (Z.to_nat bound)) = true ->
  forall z, 0 <= z < bound -> (String.length (dec z) <= k)%nat.
Proof.
  intros Hall z Hz. rewrite forallb_forall in Hall.
  specialize (Hall (Z.to_nat z)).
  rewrite Z2Nat.id in Hall by lia. apply Nat.leb_le. apply Hall.
  apply in_seq. lia.
Qed.

Lemma dec_width_4 z : 0 <= z < 10000 -> (String.length (dec z) <= 4)%nat.
Proof.
  intros H. apply (dec_width_below 4 10000); [vm_compute; reflexivity | lia].
Qed.

Lemma dec_width_3 z : 0 <= z < 1000 -> (String.length (dec z) <= 3)%nat.
Proof.
  intros H. apply (dec_width_below 3 1000); [vm_compute; reflexivity | lia].
Qed.

Lemma read_samples_Some ep vs :
  read_samples ep = Some vs ->
  vs = samples ep /\ Z.of_nat (List.length vs) = idx ep.
Proof.
  unfold read_samples.
  destruct ((0 <=? idx ep) && (idx ep <=? Z.of_nat (List.length (values ep))))
    eqn:Hr; [|discriminate].
  intros H. injection H as <-. apply andb_true_iff in Hr.
  destruct Hr as (H0 & H1). apply Z.leb_le in H0. apply Z.leb_le in H1.
  split; [reflexivity|]. unfold samples. rewrite length_firstn. lia.
Qed.

(** C7 (as amended).  In the human report every non-negative recorded
    sample [v] (microseconds) is rendered as the field [" %4u.%03u"] of
    [v / 1000] and [v % 1000], that is whole milliseconds and the
    remaining microseconds; the field is 9 characters wide as long as
    [v] is below 10 seconds.  Every negative recorded sample is rendered
    as the 9-character marker.  The line holds one field per recorded
    sample ([idx] of them): a sample that was never recorded gets no
    field. *)
Theorem report_field_renders (v : Z) (ep : endpoint) (numeric : string) :
  (0 <= v ->
   report_field v =
     (" " ++ pad_left 4 " " (dec (v / 1000)) ++ "."
          ++ pad_left 3 "0" (dec (v mod 1000)))%string) /\
  (0 <= v < 10000000 -> String.length (report_field v) = 9%nat) /\
  (v < 0 -> report_field v = "     *   "%string) /\
  (forall line, report_line ep numeric = Some line ->
     exists fields,
       fields = map report_field (samples ep) /\
       Z.of_nat (List.length fields) = idx ep /\
       line = (" " ++ numeric
                ++ replicate (Z.to_nat (Z.abs (42 - Z.of_nat
                                (String.length (" " ++ numeric))))) " "
                ++ String.concat "" fields ++ String "010" "")%string).
Proof.
  assert (Hfield : 0 <= v ->
    report_field v =
      (" " ++ pad_left 4 " " (dec (v / 1000)) ++ "."
           ++ pad_left 3 "0" (dec (v mod 1000)))%string).
  { intros Hv. unfold report_field.
    destruct (v >=? 0) eqn:Hc; [| rewrite Z.geb_leb in Hc;
                                  apply Z.leb_gt in Hc; lia].
    rewrite Z.quot_div_nonneg by lia. rewrite Z.rem_mod_nonneg by lia.
    reflexivity. }
  split; [exact Hfield | split; [| split]].
  - intros Hv. rewrite Hfield by lia.
    assert (H4 : (String.length (dec (v / 1000)) <= 4)%nat).
    { apply dec_width_4. split.
      - apply Z.div_pos; lia.
      - apply Z.div_lt_upper_bound; lia. }
    assert (H3 : (String.length (dec (v mod 1000)) <= 3)%nat).
    { apply dec_width_3. apply Z.mod_pos_bound. lia. }
    simpl. rewrite length_append. rewrite (length_pad_left 4) by exact H4.
    simpl. rewrite (length_pad_left 3) by exact H3. reflexivity.
  - intros Hv. unfold report_field.
    destruct (v >=? 0) eqn:Hc; [| reflexivity].
    rewrite Z.geb_leb in Hc. apply Z.leb_le in Hc. lia.
  - intros line H. unfold report_line in H.
    destruct (read_samples ep) as [vs|] eqn:Hr; [|discriminate].
    injection H as <-. apply read_samples_Some in Hr.
    destruct Hr as (-> & Hlen).
    exists (map report_field (samples ep)).
    rewrite length_map. repeat split; [exact Hlen].
Qed.

Lemma report_field_renders_witness :
  String.length (report_field 1234567) = 9%nat.
Proof.
  apply (report_field_renders 1234567 fresh_endpoint "192.0.2.1"). lia.
Defined.

(** C7 as stated fails: the field shows milliseconds and microseconds,
    not seconds and milliseconds; a line has no field for a sample that
    is missing; and a sample of 10 seconds or more makes the field
    wider. *)
Lemma report_field_not_seconds :
  report_field 1234567 = " 1234.567"%string /\
  spec_report_field 1234567 = "    1.234"%string /\
  report_field 1234567 <> spec_report_field 1234567 /\
  report_line fresh_endpoint "192.0.2.1" =
    Some (" 192.0.2.1" ++ replicate 32 " " ++ String "010" "")%string /\
  report_field 12345678 = " 12345.678"%string.
Proof.
  repeat split; try (vm_compute; reflexivity).
  vm_compute. discriminate.
Qed.

(* ------------------------------------------------------------------ *)
(** ** C2: the status field of the machine-readable report *)

Section StatusField.

Variable G : globals.
Variable E : env.

(** [cnt] grows exactly when an attempt is finalized through the
    readiness branch, whatever SO_ERROR says *)
Lemma update_ep_cnt tv fdset ep w ep' w' :
  update_ep G E tv fdset ep w = Done (ep', w') ->
  counters_ok ep ->
  cnt ep' = cnt ep +
    (if negb (socket ep =? 0) && negb (timed_out G (elapsed_us tv ep))
        && FD_ISSET (socket ep) fdset
     then 1 else 0).
Proof.
  intros H Hok. unfold update_ep in H.
  destruct (negb (socket ep =? 0)) eqn:Hsock; simpl in *.
  - destruct (timed_out G (elapsed_us tv ep)) eqn:Hto; simpl.
    + inv_bind H as vs w1 Hst. inv_bind H as u w2 Hcl. inv_ret H.
      simpl. lia.
    + destruct (in_fd_set (socket ep)); [simpl in H | discriminate H].
      destruct (FD_ISSET (socket ep) fdset) eqn:Hset.
      * inv_bind H as r w1 Hgs. destruct r as [soerror|]; [|discriminate].
        inv_bind H as ep1 w2 Hbr. inv_bind H as u w3 Hcl. inv_ret H.
        destruct Hok as (H0 & H1 & H2 & H3 & H4).
        destruct (soerror =? 0);
          inv_bind Hbr as vs w4 Hst; inv_ret Hbr;
          apply store_Done in Hst; destruct Hst as (_ & Hr & _);
          simpl; apply to_uint_small; lia.
      * inv_ret H. lia.
  - inv_ret H. lia.
Qed.

End StatusField.

(** C2 (as amended).  In the machine-readable report the third field of
    an endpoint's line is "OK" if and only if [cnt] is non-zero, and
    "FAIL" otherwise.  [cnt] counts the attempts that were finalized
    through the readiness branch of [update], successful or not (a pass
    adds one to it exactly for a pending attempt that has not timed out
    and whose descriptor is ready); an endpoint with a recorded success
    therefore shows "OK", and so does one whose connections were all
    refused. *)
Theorem report_sk_status (now : Z) (tp : target) (ep : endpoint)
    (numeric : string) (fields : list string) :
  report_sk_fields now tp ep numeric = Some fields ->
  (nth_error fields 2 = Some "OK"%string <-> cnt ep <> 0) /\
  (nth_error fields 2 = Some "FAIL"%string <-> cnt ep = 0) /\
  (counters_ok ep -> 0 < tot ep -> nth_error fields 2 = Some "OK"%string) /\
  (forall G E tv fdset w ep0 w0,
     update_ep G E tv fdset ep0 w0 = Done (ep, w) ->
     counters_ok ep0 ->
     cnt ep = cnt ep0 +
       (if negb (socket ep0 =? 0) && negb (timed_out G (elapsed_us tv ep0))
           && FD_ISSET (socket ep0) fdset
        then 1 else 0)).
Proof.
  intros H. unfold report_sk_fields in H.
  destruct (read_samples ep) as [vs|]; [|discriminate].
  injection H as <-. simpl.
  destruct (cnt ep =? 0) eqn:Hc; simpl.
  - apply Z.eqb_eq in Hc. repeat split; try (intros; congruence).
    + intros Hok Ht. destruct Hok as (_ & H1 & _). lia.
    + intros. eapply update_ep_cnt; eassumption.
  - apply Z.eqb_neq in Hc. repeat split; try (intros; congruence).
    intros. eapply update_ep_cnt; eassumption.
Qed.

Lemma report_sk_status_witness :
  nth_error ["HAPPY.0"; "1700000000"; "OK"; "example.net"; "80";
             "192.0.2.1"; "-1000"]%string 2 = Some "OK"%string <->
  cnt refused_endpoint <> 0.
Proof.
  apply (report_sk_status 1700000000
           (mkTarget "example.net" "80" 1 [refused_endpoint; zero_endpoint])
           refused_endpoint "192.0.2.1").
  vm_compute. reflexivity.
Defined.

(** C2 as stated fails: an endpoint whose only attempt was refused has
    no successful sample, and its line says "OK". *)
Lemma report_sk_ok_without_success :
  update default_globals env_refused (one_target pending_endpoint) [5]
         (mkWorld 1 []) =
    Done (one_target refused_endpoint,
          mkWorld 4 [EvClose 5; EvTime (mkTimeval 1000 1000); EvUpdate]) /\
  report_sk_line 1700000000
    (mkTarget "example.net" "80" 1 [refused_endpoint; zero_endpoint])
    refused_endpoint "192.0.2.1" =
    Some ("HAPPY.0;1700000000;OK;example.net;80;192.0.2.1;-1000"
            ++ String "010" "")%string /\
  tot refused_endpoint = 0 /\
  samples refused_endpoint = [-1000] /\
  spec_status refused_endpoint = "FAIL"%string.
Proof.
  repeat split; vm_compute; reflexivity.
Qed.

(* ------------------------------------------------------------------ *)
(** ** C5: the argument of -t *)

Lemma to_int_range z : INT_MIN <= to_int z <= INT_MAX.
Proof.
  unfold to_int, INT_MIN, INT_MAX, UINT_MOD.
  assert (H := Z.mod_pos_bound z (2 ^ 32) ltac:(lia)).
  destruct (z mod 2 ^ 32 <? 2 ^ 31) eqn:Hc.
  - apply Z.ltb_lt in Hc. lia.
  - apply Z.ltb_ge in Hc. lia.
Qed.

Lemma digit_char_facts d :
  (d < 10)%nat ->
  isdigit (digit_char d) = true /\ isspace (digit_char d) = false /\
  digit_value (digit_char d) = Z.of_nat d /\
  digit_char d <> "-"%char /\ digit_char d <> "+"%char.
Proof.
  intros H.
  do 10 (destruct d as [|d];
         [repeat split; try reflexivity; intro; discriminate|]).
  lia.
Qed.

Lemma read_digits_cons c r acc any :
  read_digits (String c r) acc any =
  if isdigit c then read_digits r (acc * 10 + digit_value c) true
  else (acc, any, String c r).
Proof. reflexivity. Qed.

Lemma skip_spaces_cons c r :
  skip_spaces (String c r) = if isspace c then skip_spaces r else String c r.
Proof. reflexivity. Qed.

Lemma numeral_cons d r : numeral (d :: r) = String (digit_char d) (numeral r).
Proof. reflexivity. Qed.

Lemma numeral_value_cons d r acc :
  numeral_value (d :: r) acc = numeral_value r (acc * 10 + Z.of_nat d).
Proof. reflexivity. Qed.

Lemma read_digits_numeral ds acc any :
  Forall (fun d => (d < 10)%nat) ds ->
  read_digits (numeral ds) acc any =
    (numeral_value ds acc,
     match ds with [] => any | _ => true end, EmptyString).
Proof.
  intros Hds. revert acc any.
  induction Hds as [|d r Hd Hr IH]; intros acc any.
  - reflexivity.
  - destruct (digit_char_facts d Hd) as (Hdig & _ & Hval & _).
    rewrite numeral_cons, read_digits_cons, Hdig, Hval, IH.
    rewrite numeral_value_cons. destruct r; reflexivity.
Qed.

Lemma numeral_value_nonneg ds acc :
  0 <= acc -> 0 <= numeral_value ds acc.
Proof.
  revert acc. induction ds as [|d r IH]; intros acc H.
  - exact H.
  - rewrite numeral_value_cons. apply IH. lia.
Qed.

Lemma sign_of_digit d (r : string) :
  (d < 10)%nat ->
  match String (digit_char d) r with
  | String "-" r0 => (true, r0)
  | String "+" r0 => (false, r0)
  | _ => (false, String (digit_char d) r)
  end = (false, String (digit_char d) r).
Proof.
  intros H. do 10 (destruct d as [|d]; [reflexivity|]). lia.
Qed.

Lemma strtol_numeral ds :
  ds <> [] -> Forall (fun d => (d < 10)%nat) ds ->
  strtol (numeral ds) = (Z.min (numeral_value ds 0) LONG_MAX, EmptyString).
Proof.
  intros Hne Hds. destruct ds as [|d r]; [congruence|].
  inversion Hds as [|? ? Hd Hr]; subst.
  destruct (digit_char_facts d Hd) as (Hdig & Hsp & Hval & Hm & Hp).
  unfold strtol. rewrite numeral_cons, skip_spaces_cons, Hsp.
  rewrite (sign_of_digit d (numeral r) Hd).
  rewrite <- numeral_cons.
  rewrite read_digits_numeral by exact Hds. reflexivity.
Qed.

(** C5 (as amended).  The argument of -t is accepted exactly when
    [strtol] consumes it entirely and the value, as an [int], is
    strictly positive; main then stores it in [timeout].  A decimal
    numeral for an integer between 1 and INT_MAX is accepted with that
    value; a numeral for 0 is rejected (main exits with failure
    status), so the option cannot switch the time-out off. *)
Theorem parse_timeout_accepts (ds : list nat) :
  ds <> [] -> Forall (fun d => (d < 10)%nat) ds ->
  (0 < numeral_value ds 0 <= INT_MAX ->
   parse_timeout (numeral ds) = Some (numeral_value ds 0)) /\
  (numeral_value ds 0 = 0 -> parse_timeout (numeral ds) = None) /\
  (forall optarg num,
     parse_timeout optarg = Some num <->
     num = to_int (fst (strtol optarg)) /\ 0 < num /\
     snd (strtol optarg) = EmptyString).
Proof.
  intros Hne Hds. repeat split.
  - intros Hn. unfold parse_timeout. rewrite strtol_numeral by assumption.
    unfold INT_MAX, LONG_MAX in *.
    rewrite Z.min_l by lia. rewrite to_int_small by lia.
    destruct (numeral_value ds 0 >? 0) eqn:Hc; [reflexivity|].
    rewrite Z.gtb_ltb in Hc. apply Z.ltb_ge in Hc. lia.
  - intros Hn. unfold parse_timeout. rewrite strtol_numeral by assumption.
    rewrite Hn. reflexivity.
  - unfold parse_timeout in H. destruct (strtol optarg) as [v endptr].
    destruct ((to_int v >? 0) && String.eqb endptr EmptyString);
      [injection H as <-; reflexivity | discriminate].
  - unfold parse_timeout in H. destruct (strtol optarg) as [v endptr].
    destruct (to_int v >? 0) eqn:Hc; simpl in H; [|discriminate].
    destruct (String.eqb endptr EmptyString); [|discriminate].
    injection H as <-. rewrite Z.gtb_ltb in Hc. apply Z.ltb_lt in Hc.
    exact Hc.
  - unfold parse_timeout in H. destruct (strtol optarg) as [v endptr].
    destruct (to_int v >? 0); simpl in H; [|discriminate].
    destruct (String.eqb endptr EmptyString) eqn:He; [|discriminate].
    apply String.eqb_eq in He. exact He.
  - intros (Hnum & Hpos & Hend). unfold parse_timeout.
    destruct (strtol optarg) as [v endptr]. simpl in *. subst.
    destruct (to_int v >? 0) eqn:Hc.
    + reflexivity.
    + rewrite Z.gtb_ltb in Hc. apply Z.ltb_ge in Hc. lia.
Qed.

Lemma parse_timeout_accepts_witness :
  parse_timeout "2500" = Some 2500.
Proof.
  refine (proj1 (parse_timeout_accepts [2; 5; 0; 0]%nat _ _) _).
  - discriminate.
  - repeat constructor.
  - vm_compute. split; [reflexivity | discriminate].
Defined.

(** C5 as stated fails: "0" is a non-negative integer, and -t rejects
    it, where -d takes it.  In the other direction, the conversion of
    the [long] that [strtol] returns to [int] lets a negative integer
    pass as 1. *)
Lemma parse_timeout_rejects_zero :
  parse_timeout "0" = None /\ parse_delay "0" = Some 0 /\
  parse_timeout "-4294967295" = Some 1.
Proof. repeat split; vm_compute; reflexivity. Qed.

(* ------------------------------------------------------------------ *)
(** ** C9: trim *)

Lemma isspace_not_nul c : isspace c = true -> is_nul c = false.
Proof.
  intros H. unfold is_nul. destruct (Ascii.eqb c NUL) eqn:He; [|reflexivity].
  apply Ascii.eqb_eq in He. subst. discriminate H.
Qed.

Lemma load_app_middle pre c rest :
  load (pre ++ c :: rest) (Z.of_nat (List.length pre)) = Some c.
Proof.
  unfold load. destruct (Z.of_nat (List.length pre) <? 0) eqn:Hc;
    [apply Z.ltb_lt in Hc; lia|].
  rewrite Nat2Z.id. rewrite nth_error_app2 by lia.
  rewrite Nat.sub_diag. reflexivity.
Qed.

Lemma replace_nth_app_middle {A} (pre : list A) c rest v :
  replace_nth (pre ++ c :: rest) (List.length pre) v = pre ++ v :: rest.
Proof.
  induction pre as [|x pre IH]; simpl; [reflexivity | rewrite IH; reflexivity].
Qed.

Lemma strlen_nul_free cs rest :
  nul_free cs -> strlen (cs ++ NUL :: rest) = List.length cs.
Proof.
  intros H. induction H as [|c r Hc Hr IH]; simpl.
  - reflexivity.
  - rewrite Hc, IH. reflexivity.
Qed.

Lemma until_nul_nul_free cs rest :
  nul_free cs -> until_nul (cs ++ NUL :: rest) = cs.
Proof.
  intros H. induction H as [|c r Hc Hr IH]; simpl.
  - reflexivity.
  - rewrite Hc, IH. reflexivity.
Qed.

Lemma trim_tail_zero b : trim_tail b 0 = Fault.
Proof. destruct b; reflexivity. Qed.

Lemma trim_tail_step pre c rest :
  trim_tail (pre ++ c :: rest) (S (List.length pre)) =
  if isspace c then trim_tail (pre ++ NUL :: rest) (List.length pre)
  else Done (pre ++ c :: rest, S (List.length pre)).
Proof.
  assert (H := load_app_middle pre c rest).
  unfold trim_tail; fold trim_tail.
  replace (Z.of_nat (S (List.length pre)) - 1)
    with (Z.of_nat (List.length pre)) by lia.
  rewrite H, replace_nth_app_middle. reflexivity.
Qed.

(** the first loop eats a run of white space at the end *)
Lemma trim_tail_spaces ws : forall pre rest,
  spaces ws ->
  trim_tail (pre ++ ws ++ rest) (List.length pre + List.length ws) =
  trim_tail (pre ++ repeat NUL (List.length ws) ++ rest) (List.length pre).
Proof.
  induction ws as [|x ws IH] using rev_ind; intros pre rest Hws.
  - simpl. rewrite Nat.add_0_r. reflexivity.
  - apply Forall_app in Hws. destruct Hws as (Hws & Hx).
    inversion Hx as [|? ? Hsp _]; subst.
    rewrite length_app. simpl List.length.
    replace (List.length pre + (List.length ws + 1))%nat
      with (S (List.length (pre ++ ws))) by (rewrite length_app; lia).
    replace (pre ++ (ws ++ [x]) ++ rest) with ((pre ++ ws) ++ x :: rest)
      by (rewrite <- !app_assoc; reflexivity).
    rewrite trim_tail_step, Hsp.
    rewrite <- app_assoc, length_app, IH by exact Hws.
    replace (List.length ws + 1)%nat with (S (List.length ws)) by lia.
    simpl repeat. rewrite repeat_cons, <- app_assoc. reflexivity.
Qed.

(** the second loop skips a run of white space at the front *)
Lemma trim_head_spaces ws : forall done rest l,
  spaces ws -> (List.length ws <= l)%nat ->
  trim_head (done ++ ws ++ rest) (List.length done) l =
  trim_head (done ++ ws ++ rest) (List.length done + List.length ws)
            (l - List.length ws).
Proof.
  induction ws as [|x ws IH]; intros done rest l Hws Hl.
  - simpl. rewrite Nat.add_0_r, Nat.sub_0_r. reflexivity.
  - inversion Hws as [|? ? Hsp Hws']; subst. simpl in Hl.
    destruct l as [|l]; [lia|].
    unfold trim_head at 1; fold trim_head.
    simpl app. rewrite load_app_middle.
    rewrite (isspace_not_nul _ Hsp), Hsp. simpl negb. simpl andb.
    replace (done ++ x :: ws ++ rest) with ((done ++ [x]) ++ ws ++ rest)
      by (rewrite <- app_assoc; reflexivity).
    replace (S (List.length done)) with (List.length (done ++ [x]))
      by (rewrite length_app; simpl; lia).
    rewrite IH by (try assumption; lia).
    rewrite length_app. simpl List.length.
    f_equal; lia.
Qed.

Lemma trim_head_stop done c rest l :
  isspace c = false ->
  trim_head (done ++ c :: rest) (List.length done) l = Done (List.length done).
Proof.
  intros Hc. destruct l; simpl; rewrite load_app_middle, Hc;
    rewrite andb_false_r; reflexivity.
Qed.

Lemma drop_spaces_split l :
  exists ws, spaces ws /\ l = ws ++ drop_spaces l /\
             (drop_spaces l = [] \/
              exists c r, drop_spaces l = c :: r /\ isspace c = false).
Proof.
  induction l as [|c r IH]; simpl.
  - exists []. repeat split; [constructor | left; reflexivity].
  - destruct (isspace c) eqn:Hc.
    + destruct IH as (ws & Hws & Heq & Hcase).
      exists (c :: ws). repeat split.
      * constructor; assumption.
      * simpl. f_equal. exact Heq.
      * exact Hcase.
    + exists []. repeat split; [constructor |].
      right. exists c, r. split; [reflexivity | exact Hc].
Qed.

Lemma forallb_spaces l : forallb isspace l = true <-> spaces l.
Proof.
  unfold spaces. rewrite forallb_forall, Forall_forall. reflexivity.
Qed.

Lemma drop_spaces_nil l : drop_spaces l = [] <-> spaces l.
Proof.
  split.
  - intros H. destruct (drop_spaces_split l) as (ws & Hws & Heq & _).
    rewrite H, app_nil_r in Heq. subst. exact Hws.
  - intros H. induction H as [|c r Hc Hr IH]; simpl;
      [reflexivity | rewrite Hc; exact IH].
Qed.

Lemma repeat_nul_then_nul n :
  exists rest, repeat NUL n ++ [NUL] = NUL :: rest.
Proof. destruct n; simpl; eauto. Qed.

Lemma trim_all_spaces cs :
  spaces cs -> nul_free cs ->
  trim_tail (cs ++ [NUL]) (strlen (cs ++ [NUL])) = Fault.
Proof.
  intros Hsp Hnn. rewrite strlen_nul_free by exact Hnn.
  change (cs ++ [NUL]) with ([] ++ cs ++ [NUL]).
  change (List.length cs) with (List.length (@nil ascii) + List.length cs)%nat.
  rewrite trim_tail_spaces by exact Hsp. apply trim_tail_zero.
Qed.

(** a string with a character that is not white space: leading white
    space, a core that ends in such a character, trailing white space *)
Lemma split_core cs :
  ~ spaces cs ->
  exists lead c0 r0 core' c tail,
    spaces lead /\ spaces tail /\
    isspace c0 = false /\ isspace c = false /\
    cs = lead ++ (core' ++ [c]) ++ tail /\
    (core' ++ [c]) ++ tail = c0 :: r0 /\
    rev (drop_spaces (rev (drop_spaces cs))) = core' ++ [c].
Proof.
  intros Hns.
  destruct (drop_spaces_split cs) as (lead & Hlead & Hcs & Hcase).
  destruct Hcase as [Hnil | (c0 & r0 & Hrest & Hc0)].
  { exfalso. apply Hns. apply drop_spaces_nil. exact Hnil. }
  destruct (drop_spaces_split (rev (drop_spaces cs)))
    as (ws2 & Hws2 & Hrev & Hcase2).
  destruct Hcase2 as [Hnil | (c & r & Hd & Hc)].
  { exfalso. apply drop_spaces_nil in Hnil.
    assert (Hin : In c0 (rev (drop_spaces cs)))
      by (apply in_rev; rewrite rev_involutive, Hrest; left; reflexivity).
    unfold spaces in Hnil. rewrite Forall_forall in Hnil.
    specialize (Hnil _ Hin). congruence. }
  exists lead, c0, r0, (rev r), c, (rev ws2).
  assert (Heq : drop_spaces cs = (rev r ++ [c]) ++ rev ws2).
  { rewrite <- (rev_involutive (drop_spaces cs)), Hrev, Hd.
    rewrite rev_app_distr. reflexivity. }
  repeat split.
  - exact Hlead.
  - unfold spaces in *. apply Forall_rev. exact Hws2.
  - exact Hc0.
  - exact Hc.
  - rewrite <- Heq. exact Hcs.
  - rewrite <- Heq. exact Hrest.
  - rewrite Hd. reflexivity.
Qed.

Lemma trim_core lead core' c tail c0 r0 :
  spaces lead -> spaces tail -> isspace c0 = false -> isspace c = false ->
  (core' ++ [c]) ++ tail = c0 :: r0 ->
  nul_free (lead ++ (core' ++ [c]) ++ tail) ->
  trim (string_of_list_ascii (lead ++ (core' ++ [c]) ++ tail)) =
  Done (string_of_list_ascii (core' ++ [c])).
Proof.
  intros Hlead Htail Hc0 Hc Hfirst Hnn.
  unfold trim, c_string. rewrite list_ascii_of_string_of_list_ascii.
  rewrite strlen_nul_free by exact Hnn.
  (* first loop *)
  replace ((lead ++ (core' ++ [c]) ++ tail) ++ [NUL])
    with ((lead ++ core' ++ [c]) ++ tail ++ [NUL])
    by (rewrite <- !app_assoc; reflexivity).
  replace (List.length (lead ++ (core' ++ [c]) ++ tail))
    with (List.length (lead ++ core' ++ [c]) + List.length tail)%nat
    by (rewrite !length_app; simpl; lia).
  rewrite trim_tail_spaces by exact Htail.
  replace ((lead ++ core' ++ [c]) ++ repeat NUL (List.length tail) ++ [NUL])
    with ((lead ++ core') ++ c :: repeat NUL (List.length tail) ++ [NUL])
    by (rewrite <- !app_assoc; reflexivity).
  replace (List.length (lead ++ core' ++ [c]))
    with (S (List.length (lead ++ core')))
    by (rewrite !length_app; simpl; lia).
  rewrite trim_tail_step, Hc.
  (* second loop *)
  assert (Hb : (lead ++ core') ++ c :: repeat NUL (List.length tail) ++ [NUL]
               = [] ++ lead ++
                 c0 :: skipn 1 ((core' ++ [c]) ++
                                repeat NUL (List.length tail) ++ [NUL])).
  { simpl. rewrite <- app_assoc. f_equal.
    destruct core' as [|k core'']; simpl in *.
    - injection Hfirst as -> _. reflexivity.
    - injection Hfirst as -> _. rewrite <- app_assoc. reflexivity. }
  rewrite Hb at 1.
  change (trim_head ?b 0 ?l) with (trim_head b (List.length (@nil ascii)) l).
  rewrite trim_head_spaces
    by (try exact Hlead; rewrite length_app; lia).
  simpl List.length. simpl app.
  rewrite (trim_head_stop lead c0 _ _ Hc0).
  (* the string returned *)
  unfold string_at.
  replace ((lead ++ core') ++ c :: repeat NUL (List.length tail) ++ [NUL])
    with (lead ++ (core' ++ [c]) ++ repeat NUL (List.length tail) ++ [NUL])
    by (rewrite <- !app_assoc; reflexivity).
  rewrite skipn_app, skipn_all, Nat.sub_diag. simpl skipn. simpl app.
  destruct (repeat_nul_then_nul (List.length tail)) as (rest & ->).
  rewrite until_nul_nul_free; [reflexivity|].
  unfold nul_free in *. apply Forall_app in Hnn. destruct Hnn as (_ & Hnn).
  apply Forall_app in Hnn. destruct Hnn as (Hnn & _). exact Hnn.
Qed.

(** What [trim] does on every string without embedded NUL.  It returns
    the string without its leading and trailing white space exactly
    when the string has a character that is not white space.  For every
    other string, the empty one and also every string made of white
    space only (a blank line), the first loop ends up evaluating
    [isspace(p[l-1])] with [l] equal to 0, before the guard on [l], and
    reads the byte before the buffer. *)
Theorem trim_precondition (s : string) :
  no_nul s ->
  (trim s = Fault <-> all_spaces s = true) /\
  (all_spaces s = false -> trim s = Done (strip s)).
Proof.
  intros Hnn. unfold no_nul in Hnn.
  assert (Hgood : all_spaces s = false -> trim s = Done (strip s)).
  { intros Hsp. unfold all_spaces in Hsp.
    assert (Hns : ~ spaces (list_ascii_of_string s)).
    { intros H. apply forallb_spaces in H. congruence. }
    destruct (split_core _ Hns)
      as (lead & c0 & r0 & core' & c & tail & Hlead & Htail & Hc0 & Hc
          & Hcs & Hfirst & Hstrip).
    unfold strip. rewrite Hstrip.
    rewrite <- (string_of_list_ascii_of_string s), Hcs.
    rewrite Hcs in Hnn. apply (trim_core lead core' c tail c0 r0); assumption. }
  split; [| exact Hgood].
  split.
  - intros Hf. destruct (all_spaces s) eqn:Hsp; [reflexivity|].
    rewrite (Hgood eq_refl) in Hf. discriminate Hf.
  - intros Hsp. apply forallb_spaces in Hsp.
    unfold trim, c_string. rewrite trim_all_spaces by assumption.
    reflexivity.
Qed.

Lemma trim_precondition_witness :
  trim " example.net " = Done (strip " example.net ").
Proof.
  refine (proj2 (trim_precondition " example.net " _) _).
  - unfold no_nul, nul_free. simpl. repeat constructor.
  - reflexivity.
Defined.

(** C9 (the code departs from it).  A string of length 1 or more is
    not enough for [trim] to stay inside its buffer.  A blank line has
    length 1; the first loop clears its newline, comes to [l = 0] and
    evaluates [isspace(p[l-1])] before the guard [&& l] that should
    have stopped it: it reads the byte before the buffer, as it does on
    the empty string.  [import] hands every line of a hosts file to
    [trim], so a file with an empty line takes main there, although
    the [if ( *host)] that follows is meant to skip such a line. *)
Theorem trim_blank_line_faults :
  String.length newline = 1%nat /\
  no_nul newline /\
  trim newline = Fault /\
  trim "" = Fault /\
  import env_ok default_globals ["80"%string] hosts_file_blank [] = Fault /\
  main_probe env_ok 10 [Opt_f hosts_file_blank] [] world0 = Fault /\
  (exists st w,
     main_probe env_ok 10 [Opt_f hosts_file] [] world0 = Done (st, w)).
Proof.
  split; [reflexivity |].
  split; [unfold no_nul, nul_free; simpl; repeat constructor; discriminate |].
  split; [reflexivity |]. split; [reflexivity |].
  split; [vm_compute; reflexivity |]. split; [vm_compute; reflexivity |].
  eexists. eexists. vm_compute. reflexivity.
Qed.

(* ------------------------------------------------------------------ *)
(** ** C6: the ranker *)

Lemma cmp_no_data a b : tot a = 0 \/ tot b = 0 -> cmp a b = 0.
Proof.
  intros [H | H]; unfold cmp; rewrite H; simpl.
  - reflexivity.
  - rewrite orb_true_r. reflexivity.
Qed.

Lemma cmp_with_data a b :
  tot a <> 0 -> tot b <> 0 ->
  (cmp a b < 0 <-> sum a / tot a < sum b / tot b) /\
  (cmp a b = 0 <-> sum a / tot a = sum b / tot b) /\
  (cmp a b > 0 <-> sum a / tot a > sum b / tot b).
Proof.
  intros Ha Hb. unfold cmp.
  apply Z.eqb_neq in Ha. apply Z.eqb_neq in Hb. rewrite Ha, Hb. simpl.
  destruct (sum a / tot a <? sum b / tot b) eqn:Hlt.
  - apply Z.ltb_lt in Hlt. lia.
  - apply Z.ltb_ge in Hlt.
    destruct (sum a / tot a >? sum b / tot b) eqn:Hgt.
    + rewrite Z.gtb_ltb in Hgt. apply Z.ltb_lt in Hgt. lia.
    + rewrite Z.gtb_ltb in Hgt. apply Z.ltb_ge in Hgt. lia.
Qed.

Lemma cmp_consistent l :
  Forall (fun ep => tot ep <> 0) l -> consistent cmp l.
Proof.
  intros Hall. rewrite Forall_forall in Hall. split.
  - intros a b Ha Hb.
    destruct (cmp_with_data a b (Hall a Ha) (Hall b Hb)) as (H1 & H2 & H3).
    destruct (cmp_with_data b a (Hall b Hb) (Hall a Ha)) as (H4 & H5 & H6).
    split; lia.
  - intros a b d Ha Hb Hd Hab Hbd.
    destruct (cmp_with_data a b (Hall a Ha) (Hall b Hb)) as (H1 & H2 & H3).
    destruct (cmp_with_data b d (Hall b Hb) (Hall d Hd)) as (H4 & H5 & H6).
    destruct (cmp_with_data a d (Hall a Ha) (Hall d Hd)) as (H7 & H8 & H9).
    lia.
Qed.

#[local] Instance mean_le_trans : RelationClasses.Transitive mean_le.
Proof. intros a b c. unfold mean_le. lia. Qed.

Lemma Sorted_weaken {A} (R R' : A -> A -> Prop) (P : A -> Prop) l :
  (forall a b, P a -> P b -> R a b -> R' a b) ->
  Forall P l -> Sorted R l -> Sorted R' l.
Proof.
  intros HR HP HS. induction HS as [|a l HS IH Hhd].
  - constructor.
  - inversion HP as [|? ? Pa Pl]; subst. constructor.
    + apply IH. exact Pl.
    + destruct Hhd as [|b l' Hab]; constructor.
      inversion Pl; subst. apply HR; assumption.
Qed.

Lemma forallb_has_data l :
  forallb has_data l = true <-> Forall (fun ep => tot ep <> 0) l.
Proof.
  rewrite forallb_forall, Forall_forall. unfold has_data.
  split; intros H ep Hin; specialize (H ep Hin).
  - apply negb_true_iff in H. apply Z.eqb_neq in H. exact H.
  - apply negb_true_iff. apply Z.eqb_neq. exact H.
Qed.

Lemma ranked_sort_target qsort tp :
  List.length (qsort cmp (ranked tp)) = List.length (ranked tp) ->
  (Z.to_nat (num_endpoints tp) <= List.length (endpoints tp))%nat ->
  ranked (sort_target qsort tp) = qsort cmp (ranked tp).
Proof.
  intros Hlen Hn. unfold ranked at 1, sort_target. simpl.
  fold (ranked tp). rewrite firstn_app.
  assert (Hr : List.length (ranked tp) = Z.to_nat (num_endpoints tp))
    by (unfold ranked; rewrite length_firstn; lia).
  rewrite Hlen, Hr, Nat.sub_diag. simpl. rewrite app_nil_r.
  apply firstn_all2. lia.
Qed.

Lemma insert_sorted_perm c x l : Permutation (x :: l) (insert_sorted c x l).
Proof.
  induction l as [|y r IH]; simpl.
  - apply Permutation_refl.
  - destruct (c x y <=? 0).
    + apply Permutation_refl.
    + eapply perm_trans; [apply perm_swap | apply perm_skip; exact IH].
Qed.

Lemma insertion_sort_perm c l : Permutation l (insertion_sort c l).
Proof.
  induction l as [|x r IH]; simpl.
  - apply perm_nil.
  - eapply perm_trans; [apply perm_skip; exact IH | apply insert_sorted_perm].
Qed.

Lemma insert_sorted_sorted c x l :
  (forall y, In y l -> c x y > 0 -> c y x <= 0) ->
  Sorted (fun a b => c a b <= 0) l ->
  Sorted (fun a b => c a b <= 0) (insert_sorted c x l).
Proof.
  intros Hanti HS. induction HS as [|y r HS IH Hhd]; simpl.
  - repeat constructor.
  - destruct (c x y <=? 0) eqn:Hc.
    + apply Z.leb_le in Hc. repeat constructor; assumption.
    + apply Z.leb_gt in Hc. constructor.
      * apply IH. intros z Hz. apply Hanti. right. exact Hz.
      * destruct Hhd as [|z r' Hyz]; simpl.
        -- constructor. apply Hanti; [left; reflexivity | lia].
        -- destruct (c x z <=? 0); constructor;
             [apply Hanti; [left; reflexivity | lia] | exact Hyz].
Qed.

Lemma insertion_sort_sorted c l :
  consistent c l -> Sorted (fun a b => c a b <= 0) (insertion_sort c l).
Proof.
  intros (Hanti & _). induction l as [|x r IH]; simpl.
  - constructor.
  - apply insert_sorted_sorted.
    + intros y Hy Hxy.
      assert (Hin : In y r).
      { apply (Permutation_in y (Permutation_sym (insertion_sort_perm c r))).
        exact Hy. }
      destruct (Hanti y x (or_intror Hin) (or_introl eq_refl)) as (H1 & _).
      lia.
    + apply IH. intros a b Ha Hb. apply Hanti; right; assumption.
Qed.

Lemma insertion_sort_contract : qsort_contract insertion_sort.
Proof.
  intros c l Hc. split;
    [apply insertion_sort_perm | apply insertion_sort_sorted; exact Hc].
Qed.

(** C6 (as amended).  With a [qsort] that meets the contract of the C
    standard, for every target all of whose endpoints have [tot > 0] the
    ranker leaves the same endpoints in an order that is non-decreasing
    in [sum / tot], the mean successful latency truncated to whole
    microseconds.  An endpoint with [tot == 0] compares equal to every
    endpoint ([cmp] returns 0).  Nothing is promised about the order of
    a target that has such an endpoint: [cmp] is then not a consistent
    ordering. *)
Theorem sort_ranks_measured_targets
    (qsort : (endpoint -> endpoint -> Z) -> list endpoint -> list endpoint)
    (tp : target) :
  qsort_contract qsort ->
  (Z.to_nat (num_endpoints tp) <= List.length (endpoints tp))%nat ->
  forallb has_data (ranked tp) = true ->
  Permutation (ranked tp) (ranked (sort_target qsort tp)) /\
  StronglySorted mean_le (ranked (sort_target qsort tp)) /\
  skipn (Z.to_nat (num_endpoints tp)) (endpoints (sort_target qsort tp)) =
    skipn (Z.to_nat (num_endpoints tp)) (endpoints tp) /\
  (forall a b, tot a = 0 \/ tot b = 0 -> cmp a b = 0).
Proof.
  intros Hq Hn Hdata. apply forallb_has_data in Hdata.
  destruct (Hq cmp (ranked tp) (cmp_consistent _ Hdata)) as (Hperm & Hsorted).
  assert (Hlen : List.length (qsort cmp (ranked tp)) = List.length (ranked tp))
    by (symmetry; apply Permutation_length; exact Hperm).
  rewrite (ranked_sort_target qsort tp Hlen Hn).
  split; [exact Hperm | split; [| split]].
  - apply Sorted_StronglySorted; [exact mean_le_trans |].
    apply (Sorted_weaken (fun a b => cmp a b <= 0) mean_le
                         (fun ep => tot ep <> 0)).
    + intros a b Ha Hb Hab. unfold mean_le.
      destruct (cmp_with_data a b Ha Hb) as (H1 & H2 & H3). lia.
    + rewrite Forall_forall in *. intros ep Hin. apply Hdata.
      apply (Permutation_in ep (Permutation_sym Hperm)). exact Hin.
    + exact Hsorted.
  - unfold sort_target. simpl. fold (ranked tp).
    rewrite skipn_app.
    assert (Hr : List.length (ranked tp) = Z.to_nat (num_endpoints tp))
      by (unfold ranked; rewrite length_firstn; lia).
    rewrite skipn_all2 by lia. rewrite Hlen, Hr, Nat.sub_diag. reflexivity.
  - apply cmp_no_data.
Qed.

Lemma sort_ranks_measured_targets_witness :
  StronglySorted mean_le (ranked (sort_target insertion_sort measured_target)).
Proof.
  apply (sort_ranks_measured_targets insertion_sort measured_target).
  - exact insertion_sort_contract.
  - simpl. lia.
  - reflexivity.
Defined.

(** C6 as stated fails: a sort that meets the contract of [qsort] leaves
    a target with one endpoint without data as it is, with the endpoint
    of mean 5000 before the one of mean 3000. *)
Lemma sort_leaves_measured_endpoints_unordered :
  qsort_contract insertion_sort /\
  ranked (sort_target insertion_sort mixed_target) =
    [measured 5000 1; measured 0 0; measured 3000 1] /\
  ~ spec_ranking (sort_target insertion_sort mixed_target).
Proof.
  split; [exact insertion_sort_contract | split; [reflexivity |]].
  intros (_ & H).
  change (filter has_data (ranked (sort_target insertion_sort mixed_target)))
    with [measured 5000 1; measured 3000 1] in H.
  inversion H as [|? ? _ Hall]; subst.
  inversion Hall as [|? ? Hle _]; subst.
  unfold mean_le in Hle. vm_compute in Hle. apply Hle. reflexivity.
Qed.

(* ------------------------------------------------------------------ *)
(** ** What a computation adds to the log *)

Lemma extends_refl P w : extends P w w.
Proof. exists []. split; [reflexivity | constructor]. Qed.

Lemma extends_trans P w1 w2 w3 :
  extends P w1 w2 -> extends P w2 w3 -> extends P w1 w3.
Proof.
  intros (s1 & H1 & F1) (s2 & H2 & F2). exists (s2 ++ s1). split.
  - rewrite H2, H1, app_assoc. reflexivity.
  - apply Forall_app. split; assumption.
Qed.

Lemma extends_weaken (P Q : event -> Prop) w w' :
  (forall ev, P ev -> Q ev) -> extends P w w' -> extends Q w w'.
Proof.
  intros HPQ (s & H & F). exists s. split; [exact H |].
  eapply Forall_impl; [exact HPQ | exact F].
Qed.

Lemma emits_ret {A} P (a : A) : emits P (ret a).
Proof. intros w a' w' H. inv_ret H. apply extends_refl. Qed.

Lemma emits_bind {A B} P (c : M A) (k : A -> M B) :
  emits P c -> (forall a, emits P (k a)) -> emits P (bind c k).
Proof.
  intros Hc Hk w b w' H. inv_bind H as a w1 H1.
  eapply extends_trans; [eapply Hc | eapply Hk]; eassumption.
Qed.

Lemma emits_weaken {A} (P Q : event -> Prop) (c : M A) :
  (forall ev, P ev -> Q ev) -> emits P c -> emits Q c.
Proof. intros HPQ H w a w' Hd. eapply extends_weaken; eauto. Qed.

Lemma emits_syscall {A} P (f : nat -> A) (ev : A -> event) :
  (forall a, P (ev a)) -> emits P (syscall f ev).
Proof.
  intros HP w a w' H. unfold syscall in H. injection H as <- <-.
  exists [ev (f (tick w))]. split; [reflexivity | repeat constructor; apply HP].
Qed.

Lemma emits_log P ev : P ev -> emits P (log ev).
Proof.
  intros HP w a w' H. unfold log in H. injection H as <- <-.
  exists [ev]. split; [reflexivity | repeat constructor; exact HP].
Qed.

Lemma emits_silent {A} P (c : M A) :
  (forall w a w', c w = Done (a, w') -> trace w' = trace w) -> emits P c.
Proof.
  intros Hc w a w' H. exists []. split; [apply (Hc _ _ _ H) | constructor].
Qed.

Section Logs.

Variable G : globals.
Variable E : env.

Lemma emits_store P l i v : emits P (store l i v).
Proof.
  apply emits_silent. intros w a w' H. apply store_Done in H.
  destruct H as (-> & _). reflexivity.
Qed.

Lemma emits_getsockopt P fd : emits P (getsockopt E fd).
Proof.
  apply emits_silent. intros w a w' H. unfold getsockopt in H.
  injection H as <- <-. reflexivity.
Qed.

Lemma emits_generate_fdset P targets : emits P (generate_fdset targets).
Proof.
  apply emits_silent. intros w a w' H. unfold generate_fdset in H.
  destruct (generate_fdset_from targets (-1, [])); try discriminate.
  injection H as <- <-. reflexivity.
Qed.

Lemma emits_update_ep tv fdset ep : emits quiet (update_ep G E tv fdset ep).
Proof.
  unfold update_ep.
  destruct (negb (socket ep =? 0) && timed_out G (elapsed_us tv ep)).
  - apply emits_bind; [apply emits_store | intros vs].
    apply emits_bind; [apply emits_syscall; intros; exact I | intros _].
    apply emits_ret.
  - destruct (negb (socket ep =? 0) && negb (in_fd_set (socket ep)));
      [intros w a w' H; discriminate H |].
    destruct (negb (socket ep =? 0) && FD_ISSET (socket ep) fdset).
    + apply emits_bind; [apply emits_getsockopt | intros [soerror|]].
      * apply emits_bind.
        -- destruct (soerror =? 0);
             (apply emits_bind; [apply emits_store | intros vs; apply emits_ret]).
        -- intros ep1.
           apply emits_bind; [apply emits_syscall; intros; exact I | intros _].
           apply emits_ret.
      * intros w a w' H. discriminate H.
    + apply emits_ret.
Qed.

Lemma emits_update_eps tv fdset eps : emits quiet (update_eps G E tv fdset eps).
Proof.
  induction eps as [|ep rest IH]; simpl.
  - intros w a w' H. discriminate H.
  - destruct (endpoint_valid ep); [| apply emits_ret].
    apply emits_bind; [apply emits_update_ep | intros ep1].
    apply emits_bind; [exact IH | intros rest1; apply emits_ret].
Qed.

Lemma emits_update_from tv fdset targets :
  emits quiet (update_from G E tv fdset targets).
Proof.
  induction targets as [|tp rest IH]; simpl.
  - apply emits_ret.
  - apply emits_bind; [apply emits_update_eps | intros eps1].
    apply emits_bind; [exact IH | intros rest1; apply emits_ret].
Qed.

Lemma emits_update targets fdset : emits quiet (update G E targets fdset).
Proof.
  unfold update.
  apply emits_bind; [apply emits_log; exact I | intros _].
  apply emits_bind; [apply emits_syscall; intros; exact I | intros tv].
  apply emits_update_from.
Qed.

Lemma emits_select P nfds fdset bound :
  (forall fds, P (EvSelect bound fds)) -> emits P (select E nfds fdset bound).
Proof.
  intros HP w a w' H. unfold select in H. injection H as <- <-.
  exists [EvSelect bound fdset]. split; [reflexivity |].
  repeat constructor. apply HP.
Qed.



End Logs.

(* ------------------------------------------------------------------ *)
(** ** C4: a time-out of zero *)

Lemma parse_positive_range parse optarg num :
  (parse = parse_nqueries \/ parse = parse_timeout) ->
  parse optarg = Some num -> 0 < num <= INT_MAX.
Proof.
  intros [-> | ->] H; unfold parse_nqueries, parse_timeout in H;
    destruct (strtol optarg) as [v endptr];
    (destruct (to_int v >? 0) eqn:Hc; simpl in H; [| discriminate]);
    (destruct (String.eqb endptr EmptyString); [| discriminate]);
    injection H as <-; rewrite Z.gtb_ltb in Hc; apply Z.ltb_lt in Hc;
    assert (Hr := to_int_range v); lia.
Qed.

Lemma parse_delay_range optarg num :
  parse_delay optarg = Some num -> 0 <= num <= INT_MAX.
Proof.
  intros H. unfold parse_delay in H. destruct (strtol optarg) as [v endptr].
  destruct (to_int v >=? 0) eqn:Hc; simpl in H; [| discriminate].
  destruct (String.eqb endptr EmptyString); [| discriminate].
  injection H as <-. rewrite Z.geb_leb in Hc. apply Z.leb_le in Hc.
  assert (Hr := to_int_range v). unfold INT_MAX in *.
  rewrite to_uint_small by (unfold UINT_MOD; lia). lia.
Qed.

Lemma handle_options_settings E opts : forall st st',
  handle_options E st opts = Done st' ->
  settings_ok (globs st) ->
  (forall l, usr_ports st = Some l -> l <> []) ->
  settings_ok (globs st') /\
  (forall l, usr_ports st' = Some l -> l <> []) /\
  match usr_ports st' with Some l => l | None => [] end =
    (match usr_ports st with Some l => l | None => [] end ++ p_args opts)%list.
Proof.
  induction opts as [|o rest IH]; intros st st' H Hok Hp.
  - simpl in H. injection H as <-. simpl. rewrite app_nil_r.
    repeat split; try apply Hok. exact Hp.
  - simpl in H.
    destruct (handle_option E st o) as [st1| | |] eqn:Hopt; try discriminate.
    destruct Hok as (Hq & Ht & Hd).
    assert (Hstep : settings_ok (globs st1) /\
                    (forall l, usr_ports st1 = Some l -> l <> []) /\
                    match usr_ports st1 with Some l => l | None => [] end =
                    (match usr_ports st with Some l => l | None => [] end
                       ++ p_args [o])%list).
    { destruct o; simpl in Hopt.
      - destruct (parse_delay optarg) as [num|] eqn:Hpd; [| discriminate].
        injection Hopt as <-. unfold settings_ok. simpl. rewrite app_nil_r.
        assert (Hr := parse_delay_range _ _ Hpd).
        repeat split; try lia; exact Hp.
      - injection Hopt as <-. unfold settings_ok. simpl. repeat split; try lia.
        + intros l Hl. injection Hl as <-.
          destruct (usr_ports st) as [l0|]; [destruct l0 |]; discriminate.
        + destruct (usr_ports st); reflexivity.
      - destruct (parse_nqueries optarg) as [num|] eqn:Hpq; [| discriminate].
        injection Hopt as <-. unfold settings_ok. simpl. rewrite app_nil_r.
        assert (Hr := parse_positive_range _ _ _ (or_introl eq_refl) Hpq).
        repeat split; try lia; exact Hp.
      - destruct (import E (globs st) (ports_of st) file (targets_of st));
          try discriminate.
        injection Hopt as <-. unfold settings_ok. simpl. rewrite app_nil_r.
        repeat split; try lia; exact Hp.
      - injection Hopt as <-. unfold settings_ok. simpl. rewrite app_nil_r.
        repeat split; try lia; exact Hp.
      - injection Hopt as <-. unfold settings_ok. simpl. rewrite app_nil_r.
        repeat split; try lia; exact Hp.
      - destruct (parse_timeout optarg) as [num|] eqn:Hpt; [| discriminate].
        injection Hopt as <-. unfold settings_ok. simpl. rewrite app_nil_r.
        assert (Hr := parse_positive_range _ _ _ (or_intror eq_refl) Hpt).
        repeat split; try lia; exact Hp.
      - discriminate. }
    destruct Hstep as (Hok1 & Hp1 & Hports1).
    destruct (IH _ _ H Hok1 Hp1) as (Hok' & Hp' & Hports').
    split; [exact Hok' | split; [exact Hp' |]].
    rewrite Hports', Hports1, <- app_assoc. f_equal.
    unfold p_args. simpl. rewrite app_nil_r. reflexivity.
Qed.





(** beyond 2147483 milliseconds the product [timeout * 1000] is no
    [int] any more; the comparison sees what is left of it in 32 bits *)
Example timeout_product_overflows :
  parse_timeout "4294968" = Some 4294968 /\
  timed_out (mkGlobals 3 4294968 25) 2000 = true.
Proof. split; reflexivity. Qed.

(* ------------------------------------------------------------------ *)
(** ** The log of a paced pass *)

Section Pacing.

Variable G : globals.
Variable E : env.

Lemma update_log targets fdset w targets' w' :
  update G E targets fdset w = Done (targets', w') ->
  exists useg, trace w' = useg ++ EvUpdate :: trace w /\ Forall quiet useg.
Proof.
  intros H. unfold update in H. inv_bind H as u w1 Hlog.
  unfold log in Hlog. injection Hlog as _ <-.
  assert (Hrest : emits quiet
            (bind (gettimeofday E) (fun tv => update_from G E tv fdset targets))).
  { apply emits_bind; [apply emits_syscall; intros; exact I | intros tv].
    apply emits_update_from. }
  destruct (Hrest _ _ _ H) as (useg & Htr & Hq).
  exists useg. split; [exact Htr | exact Hq].
Qed.

Lemma nap_loop_log fuel dts : forall targets w targets' w' wseg base,
  nap_loop G E fuel dts targets w = Done (targets', w') ->
  trace w = wseg ++ base -> waiting G dts wseg ->
  exists dtn wseg',
    trace w' = EvTime dtn :: wseg' ++ base /\ waiting G dts wseg' /\
    timercmp_lt (dd G) (timersub dtn dts) = true.
Proof.
  induction fuel as [|fuel IH]; intros targets w targets' w' wseg base H Htr Hw.
  - discriminate H.
  - simpl in H. inv_bind H as mf w1 Hgen. destruct mf as [max fdset].
    assert (Hw1 : trace w1 = trace w).
    { destruct (emits_generate_fdset (fun _ => True) targets _ _ _ Hgen)
        as (s & Hs & _).
      unfold generate_fdset in Hgen.
      destruct (generate_fdset_from targets (-1, [])); try discriminate.
      injection Hgen as _ <-. reflexivity. }
    inv_bind H as dtn w2 Htime.
    unfold gettimeofday, syscall in Htime. injection Htime as <- <-.
    destruct (timercmp_lt (dd G) (timersub (clock E (tick w1)) dts)) eqn:Hcmp.
    + inv_ret H. exists (clock E (tick w1)), wseg. simpl.
      rewrite Hw1, Htr. repeat split; assumption.
    + inv_bind H as rc w3 Hsel. unfold select in Hsel.
      injection Hsel as <- <-.
      destruct (os_select E (S (tick w1)) fdset) as [ready|]; [|discriminate].
      inv_bind H as targets1 w4 Hupd.
      destruct (update_log _ _ _ _ _ Hupd) as (useg & Hu & Hq).
      simpl in Hu. rewrite Hw1, Htr in Hu.
      eapply (IH _ _ _ _ _ base H).
      * rewrite Hu.
        change (useg ++ EvUpdate :: EvSelect ?b fdset :: EvTime ?t
                  :: wseg ++ base)
          with (useg ++ [EvUpdate; EvSelect b fdset; EvTime t]
                  ++ wseg ++ base).
        rewrite !app_assoc. reflexivity.
      * rewrite <- !app_assoc. simpl.
        apply waiting_select; assumption.
Qed.

Lemma nap_log fuel targets w targets' w' :
  delay G <> 0 ->
  nap G E fuel targets w = Done (targets', w') ->
  exists dts dtn wseg,
    trace w' = EvTime dtn :: wseg ++ trace w /\ waiting G dts wseg /\
    timercmp_lt (dd G) (timersub dtn dts) = true.
Proof.
  intros Hd H. unfold nap in H. apply Z.eqb_neq in Hd. rewrite Hd in H.
  simpl in H. inv_bind H as dts w1 Htime.
  unfold gettimeofday, syscall in Htime. injection Htime as <- <-.
  destruct (nap_loop_log _ _ _ _ _ _ [EvTime (clock E (tick w))] (trace w) H
              eq_refl (waiting_start G _)) as (dtn & wseg & Htr & Hw & Hc).
  exists (clock E (tick w)), dtn, wseg. repeat split; assumption.
Qed.

Lemma start_connect_log ep w ep' w' :
  start_connect E ep w = Done (ep', w') ->
  exists cseg, trace w' = cseg ++ EvSocket :: trace w /\ Forall quiet cseg.
Proof.
  intros H. unfold start_connect in H. inv_bind H as se w1 Hsock.
  unfold sys_socket, syscall in Hsock. injection Hsock as <- <-.
  destruct (os_socket E (tick w) (family ep) (socktype ep) (protocol ep))
    as [rc errno].
  assert (Hq : forall (c : M endpoint) w0 a w0',
            emits quiet c -> c w0 = Done (a, w0') ->
            trace w0 = EvSocket :: trace w ->
            exists cseg, trace w0' = cseg ++ EvSocket :: trace w
                         /\ Forall quiet cseg).
  { intros c w0 a w0' Hem Hc Htr. destruct (Hem _ _ _ Hc) as (s & Hs & Hf).
    exists s. rewrite Hs, Htr. split; [reflexivity | exact Hf]. }
  eapply Hq; [| exact H | reflexivity].
  destruct (socket (set_socket ep rc) <? 0).
  - destruct ((errno =? EAFNOSUPPORT) || (errno =? EPROTONOSUPPORT));
      apply emits_ret.
  - apply emits_bind.
    + apply emits_silent. intros w0 a w0' H0. unfold sys_setfl in H0.
      injection H0 as <- <-. reflexivity.
    + intros rc2. destruct (rc2 =? -1).
      * apply emits_bind; [apply emits_syscall; intros; exact I | intros _].
        apply emits_ret.
      * apply emits_bind.
        -- apply emits_silent. intros w0 a w0' H0. unfold sys_connect in H0.
           injection H0 as <- <-. reflexivity.
        -- intros [rc3 errno3].
           destruct ((rc3 =? -1) && negb (errno3 =? EINPROGRESS)).
           ++ apply emits_bind;
                [apply emits_syscall; intros; exact I | intros _].
              apply emits_ret.
           ++ apply emits_bind;
                [apply emits_syscall; intros; exact I | intros tv].
              apply emits_ret.
Qed.

Lemma prepare_eps_log fuel k : forall ti ei targets w targets' w' seg base,
  delay G <> 0 ->
  prepare_eps G E fuel k ti ei targets w = Done (targets', w') ->
  trace w = seg ++ base -> paced G seg ->
  exists seg', trace w' = seg' ++ base /\ paced G seg'.
Proof.
  induction k as [|k IH];
    intros ti ei targets w targets' w' seg base Hd H Htr Hp.
  - discriminate H.
  - simpl in H. destruct (get_ep targets ti ei) as [ep|]; [|discriminate].
    destruct (endpoint_valid ep).
    + inv_bind H as targets1 w1 Hnap.
      destruct (nap_log _ _ _ _ _ Hd Hnap)
        as (dts & dtn & wseg & Hn & Hw & Hc).
      destruct (get_ep targets1 ti ei) as [ep1|]; [|discriminate].
      inv_bind H as ep2 w2 Hconn.
      destruct (start_connect_log _ _ _ _ Hconn) as (cseg & Hs & Hq).
      eapply (IH _ _ _ _ _ _ _ base Hd H).
      * rewrite Hs, Hn, Htr.
        change (cseg ++ EvSocket :: EvTime dtn :: wseg ++ seg ++ base)
          with (cseg ++ [EvSocket; EvTime dtn] ++ wseg ++ seg ++ base).
        rewrite !app_assoc. reflexivity.
      * rewrite <- !app_assoc. simpl.
        apply (paced_connect G seg dts wseg dtn cseg); assumption.
    + inv_ret H. exists seg. split; assumption.
Qed.

Lemma prepare_from_S fuel k ti targets :
  prepare_from G E fuel (S k) ti targets =
  match nth_error targets ti with
  | None => ret targets
  | Some tp =>
      bind (prepare_eps G E fuel (S (List.length (endpoints tp))) ti 0 targets)
           (fun targets => prepare_from G E fuel k (S ti) targets)
  end.
Proof. reflexivity. Qed.

Lemma prepare_from_log fuel k : forall ti targets w targets' w' seg base,
  delay G <> 0 ->
  prepare_from G E fuel k ti targets w = Done (targets', w') ->
  trace w = seg ++ base -> paced G seg ->
  exists seg', trace w' = seg' ++ base /\ paced G seg'.
Proof.
  induction k as [|k IH];
    intros ti targets w targets' w' seg base Hd H Htr Hp.
  - simpl in H. inv_ret H. exists seg. split; assumption.
  - rewrite prepare_from_S in H. destruct (nth_error targets ti) as [tp|].
    + inv_bind H as targets1 w1 Heps.
      destruct (prepare_eps_log _ _ _ _ _ _ _ _ _ _ Hd Heps Htr Hp)
        as (seg1 & Htr1 & Hp1).
      apply (IH _ _ _ _ _ _ _ Hd H Htr1 Hp1).
    + inv_ret H. exists seg. split; assumption.
Qed.

Lemma prepare_log fuel targets w targets' w' :
  delay G <> 0 ->
  prepare G E fuel targets w = Done (targets', w') ->
  exists seg, trace w' = seg ++ trace w /\ paced G seg.
Proof.
  intros Hd H. unfold prepare in H. destruct targets as [|tp rest].
  - discriminate H.
  - destruct (num_endpoints tp =? 0).
    + inv_ret H. exists []. split; [reflexivity | constructor].
    + apply (prepare_from_log _ _ _ _ _ _ _ [] (trace w) Hd H eq_refl).
      constructor.
Qed.

End Pacing.

Lemma split_at_absent {A} (x : A) l1 : forall l2 post pre,
  ~ In x l1 -> l1 ++ l2 = post ++ x :: pre ->
  exists post', post = l1 ++ post' /\ l2 = post' ++ x :: pre.
Proof.
  induction l1 as [|y l1 IH]; intros l2 post pre Hni Heq.
  - exists post. split; [reflexivity | exact Heq].
  - destruct post as [|z post]; simpl in Heq.
    + injection Heq as -> _. exfalso. apply Hni. left. reflexivity.
    + injection Heq as -> Heq.
      destruct (IH l2 post pre) as (post' & -> & Hl2).
      * intros Hin. apply Hni. right. exact Hin.
      * exact Heq.
      * exists post'. split; [reflexivity | exact Hl2].
Qed.

Lemma quiet_no_socket seg : Forall quiet seg -> ~ In EvSocket seg.
Proof.
  intros H Hin. rewrite Forall_forall in H. exact (H _ Hin).
Qed.

Lemma waiting_no_socket G dts wseg : waiting G dts wseg -> ~ In EvSocket wseg.
Proof.
  intros H. induction H as [|seg dtn fds useg Hw IH Hc Hq].
  - intros [H | []]. discriminate H.
  - intros Hin. apply in_app_or in Hin. destruct Hin as [Hin | Hin].
    + exact (quiet_no_socket _ Hq Hin).
    + destruct Hin as [H | [H | [H | Hin]]]; try discriminate H.
      exact (IH Hin).
Qed.

(** before every [socket] call of a paced log lies its nap *)
Lemma paced_gap G seg :
  paced G seg ->
  forall post pre, seg = post ++ EvSocket :: pre ->
  exists dtn wseg dts rest,
    pre = EvTime dtn :: wseg ++ rest /\ waiting G dts wseg /\
    timercmp_lt (dd G) (timersub dtn dts) = true /\ paced G rest.
Proof.
  intros Hp. induction Hp as [|seg dts wseg dtn cseg Hp IH Hw Hc Hq];
    intros post pre Heq.
  - destruct post; discriminate Heq.
  - destruct (split_at_absent EvSocket cseg _ post pre
                (quiet_no_socket _ Hq) Heq) as (post1 & -> & H1).
    destruct post1 as [|ev post1]; simpl in H1.
    + injection H1 as <-. exists dtn, wseg, dts, seg.
      repeat split; assumption.
    + injection H1 as <- H1. destruct post1 as [|ev post1]; simpl in H1;
        [discriminate H1 | injection H1 as <- H1].
      destruct (split_at_absent EvSocket wseg _ post1 pre
                  (waiting_no_socket _ _ _ Hw) H1) as (post2 & -> & H2).
      apply (IH _ _ H2).
Qed.

Lemma timercmp_usec G a b :
  normalized a -> normalized b -> 0 <= delay G ->
  timercmp_lt (dd G) (timersub a b) = true ->
  delay G * 1000 < usec_of a - usec_of b.
Proof.
  unfold normalized, timercmp_lt, timersub, dd, usec_of.
  intros Ha Hb Hd.
  assert (Hqr := Z.quot_rem' (delay G) 1000).
  assert (Hr := Z.rem_bound_pos (delay G) 1000 Hd ltac:(lia)).
  set (q := Z.quot (delay G) 1000) in *.
  set (r := Z.rem (delay G) 1000) in *.
  destruct (tv_usec a - tv_usec b <? 0) eqn:Hneg; simpl.
  - apply Z.ltb_lt in Hneg.
    destruct (q =? tv_sec a - tv_sec b - 1) eqn:Hs.
    + apply Z.eqb_eq in Hs. intros Hc. apply Z.ltb_lt in Hc. lia.
    + apply Z.eqb_neq in Hs. intros Hc. apply Z.ltb_lt in Hc. lia.
  - apply Z.ltb_ge in Hneg.
    destruct (q =? tv_sec a - tv_sec b) eqn:Hs.
    + apply Z.eqb_eq in Hs. intros Hc. apply Z.ltb_lt in Hc. lia.
    + apply Z.eqb_neq in Hs. intros Hc. apply Z.ltb_lt in Hc. lia.
Qed.

(** the log of a pass of [prepare] with a non-zero [delay]: every
    [socket] call is preceded by a nap that reads the clock ([dts]),
    then waits in [select] and runs [update] after every such wait, and
    ends only when a reading [dtn] of the clock is more than [delay]
    milliseconds after [dts]; the preceding attempt lies before that
    nap *)
Lemma prepare_log_gaps (G : globals) (E : env) (fuel : nat)
    (targets : list target) (w : world)
    (targets' : list target) (w' : world) :
  delay G <> 0 ->
  prepare G E fuel targets w = Done (targets', w') ->
  exists seg,
    trace w' = seg ++ trace w /\ paced G seg /\
    forall post pre, seg = post ++ EvSocket :: pre ->
    exists dtn wseg dts rest,
      pre = EvTime dtn :: wseg ++ rest /\
      waiting G dts wseg /\ paced G rest /\
      timercmp_lt (dd G) (timersub dtn dts) = true /\
      (normalized dtn -> normalized dts -> 0 <= delay G ->
       delay G * 1000 < usec_of dtn - usec_of dts).
Proof.
  intros Hd H. destruct (prepare_log G E _ _ _ _ _ Hd H) as (seg & Htr & Hp).
  exists seg. split; [exact Htr | split; [exact Hp |]].
  intros post pre Heq.
  destruct (paced_gap G seg Hp post pre Heq)
    as (dtn & wseg & dts & rest & Hpre & Hw & Hc & Hrest).
  exists dtn, wseg, dts, rest. repeat split; try assumption.
  intros Hn1 Hn2 H0. apply timercmp_usec; assumption.
Qed.

(* ------------------------------------------------------------------ *)
(** ** C3: an endpoint whose address family is not supported *)

Section Unsupported.

Variable E : env.

(** after EAFNOSUPPORT or EPROTONOSUPPORT the descriptor field keeps
    the -1 that [socket] returned, where every other failure resets it
    to 0 *)
Lemma start_connect_unsupported ep w errno :
  os_socket E (tick w) (family ep) (socktype ep) (protocol ep) = (-1, errno) ->
  errno = EAFNOSUPPORT \/ errno = EPROTONOSUPPORT ->
  exists w', start_connect E ep w = Done (set_socket ep (-1), w').
Proof.
  intros Hs He. unfold start_connect, bind, sys_socket, syscall.
  rewrite Hs. simpl.
  destruct He as [-> | ->]; simpl; eexists; reflexivity.
Qed.

Lemma start_connect_other_failure ep w errno :
  os_socket E (tick w) (family ep) (socktype ep) (protocol ep) = (-1, errno) ->
  errno <> EAFNOSUPPORT -> errno <> EPROTONOSUPPORT ->
  exists w', start_connect E ep w = Done (set_socket ep 0, w').
Proof.
  intros Hs H1 H2. unfold start_connect, bind, sys_socket, syscall.
  rewrite Hs. simpl.
  apply Z.eqb_neq in H1. apply Z.eqb_neq in H2. rewrite H1, H2. simpl.
  eexists; reflexivity.
Qed.

End Unsupported.

(** C3 (the code departs from it).  On a host without IPv6 the endpoint
    whose [socket] call fails with EAFNOSUPPORT keeps -1 in its
    descriptor field ([start_connect] does not reset it, as it does for
    every other error); a pass of [update] takes the field for a
    pending attempt and, once the time computed from the stale start
    time has reached the time-out, records a "timed out" sample for it.
    After the default three rounds the unsupported endpoint has three
    samples. *)
Theorem unsupported_family_gets_samples :
  (forall E ep w errno,
     os_socket E (tick w) (family ep) (socktype ep) (protocol ep)
       = (-1, errno) ->
     errno = EAFNOSUPPORT \/ errno = EPROTONOSUPPORT ->
     exists w', start_connect E ep w = Done (set_socket ep (-1), w')) /\
  (forall G E tv fdset ep w ep' w',
     socket ep = -1 -> timed_out G (elapsed_us tv ep) = true ->
     counters_ok ep ->
     update_ep G E tv fdset ep w = Done (ep', w') ->
     idx ep' = idx ep + 1 /\ socket ep' = 0) /\
  exists st w,
    main_probe env_no_ipv6 10 [] ["example.net"%string] world0
      = Done (st, w) /\
    nqueries (globs st) = 3 /\
    summary (targets_of st) =
      [[(AF_INET6, 3, [-1000300000; -1000720000; -1001140000]);
        (AF_INET, 3, [60000; 60000; 60000]);
        (0, 0, [])]].
Proof.
  split; [exact start_connect_unsupported | split].
  - intros G E tv fdset ep w ep' w' Hs Hto Hok H.
    assert (Hne : socket ep <> 0) by (rewrite Hs; discriminate).
    destruct (update_ep_timed_out G E _ _ _ _ _ _ H Hok Hne Hto)
      as (Hi & _ & _ & Hsock & _).
    split; assumption.
  - eexists. eexists. split; [vm_compute; reflexivity |].
    split; reflexivity.
Qed.

(* ------------------------------------------------------------------ *)
(** ** C10: the sample index and the size of [values] *)

(** C10 (the code departs from it).  [expand] sizes [values] with the
    value [nqueries] has when the target is resolved.  A target
    imported with -f is resolved inside the option loop; a -q that
    follows raises the number of rounds without resizing the array, and
    the fourth round stores a sample behind its three slots.  With the
    options the other way round the same run stays in bounds. *)
Theorem import_before_q_overruns_values :
  main_probe env_ok 10 [Opt_f hosts_file; Opt_q "4"] [] world0 = Fault /\
  exists st w,
    main_probe env_ok 10 [Opt_q "4"; Opt_f hosts_file] [] world0
      = Done (st, w) /\
    summary (targets_of st) =
      [[(AF_INET, 4, [2000; 2000; 2000; 2000]); (0, 0, [])]].
Proof.
  split; [vm_compute; reflexivity |].
  eexists. eexists. split; [vm_compute; reflexivity | reflexivity].
Qed.

(* ------------------------------------------------------------------ *)
(** ** Safety of the probing loop when [values] has one slot per round *)

Lemma in_fd_set_fit fd : -1 <= fd < FD_SETSIZE -> in_fd_set fd = true.
Proof.
  intros H. unfold in_fd_set, fd_bit, FD_SETSIZE, NFDBITS in *.
  destruct (0 <=? fd) eqn:H0; destruct (fd <? 1024) eqn:H1; simpl;
    try reflexivity;
    destruct (-64 <? fd) eqn:H2; destruct (fd <? 0) eqn:H3; simpl;
    try reflexivity; lia.
Qed.

Section Bounds.

(** [U]: the operating system hands out a descriptor that [fd_set] has
    no bit for.  With [False] for [U] the lemmas below exclude every
    [Fault]; with [True] they describe the runs that return. *)
Variable U : Prop.
Variable G : globals.
Variable E : env.

Hypothesis nqueries_range : 0 <= nqueries G < UINT_MOD.
Hypothesis fit :
  forall n fam st pr, in_fd_set (fst (os_socket E n fam st pr)) = true \/ U.

Lemma safe_ret {A} (a : A) (Q : A -> Prop) : Q a -> safe_unless U (ret a) Q.
Proof. intros H w. exact H. Qed.

Lemma safe_bind {A B} (c : M A) (k : A -> M B) (Q1 : A -> Prop) Q2 :
  safe_unless U c Q1 -> (forall a, Q1 a -> safe_unless U (k a) Q2) -> safe_unless U (bind c k) Q2.
Proof.
  intros Hc Hk w. unfold bind. specialize (Hc w).
  destruct (c w) as [[a w1]| | |]; try exact I; try exact Hc.
  apply (Hk a Hc w1).
Qed.

Lemma safe_weaken {A} (c : M A) (Q1 Q2 : A -> Prop) :
  (forall a, Q1 a -> Q2 a) -> safe_unless U c Q1 -> safe_unless U c Q2.
Proof.
  intros HQ Hc w. specialize (Hc w).
  destruct (c w) as [[a w1]| | |]; try exact I; try exact Hc.
  apply HQ. exact Hc.
Qed.

Lemma safe_exit {A} (Q : A -> Prop) : safe_unless U exit_failure Q.
Proof. intros w. exact I. Qed.

Lemma safe_fuel {A} (Q : A -> Prop) : safe_unless U out_of_fuel Q.
Proof. intros w. exact I. Qed.

Lemma safe_syscall {A} (f : nat -> A) ev (Q : A -> Prop) :
  (forall n, Q (f n)) -> safe_unless U (syscall f ev) Q.
Proof. intros H w. apply H. Qed.

Lemma safe_any {A} (c : M A) :
  (forall w, c w <> Fault) -> safe_unless U c (fun _ => True).
Proof.
  intros H w. specialize (H w).
  destruct (c w) as [[a w1]| | |]; try exact I. congruence.
Qed.

Lemma store_nat_in_range l : forall i v,
  (i < List.length l)%nat ->
  exists l', store_nat l i v = Some l' /\ List.length l' = List.length l.
Proof.
  induction l as [|x r IH]; intros i v Hi; simpl in *.
  - lia.
  - destruct i as [|i].
    + eexists. split; reflexivity.
    + destruct (IH i v ltac:(lia)) as (r' & Hr & Hl).
      rewrite Hr. eexists. split; [reflexivity | simpl; rewrite Hl; reflexivity].
Qed.

Lemma safe_store l i v :
  0 <= i < Z.of_nat (List.length l) ->
  safe_unless U (store l i v) (fun l' => List.length l' = List.length l).
Proof.
  intros Hi w. unfold store.
  destruct (i <? 0) eqn:Hc; [apply Z.ltb_lt in Hc; lia |].
  destruct (store_nat_in_range l (Z.to_nat i) v ltac:(lia)) as (l' & Hs & Hl).
  rewrite Hs. exact Hl.
Qed.

Lemma within_mono slots n m ep : n <= m -> within U slots n ep -> within U slots m ep.
Proof.
  intros Hnm H Hv. destruct (H Hv) as (H0 & H1 & H2 & H3).
  split; [lia | split; [lia | split; [exact H2 | exact H3]]].
Qed.

Lemma within_all_mono n slots m targets :
  n <= m -> all_within U slots n targets -> all_within U slots m targets.
Proof.
  intros Hnm H i j ep Hg. apply (within_mono _ n); [exact Hnm |].
  apply (H _ _ _ Hg).
Qed.

(** a pass of [update] over one endpoint *)
Lemma safe_update_ep tv fdset ep :
  endpoint_valid ep = true -> within U (nqueries G) (nqueries G) ep ->
  safe_unless U (update_ep G E tv fdset ep)
       (fun ep' => addrlen ep' = addrlen ep /\
                   forall n, within U (nqueries G) n ep -> within U (nqueries G) n ep').
Proof.
  intros Hv Hw. destruct (Hw Hv) as (H0 & H1 & H2 & Hfd). unfold update_ep.
  assert (Hclose : forall ep1,
    addrlen ep1 = addrlen ep -> idx ep1 = idx ep + 1 ->
    List.length (values ep1) = List.length (values ep) ->
    0 <= tot ep1 /\ tot ep1 <= cnt ep1 /\ cnt ep1 <= idx ep1 ->
    socket ep <> 0 ->
    safe_unless U (close (socket ep1) ;;; ret (set_socket ep1 0))
         (fun ep' => addrlen ep' = addrlen ep /\
                     forall n, within U (nqueries G) n ep -> within U (nqueries G) n ep')).
  { intros ep1 Ha Hi Hl Hcnt Hne.
    eapply (safe_bind _ _ (fun _ => True));
      [apply safe_syscall; intros; exact I | intros _ _].
    apply safe_ret. split; [exact Ha |].
    intros n Hn _. destruct (Hn Hv) as (Hn0 & Hn1 & Hn2 & _).
    unfold pend in *. apply Z.eqb_neq in Hne. rewrite Hne in Hn1.
    simpl. rewrite Hi, Hl. simpl in Hcnt. rewrite Hi in Hcnt.
    split; [lia | split; [lia | split; [lia | left; reflexivity]]]. }
  destruct (negb (socket ep =? 0)) eqn:Hsock; simpl.
  - assert (Hne : socket ep <> 0)
      by (apply negb_true_iff in Hsock; apply Z.eqb_neq in Hsock; exact Hsock).
    assert (Hidx : 0 <= idx ep < Z.of_nat (List.length (values ep))).
    { unfold pend in H1. apply Z.eqb_neq in Hne. rewrite Hne in H1. lia. }
    assert (Hsmall : forall z, 0 <= z <= idx ep -> to_uint (z + 1) = z + 1)
      by (intros z Hz; apply to_uint_small; lia).
    destruct (timed_out G (elapsed_us tv ep)).
    + eapply safe_bind; [apply safe_store; exact Hidx | intros vs Hlen].
      cbv zeta.
      apply (Hclose (set_idx (set_values ep vs) (to_uint (idx ep + 1))));
        simpl;
        [reflexivity | apply Hsmall; lia | exact Hlen
        | rewrite Hsmall by lia; lia | exact Hne].
    + destruct (in_fd_set (socket ep)) eqn:Hin; simpl;
        [| intros w; destruct Hfd as [Hfd | Hfd]; [discriminate Hfd | exact Hfd]].
      destruct (FD_ISSET (socket ep) fdset).
      * eapply safe_bind;
          [apply safe_any; intros w; unfold getsockopt; discriminate |].
        intros [soerror|] _; [| apply safe_exit].
        eapply (safe_bind _ _
                  (fun ep1 => addrlen ep1 = addrlen ep /\
                              idx ep1 = idx ep + 1 /\
                              List.length (values ep1)
                                = List.length (values ep) /\
                              (0 <= tot ep1 /\ tot ep1 <= cnt ep1 /\
                               cnt ep1 <= idx ep1) /\
                              socket ep1 = socket ep)).
        -- destruct (soerror =? 0).
           ++ eapply safe_bind; [apply safe_store; exact Hidx | intros vs Hlen].
              apply safe_ret. simpl. rewrite !Hsmall by lia.
              split; [reflexivity | split; [reflexivity |]].
              split; [exact Hlen | split; [lia | reflexivity]].
           ++ eapply safe_bind; [apply safe_store; exact Hidx | intros vs Hlen].
              apply safe_ret. simpl. rewrite !Hsmall by lia.
              split; [reflexivity | split; [reflexivity |]].
              split; [exact Hlen | split; [lia | reflexivity]].
        -- intros ep1 (Ha & Hi & Hl & Hcnt & Hs). apply Hclose; assumption.
      * apply safe_ret. split; [reflexivity | intros; assumption].
  - apply safe_ret. split; [reflexivity | intros; assumption].
Qed.

Lemma evolved_refl ep : evolved U (nqueries G) ep ep.
Proof. split; [reflexivity | intros; assumption]. Qed.

Lemma evolved_trans ep1 ep2 ep3 :
  evolved U (nqueries G) ep1 ep2 -> evolved U (nqueries G) ep2 ep3 ->
  evolved U (nqueries G) ep1 ep3.
Proof.
  intros (Ha & Hw) (Ha' & Hw'). split; [congruence |].
  intros n Hn. apply Hw'. apply Hw. exact Hn.
Qed.

Lemma Forall2_refl {A} (R : A -> A -> Prop) l :
  (forall a, R a a) -> Forall2 R l l.
Proof. intros HR. induction l; constructor; [apply HR | assumption]. Qed.

Lemma Forall2_trans {A} (R : A -> A -> Prop) :
  (forall a b c, R a b -> R b c -> R a c) ->
  forall l1 l2 l3, Forall2 R l1 l2 -> Forall2 R l2 l3 -> Forall2 R l1 l3.
Proof.
  intros HR l1 l2 l3 H12. revert l3.
  induction H12 as [|a b l1 l2 Hab H12 IH]; intros l3 H23;
    inversion H23; subst; constructor; eauto.
Qed.

Lemma advances_refl targets : advances U (nqueries G) targets targets.
Proof.
  apply Forall2_refl. intros tp. apply Forall2_refl. apply evolved_refl.
Qed.

Lemma advances_trans t1 t2 t3 :
  advances U (nqueries G) t1 t2 -> advances U (nqueries G) t2 t3 ->
  advances U (nqueries G) t1 t3.
Proof.
  apply Forall2_trans. intros a b c. apply Forall2_trans.
  apply evolved_trans.
Qed.

Lemma safe_update_eps tv fdset eps :
  Forall (within U (nqueries G) (nqueries G)) eps -> terminated eps ->
  safe_unless U (update_eps G E tv fdset eps) (Forall2 (evolved U (nqueries G)) eps).
Proof.
  induction eps as [|ep rest IH]; intros Hall Hterm.
  - inversion Hterm.
  - simpl. destruct (endpoint_valid ep) eqn:Hv.
    + inversion Hall as [|? ? Hw Hrest]; subst.
      assert (Hterm' : terminated rest).
      { inversion Hterm as [? ? Hinv | ? ? Hex]; subst;
          [congruence | exact Hex]. }
      eapply safe_bind; [apply safe_update_ep; assumption | intros ep1 Hep1].
      eapply safe_bind; [apply IH; assumption | intros rest1 Hrest1].
      apply safe_ret. constructor; [exact Hep1 | exact Hrest1].
    + apply safe_ret. apply Forall2_refl. apply evolved_refl.
Qed.

Lemma safe_update_from tv fdset targets :
  Forall (fun tp => Forall (within U (nqueries G) (nqueries G)) (endpoints tp)
                    /\ terminated (endpoints tp)) targets ->
  safe_unless U (update_from G E tv fdset targets) (advances U (nqueries G) targets).
Proof.
  induction targets as [|tp rest IH]; intros Hall; simpl.
  - apply safe_ret. constructor.
  - inversion Hall as [|? ? (Hw & Ht) Hrest]; subst.
    eapply safe_bind; [apply safe_update_eps; assumption | intros eps1 Heps1].
    eapply safe_bind; [apply IH; assumption | intros rest1 Hrest1].
    apply safe_ret. constructor; [exact Heps1 | exact Hrest1].
Qed.

Lemma get_ep_cons_O tp rest j :
  get_ep (tp :: rest) 0 j = nth_error (endpoints tp) j.
Proof. reflexivity. Qed.

Lemma get_ep_cons_S tp rest i j :
  get_ep (tp :: rest) (S i) j = get_ep rest i j.
Proof. reflexivity. Qed.

Lemma Forall2_nth_error_r {A} (R : A -> A -> Prop) l l' :
  Forall2 R l l' ->
  forall j b, nth_error l' j = Some b ->
  exists a, nth_error l j = Some a /\ R a b.
Proof.
  intros H. induction H as [|a0 b0 l l' Hab H IH]; intros j b Hj.
  - destruct j; discriminate Hj.
  - destruct j as [|j]; simpl in *.
    + injection Hj as <-. exists a0. split; [reflexivity | exact Hab].
    + apply IH. exact Hj.
Qed.

Lemma Forall2_nth_error_l {A} (R : A -> A -> Prop) l l' :
  Forall2 R l l' ->
  forall j a, nth_error l j = Some a ->
  exists b, nth_error l' j = Some b /\ R a b.
Proof.
  intros H. induction H as [|a0 b0 l l' Hab H IH]; intros j a Hj.
  - destruct j; discriminate Hj.
  - destruct j as [|j]; simpl in *.
    + injection Hj as <-. exists b0. split; [reflexivity | exact Hab].
    + apply IH. exact Hj.
Qed.

Lemma advances_get t t' i j ep' :
  advances U (nqueries G) t t' -> get_ep t' i j = Some ep' ->
  exists ep, get_ep t i j = Some ep /\ evolved U (nqueries G) ep ep'.
Proof.
  intros Ha Hg. unfold get_ep in *.
  destruct (nth_error t' i) as [tp'|] eqn:Hi; [|discriminate].
  destruct (Forall2_nth_error_r _ _ _ Ha _ _ Hi) as (tp & Htp & Hev).
  rewrite Htp. apply (Forall2_nth_error_r _ _ _ Hev _ _ Hg).
Qed.

Lemma advances_get_fwd t t' i j ep :
  advances U (nqueries G) t t' -> get_ep t i j = Some ep ->
  exists ep', get_ep t' i j = Some ep' /\ evolved U (nqueries G) ep ep'.
Proof.
  intros Ha Hg. unfold get_ep in *.
  destruct (nth_error t i) as [tp|] eqn:Hi; [|discriminate].
  destruct (Forall2_nth_error_l _ _ _ Ha _ _ Hi) as (tp' & Htp & Hev).
  rewrite Htp. apply (Forall2_nth_error_l _ _ _ Hev _ _ Hg).
Qed.

Lemma evolved_valid ep ep' :
  evolved U (nqueries G) ep ep' -> endpoint_valid ep' = endpoint_valid ep.
Proof. intros (Ha & _). unfold endpoint_valid. rewrite Ha. reflexivity. Qed.

Lemma terminated_evolved eps eps' :
  Forall2 (evolved U (nqueries G)) eps eps' -> terminated eps -> terminated eps'.
Proof.
  intros H. induction H as [|a b l l' Hab H IH]; intros Ht.
  - inversion Ht.
  - inversion Ht as [? ? Hinv | ? ? Hex]; subst.
    + apply Exists_cons_hd. rewrite (evolved_valid _ _ Hab). exact Hinv.
    + apply Exists_cons_tl. apply IH. exact Hex.
Qed.

Lemma advances_well_shaped t t' :
  advances U (nqueries G) t t' -> well_shaped t -> well_shaped t'.
Proof.
  intros H. induction H as [|a b l l' Hab H IH]; intros Hw.
  - constructor.
  - inversion Hw as [|? ? Ha Hl]; subst. constructor.
    + apply (terminated_evolved _ _ Hab Ha).
    + apply IH. exact Hl.
Qed.

Lemma advances_all_within n t t' :
  advances U (nqueries G) t t' -> all_within U (nqueries G) n t ->
  all_within U (nqueries G) n t'.
Proof.
  intros Ha Hw i j ep' Hg.
  destruct (advances_get _ _ _ _ _ Ha Hg) as (ep & Hep & (_ & Hev)).
  apply Hev. apply (Hw _ _ _ Hep).
Qed.

Lemma advances_staged r ti ei t t' :
  advances U (nqueries G) t t' -> staged U (nqueries G) r ti ei t ->
  staged U (nqueries G) r ti ei t'.
Proof.
  intros Ha Hs i j ep' Hg.
  destruct (advances_get _ _ _ _ _ Ha Hg) as (ep & Hep & (_ & Hev)).
  apply Hev. apply (Hs _ _ _ Hep).
Qed.

Lemma all_within_Forall n targets :
  all_within U (nqueries G) n targets ->
  Forall (fun tp => Forall (within U (nqueries G) n) (endpoints tp)) targets.
Proof.
  induction targets as [|tp rest IH]; intros H.
  - constructor.
  - constructor.
    + apply Forall_forall. intros ep Hin.
      apply In_nth_error in Hin. destruct Hin as (j & Hj).
      apply (H 0%nat j ep). rewrite get_ep_cons_O. exact Hj.
    + apply IH. intros i j ep Hg. apply (H (S i) j ep).
      rewrite get_ep_cons_S. exact Hg.
Qed.

Lemma update_precondition targets :
  well_shaped targets -> all_within U (nqueries G) (nqueries G) targets ->
  Forall (fun tp => Forall (within U (nqueries G) (nqueries G)) (endpoints tp)
                    /\ terminated (endpoints tp)) targets.
Proof.
  intros Hw Ha. apply all_within_Forall in Ha.
  unfold well_shaped in Hw. rewrite Forall_forall in *.
  intros tp Hin. split; [apply Ha | apply Hw]; exact Hin.
Qed.

Lemma safe_update targets fdset :
  well_shaped targets -> all_within U (nqueries G) (nqueries G) targets ->
  safe_unless U (update G E targets fdset) (advances U (nqueries G) targets).
Proof.
  intros Hw Ha. unfold update.
  eapply (safe_bind _ _ (fun _ => True)); [intros w; exact I | intros _ _].
  eapply (safe_bind _ _ (fun _ => True));
    [apply safe_syscall; intros; exact I | intros tv _].
  apply safe_update_from. apply update_precondition; assumption.
Qed.

Lemma generate_fdset_eps_safe n eps : forall acc,
  terminated eps -> Forall (within U (nqueries G) n) eps ->
  match generate_fdset_eps eps acc with
  | Done _ => True
  | Fault => U
  | _ => False
  end.
Proof.
  induction eps as [|ep rest IH]; intros acc Ht Ha.
  - inversion Ht.
  - simpl. destruct (endpoint_valid ep) eqn:Hv.
    + assert (Ht' : terminated rest).
      { inversion Ht as [? ? Hinv | ? ? Hex]; subst;
          [congruence | exact Hex]. }
      inversion Ha as [|? ? Hep Ha']; subst.
      destruct (Hep Hv) as (_ & _ & _ & Hfd). unfold in_fd_set in Hfd.
      destruct acc as [max fdset].
      destruct (negb (socket ep =? 0)); [| apply IH; assumption].
      destruct (fd_bit (socket ep)) as [b|];
        [apply IH; assumption
        | destruct Hfd as [Hfd | Hfd]; [discriminate Hfd | exact Hfd]].
    + exact I.
Qed.

Lemma generate_fdset_from_safe n targets : forall acc,
  well_shaped targets ->
  Forall (fun tp => Forall (within U (nqueries G) n) (endpoints tp)) targets ->
  match generate_fdset_from targets acc with
  | Done _ => True
  | Fault => U
  | _ => False
  end.
Proof.
  induction targets as [|tp rest IH]; intros acc Hw Ha; simpl.
  - exact I.
  - inversion Hw as [|? ? Ht Hrest]; subst.
    inversion Ha as [|? ? Hep Ha']; subst.
    assert (He := generate_fdset_eps_safe n _ acc Ht Hep).
    destruct (generate_fdset_eps (endpoints tp) acc) as [r| | |];
      try contradiction; [apply IH; assumption | exact He].
Qed.

Lemma safe_generate_fdset n targets :
  well_shaped targets -> all_within U (nqueries G) n targets ->
  safe_unless U (generate_fdset targets) (fun _ => True).
Proof.
  intros Hw Ha w. unfold generate_fdset.
  assert (H := generate_fdset_from_safe n targets (-1, []) Hw
                 (all_within_Forall _ _ Ha)).
  destruct (generate_fdset_from targets (-1, [])) as [r| | |];
    try contradiction; [exact I | exact H].
Qed.

Lemma safe_select nfds fdset bound :
  safe_unless U (select E nfds fdset bound) (fun _ => True).
Proof. intros w. exact I. Qed.

Lemma safe_nap_loop fuel dts : forall targets,
  well_shaped targets -> all_within U (nqueries G) (nqueries G) targets ->
  safe_unless U (nap_loop G E fuel dts targets) (advances U (nqueries G) targets).
Proof.
  induction fuel as [|fuel IH]; intros targets Hw Ha; simpl.
  - apply safe_fuel.
  - eapply safe_bind; [eapply safe_generate_fdset; [exact Hw | exact Ha] |].
    intros [max fdset] _.
    eapply (safe_bind _ _ (fun _ => True));
      [apply safe_syscall; intros; exact I | intros dtn _].
    destruct (timercmp_lt (dd G) (timersub dtn dts)).
    + apply safe_ret. apply advances_refl.
    + eapply safe_bind; [apply safe_select |].
      intros [ready|] _; [| apply safe_exit].
      eapply safe_bind; [apply safe_update; assumption |].
      intros targets1 H1.
      eapply safe_weaken;
        [| apply IH;
           [apply (advances_well_shaped _ _ H1 Hw)
           | apply (advances_all_within _ _ _ H1 Ha)]].
      intros targets2 H2. apply (advances_trans _ _ _ H1 H2).
Qed.

Lemma safe_nap fuel targets :
  well_shaped targets -> all_within U (nqueries G) (nqueries G) targets ->
  safe_unless U (nap G E fuel targets) (advances U (nqueries G) targets).
Proof.
  intros Hw Ha. unfold nap. destruct (negb (delay G =? 0)).
  - eapply (safe_bind _ _ (fun _ => True));
      [apply safe_syscall; intros; exact I | intros dts _].
    apply safe_nap_loop; assumption.
  - apply safe_ret. apply advances_refl.
Qed.

Lemma safe_start_connect ep :
  safe_unless U (start_connect E ep)
       (fun ep' => addrlen ep' = addrlen ep /\ idx ep' = idx ep /\
                   values ep' = values ep /\
                   tot ep' = tot ep /\ cnt ep' = cnt ep /\
                   (in_fd_set (socket ep') = true \/ U)).
Proof.
  unfold start_connect.
  eapply (safe_bind _ _ (fun se => in_fd_set (fst se) = true \/ U)).
  { unfold sys_socket. apply safe_syscall. intros n. apply fit. }
  intros [rc errno] Hrc. simpl in Hrc.
  destruct (socket (set_socket ep rc) <? 0).
  - destruct ((errno =? EAFNOSUPPORT) || (errno =? EPROTONOSUPPORT));
      apply safe_ret; simpl; repeat split; try assumption; left; reflexivity.
  - eapply (safe_bind _ _ (fun _ => True)); [intros w; exact I | intros rc2 _].
    destruct (rc2 =? -1).
    + eapply (safe_bind _ _ (fun _ => True));
        [apply safe_syscall; intros; exact I | intros _ _].
      apply safe_ret; repeat split; left; reflexivity.
    + eapply (safe_bind _ _ (fun _ => True));
        [intros w; exact I | intros [rc3 errno3] _].
      destruct ((rc3 =? -1) && negb (errno3 =? EINPROGRESS)).
      * eapply (safe_bind _ _ (fun _ => True));
          [apply safe_syscall; intros; exact I | intros _ _].
        apply safe_ret; repeat split; left; reflexivity.
      * eapply (safe_bind _ _ (fun _ => True));
          [apply safe_syscall; intros; exact I | intros tv _].
        apply safe_ret; simpl; repeat split; assumption.
Qed.

Lemma nth_error_replace_nth_same {A} (l : list A) : forall i a v,
  nth_error l i = Some a -> nth_error (replace_nth l i v) i = Some v.
Proof.
  induction l as [|x r IH]; intros i a v H; destruct i; simpl in *;
    try discriminate; [reflexivity | eapply IH; exact H].
Qed.

Lemma nth_error_replace_nth_other {A} (l : list A) : forall i j v,
  i <> j -> nth_error (replace_nth l i v) j = nth_error l j.
Proof.
  induction l as [|x r IH]; intros i j v H; destruct i, j; simpl;
    try reflexivity; try congruence.
  apply IH. congruence.
Qed.

Lemma Forall_replace_nth {A} (P : A -> Prop) (l : list A) : forall i v,
  Forall P l -> P v -> Forall P (replace_nth l i v).
Proof.
  induction l as [|x r IH]; intros i v Hl Hv; destruct i; simpl;
    try assumption; inversion Hl; subst; constructor; auto.
Qed.

Lemma Exists_replace_nth {A} (P : A -> Prop) (l : list A) : forall i a v,
  nth_error l i = Some a -> (P a -> P v) ->
  Exists P l -> Exists P (replace_nth l i v).
Proof.
  induction l as [|x r IH]; intros i a v Hi Hav Hex.
  - inversion Hex.
  - destruct i as [|i]; simpl in *.
    + injection Hi as ->.
      inversion Hex; subst;
        [apply Exists_cons_hd; auto | apply Exists_cons_tl; assumption].
    + inversion Hex; subst;
        [apply Exists_cons_hd; assumption
        | apply Exists_cons_tl; eapply IH; eassumption].
Qed.

Lemma get_ep_put_same t ti ei ep ep' :
  get_ep t ti ei = Some ep -> get_ep (put_ep t ti ei ep') ti ei = Some ep'.
Proof.
  unfold get_ep, put_ep. intros H.
  destruct (nth_error t ti) as [tp|] eqn:Hti; [|discriminate].
  rewrite (nth_error_replace_nth_same _ _ _ _ Hti). simpl.
  apply (nth_error_replace_nth_same _ _ _ _ H).
Qed.

Lemma get_ep_put_other t ti ei ep' i j :
  (i, j) <> (ti, ei) -> get_ep (put_ep t ti ei ep') i j = get_ep t i j.
Proof.
  unfold get_ep, put_ep. intros H.
  destruct (nth_error t ti) as [tp|] eqn:Hti; [|reflexivity].
  destruct (Nat.eq_dec ti i) as [-> | Hne].
  - rewrite (nth_error_replace_nth_same _ _ _ _ Hti), Hti. simpl.
    apply nth_error_replace_nth_other. congruence.
  - rewrite nth_error_replace_nth_other by exact Hne. reflexivity.
Qed.

Lemma well_shaped_put t ti ei ep ep' :
  well_shaped t -> get_ep t ti ei = Some ep -> addrlen ep' = addrlen ep ->
  well_shaped (put_ep t ti ei ep').
Proof.
  unfold well_shaped, get_ep, put_ep. intros Hw Hg Ha.
  destruct (nth_error t ti) as [tp|] eqn:Hti; [|exact Hw].
  apply Forall_replace_nth; [exact Hw |]. simpl.
  apply (Exists_replace_nth _ _ _ ep ep' Hg).
  - unfold endpoint_valid. rewrite Ha. intros H; exact H.
  - rewrite Forall_forall in Hw. apply Hw.
    apply (nth_error_In _ _ Hti).
Qed.

Lemma budget_of_le r ti ei i j : budget_of r ti ei i j <= r.
Proof.
  unfold budget_of.
  destruct ((i <? ti)%nat || ((i =? ti)%nat && (j <? ei)%nat)); lia.
Qed.

Lemma budget_of_next_cell r ti ei i j :
  budget_of r ti ei i j <= budget_of r ti (S ei) i j.
Proof.
  unfold budget_of.
  destruct (i <? ti)%nat eqn:H1; destruct (i =? ti)%nat eqn:H2;
    destruct (j <? ei)%nat eqn:H3; destruct (j <? S ei)%nat eqn:H4;
    simpl; nat_tests; lia.
Qed.

Lemma budget_of_next_target r ti ei i j :
  budget_of r ti ei i j <= budget_of r (S ti) 0 i j.
Proof.
  unfold budget_of.
  destruct (i <? ti)%nat eqn:H1; destruct (i =? ti)%nat eqn:H2;
    destruct (j <? ei)%nat eqn:H3; destruct (i <? S ti)%nat eqn:H4;
    destruct (i =? S ti)%nat eqn:H5; destruct (j <? 0)%nat eqn:H6;
    simpl; nat_tests; lia.
Qed.

Lemma budget_of_here r ti ei :
  budget_of r ti ei ti ei = r - 1 /\ budget_of r ti (S ei) ti ei = r.
Proof.
  unfold budget_of. rewrite Nat.ltb_irrefl, Nat.eqb_refl. simpl.
  rewrite Nat.ltb_irrefl.
  assert (H : (ei <? S ei)%nat = true) by (apply Nat.ltb_lt; lia).
  rewrite H. split; reflexivity.
Qed.

Lemma staged_all_within r ti ei t :
  staged U (nqueries G) r ti ei t -> all_within U (nqueries G) r t.
Proof.
  intros H i j ep Hg.
  apply (within_mono _ _ _ _ (budget_of_le r ti ei i j)). apply (H _ _ _ Hg).
Qed.

Lemma pend_range ep : 0 <= pend ep <= 1.
Proof. unfold pend. destruct (socket ep =? 0); lia. Qed.

Lemma safe_prepare_eps fuel r : forall k ti ei targets,
  r <= nqueries G -> well_shaped targets ->
  staged U (nqueries G) r ti ei targets ->
  (exists t ept, (ei <= t)%nat /\ (t < k + ei)%nat /\
                 get_ep targets ti t = Some ept /\
                 endpoint_valid ept = false) ->
  safe_unless U (prepare_eps G E fuel k ti ei targets)
       (fun targets' => well_shaped targets' /\
                        staged U (nqueries G) r (S ti) 0 targets').
Proof.
  induction k as [|k IH];
    intros ti ei targets Hr Hw Hs (t & ept & Hle & Hlt & Hgt & Hinv).
  - lia.
  - simpl.
    assert (Hcell : exists ep, get_ep targets ti ei = Some ep).
    { unfold get_ep in *. destruct (nth_error targets ti) as [tp|];
        [|discriminate].
      destruct (nth_error (endpoints tp) ei) as [ep|] eqn:Hei;
        [eexists; reflexivity |].
      apply nth_error_None in Hei.
      assert (Hsome : nth_error (endpoints tp) t <> None) by congruence.
      apply nth_error_Some in Hsome. lia. }
    destruct Hcell as (ep & Hep). rewrite Hep.
    destruct (endpoint_valid ep) eqn:Hv.
    + assert (Hne : t <> ei) by (intros ->; congruence).
      eapply safe_bind.
      { apply safe_nap; [exact Hw |].
        apply (within_all_mono r); [exact Hr |].
        apply (staged_all_within _ _ _ _ Hs). }
      intros targets1 H1.
      destruct (advances_get_fwd _ _ _ _ _ H1 Hep) as (ep1 & Hep1 & Hev1).
      rewrite Hep1.
      eapply safe_bind; [apply safe_start_connect |].
      intros ep2 (Ha2 & Hi2 & Hv2 & Ht2 & Hc2 & Hfd2).
      apply IH.
      * exact Hr.
      * apply (well_shaped_put _ _ _ ep1); [| exact Hep1 | exact Ha2].
        apply (advances_well_shaped _ _ H1 Hw).
      * intros i j ep' Hg.
        destruct (Nat.eq_dec i ti) as [-> | Hi];
          [destruct (Nat.eq_dec j ei) as [-> | Hj] |].
        -- rewrite (get_ep_put_same _ _ _ _ _ Hep1) in Hg.
           injection Hg as <-.
           destruct (budget_of_here r ti ei) as (Hb1 & Hb2). rewrite Hb2.
           assert (Hs1 := advances_staged _ _ _ _ _ H1 Hs _ _ _ Hep1).
           rewrite Hb1 in Hs1. intros Hvalid.
           assert (Hvalid1 : endpoint_valid ep1 = true)
             by (unfold endpoint_valid in *; rewrite <- Ha2; exact Hvalid).
           destruct (Hs1 Hvalid1) as (H0 & H1' & H2' & _).
           assert (Hp1 := pend_range ep1). assert (Hp2 := pend_range ep2).
           rewrite Hi2, Hv2, Ht2, Hc2.
           split; [lia | split; [lia | split; [lia | exact Hfd2]]].
        -- rewrite get_ep_put_other in Hg by congruence.
           apply (within_mono _ _ _ _ (budget_of_next_cell r ti ei ti j)).
           apply (advances_staged _ _ _ _ _ H1 Hs _ _ _ Hg).
        -- rewrite get_ep_put_other in Hg by congruence.
           apply (within_mono _ _ _ _ (budget_of_next_cell r ti ei i j)).
           apply (advances_staged _ _ _ _ _ H1 Hs _ _ _ Hg).
      * destruct (advances_get_fwd _ _ _ _ _ H1 Hgt) as (ept1 & Hept1 & Hevt).
        exists t, ept1. repeat split; try lia.
        -- rewrite get_ep_put_other by congruence. exact Hept1.
        -- rewrite (evolved_valid _ _ Hevt). exact Hinv.
    + apply safe_ret. split; [exact Hw |].
      intros i j ep' Hg.
      apply (within_mono _ _ _ _ (budget_of_next_target r ti ei i j)).
      apply (Hs _ _ _ Hg).
Qed.

Lemma terminated_cell eps :
  terminated eps ->
  exists t ept, (t < List.length eps)%nat /\ nth_error eps t = Some ept /\
                endpoint_valid ept = false.
Proof.
  intros H. induction H as [ep rest Hinv | ep rest Hex IH].
  - exists 0%nat, ep. simpl. repeat split; [lia | exact Hinv].
  - destruct IH as (t & ept & Hlt & Hnth & Hinv).
    exists (S t), ept. simpl. repeat split; [lia | exact Hnth | exact Hinv].
Qed.

Lemma safe_prepare_from fuel r : forall k ti targets,
  r <= nqueries G -> well_shaped targets ->
  staged U (nqueries G) r ti 0 targets ->
  safe_unless U (prepare_from G E fuel k ti targets)
       (fun targets' => well_shaped targets' /\
                        all_within U (nqueries G) r targets').
Proof.
  induction k as [|k IH]; intros ti targets Hr Hw Hs.
  - simpl. apply safe_ret. split; [exact Hw |].
    apply (staged_all_within _ _ _ _ Hs).
  - rewrite prepare_from_S. destruct (nth_error targets ti) as [tp|] eqn:Hti.
    + eapply safe_bind.
      * apply (safe_prepare_eps fuel r); [exact Hr | exact Hw | exact Hs |].
        assert (Hterm : terminated (endpoints tp)).
        { unfold well_shaped in Hw. rewrite Forall_forall in Hw.
          apply Hw. apply (nth_error_In _ _ Hti). }
        destruct (terminated_cell _ Hterm) as (t & ept & Hlt & Hnth & Hinv).
        exists t, ept. repeat split; try lia; try exact Hinv.
        unfold get_ep. rewrite Hti. exact Hnth.
      * intros targets1 (Hw1 & Hs1). apply IH; assumption.
    + apply safe_ret. split; [exact Hw |].
      apply (staged_all_within _ _ _ _ Hs).
Qed.

Lemma staged_start r targets :
  all_within U (nqueries G) (r - 1) targets ->
  staged U (nqueries G) r 0 0 targets.
Proof.
  intros H i j ep Hg. unfold budget_of. simpl.
  rewrite andb_false_r. apply (H _ _ _ Hg).
Qed.

Lemma safe_prepare fuel r targets :
  r <= nqueries G -> well_shaped targets ->
  all_within U (nqueries G) (r - 1) targets ->
  safe_unless U (prepare G E fuel targets)
       (fun targets' => well_shaped targets' /\
                        all_within U (nqueries G) r targets').
Proof.
  intros Hr Hw Ha. unfold prepare. destruct targets as [|tp rest].
  - apply safe_exit.
  - destruct (num_endpoints tp =? 0).
    + apply safe_ret. split; [exact Hw |].
      apply (within_all_mono (r - 1)); [lia | exact Ha].
    + apply safe_prepare_from; [exact Hr | exact Hw |].
      apply staged_start. exact Ha.
Qed.

Lemma safe_collect fuel r : forall targets,
  r <= nqueries G -> well_shaped targets ->
  all_within U (nqueries G) r targets ->
  safe_unless U (collect G E fuel targets)
       (fun targets' => well_shaped targets' /\
                        all_within U (nqueries G) r targets').
Proof.
  induction fuel as [|fuel IH]; intros targets Hr Hw Ha; simpl.
  - apply safe_fuel.
  - eapply safe_bind; [eapply safe_generate_fdset; [exact Hw | exact Ha] |].
    intros [max fdset] _. destruct (max =? -1).
    + apply safe_ret. split; assumption.
    + eapply safe_bind; [apply safe_select |].
      intros [ready|] _; [| apply safe_exit].
      eapply safe_bind.
      * apply safe_update; [exact Hw |].
        apply (within_all_mono r); assumption.
      * intros targets1 H1. apply IH; [exact Hr | |].
        -- apply (advances_well_shaped _ _ H1 Hw).
        -- apply (advances_all_within _ _ _ H1 Ha).
Qed.

Lemma safe_rounds fuel : forall n r targets,
  r + Z.of_nat n <= nqueries G -> well_shaped targets ->
  all_within U (nqueries G) r targets ->
  safe_unless U (rounds G E fuel n targets)
       (fun targets' => well_shaped targets' /\
                        all_within U (nqueries G) (r + Z.of_nat n) targets').
Proof.
  induction n as [|n IH]; intros r targets Hr Hw Ha.
  - simpl. apply safe_ret. rewrite Z.add_0_r. split; assumption.
  - cbn [rounds]. eapply safe_bind.
    + apply (safe_prepare fuel (r + 1)); [lia | exact Hw |].
      replace (r + 1 - 1) with r by lia. exact Ha.
    + intros targets1 (Hw1 & Ha1). eapply safe_bind.
      * apply (safe_collect fuel (r + 1)); [lia | exact Hw1 | exact Ha1].
      * intros targets2 (Hw2 & Ha2).
        replace (r + Z.of_nat (S n)) with (r + 1 + Z.of_nat n) by lia.
        apply IH; [lia | exact Hw2 | exact Ha2].
Qed.

Lemma fresh_all_within targets :
  fresh (nqueries G) targets -> all_within U (nqueries G) 0 targets.
Proof.
  intros (_ & Hf) i j ep Hg Hv.
  destruct (Hf _ _ _ Hg Hv) as (Ht & Hc & Hi & Hs & Hl).
  unfold pend. rewrite Ht, Hc, Hi, Hs. simpl.
  split; [lia | split; [lia | split; [exact Hl | left; reflexivity]]].
Qed.

(** [probe] on freshly expanded targets leaves an array or the
    [fd_set] only if [U] holds; no endpoint ends with more than
    [nqueries] samples, and the counters of every endpoint are in
    order *)
Lemma safe_probe fuel targets :
  fresh (nqueries G) targets ->
  safe_unless U (probe G E fuel targets)
       (fun targets' =>
          forall i j ep, get_ep targets' i j = Some ep ->
            endpoint_valid ep = true ->
            0 <= tot ep /\ tot ep <= cnt ep /\ cnt ep <= idx ep /\
            idx ep <= nqueries G /\
            Z.of_nat (List.length (values ep)) = nqueries G).
Proof.
  intros Hf. unfold probe.
  eapply safe_weaken;
    [| apply (safe_rounds fuel (Z.to_nat (nqueries G)) 0 targets);
       [lia | exact (proj1 Hf) | apply fresh_all_within; exact Hf]].
  intros targets' (_ & Ha) i j ep Hg Hv.
  destruct (Ha _ _ _ Hg Hv) as (H0 & H1 & H2 & _).
  assert (Hp := pend_range ep). repeat split; lia.
Qed.

End Bounds.

(** the vectors [expand] builds are fresh *)
Lemma expand_fresh G E host port tp :
  0 <= nqueries G ->
  expand G E host port = Some tp -> fresh (nqueries G) [tp].
Proof.
  intros HN H. unfold expand in H.
  destruct (os_getaddrinfo E host port) as [ai_list|]; [|discriminate].
  injection H as <-. split.
  - constructor; [| constructor]. simpl. unfold terminated.
    apply Exists_app. right. apply Exists_cons_hd. reflexivity.
  - intros i j ep Hg Hv. destruct i as [|i];
      [| rewrite get_ep_cons_S in Hg; destruct i; discriminate Hg].
    rewrite get_ep_cons_O in Hg. simpl in Hg.
    apply nth_error_In in Hg. apply in_app_or in Hg.
    destruct Hg as [Hin | [<- | []]]; [| discriminate Hv].
    apply in_map_iff in Hin. destruct Hin as (ai & <- & _). simpl.
    rewrite repeat_length. repeat split. lia.
Qed.

Lemma fresh_nil slots : fresh slots [].
Proof.
  split; [constructor |]. intros i j ep H. destruct i; discriminate H.
Qed.

Lemma get_ep_app t1 t2 i j :
  get_ep (t1 ++ t2) i j =
  if (i <? List.length t1)%nat then get_ep t1 i j
  else get_ep t2 (i - List.length t1) j.
Proof.
  unfold get_ep. destruct (i <? List.length t1)%nat eqn:H; nat_tests.
  - rewrite nth_error_app1 by exact H. reflexivity.
  - rewrite nth_error_app2 by exact H. reflexivity.
Qed.

Lemma fresh_app slots t1 t2 :
  fresh slots t1 -> fresh slots t2 -> fresh slots (t1 ++ t2).
Proof.
  intros (Hw1 & Hf1) (Hw2 & Hf2). split.
  - apply Forall_app. split; assumption.
  - intros i j ep Hg. rewrite get_ep_app in Hg.
    destruct (i <? List.length t1)%nat; [apply (Hf1 _ _ _ Hg) | apply (Hf2 _ _ _ Hg)].
Qed.

Lemma expand_ports_fresh G E host ports : forall targets,
  0 <= nqueries G -> fresh (nqueries G) targets ->
  fresh (nqueries G) (expand_ports G E host ports targets).
Proof.
  induction ports as [|port rest IH]; intros targets HN Hf; simpl.
  - exact Hf.
  - apply IH; [exact HN |].
    destruct (expand G E host port) as [tp|] eqn:He; [| exact Hf].
    apply fresh_app; [exact Hf | apply (expand_fresh G E host port tp HN He)].
Qed.

Lemma expand_hosts_fresh G E ports hosts : forall targets,
  0 <= nqueries G -> fresh (nqueries G) targets ->
  fresh (nqueries G) (expand_hosts E G ports hosts targets).
Proof.
  induction hosts as [|h rest IH]; intros targets HN Hf; simpl.
  - exact Hf.
  - apply IH; [exact HN |]. apply expand_ports_fresh; assumption.
Qed.

Lemma handle_options_no_import E opts : forall st st',
  no_import opts -> handle_options E st opts = Done st' ->
  targets_of st = [] -> 0 < nqueries (globs st) < UINT_MOD ->
  targets_of st' = [] /\ 0 < nqueries (globs st') < UINT_MOD.
Proof.
  induction opts as [|o rest IH]; intros st st' Hno H Ht HN.
  - simpl in H. injection H as <-. split; assumption.
  - inversion Hno as [|? ? Ho Hrest]; subst. simpl in H.
    destruct (handle_option E st o) as [st1| | |] eqn:Hopt; try discriminate.
    apply (IH st1 st' Hrest H).
    + destruct o; simpl in Hopt; try contradiction;
        try (injection Hopt as <-; exact Ht);
        try discriminate.
      * destruct (parse_delay optarg); [injection Hopt as <-; exact Ht
                                       | discriminate].
      * destruct (parse_nqueries optarg); [injection Hopt as <-; exact Ht
                                          | discriminate].
      * destruct (parse_timeout optarg); [injection Hopt as <-; exact Ht
                                         | discriminate].
    + destruct o; simpl in Hopt; try contradiction;
        try (injection Hopt as <-; exact HN);
        try discriminate.
      * destruct (parse_delay optarg); [injection Hopt as <-; exact HN
                                       | discriminate].
      * unfold parse_nqueries in Hopt.
        destruct (strtol optarg) as [v endptr].
        destruct (to_int v >? 0) eqn:Hc; simpl in Hopt; [| discriminate].
        destruct (String.eqb endptr EmptyString); [| discriminate].
        injection Hopt as <-. simpl.
        rewrite Z.gtb_ltb in Hc. apply Z.ltb_lt in Hc.
        assert (Hr := to_int_range v). unfold INT_MAX, UINT_MOD in *. lia.
      * destruct (parse_timeout optarg); [injection Hopt as <-; exact HN
                                         | discriminate].
Qed.

(** when every target comes from the command line, [values] has one
    slot per round; with descriptors the [fd_set] has a bit for, the
    whole run stays inside the arrays and the set *)
Lemma main_hosts_in_bounds E fuel opts hosts w :
  descriptors_fit E ->
  no_import opts -> main_probe E fuel opts hosts w <> Fault.
Proof.
  intros Hfit Hno. unfold main_probe.
  destruct (handle_options E initial_settings opts) as [st| | |] eqn:Hopts;
    try discriminate.
  - destruct (handle_options_no_import E opts _ _ Hno Hopts eq_refl)
      as (Ht & HN); [simpl; unfold UINT_MOD; lia |].
    rewrite Ht.
    assert (Hf : fresh (nqueries (globs st))
                   (expand_hosts E (globs st) (ports_of st) hosts [])).
    { apply expand_hosts_fresh; [lia | apply fresh_nil]. }
    destruct (expand_hosts E (globs st) (ports_of st) hosts []) as [|tp rest];
      [discriminate |].
    assert (Hs := safe_probe False (globs st) E ltac:(lia)
                    (fun n fam st pr =>
                       or_introl (in_fd_set_fit _ (Hfit n fam st pr)))
                    fuel _ Hf w).
    destruct (probe (globs st) E fuel (tp :: rest) w) as [[t' w']| | |];
      try discriminate. contradiction.
  - exfalso. clear -Hno Hopts. revert Hopts. generalize initial_settings.
    induction opts as [|o rest IH]; intros st H; simpl in H.
    + discriminate.
    + inversion Hno as [|? ? Ho Hrest]; subst.
      destruct (handle_option E st o) as [st1| | |] eqn:Hopt;
        try discriminate.
      * apply (IH Hrest st1 H).
      * destruct o; simpl in Hopt; try contradiction; try discriminate.
        -- destruct (parse_delay optarg); discriminate.
        -- destruct (parse_nqueries optarg); discriminate.
        -- destruct (parse_timeout optarg); discriminate.
Qed.

(* ================================================================== *)
(** * Further properties of the code *)

(* ------------------------------------------------------------------ *)
(** ** One pass of the completion collector *)

Section PassEffect.

Variable G : globals.
Variable E : env.

Lemma update_ep_effect tv fdset ep w ep' w' :
  update_ep G E tv fdset ep w = Done (ep', w') ->
  counters_ok ep ->
  pass_effect G tv fdset ep ep'.
Proof.
  intros H Hok. unfold update_ep in H. unfold pass_effect. cbv zeta.
  assert (Hok' := Hok). destruct Hok' as (H0 & H1 & H2 & H3 & H4).
  destruct (negb (socket ep =? 0) && timed_out G (elapsed_us tv ep)) eqn:Hto.
  - inv_bind H as vs w1 Hst. inv_bind H as u w2 Hcl. inv_ret H.
    destruct (samples_after_store _ _ _ _ _ Hst Hok
                (set_socket (set_idx (set_values ep vs)
                               (to_uint (idx ep + 1))) 0)
                eq_refl eq_refl) as (Hi & Hsm & _ & Hlen).
    repeat split; assumption.
  - destruct (negb (socket ep =? 0) && negb (in_fd_set (socket ep)));
      [discriminate H |].
    destruct (negb (socket ep =? 0) && FD_ISSET (socket ep) fdset) eqn:Hrd.
    + inv_bind H as r w1 Hgs. destruct r as [soerror|]; [|discriminate].
      inv_bind H as ep1 w2 Hbr. inv_bind H as u w3 Hcl. inv_ret H.
      destruct (soerror =? 0).
      * inv_bind Hbr as vs w4 Hst. inv_ret Hbr.
        destruct (samples_after_store _ _ _ _ _ Hst Hok
           (set_socket (set_idx (set_cnt (set_tot (set_sum
              (set_values ep vs) (to_uint (sum ep + elapsed_us tv ep)))
              (to_uint (tot ep + 1))) (to_uint (cnt ep + 1)))
              (to_uint (idx ep + 1))) 0)
           eq_refl eq_refl) as (Hi & Hsm & Hle & Hlen).
        simpl in Hi.
        assert (Ht : to_uint (tot ep + 1) = tot ep + 1)
          by (apply to_uint_small; lia).
        assert (Hn : to_uint (cnt ep + 1) = cnt ep + 1)
          by (apply to_uint_small; lia).
        split; [simpl; exact Hn |]. left.
        repeat split; assumption.
      * inv_bind Hbr as vs w4 Hst. inv_ret Hbr.
        destruct (samples_after_store _ _ _ _ _ Hst Hok
           (set_socket (set_idx (set_cnt (set_values ep vs)
              (to_uint (cnt ep + 1))) (to_uint (idx ep + 1))) 0)
           eq_refl eq_refl) as (Hi & Hsm & Hle & Hlen).
        simpl in Hi.
        assert (Hn : to_uint (cnt ep + 1) = cnt ep + 1)
          by (apply to_uint_small; lia).
        split; [simpl; exact Hn |]. right.
        repeat split; assumption.
    + inv_ret H. reflexivity.
Qed.

Lemma update_eps_effect tv fdset eps : forall w eps' w',
  update_eps G E tv fdset eps w = Done (eps', w') ->
  Forall counters_ok eps ->
  vector_effect G tv fdset eps eps'.
Proof.
  induction eps as [|ep rest IH]; intros w eps' w' H Hok.
  - discriminate H.
  - simpl in H. unfold vector_effect. simpl.
    destruct (endpoint_valid ep).
    + inv_bind H as ep1 w1 Hep. inv_bind H as rest1 w2 Hrest. inv_ret H.
      inversion Hok as [|? ? Hok1 Hok2]; subst.
      destruct (IH _ _ _ Hrest Hok2) as (visited' & Heq & Hall).
      exists (ep1 :: visited'). simpl. split; [f_equal; exact Heq |].
      constructor; [| exact Hall].
      apply (update_ep_effect _ _ _ _ _ _ Hep Hok1).
    + inv_ret H. exists []. split; [reflexivity | constructor].
Qed.

Lemma update_from_effect tv fdset targets : forall w targets' w',
  update_from G E tv fdset targets w = Done (targets', w') ->
  all_eps counters_ok targets ->
  Forall2 (target_effect G tv fdset) targets targets'.
Proof.
  induction targets as [|tp rest IH]; intros w targets' w' H Hok;
    simpl in H.
  - inv_ret H. constructor.
  - inv_bind H as eps1 w1 Heps. inv_bind H as rest1 w2 Hrest. inv_ret H.
    inversion Hok as [|? ? Hok1 Hok2]; subst.
    constructor.
    + repeat split. apply (update_eps_effect _ _ _ _ _ _ Heps Hok1).
    + apply (IH _ _ _ Hrest Hok2).
Qed.

End PassEffect.

(** X1.  A pass of [update] judges every endpoint against one reading
    of the clock and changes nothing but the endpoints its scans visit.
    A visited endpoint with a pending attempt whose elapsed time has
    reached the time-out is finalized as a failure, whether or not its
    descriptor is ready and whatever SO_ERROR would say; otherwise, if
    its descriptor is ready, it is finalized as a success or as a
    failure and counted in [cnt]; otherwise it is left exactly as it
    was.  Finalizing clears the socket, appends one sample behind the
    recorded ones and leaves family, address and start time alone; host,
    port and the number of endpoints of every target stay. *)
Theorem update_pass_effect (G : globals) (E : env)
    (targets : list target) (fdset : list Z) (w : world)
    (targets' : list target) (w' : world) :
  update G E targets fdset w = Done (targets', w') ->
  all_eps counters_ok targets ->
  Forall2 (target_effect G (clock E (tick w)) fdset) targets targets'.
Proof.
  intros H Hok. rewrite update_unfold in H.
  apply (update_from_effect G E _ _ _ _ _ _ H Hok).
Qed.

Lemma update_pass_effect_witness :
  Forall2 (target_effect default_globals (mkTimeval 1005 0) [])
    (one_target pending_endpoint)
    (one_target (set_socket
       (set_idx (set_values pending_endpoint [-5000000; 0; 0]) 1) 0)).
Proof.
  apply (update_pass_effect default_globals env_silent
           (one_target pending_endpoint) [] (mkWorld 5 [])
           (one_target (set_socket
              (set_idx (set_values pending_endpoint [-5000000; 0; 0]) 1) 0))
           (mkWorld 7 [EvClose 5; EvTime (mkTimeval 1005 0); EvUpdate])).
  - vm_compute. reflexivity.
  - unfold all_eps, one_target. repeat constructor; vm_compute; decide_all.
Defined.

(* ------------------------------------------------------------------ *)
(** ** The descriptor set and the end of a round *)

Lemma fd_bit_Some fd b :
  fd_bit fd = Some b <->
  (0 <= fd < FD_SETSIZE /\ b = fd) \/
  (- NFDBITS < fd < 0 /\ b = NFDBITS + fd).
Proof.
  unfold fd_bit, FD_SETSIZE, NFDBITS.
  destruct (0 <=? fd) eqn:H0; destruct (fd <? 1024) eqn:H1; simpl;
    try destruct (-64 <? fd) eqn:H2; try destruct (fd <? 0) eqn:H3; simpl;
    split; intros H;
    try (injection H as <-); try discriminate H; try lia;
    try (destruct H as [(H & ->) | (H & ->)]; try reflexivity; lia).
Qed.

Lemma in_fd_set_range fd :
  in_fd_set fd = true <-> - NFDBITS < fd < FD_SETSIZE.
Proof.
  unfold in_fd_set. destruct (fd_bit fd) as [b|] eqn:Hb.
  - apply fd_bit_Some in Hb. unfold FD_SETSIZE, NFDBITS in *.
    split; [intros _; lia | reflexivity].
  - split; [discriminate |]. intros H. exfalso.
    assert (Hs : exists b, fd_bit fd = Some b).
    { destruct (Z_lt_dec fd 0).
      - exists (NFDBITS + fd). apply fd_bit_Some. right.
        unfold FD_SETSIZE, NFDBITS in *. lia.
      - exists fd. apply fd_bit_Some. left.
        unfold FD_SETSIZE, NFDBITS in *. lia. }
    destruct Hs as (b & Hs). congruence.
Qed.

Lemma fd_bit_range fd b : fd_bit fd = Some b -> 0 <= b < FD_SETSIZE.
Proof.
  intros H. apply fd_bit_Some in H. unfold FD_SETSIZE, NFDBITS in *. lia.
Qed.

Lemma bits_of_app l1 l2 : bits_of (l1 ++ l2) = bits_of l1 ++ bits_of l2.
Proof. unfold bits_of. apply flat_map_app. Qed.

Lemma in_bits_of fds b :
  In b (bits_of fds) <-> exists fd, In fd fds /\ fd_bit fd = Some b.
Proof.
  unfold bits_of. rewrite in_flat_map. split; intros (fd & Hin & H); exists fd;
    (split; [exact Hin |]).
  - destruct (fd_bit fd) as [b'|]; [| contradiction].
    destruct H as [-> | []]. reflexivity.
  - rewrite H. left. reflexivity.
Qed.

Lemma generate_fdset_eps_Done eps : forall max fdset max' fdset',
  generate_fdset_eps eps (max, fdset) = Done (max', fdset') ->
  let pend := filter (fun fd => negb (fd =? 0)) (map socket (scanned eps)) in
  Forall (fun fd => in_fd_set fd = true) pend /\
  fdset' = rev (bits_of pend) ++ fdset /\ max' = fold_left Z.max pend max.
Proof.
  induction eps as [|ep rest IH]; intros max fdset max' fdset' H.
  - discriminate H.
  - simpl in H. simpl. destruct (endpoint_valid ep).
    + simpl. destruct (negb (socket ep =? 0)) eqn:Hs.
      * destruct (fd_bit (socket ep)) as [b|] eqn:Hb; [| discriminate H].
        apply IH in H. destruct H as (Hfit & Hf & Hm). simpl.
        split; [| split].
        -- constructor; [unfold in_fd_set; rewrite Hb; reflexivity | exact Hfit].
        -- unfold bits_of. simpl. rewrite Hb. simpl.
           fold (bits_of (filter (fun fd => negb (fd =? 0))
                            (map socket (scanned rest)))).
           rewrite Hf, <- app_assoc. reflexivity.
        -- rewrite Hm. f_equal.
           destruct (socket ep >? max) eqn:Hc; rewrite Z.gtb_ltb in Hc;
             [apply Z.ltb_lt in Hc | apply Z.ltb_ge in Hc]; lia.
      * apply IH in H. exact H.
    + injection H as <- <-. split; [constructor | split; reflexivity].
Qed.

Lemma generate_fdset_from_Done targets : forall max fdset max' fdset',
  generate_fdset_from targets (max, fdset) = Done (max', fdset') ->
  Forall (fun fd => in_fd_set fd = true) (pending_fds targets) /\
  fdset' = rev (bits_of (pending_fds targets)) ++ fdset /\
  max' = fold_left Z.max (pending_fds targets) max.
Proof.
  induction targets as [|tp rest IH]; intros max fdset max' fdset' H;
    simpl in H.
  - injection H as <- <-. split; [constructor | split; reflexivity].
  - destruct (generate_fdset_eps (endpoints tp) (max, fdset))
      as [[max1 fdset1]| | |] eqn:Heps; try discriminate.
    apply generate_fdset_eps_Done in Heps.
    destruct Heps as (Hfit1 & Hf1 & Hm1).
    apply IH in H. destruct H as (Hfit & Hf & Hm).
    unfold pending_fds. simpl. fold (pending_fds rest).
    split; [| split].
    + apply Forall_app. split; assumption.
    + rewrite Hf, Hf1, bits_of_app, rev_app_distr, <- app_assoc. reflexivity.
    + rewrite Hm, Hm1, fold_left_app. reflexivity.
Qed.

(** without a descriptor outside the set the scans end normally, with
    one they end in the access outside the set *)
Lemma generate_fdset_eps_total eps : forall acc,
  terminated eps ->
  let pend := filter (fun fd => negb (fd =? 0)) (map socket (scanned eps)) in
  if forallb in_fd_set pend
  then exists r, generate_fdset_eps eps acc = Done r
  else generate_fdset_eps eps acc = Fault.
Proof.
  induction eps as [|ep rest IH]; intros acc Ht.
  - inversion Ht.
  - simpl. destruct (endpoint_valid ep) eqn:Hv.
    + assert (Ht' : terminated rest).
      { inversion Ht as [? ? Hinv | ? ? Hex]; subst;
          [congruence | exact Hex]. }
      destruct acc as [max fdset]. simpl.
      destruct (negb (socket ep =? 0)) eqn:Hs.
      * simpl. unfold in_fd_set at 1.
        destruct (fd_bit (socket ep)) as [b|]; simpl; [| reflexivity].
        apply (IH _ Ht').
      * apply (IH _ Ht').
    + simpl. eexists. reflexivity.
Qed.

Lemma generate_fdset_from_total targets : forall acc,
  well_shaped targets ->
  if forallb in_fd_set (pending_fds targets)
  then exists r, generate_fdset_from targets acc = Done r
  else generate_fdset_from targets acc = Fault.
Proof.
  induction targets as [|tp rest IH]; intros acc Hw; simpl.
  - eexists. reflexivity.
  - inversion Hw as [|? ? Ht Hrest]; subst.
    unfold pending_fds. simpl. fold (pending_fds rest).
    rewrite forallb_app.
    assert (He := generate_fdset_eps_total (endpoints tp) acc Ht).
    cbv zeta in He.
    destruct (forallb in_fd_set
                (filter (fun fd => negb (fd =? 0))
                   (map socket (scanned (endpoints tp))))); simpl.
    + destruct He as (r & ->). apply (IH r Hrest).
    + rewrite He. reflexivity.
Qed.

Lemma fold_max_facts l : forall m,
  m <= fold_left Z.max l m /\
  (forall x, In x l -> x <= fold_left Z.max l m) /\
  (fold_left Z.max l m = m \/ In (fold_left Z.max l m) l).
Proof.
  induction l as [|y r IH]; intros m; simpl.
  - repeat split; [lia | intros x [] | left; reflexivity].
  - destruct (IH (Z.max m y)) as (H1 & H2 & H3). repeat split.
    + lia.
    + intros x [<- | Hx]; [lia | apply H2; exact Hx].
    + destruct H3 as [H3 | H3].
      * rewrite H3. destruct (Z.max_spec m y) as [(_ & ->) | (_ & ->)];
          [right; left; reflexivity | left; reflexivity].
      * right. right. exact H3.
Qed.

Lemma pending_fds_nonzero targets fd : In fd (pending_fds targets) -> fd <> 0.
Proof.
  unfold pending_fds. rewrite in_flat_map. intros (tp & _ & Hin).
  apply filter_In in Hin. destruct Hin as (_ & Hnz).
  apply negb_true_iff in Hnz. apply Z.eqb_neq in Hnz. exact Hnz.
Qed.

Lemma generate_fdset_Done targets w max fdset w' :
  generate_fdset targets w = Done ((max, fdset), w') ->
  w' = w /\ fdset = rev (bits_of (pending_fds targets)) /\
  max = fold_left Z.max (pending_fds targets) (-1).
Proof.
  intros H. unfold generate_fdset in H.
  destruct (generate_fdset_from targets (-1, [])) as [[m f]| | |] eqn:Hg;
    try discriminate.
  injection H as <- <- <-.
  apply generate_fdset_from_Done in Hg. destruct Hg as (_ & -> & ->).
  rewrite app_nil_r. repeat split.
Qed.

Lemma generate_fdset_fits targets w r w' :
  generate_fdset targets w = Done (r, w') ->
  forall fd, In fd (pending_fds targets) -> - NFDBITS < fd < FD_SETSIZE.
Proof.
  intros H. unfold generate_fdset in H.
  destruct (generate_fdset_from targets (-1, [])) as [[m f]| | |] eqn:Hg;
    try discriminate.
  apply generate_fdset_from_Done in Hg. destruct Hg as (Hfit & _).
  rewrite Forall_forall in Hfit. intros fd Hin.
  apply in_fd_set_range. apply (Hfit _ Hin).
Qed.

Lemma no_pending_iff targets :
  fold_left Z.max (pending_fds targets) (-1) = -1 <->
  forall fd, In fd (pending_fds targets) -> fd < 0.
Proof.
  destruct (fold_max_facts (pending_fds targets) (-1)) as (H1 & H2 & H3).
  split.
  - intros Hm fd Hin. specialize (H2 _ Hin).
    assert (Hnz := pending_fds_nonzero _ _ Hin). lia.
  - intros Hall. destruct H3 as [H3 | H3]; [exact H3 |].
    specialize (Hall _ H3). lia.
Qed.

(** X2.  When [generate_fdset] returns, every non-zero descriptor field
    of the endpoints its scans visit is one FD_SET can take (above -64
    and below FD_SETSIZE), and the set holds exactly the bits of these
    descriptors: its own bit for a descriptor from 0 on, bit 64 + fd for
    a negative one (63 for the -1 an unsupported family leaves).  [max]
    is -1 or the largest of the descriptors, and it is -1 exactly when
    none of them is positive.  The log and the call counter are
    untouched.  On vectors with their closing cell the call ends in no
    other way but the access outside the set, and it does so exactly
    when one of the descriptors is -64 or less or FD_SETSIZE or more. *)
Theorem generate_fdset_collects_pending (targets : list target) (w : world) :
  (forall max fdset w',
     generate_fdset targets w = Done ((max, fdset), w') ->
     w' = w /\
     (forall fd, In fd (pending_fds targets) ->
                 fd <> 0 /\ - NFDBITS < fd < FD_SETSIZE /\ fd < 1 + max) /\
     (forall b, In b fdset <->
                exists fd, In fd (pending_fds targets) /\ fd_bit fd = Some b) /\
     (forall b, In b fdset -> 0 <= b < FD_SETSIZE) /\
     (max = -1 \/ In max (pending_fds targets)) /\
     (max = -1 <-> forall fd, In fd (pending_fds targets) -> fd < 0)) /\
  (well_shaped targets ->
   (generate_fdset targets w = Fault <->
    exists fd, In fd (pending_fds targets) /\
               ~ (- NFDBITS < fd < FD_SETSIZE)) /\
   generate_fdset targets w <> Exit /\ generate_fdset targets w <> Fuel).
Proof.
  split.
  - intros max fdset w' H. assert (Hfit := generate_fdset_fits _ _ _ _ H).
    apply generate_fdset_Done in H. destruct H as (-> & -> & ->).
    destruct (fold_max_facts (pending_fds targets) (-1)) as (H1 & H2 & H3).
    split; [reflexivity |]. split; [| split; [| split; [| split]]].
    + intros fd Hin. split; [apply (pending_fds_nonzero _ _ Hin) |].
      split; [apply (Hfit _ Hin) |]. specialize (H2 _ Hin). lia.
    + intros b. rewrite <- in_rev. apply in_bits_of.
    + intros b Hin. apply in_rev in Hin. apply in_bits_of in Hin.
      destruct Hin as (fd & _ & Hb). apply (fd_bit_range _ _ Hb).
    + exact H3.
    + apply no_pending_iff.
  - intros Hw. unfold generate_fdset.
    assert (Ht := generate_fdset_from_total targets (-1, []) Hw).
    destruct (forallb in_fd_set (pending_fds targets)) eqn:Hall.
    + destruct Ht as (r & ->). rewrite forallb_forall in Hall.
      split; [| split; discriminate].
      split; [discriminate |]. intros (fd & Hin & Hout).
      exfalso. apply Hout. apply in_fd_set_range. apply (Hall _ Hin).
    + rewrite Ht. split; [| split; discriminate].
      split; [| reflexivity]. intros _.
      assert (Hex : existsb (fun fd => negb (in_fd_set fd))
                      (pending_fds targets) = true).
      { clear -Hall. induction (pending_fds targets) as [|x l IH];
          simpl in *; [discriminate |].
        destruct (in_fd_set x); simpl in *; [apply IH; exact Hall | reflexivity]. }
      apply existsb_exists in Hex. destruct Hex as (fd & Hin & Hno).
      exists fd. split; [exact Hin |]. intros Hr.
      apply in_fd_set_range in Hr. rewrite Hr in Hno. discriminate Hno.
Qed.

Lemma generate_fdset_collects_pending_witness :
  (In 63 [5; 63] <->
   exists fd, In fd (pending_fds dual_stack) /\ fd_bit fd = Some 63) /\
  (generate_fdset (one_target (set_socket fresh_endpoint 1024)) world0 = Fault
   <-> exists fd,
         In fd (pending_fds (one_target (set_socket fresh_endpoint 1024))) /\
         ~ (- NFDBITS < fd < FD_SETSIZE)).
Proof.
  split.
  - refine (proj1 (proj2 (proj2 (proj1 (generate_fdset_collects_pending
              dual_stack world0) 5 [5; 63] world0 _))) 63).
    reflexivity.
  - refine (proj1 (proj2 (generate_fdset_collects_pending
              (one_target (set_socket fresh_endpoint 1024)) world0) _)).
    constructor; [| constructor].
    apply Exists_cons_tl. apply Exists_cons_hd. reflexivity.
Defined.

(** the descriptor set at work: descriptor -1 is bit 63, descriptor
    FD_SETSIZE has no bit; [select] with [nfds = 0] leaves bit 63 as it
    is, with [nfds = 6] it rewrites the first word and clears it; a
    pass of [update] that finds bit 63 set takes the endpoint left with
    -1 for ready and calls [getsockopt] on -1 *)
Example fd_set_at_work :
  fd_bit (-1) = Some 63 /\ fd_bit 1023 = Some 1023 /\
  fd_bit 1024 = None /\ fd_bit (-64) = None /\
  generate_fdset dual_stack world0 = Done ((5, [5; 63]), world0) /\
  generate_fdset (one_target (set_socket fresh_endpoint 1024)) world0
    = Fault /\
  select env_silent 0 [63] (Some (mkTimeval 0 15000)) world0 =
    Done (Some [63],
          mkWorld 1 [EvSelect (Some (mkTimeval 0 15000)) [63]]) /\
  select env_silent 6 [5; 63] None world0 =
    Done (Some [], mkWorld 1 [EvSelect None [5; 63]]) /\
  select env_ok 6 [5; 63] None world0 =
    Done (Some [5], mkWorld 1 [EvSelect None [5; 63]]) /\
  FD_ISSET (-1) [63] = true /\
  update default_globals env_strict (one_target stale_endpoint) [63] world0
    = Exit /\
  update default_globals env_strict (one_target stale_endpoint) [] world0
    = Done (one_target stale_endpoint,
            mkWorld 1 [EvTime (mkTimeval 1000 0); EvUpdate]).
Proof. repeat split. Qed.

Section Drain.

Variable G : globals.
Variable E : env.

Lemma collect_Done_drained fuel : forall targets w targets' w',
  collect G E fuel targets w = Done (targets', w') ->
  forall fd, In fd (pending_fds targets') -> - NFDBITS < fd < 0.
Proof.
  induction fuel as [|fuel IH]; intros targets w targets' w' H.
  - discriminate H.
  - simpl in H. inv_bind H as mf w1 Hgen. destruct mf as [max fdset].
    destruct (max =? -1) eqn:Hm.
    + inv_ret H. apply Z.eqb_eq in Hm.
      assert (Hfit := generate_fdset_fits _ _ _ _ Hgen).
      destruct (generate_fdset_Done _ _ _ _ _ Hgen) as (_ & _ & Hmax).
      intros fd Hin. split; [apply (Hfit _ Hin) |].
      revert fd Hin. apply no_pending_iff. rewrite <- Hmax. exact Hm.
    + inv_bind H as rc w2 Hsel. destruct rc as [ready|]; [|discriminate].
      inv_bind H as targets1 w3 Hupd. apply (IH _ _ _ _ H).
Qed.

End Drain.

(** X3.  The round driver returns only when no endpoint that the scans
    visit has a positive descriptor left: every attempt on a descriptor
    of the operating system has been finalized before [collect] hands
    back, also at the end of each round of the probing loop.  What may
    still be marked as pending is an endpoint with a negative
    descriptor, the -1 that a [socket] refused for its family leaves
    behind: it does not keep [collect] waiting, is carried into the
    next round, and is met there by the next pass of [update]. *)
Theorem collect_drains_round (G : globals) (E : env) (fuel n : nat)
    (targets : list target) (w : world)
    (targets' : list target) (w' : world) :
  (collect G E fuel targets w = Done (targets', w') \/
   rounds G E fuel (S n) targets w = Done (targets', w')) ->
  forall fd, In fd (pending_fds targets') -> - NFDBITS < fd < 0.
Proof.
  intros [H | H].
  - apply (collect_Done_drained G E fuel _ _ _ _ H).
  - revert targets w H. induction n as [|n IH]; intros targets w H.
    + cbn [rounds] in H. inv_bind H as t1 w1 Hp. inv_bind H as t2 w2 Hc.
      inv_ret H. apply (collect_Done_drained G E fuel _ _ _ _ Hc).
    + change (rounds G E fuel (S (S n)) targets)
        with (bind (prepare G E fuel targets)
                (fun t => bind (collect G E fuel t)
                            (fun t => rounds G E fuel (S n) t))) in H.
      inv_bind H as t1 w1 Hp. inv_bind H as t2 w2 Hc.
      apply (IH _ _ H).
Qed.

Lemma collect_drains_round_witness :
  Forall (fun fd => - NFDBITS < fd < 0)
    (pending_fds (one_target (set_socket fresh_endpoint (-1)))) /\
  pending_fds (one_target (set_socket fresh_endpoint (-1))) = [-1] /\
  pending_fds (one_target (set_socket
     (set_idx (set_values pending_endpoint [-6000000; 0; 0]) 1) 0)) = [].
Proof.
  split; [| split; reflexivity].
  apply Forall_forall.
  apply (collect_drains_round default_globals env_silent 5 0
           (one_target (set_socket fresh_endpoint (-1))) (mkWorld 5 [])
           (one_target (set_socket fresh_endpoint (-1))) (mkWorld 5 [])).
  left. vm_compute. reflexivity.
Defined.

(** a round with one attempt on descriptor 5 is drained by time-out *)
Example collect_drains_descriptor :
  collect default_globals env_silent 5 (one_target pending_endpoint)
    (mkWorld 5 []) =
  Done (one_target (set_socket
          (set_idx (set_values pending_endpoint [-6000000; 0; 0]) 1) 0),
        mkWorld 8 [EvClose 5; EvTime (mkTimeval 1006 0); EvUpdate;
                   EvSelect (Some (mkTimeval 2 0)) [5]]).
Proof. vm_compute. reflexivity. Qed.

(* ------------------------------------------------------------------ *)
(** ** What can end the run *)

Lemma steady_ret {A} (a : A) (Q : A -> Prop) : Q a -> steady (ret a) Q.
Proof. intros H w. exact H. Qed.

Lemma steady_bind {A B} (c : M A) (k : A -> M B) (Q1 : A -> Prop) Q2 :
  steady c Q1 -> (forall a, Q1 a -> steady (k a) Q2) -> steady (bind c k) Q2.
Proof.
  intros Hc Hk w. unfold bind. specialize (Hc w).
  destruct (c w) as [[a w1]| | |]; try exact I; try contradiction.
  apply (Hk a Hc w1).
Qed.

Lemma steady_weaken {A} (c : M A) (Q1 Q2 : A -> Prop) :
  (forall a, Q1 a -> Q2 a) -> steady c Q1 -> steady c Q2.
Proof.
  intros HQ Hc w. specialize (Hc w).
  destruct (c w) as [[a w1]| | |]; try exact I; try contradiction.
  apply HQ. exact Hc.
Qed.

Lemma steady_syscall {A} (f : nat -> A) ev (Q : A -> Prop) :
  (forall n, Q (f n)) -> steady (syscall f ev) Q.
Proof. intros H w. apply H. Qed.

Lemma steady_store l i v : steady (store l i v) (fun _ => True).
Proof.
  intros w. unfold store. destruct (i <? 0); [exact I |].
  destruct (store_nat l (Z.to_nat i) v); exact I.
Qed.

Lemma length_replace_nth {A} (l : list A) : forall i v,
  List.length (replace_nth l i v) = List.length l.
Proof.
  induction l as [|x r IH]; intros i v; destruct i; simpl;
    try reflexivity. rewrite IH. reflexivity.
Qed.

Lemma length_put_ep targets ti ei ep :
  List.length (put_ep targets ti ei ep) = List.length targets.
Proof.
  unfold put_ep. destruct (nth_error targets ti); [| reflexivity].
  apply length_replace_nth.
Qed.

Section Steady.

Variable G : globals.
Variable E : env.

Hypothesis os_reliable : reliable E.

Lemma steady_update_ep tv fdset ep :
  steady (update_ep G E tv fdset ep) (fun _ => True).
Proof.
  unfold update_ep.
  destruct (negb (socket ep =? 0) && timed_out G (elapsed_us tv ep)).
  - eapply steady_bind; [apply steady_store | intros vs _].
    eapply (steady_bind _ _ (fun _ => True));
      [apply steady_syscall; intros; exact I | intros _ _].
    apply steady_ret. exact I.
  - destruct (negb (socket ep =? 0) && negb (in_fd_set (socket ep)));
      [intros w; exact I |].
    destruct (negb (socket ep =? 0) && FD_ISSET (socket ep) fdset).
    + eapply (steady_bind _ _ (fun r => r <> None)).
      * intros w. unfold getsockopt. apply (proj2 os_reliable).
      * intros [soerror|] Hr; [| congruence].
        eapply (steady_bind _ _ (fun _ => True)).
        -- destruct (soerror =? 0);
             (eapply steady_bind; [apply steady_store | intros vs _];
              apply steady_ret; exact I).
        -- intros ep1 _.
           eapply (steady_bind _ _ (fun _ => True));
             [apply steady_syscall; intros; exact I | intros _ _].
           apply steady_ret. exact I.
    + apply steady_ret. exact I.
Qed.

Lemma steady_update_eps tv fdset eps :
  steady (update_eps G E tv fdset eps) (fun _ => True).
Proof.
  induction eps as [|ep rest IH]; simpl.
  - intros w. exact I.
  - destruct (endpoint_valid ep); [| apply steady_ret; exact I].
    eapply steady_bind; [apply steady_update_ep | intros ep1 _].
    eapply steady_bind; [exact IH | intros rest1 _].
    apply steady_ret. exact I.
Qed.

Lemma steady_update_from tv fdset targets :
  steady (update_from G E tv fdset targets)
         (fun targets' => List.length targets' = List.length targets).
Proof.
  induction targets as [|tp rest IH]; simpl.
  - apply steady_ret. reflexivity.
  - eapply steady_bind; [apply steady_update_eps | intros eps1 _].
    eapply steady_bind; [exact IH | intros rest1 Hlen].
    apply steady_ret. simpl. rewrite Hlen. reflexivity.
Qed.

Lemma steady_update targets fdset :
  steady (update G E targets fdset)
         (fun targets' => List.length targets' = List.length targets).
Proof.
  unfold update.
  eapply (steady_bind _ _ (fun _ => True)); [intros w; exact I | intros _ _].
  eapply (steady_bind _ _ (fun _ => True));
    [apply steady_syscall; intros; exact I | intros tv _].
  apply steady_update_from.
Qed.

Lemma steady_generate_fdset targets :
  steady (generate_fdset targets) (fun _ => True).
Proof.
  intros w. unfold generate_fdset.
  assert (H : forall tps acc, generate_fdset_from tps acc <> Exit).
  { assert (He : forall eps acc, generate_fdset_eps eps acc <> Exit).
    { induction eps as [|ep r IH]; intros [m f]; simpl; [discriminate |].
      destruct (endpoint_valid ep); [| discriminate].
      destruct (negb (socket ep =? 0)); [| apply IH].
      destruct (fd_bit (socket ep)); [apply IH | discriminate]. }
    induction tps as [|tp r IH]; intros acc; simpl; [discriminate |].
    specialize (He (endpoints tp) acc).
    destruct (generate_fdset_eps (endpoints tp) acc); try discriminate;
      [apply IH | congruence]. }
  specialize (H targets (-1, [])).
  destruct (generate_fdset_from targets (-1, [])); try exact I. congruence.
Qed.

Lemma steady_select nfds fdset bound :
  steady (select E nfds fdset bound) (fun r => r <> None).
Proof.
  intros w. unfold select.
  assert (H := proj1 os_reliable (tick w) fdset).
  destruct (os_select E (tick w) fdset); [discriminate | congruence].
Qed.

Lemma steady_nap_loop fuel dts : forall targets,
  steady (nap_loop G E fuel dts targets)
         (fun targets' => List.length targets' = List.length targets).
Proof.
  induction fuel as [|fuel IH]; intros targets; simpl.
  - intros w. exact I.
  - eapply steady_bind; [apply steady_generate_fdset | intros [max fdset] _].
    eapply (steady_bind _ _ (fun _ => True));
      [apply steady_syscall; intros; exact I | intros dtn _].
    destruct (timercmp_lt (dd G) (timersub dtn dts)).
    + apply steady_ret. reflexivity.
    + eapply steady_bind; [apply steady_select |].
      intros [ready|] Hr; [| congruence].
      eapply steady_bind; [apply steady_update | intros targets1 H1].
      eapply steady_weaken; [| apply IH].
      intros targets2 H2. congruence.
Qed.

Lemma steady_nap fuel targets :
  steady (nap G E fuel targets)
         (fun targets' => List.length targets' = List.length targets).
Proof.
  unfold nap. destruct (negb (delay G =? 0)).
  - eapply (steady_bind _ _ (fun _ => True));
      [apply steady_syscall; intros; exact I | intros dts _].
    apply steady_nap_loop.
  - apply steady_ret. reflexivity.
Qed.

(** no failure of [socket], [fcntl] or [connect] ends the run *)
Lemma steady_start_connect ep : steady (start_connect E ep) (fun _ => True).
Proof.
  unfold start_connect.
  eapply (steady_bind _ _ (fun _ => True));
    [apply steady_syscall; intros; exact I | intros [rc errno] _].
  destruct (socket (set_socket ep rc) <? 0).
  - destruct ((errno =? EAFNOSUPPORT) || (errno =? EPROTONOSUPPORT));
      apply steady_ret; exact I.
  - eapply (steady_bind _ _ (fun _ => True)); [intros w; exact I | intros rc2 _].
    destruct (rc2 =? -1).
    + eapply (steady_bind _ _ (fun _ => True));
        [apply steady_syscall; intros; exact I | intros _ _].
      apply steady_ret; exact I.
    + eapply (steady_bind _ _ (fun _ => True));
        [intros w; exact I | intros [rc3 errno3] _].
      destruct ((rc3 =? -1) && negb (errno3 =? EINPROGRESS)).
      * eapply (steady_bind _ _ (fun _ => True));
          [apply steady_syscall; intros; exact I | intros _ _].
        apply steady_ret; exact I.
      * eapply (steady_bind _ _ (fun _ => True));
          [apply steady_syscall; intros; exact I | intros tv _].
        apply steady_ret; exact I.
Qed.

Lemma steady_prepare_eps fuel : forall k ti ei targets,
  steady (prepare_eps G E fuel k ti ei targets)
         (fun targets' => List.length targets' = List.length targets).
Proof.
  induction k as [|k IH]; intros ti ei targets; simpl.
  - intros w. exact I.
  - destruct (get_ep targets ti ei) as [ep|]; [| intros w; exact I].
    destruct (endpoint_valid ep); [| apply steady_ret; reflexivity].
    eapply steady_bind; [apply steady_nap | intros targets1 H1].
    destruct (get_ep targets1 ti ei) as [ep1|]; [| intros w; exact I].
    eapply steady_bind; [apply steady_start_connect | intros ep2 _].
    eapply steady_weaken; [| apply IH].
    intros targets2 H2. rewrite H2, length_put_ep. exact H1.
Qed.

Lemma steady_prepare_from fuel : forall k ti targets,
  steady (prepare_from G E fuel k ti targets)
         (fun targets' => List.length targets' = List.length targets).
Proof.
  induction k as [|k IH]; intros ti targets.
  - simpl. apply steady_ret. reflexivity.
  - rewrite prepare_from_S. destruct (nth_error targets ti) as [tp|].
    + eapply steady_bind; [apply steady_prepare_eps | intros targets1 H1].
      eapply steady_weaken; [| apply IH]. intros targets2 H2. congruence.
    + apply steady_ret. reflexivity.
Qed.

Lemma steady_prepare fuel targets :
  targets <> [] ->
  steady (prepare G E fuel targets)
         (fun targets' => List.length targets' = List.length targets).
Proof.
  intros Hne. unfold prepare. destruct targets as [|tp rest]; [congruence |].
  destruct (num_endpoints tp =? 0); [apply steady_ret; reflexivity |].
  apply steady_prepare_from.
Qed.

Lemma steady_collect fuel : forall targets,
  steady (collect G E fuel targets)
         (fun targets' => List.length targets' = List.length targets).
Proof.
  induction fuel as [|fuel IH]; intros targets; simpl.
  - intros w. exact I.
  - eapply steady_bind; [apply steady_generate_fdset | intros [max fdset] _].
    destruct (max =? -1); [apply steady_ret; reflexivity |].
    eapply steady_bind; [apply steady_select |].
    intros [ready|] Hr; [| congruence].
    eapply steady_bind; [apply steady_update | intros targets1 H1].
    eapply steady_weaken; [| apply IH]. intros targets2 H2. congruence.
Qed.

Lemma steady_rounds fuel : forall n targets,
  targets <> [] ->
  steady (rounds G E fuel n targets)
         (fun targets' => List.length targets' = List.length targets).
Proof.
  induction n as [|n IH]; intros targets Hne.
  - simpl. apply steady_ret. reflexivity.
  - cbn [rounds].
    eapply steady_bind; [apply steady_prepare; exact Hne | intros t1 H1].
    eapply steady_bind; [apply steady_collect | intros t2 H2].
    eapply steady_weaken; [| apply IH].
    + intros t3 H3. congruence.
    + intros ->. simpl in H2. destruct t1; [| discriminate].
      simpl in H1. destruct targets; [congruence | discriminate].
Qed.

End Steady.

(** X4.  Whatever [socket], [fcntl] and [connect] answer, and however
    the attempts end, the probing loop does not call [exit]: as long as
    [select] and [getsockopt] themselves do not fail, a run over a
    non-empty list of targets never ends in [exit(EXIT_FAILURE)], and
    it keeps the number of targets. *)
Theorem probe_exits_only_on_primitive_failure (G : globals) (E : env)
    (fuel : nat) (targets : list target) (w : world) :
  reliable E -> targets <> [] ->
  probe G E fuel targets w <> Exit /\
  forall targets' w', probe G E fuel targets w = Done (targets', w') ->
    List.length targets' = List.length targets.
Proof.
  intros Hrel Hne.
  assert (H := steady_rounds G E Hrel fuel (Z.to_nat (nqueries G)) targets
                 Hne w).
  unfold probe. destruct (rounds G E fuel (Z.to_nat (nqueries G)) targets w)
    as [[t' w1]| | |]; try contradiction.
  - split; [discriminate |]. intros targets' w' Heq.
    injection Heq as <- <-. exact H.
  - split; [discriminate | intros; discriminate].
  - split; [discriminate | intros; discriminate].
Qed.

Lemma probe_exits_only_on_primitive_failure_witness :
  probe default_globals env_refused 10 (one_target fresh_endpoint) world0
    <> Exit.
Proof.
  apply (probe_exits_only_on_primitive_failure default_globals env_refused 10
           (one_target fresh_endpoint) world0).
  - split; intros; discriminate.
  - discriminate.
Defined.

(* ------------------------------------------------------------------ *)
(** ** Whole runs stay inside the sample arrays *)

Lemma fit_unless_False E :
  descriptors_fit E ->
  forall n fam st pr,
    in_fd_set (fst (os_socket E n fam st pr)) = true \/ False.
Proof. intros H n fam st pr. left. apply in_fd_set_fit. apply H. Qed.

Lemma fit_unless_True E :
  forall n fam st pr,
    in_fd_set (fst (os_socket E n fam st pr)) = true \/ True.
Proof. intros n fam st pr. right. exact I. Qed.

Lemma env_low_fits : descriptors_fit env_low.
Proof.
  intros n fam st pr. unfold env_low, os_socket, fst, FD_SETSIZE.
  assert (H := Z.mod_pos_bound (Z.of_nat n) 8 ltac:(lia)). lia.
Qed.

(** what a run of [probe] that returns leaves behind, whatever the
    operating system does *)
Lemma probe_Done_counters G E fuel targets w targets' w' :
  0 <= nqueries G < UINT_MOD ->
  fresh (nqueries G) targets ->
  probe G E fuel targets w = Done (targets', w') ->
  forall i j ep, get_ep targets' i j = Some ep ->
    endpoint_valid ep = true ->
    0 <= tot ep /\ tot ep <= cnt ep /\ cnt ep <= idx ep /\
    idx ep <= nqueries G /\
    Z.of_nat (List.length (values ep)) = nqueries G.
Proof.
  intros HN Hf H.
  assert (Hs := safe_probe True G E HN (fit_unless_True E) fuel targets Hf w).
  rewrite H in Hs. exact Hs.
Qed.

(** X5.  Started on targets as [expand] leaves them (closing cell in
    every vector, counters zero, no socket, [nqueries] sample slots),
    on an operating system whose [socket] returns -1 or a descriptor
    below FD_SETSIZE, the probing loop never reads or writes outside
    [values], an endpoint vector or the [fd_set], whatever else the
    operating system answers.  Whatever the descriptors are, a run that
    returns leaves every endpoint with
    [0 <= tot <= cnt <= idx <= nqueries] and its [nqueries] slots. *)
Theorem probe_stays_in_bounds (G : globals) (E : env) (fuel : nat)
    (targets : list target) (w : world) :
  0 <= nqueries G < UINT_MOD ->
  fresh (nqueries G) targets ->
  (descriptors_fit E -> probe G E fuel targets w <> Fault) /\
  forall targets' w', probe G E fuel targets w = Done (targets', w') ->
    forall i j ep, get_ep targets' i j = Some ep ->
      endpoint_valid ep = true ->
      0 <= tot ep /\ tot ep <= cnt ep /\ cnt ep <= idx ep /\
      idx ep <= nqueries G /\
      Z.of_nat (List.length (values ep)) = nqueries G.
Proof.
  intros HN Hf. split.
  - intros Hfit.
    assert (H := safe_probe False G E HN (fit_unless_False E Hfit)
                   fuel targets Hf w).
    destruct (probe G E fuel targets w) as [[t1 w1]| | |];
      try discriminate. contradiction.
  - intros targets' w' H.
    apply (probe_Done_counters G E fuel targets w targets' w' HN Hf H).
Qed.

Lemma probe_stays_in_bounds_witness :
  probe default_globals env_low 10 (one_target fresh_endpoint) world0
    <> Fault.
Proof.
  refine (proj1 (probe_stays_in_bounds default_globals env_low 10
                   (one_target fresh_endpoint) world0 _ _) _).
  - vm_compute. split; [discriminate | reflexivity].
  - split.
    + constructor; [| constructor]. right. left. reflexivity.
    + intros i j ep Hg Hv.
      destruct i as [|[|i]]; [| discriminate Hg | discriminate Hg].
      destruct j as [|[|[|j]]]; try discriminate Hg.
      * injection Hg as <-. repeat split.
      * injection Hg as <-. discriminate Hv.
  - exact env_low_fits.
Defined.

(** X6.  When no host file is imported with -f and [socket] returns -1
    or a descriptor below FD_SETSIZE, the run from the first option to
    the end of the probing loop never leaves an array or the [fd_set],
    whatever options, hostnames and answers of the operating system it
    meets; and whatever the descriptors are, at the end of a run that
    returns no endpoint holds more samples than the final [nqueries]. *)
Theorem main_without_import_stays_in_bounds (E : env) (fuel : nat)
    (opts : list option_arg) (hosts : list string) (w : world) :
  no_import opts ->
  (descriptors_fit E -> main_probe E fuel opts hosts w <> Fault) /\
  forall st w', main_probe E fuel opts hosts w = Done (st, w') ->
    forall i j ep, get_ep (targets_of st) i j = Some ep ->
      endpoint_valid ep = true ->
      0 <= idx ep <= nqueries (globs st) /\
      Z.of_nat (List.length (values ep)) = nqueries (globs st).
Proof.
  intros Hno.
  split; [intros Hfit; apply main_hosts_in_bounds; assumption |].
  intros st' w' Hmain. unfold main_probe in Hmain.
  destruct (handle_options E initial_settings opts) as [st| | |] eqn:Hopts;
    try discriminate.
  destruct (handle_options_no_import E opts _ _ Hno Hopts eq_refl)
    as (Ht & HN); [simpl; unfold UINT_MOD; lia |].
  rewrite Ht in Hmain.
  assert (Hf : fresh (nqueries (globs st))
                 (expand_hosts E (globs st) (ports_of st) hosts [])).
  { apply expand_hosts_fresh; [lia | apply fresh_nil]. }
  destruct (expand_hosts E (globs st) (ports_of st) hosts []) as [|tp rest].
  - injection Hmain as <- <-. rewrite Ht.
    intros i j ep Hg. destruct i; discriminate Hg.
  - destruct (probe (globs st) E fuel (tp :: rest) w) as [[t1 w1]| | |] eqn:Hp;
      try discriminate.
    injection Hmain as <- <-. simpl.
    intros i j ep Hg Hv.
    destruct (probe_Done_counters (globs st) E fuel _ w _ _ ltac:(lia) Hf Hp
                i j ep Hg Hv) as (H0 & H1 & H2 & H3 & H4).
    split; [lia | exact H4].
Qed.

Lemma main_without_import_stays_in_bounds_witness :
  main_probe env_low 10 [Opt_q "2"%string; Opt_s] ["example.net"%string]
    world0 <> Fault.
Proof.
  refine (proj1 (main_without_import_stays_in_bounds env_low 10
           [Opt_q "2"%string; Opt_s] ["example.net"%string] world0 _) _).
  - repeat constructor.
  - exact env_low_fits.
Defined.

(* ------------------------------------------------------------------ *)
(** ** The bounds handed to select *)

Lemma quiet_bound_valid ev : quiet ev -> select_bound_valid ev.
Proof. destruct ev; simpl; intros H; try exact I; contradiction. Qed.

Lemma nap_bound_valid G dts dtn :
  0 <= delay G -> normalized dts -> normalized dtn ->
  timercmp_lt (dd G) (timersub dtn dts) = false ->
  valid_timeout (timersub (timeradd dts (dd G)) dtn).
Proof.
  unfold valid_timeout, normalized, timercmp_lt, timersub, timeradd, dd.
  intros Hd Hs Hn.
  assert (Hr := Z.rem_bound_pos (delay G) 1000 Hd ltac:(lia)).
  assert (Hq : 0 <= Z.quot (delay G) 1000)
    by (apply Z.quot_pos; lia).
  set (q := Z.quot (delay G) 1000) in *.
  set (r := Z.rem (delay G) 1000) in *.
  destruct (tv_usec dtn - tv_usec dts <? 0) eqn:H1; simpl;
    destruct (tv_usec dts + r * 1000 >=? 1000000) eqn:H2; simpl;
    rewrite ?Z.geb_leb in H2;
    repeat match goal with
           | |- context [?a =? ?b] => destruct (a =? b) eqn:?
           | |- context [?a <? ?b] => destruct (a <? b) eqn:?
           end; simpl; intros Hc; try discriminate;
    nat_tests;
    repeat match goal with
           | H : (_ <=? _) = true |- _ => apply Z.leb_le in H
           | H : (_ <=? _) = false |- _ => apply Z.leb_gt in H
           | H : (_ <? _) = true |- _ => apply Z.ltb_lt in H
           | H : (_ <? _) = false |- _ => apply Z.ltb_ge in H
           | H : (_ =? _) = true |- _ => apply Z.eqb_eq in H
           | H : (_ =? _) = false |- _ => apply Z.eqb_neq in H
           end; lia.
Qed.

Lemma collect_bound_valid G to :
  0 <= timeout G -> collect_bound G = Some to -> valid_timeout to.
Proof.
  intros Ht H. unfold collect_bound in H.
  destruct (negb (timeout G =? 0)); [| discriminate].
  injection H as <-. unfold valid_timeout, normalized. simpl.
  assert (Hr := Z.rem_bound_pos (timeout G) 1000 Ht ltac:(lia)).
  assert (Hq : 0 <= Z.quot (timeout G) 1000) by (apply Z.quot_pos; lia).
  lia.
Qed.

Section Bound.

Variable G : globals.
Variable E : env.

Hypothesis clock_normalized : forall n, normalized (clock E n).
Hypothesis delay_nonneg : 0 <= delay G.
Hypothesis timeout_nonneg : 0 <= timeout G.

Lemma bound_update targets fdset :
  emits select_bound_valid (update G E targets fdset).
Proof.
  eapply emits_weaken; [apply quiet_bound_valid | apply emits_update].
Qed.

Lemma bound_nap_loop fuel n0 : forall targets,
  emits select_bound_valid (nap_loop G E fuel (clock E n0) targets).
Proof.
  induction fuel as [|fuel IH]; intros targets; simpl.
  - intros w a w' H. discriminate H.
  - apply emits_bind; [apply emits_generate_fdset | intros [max fdset]].
    intros w a w' H. inv_bind H as dtn w1 Htime.
    unfold gettimeofday, syscall in Htime. injection Htime as <- <-.
    apply (extends_trans _ w (mkWorld (S (tick w))
                                (EvTime (clock E (tick w)) :: trace w))).
    + exists [EvTime (clock E (tick w))]. split; [reflexivity |].
      repeat constructor.
    + destruct (timercmp_lt (dd G) (timersub (clock E (tick w)) (clock E n0)))
        eqn:Hc.
      * inv_ret H. apply extends_refl.
      * assert (Hem : forall to, valid_timeout to ->
                  emits select_bound_valid
                    (rc <- select E (1 + max) fdset (Some to) ;;
                     match rc with
                     | Some ready =>
                         t1 <- update G E targets ready ;;
                         nap_loop G E fuel (clock E n0) t1
                     | None => exit_failure
                     end)).
        { intros to Hto. apply emits_bind.
          - apply emits_select. intros fds. exact Hto.
          - intros [ready|]; [| intros w2 a2 w3 H2; discriminate H2].
            apply emits_bind; [apply bound_update | intros t1; apply IH]. }
        apply (Hem _ (nap_bound_valid G _ _ delay_nonneg
                        (clock_normalized n0) (clock_normalized (tick w)) Hc)
                 _ _ _ H).
Qed.

Lemma bound_nap fuel targets :
  emits select_bound_valid (nap G E fuel targets).
Proof.
  unfold nap. destruct (negb (delay G =? 0)); [| apply emits_ret].
  intros w a w' H. inv_bind H as dts w1 Htime.
  unfold gettimeofday, syscall in Htime. injection Htime as <- <-.
  apply (extends_trans _ w (mkWorld (S (tick w))
                              (EvTime (clock E (tick w)) :: trace w)));
    [| apply (bound_nap_loop _ _ _ _ _ _ H)].
  exists [EvTime (clock E (tick w))]. split; [reflexivity |].
  repeat constructor.
Qed.

Lemma bound_start_connect ep :
  emits select_bound_valid (start_connect E ep).
Proof.
  unfold start_connect.
  apply emits_bind; [apply emits_syscall; intros; exact I | intros [rc errno]].
  destruct (socket (set_socket ep rc) <? 0).
  - destruct ((errno =? EAFNOSUPPORT) || (errno =? EPROTONOSUPPORT));
      apply emits_ret.
  - apply emits_bind.
    + apply emits_silent. intros w a w' H. unfold sys_setfl in H.
      injection H as <- <-. reflexivity.
    + intros rc2. destruct (rc2 =? -1).
      * apply emits_bind; [apply emits_syscall; intros; exact I | intros _].
        apply emits_ret.
      * apply emits_bind.
        -- apply emits_silent. intros w a w' H. unfold sys_connect in H.
           injection H as <- <-. reflexivity.
        -- intros [rc3 errno3].
           destruct ((rc3 =? -1) && negb (errno3 =? EINPROGRESS)).
           ++ apply emits_bind;
                [apply emits_syscall; intros; exact I | intros _].
              apply emits_ret.
           ++ apply emits_bind;
                [apply emits_syscall; intros; exact I | intros tv].
              apply emits_ret.
Qed.

Lemma bound_prepare_eps fuel : forall k ti ei targets,
  emits select_bound_valid (prepare_eps G E fuel k ti ei targets).
Proof.
  induction k as [|k IH]; intros ti ei targets; simpl.
  - intros w a w' H. discriminate H.
  - destruct (get_ep targets ti ei) as [ep|];
      [| intros w a w' H; discriminate H].
    destruct (endpoint_valid ep); [| apply emits_ret].
    apply emits_bind; [apply bound_nap | intros targets1].
    destruct (get_ep targets1 ti ei) as [ep1|];
      [| intros w a w' H; discriminate H].
    apply emits_bind; [apply bound_start_connect | intros ep2]. apply IH.
Qed.

Lemma bound_prepare_from fuel : forall k ti targets,
  emits select_bound_valid (prepare_from G E fuel k ti targets).
Proof.
  induction k as [|k IH]; intros ti targets.
  - simpl. apply emits_ret.
  - rewrite prepare_from_S. destruct (nth_error targets ti) as [tp|].
    + apply emits_bind; [apply bound_prepare_eps | intros t1; apply IH].
    + apply emits_ret.
Qed.

Lemma bound_prepare fuel targets :
  emits select_bound_valid (prepare G E fuel targets).
Proof.
  unfold prepare. destruct targets as [|tp rest].
  - intros w a w' H. discriminate H.
  - destruct (num_endpoints tp =? 0); [apply emits_ret |].
    apply bound_prepare_from.
Qed.

Lemma bound_collect fuel : forall targets,
  emits select_bound_valid (collect G E fuel targets).
Proof.
  induction fuel as [|fuel IH]; intros targets; simpl.
  - intros w a w' H. discriminate H.
  - apply emits_bind; [apply emits_generate_fdset | intros [max fdset]].
    destruct (max =? -1); [apply emits_ret |].
    apply emits_bind.
    + apply emits_select. intros fds. simpl.
      destruct (collect_bound G) as [to|] eqn:Hb; [| exact I].
      apply (collect_bound_valid G to timeout_nonneg Hb).
    + intros [ready|]; [| intros w a w' H; discriminate H].
      apply emits_bind; [apply bound_update | intros t1; apply IH].
Qed.

Lemma bound_rounds fuel : forall n targets,
  emits select_bound_valid (rounds G E fuel n targets).
Proof.
  induction n as [|n IH]; intros targets.
  - simpl. apply emits_ret.
  - cbn [rounds].
    apply emits_bind; [apply bound_prepare | intros t1].
    apply emits_bind; [apply bound_collect | intros t2; apply IH].
Qed.

End Bound.

(** X7.  Every [select] of a run gets a bound the kernel accepts: NULL,
    or a timeval with [0 <= tv_sec] and [0 <= tv_usec < 1000000].  In
    particular the remaining nap [dts + dd - dtn] that [prepare]
    computes is never negative, because the loop is left as soon as
    [dd < dtn - dts].  The clock is assumed to return normalized
    timevals; [timeout] is assumed non-negative, as main's option
    parser leaves it. *)
Theorem select_bounds_are_valid (G : globals) (E : env) (fuel : nat)
    (targets : list target) (w : world)
    (targets' : list target) (w' : world) :
  (forall n, normalized (clock E n)) ->
  0 <= delay G -> 0 <= timeout G ->
  probe G E fuel targets w = Done (targets', w') ->
  exists seg, trace w' = seg ++ trace w /\ Forall select_bound_valid seg.
Proof.
  intros Hclock Hd Ht H.
  apply (bound_rounds G E Hclock Hd Ht fuel _ _ _ _ _ H).
Qed.

Lemma select_bounds_are_valid_witness :
  exists seg,
    trace (snd example_probe) = seg ++ trace world0 /\
    Forall select_bound_valid seg.
Proof.
  apply (select_bounds_are_valid default_globals env_steady 10
           (one_target fresh_endpoint) world0 (fst example_probe)).
  - intros n. unfold normalized. simpl.
    assert (H := Z.mod_pos_bound (Z.of_nat n) 100). lia.
  - vm_compute. discriminate.
  - vm_compute. discriminate.
  - vm_compute. reflexivity.
Defined.

(* ------------------------------------------------------------------ *)
(** ** One sample per endpoint and round *)

Lemma kept_refl slots ep : kept slots ep ep.
Proof. split; [reflexivity | split; intros n H; exact H]. Qed.

Lemma kept_trans slots ep1 ep2 ep3 :
  kept slots ep1 ep2 -> kept slots ep2 ep3 -> kept slots ep1 ep3.
Proof.
  intros (A1 & T1 & S1) (A2 & T2 & S2). split; [congruence | split].
  - intros n H. apply T2, T1, H.
  - intros n H. apply S2, S1, H.
Qed.

Lemma kept_valid slots ep ep' :
  kept slots ep ep' -> endpoint_valid ep' = endpoint_valid ep.
Proof. intros (Ha & _). unfold endpoint_valid. rewrite Ha. reflexivity. Qed.

Lemma follows_refl slots targets : follows slots targets targets.
Proof.
  apply Forall2_refl. intros tp. split; [reflexivity |].
  apply Forall2_refl. apply kept_refl.
Qed.

Lemma follows_trans slots t1 t2 t3 :
  follows slots t1 t2 -> follows slots t2 t3 -> follows slots t1 t3.
Proof.
  apply Forall2_trans. intros a b c (N1 & H1) (N2 & H2). split.
  - congruence.
  - revert H1 H2. apply Forall2_trans. apply kept_trans.
Qed.

Lemma follows_get slots t t' i j ep' :
  follows slots t t' -> get_ep t' i j = Some ep' ->
  exists ep, get_ep t i j = Some ep /\ kept slots ep ep'.
Proof.
  intros Ha Hg. unfold get_ep in *.
  destruct (nth_error t' i) as [tp'|] eqn:Hi; [|discriminate].
  destruct (Forall2_nth_error_r _ _ _ Ha _ _ Hi) as (tp & Htp & _ & Hev).
  rewrite Htp. apply (Forall2_nth_error_r _ _ _ Hev _ _ Hg).
Qed.

Lemma follows_get_fwd slots t t' i j ep :
  follows slots t t' -> get_ep t i j = Some ep ->
  exists ep', get_ep t' i j = Some ep' /\ kept slots ep ep'.
Proof.
  intros Ha Hg. unfold get_ep in *.
  destruct (nth_error t i) as [tp|] eqn:Hi; [|discriminate].
  destruct (Forall2_nth_error_l _ _ _ Ha _ _ Hi) as (tp' & Htp & _ & Hev).
  rewrite Htp. apply (Forall2_nth_error_l _ _ _ Hev _ _ Hg).
Qed.

Lemma follows_none slots t t' i j :
  follows slots t t' -> get_ep t i j = None -> get_ep t' i j = None.
Proof.
  intros Ha Hg. destruct (get_ep t' i j) as [ep'|] eqn:Hg'; [| reflexivity].
  destruct (follows_get _ _ _ _ _ _ Ha Hg') as (ep & Hep & _). congruence.
Qed.

Lemma follows_in_round slots r ti ei t t' :
  follows slots t t' -> in_round slots r ti ei t -> in_round slots r ti ei t'.
Proof.
  intros Ha Hs i j ep' Hg.
  destruct (follows_get _ _ _ _ _ _ Ha Hg) as (ep & Hep & (_ & HT & HS)).
  specialize (Hs _ _ _ Hep). destruct (visited ti ei i j); auto.
Qed.

Lemma follows_all_tight slots r t t' :
  follows slots t t' -> all_tight slots r t -> all_tight slots r t'.
Proof.
  intros Ha Hs i j ep' Hg.
  destruct (follows_get _ _ _ _ _ _ Ha Hg) as (ep & Hep & (_ & HT & HS)).
  apply HT. apply (Hs _ _ _ Hep).
Qed.

Lemma follows_closed slots t t' :
  follows slots t t' -> closed t -> closed t'.
Proof.
  intros Ha Hc i j ep' Hg Hinv.
  destruct (follows_get _ _ _ _ _ _ Ha Hg) as (ep & Hep & Hk).
  apply (follows_none _ _ _ _ _ Ha). apply (Hc _ _ _ Hep).
  rewrite <- (kept_valid _ _ _ Hk). exact Hinv.
Qed.

Lemma follows_shape slots t t' :
  follows slots t t' -> map num_endpoints t' = map num_endpoints t.
Proof.
  intros H. induction H as [|a b l l' (Hn & _) H IH]; simpl;
    [reflexivity | rewrite Hn, IH; reflexivity].
Qed.

Lemma shape_probed t t' :
  map num_endpoints t' = map num_endpoints t -> probed t -> probed t'.
Proof.
  destruct t as [|a l], t' as [|b l']; simpl; intros H Hp;
    try discriminate; try exact I.
  injection H as H _. rewrite H. exact Hp.
Qed.

Lemma tight_settled_counters slots n ep :
  0 <= n <= slots -> slots < UINT_MOD -> endpoint_valid ep = true ->
  tight slots n ep \/ settled slots n ep -> counters_ok ep.
Proof.
  intros Hn Hs Hv [H | H]; destruct (H Hv) as ((H0 & H1 & H2) & H3 & H4 & H5);
    assert (Hp := pend_range ep); unfold counters_ok; rewrite H4;
    repeat split; lia.
Qed.

Section Exact.

Variable G : globals.
Variable E : env.

Hypothesis nqueries_range : 0 <= nqueries G < UINT_MOD.
Hypothesis os_cooperative : cooperative E.

Lemma update_ep_kept tv fdset ep w ep' w' :
  update_ep G E tv fdset ep w = Done (ep', w') ->
  counters_ok ep ->
  kept (nqueries G) ep ep'.
Proof.
  intros H Hok. apply update_ep_effect in H; [| exact Hok].
  unfold pass_effect in H. cbv zeta in H.
  assert (Hfin : forall v,
            finalized ep ep' v -> socket ep <> 0 ->
            tot ep <= tot ep' /\ tot ep' - tot ep <= cnt ep' - cnt ep /\
            cnt ep' - cnt ep <= 1 ->
            kept (nqueries G) ep ep').
  { intros v ((Hf & Hst & Hpr & Had & Hal & Htv) & Hs0 & Hi & Hl & _)
           Hnz Hcnt.
    assert (Hv : endpoint_valid ep' = endpoint_valid ep)
      by (unfold endpoint_valid; rewrite Hal; reflexivity).
    assert (Hp' : pend ep' = 0) by (unfold pend; rewrite Hs0; reflexivity).
    assert (Hp : pend ep = 1).
    { unfold pend. destruct (socket ep =? 0) eqn:Hz; [| reflexivity].
      apply Z.eqb_eq in Hz. contradiction. }
    split; [exact Hal | split]; intros n Ht Hvalid;
      rewrite Hv in Hvalid;
      destruct (Ht Hvalid) as ((H0 & H1 & H2) & H3 & H4 & H5).
    - rewrite Hp', Hl. repeat split; lia.
    - contradiction. }
  destruct (negb (socket ep =? 0) && timed_out G (elapsed_us tv ep)) eqn:Hto.
  - apply andb_true_iff in Hto. destruct Hto as (Hnz & _).
    apply negb_true_iff in Hnz. apply Z.eqb_neq in Hnz.
    destruct H as (Hf & Ht & Hc & _).
    apply (Hfin _ Hf Hnz). lia.
  - destruct (negb (socket ep =? 0) && FD_ISSET (socket ep) fdset) eqn:Hrd.
    + apply andb_true_iff in Hrd. destruct Hrd as (Hnz & _).
      apply negb_true_iff in Hnz. apply Z.eqb_neq in Hnz.
      destruct H as (Hc & [(Hf & Ht & _) | (Hf & Ht & _)]);
        apply (Hfin _ Hf Hnz); lia.
    + subst ep'. apply kept_refl.
Qed.

Lemma update_eps_kept tv fdset eps : forall w eps' w',
  update_eps G E tv fdset eps w = Done (eps', w') ->
  (forall ep, In ep eps -> endpoint_valid ep = true -> counters_ok ep) ->
  Forall2 (kept (nqueries G)) eps eps'.
Proof.
  induction eps as [|ep rest IH]; intros w eps' w' H Hok.
  - discriminate H.
  - simpl in H. destruct (endpoint_valid ep) eqn:Hv.
    + inv_bind H as ep1 w1 Hep. inv_bind H as rest1 w2 Hrest. inv_ret H.
      constructor.
      * apply (update_ep_kept _ _ _ _ _ _ Hep).
        apply Hok; [left; reflexivity | exact Hv].
      * apply (IH _ _ _ Hrest). intros ep0 Hin. apply Hok. right. exact Hin.
    + inv_ret H. apply Forall2_refl. apply kept_refl.
Qed.

Lemma update_from_kept tv fdset targets : forall w targets' w',
  update_from G E tv fdset targets w = Done (targets', w') ->
  (forall i j ep, get_ep targets i j = Some ep ->
     endpoint_valid ep = true -> counters_ok ep) ->
  follows (nqueries G) targets targets'.
Proof.
  induction targets as [|tp rest IH]; intros w targets' w' H Hok;
    simpl in H.
  - inv_ret H. constructor.
  - inv_bind H as eps1 w1 Heps. inv_bind H as rest1 w2 Hrest. inv_ret H.
    constructor.
    + split; [reflexivity |]. simpl.
      apply (update_eps_kept _ _ _ _ _ _ Heps).
      intros ep Hin. apply In_nth_error in Hin. destruct Hin as (j & Hj).
      apply (Hok 0%nat j). rewrite get_ep_cons_O. exact Hj.
    + apply (IH _ _ _ Hrest). intros i j ep Hg.
      apply (Hok (S i) j). rewrite get_ep_cons_S. exact Hg.
Qed.

Lemma update_follows targets fdset w targets' w' :
  update G E targets fdset w = Done (targets', w') ->
  (forall i j ep, get_ep targets i j = Some ep ->
     endpoint_valid ep = true -> counters_ok ep) ->
  follows (nqueries G) targets targets'.
Proof.
  intros H Hok. rewrite update_unfold in H.
  apply (update_from_kept _ _ _ _ _ _ H Hok).
Qed.

Lemma in_round_counters r ti ei targets :
  1 <= r <= nqueries G -> in_round (nqueries G) r ti ei targets ->
  forall i j ep, get_ep targets i j = Some ep ->
    endpoint_valid ep = true -> counters_ok ep.
Proof.
  intros Hr Hin i j ep Hg Hv. specialize (Hin _ _ _ Hg).
  destruct (visited ti ei i j).
  - apply (tight_settled_counters (nqueries G) r); try lia; auto.
  - apply (tight_settled_counters (nqueries G) (r - 1)); try lia; auto.
Qed.

Lemma nap_loop_follows fuel dts r ti ei : forall targets w targets' w',
  1 <= r <= nqueries G -> in_round (nqueries G) r ti ei targets ->
  nap_loop G E fuel dts targets w = Done (targets', w') ->
  follows (nqueries G) targets targets'.
Proof.
  induction fuel as [|fuel IH]; intros targets w targets' w' Hr Hin H.
  - discriminate H.
  - simpl in H. inv_bind H as mf w1 Hgen. destruct mf as [max fdset].
    inv_bind H as dtn w2 Htime.
    destruct (timercmp_lt (dd G) (timersub dtn dts)).
    + inv_ret H. apply follows_refl.
    + inv_bind H as rc w3 Hsel. destruct rc as [ready|]; [| discriminate].
      inv_bind H as targets1 w4 Hupd.
      assert (H1 : follows (nqueries G) targets targets1).
      { apply (update_follows _ _ _ _ _ Hupd).
        apply (in_round_counters r ti ei); assumption. }
      apply (follows_trans _ _ _ _ H1).
      apply (IH _ _ _ _ Hr (follows_in_round _ _ _ _ _ _ H1 Hin) H).
Qed.

Lemma nap_follows fuel r ti ei targets w targets' w' :
  1 <= r <= nqueries G -> in_round (nqueries G) r ti ei targets ->
  nap G E fuel targets w = Done (targets', w') ->
  follows (nqueries G) targets targets'.
Proof.
  intros Hr Hin H. unfold nap in H. destruct (negb (delay G =? 0)).
  - inv_bind H as dts w1 Htime.
    apply (nap_loop_follows _ _ _ _ _ _ _ _ _ Hr Hin H).
  - inv_ret H. apply follows_refl.
Qed.

(** on a cooperative host every attempt is started *)
Lemma start_connect_opens ep w ep' w' :
  start_connect E ep w = Done (ep', w') ->
  exists fd tv, 0 < fd /\ ep' = set_tvs (set_socket ep fd) tv.
Proof.
  destruct os_cooperative as (Hsock & Hfl & Hconn).
  intros H. unfold start_connect in H.
  inv_bind H as se w1 Hs. destruct se as [rc errno].
  unfold sys_socket, syscall in Hs. injection Hs as Hs _.
  assert (Hrc : 0 < rc).
  { specialize (Hsock (tick w) (family ep) (socktype ep) (protocol ep)).
    rewrite Hs in Hsock. exact Hsock. }
  assert (Hneg : (socket (set_socket ep rc) <? 0) = false)
    by (apply Z.ltb_ge; simpl; lia).
  rewrite Hneg in H.
  inv_bind H as rc2 w2 Hfl2. unfold sys_setfl in Hfl2.
  injection Hfl2 as Hfl2 _.
  assert (Hne : (rc2 =? -1) = false).
  { apply Z.eqb_neq. rewrite <- Hfl2. apply Hfl. }
  rewrite Hne in H.
  inv_bind H as ce w3 Hc. destruct ce as [rc3 errno3].
  unfold sys_connect in Hc. injection Hc as Hc _.
  assert (Hgo : ((rc3 =? -1) && negb (errno3 =? EINPROGRESS)) = false).
  { specialize (Hconn (tick w2)). rewrite Hc in Hconn. simpl in Hconn.
    destruct Hconn as [Hc1 | Hc2].
    - apply Z.eqb_neq in Hc1. rewrite Hc1. reflexivity.
    - rewrite Hc2, Z.eqb_refl. apply andb_false_r. }
  rewrite Hgo in H.
  inv_bind H as tv w4 Ht. inv_ret H.
  exists rc, tv. split; [exact Hrc | reflexivity].
Qed.

Lemma visited_step ti ei i j :
  (i, j) <> (ti, ei) -> visited ti (S ei) i j = visited ti ei i j.
Proof.
  intros Hne. unfold visited.
  destruct (i <? ti)%nat eqn:H1; [reflexivity |].
  destruct (i =? ti)%nat eqn:H2; [| reflexivity]. simpl.
  destruct (j <? S ei)%nat eqn:H3; destruct (j <? ei)%nat eqn:H4;
    try reflexivity; nat_tests; [| lia].
  exfalso. apply Hne. f_equal; lia.
Qed.

Lemma visited_here ti ei :
  visited ti ei ti ei = false /\ visited ti (S ei) ti ei = true.
Proof.
  unfold visited. rewrite Nat.ltb_irrefl, Nat.eqb_refl, Nat.ltb_irrefl.
  assert (H : (ei <? S ei)%nat = true) by (apply Nat.ltb_lt; lia).
  rewrite H. split; reflexivity.
Qed.

Lemma visited_next_target ti ei i j :
  i <> ti \/ (j < ei)%nat -> visited (S ti) 0 i j = visited ti ei i j.
Proof.
  intros Hc. unfold visited.
  destruct (i <? S ti)%nat eqn:H1; destruct (i <? ti)%nat eqn:H2;
    destruct (i =? S ti)%nat eqn:H3; destruct (i =? ti)%nat eqn:H4;
    destruct (j <? ei)%nat eqn:H5; simpl; try reflexivity;
    nat_tests; lia.
Qed.

Lemma visited_past ti j : visited (S ti) 0 ti j = true.
Proof.
  unfold visited.
  assert (H : (ti <? S ti)%nat = true) by (apply Nat.ltb_lt; lia).
  rewrite H. reflexivity.
Qed.

Lemma get_ep_beyond t i j j' :
  get_ep t i j = None -> (j <= j')%nat -> get_ep t i j' = None.
Proof.
  unfold get_ep. destruct (nth_error t i) as [tp|]; [| reflexivity].
  intros H Hle. apply nth_error_None in H. apply nth_error_None. lia.
Qed.

Lemma closed_put t ti ei ep ep' :
  closed t -> get_ep t ti ei = Some ep -> endpoint_valid ep = true ->
  addrlen ep' = addrlen ep -> closed (put_ep t ti ei ep').
Proof.
  intros Hc Hep Hv Ha i j e Hg Hinv.
  destruct (Nat.eq_dec i ti) as [-> | Hi];
    [destruct (Nat.eq_dec j ei) as [-> | Hj] |].
  - rewrite (get_ep_put_same _ _ _ _ _ Hep) in Hg. injection Hg as <-.
    unfold endpoint_valid in *. rewrite Ha in Hinv. congruence.
  - rewrite get_ep_put_other in Hg by congruence.
    assert (Hn := Hc _ _ _ Hg Hinv).
    destruct (Nat.eq_dec (S j) ei) as [<- | Hs]; [congruence |].
    rewrite get_ep_put_other by congruence. exact Hn.
  - rewrite get_ep_put_other in Hg by congruence.
    rewrite get_ep_put_other by congruence. apply (Hc _ _ _ Hg Hinv).
Qed.

Lemma map_replace_nth {A B} (f : A -> B) (l : list A) : forall i x y,
  nth_error l i = Some x -> f y = f x ->
  map f (replace_nth l i y) = map f l.
Proof.
  induction l as [|a r IH]; intros i x y Hi Hf; destruct i; simpl in *;
    try discriminate.
  - injection Hi as ->. rewrite Hf. reflexivity.
  - rewrite (IH _ _ _ Hi Hf). reflexivity.
Qed.

Lemma shape_put t ti ei ep' :
  map num_endpoints (put_ep t ti ei ep') = map num_endpoints t.
Proof.
  unfold put_ep. destruct (nth_error t ti) as [tp|] eqn:Hti; [| reflexivity].
  apply (map_replace_nth _ _ _ tp); [exact Hti | reflexivity].
Qed.

Lemma prepare_eps_round fuel r : forall k ti ei targets w targets' w',
  1 <= r <= nqueries G ->
  in_round (nqueries G) r ti ei targets -> closed targets ->
  prepare_eps G E fuel k ti ei targets w = Done (targets', w') ->
  in_round (nqueries G) r (S ti) 0 targets' /\ closed targets' /\
  map num_endpoints targets' = map num_endpoints targets.
Proof.
  induction k as [|k IH]; intros ti ei targets w targets' w' Hr Hin Hc H.
  - discriminate H.
  - simpl in H. destruct (get_ep targets ti ei) as [ep|] eqn:Hep;
      [| discriminate].
    destruct (endpoint_valid ep) eqn:Hv.
    + inv_bind H as targets1 w1 Hnap.
      assert (H1 := nap_follows _ _ _ _ _ _ _ _ Hr Hin Hnap).
      destruct (follows_get_fwd _ _ _ _ _ _ H1 Hep) as (ep1 & Hep1 & Hk1).
      rewrite Hep1 in H. inv_bind H as ep2 w2 Hst.
      destruct (start_connect_opens _ _ _ _ Hst) as (fd & tv & Hfd & ->).
      assert (Hv1 : endpoint_valid ep1 = true)
        by (rewrite (kept_valid _ _ _ Hk1); exact Hv).
      assert (Hin1 := follows_in_round _ _ _ _ _ _ H1 Hin).
      apply IH in H; [| exact Hr | |].
      * destruct H as (Hr' & Hc' & Hs'). split; [exact Hr' |].
        split; [exact Hc' |].
        rewrite Hs', shape_put. apply (follows_shape _ _ _ H1).
      * intros i j e Hg.
        destruct (Nat.eq_dec i ti) as [-> | Hi];
          [destruct (Nat.eq_dec j ei) as [-> | Hj] |].
        -- rewrite (get_ep_put_same _ _ _ _ _ Hep1) in Hg.
           injection Hg as <-.
           destruct (visited_here ti ei) as (Hb1 & Hb2). rewrite Hb2.
           assert (Hs1 := Hin1 _ _ _ Hep1). rewrite Hb1 in Hs1.
           destruct (Hs1 Hv1) as ((H0 & H2 & H3) & H4 & H5 & H6).
           intros _. unfold pend. simpl.
           assert (Hz : (fd =? 0) = false) by (apply Z.eqb_neq; lia).
           rewrite Hz. repeat split; lia.
        -- rewrite get_ep_put_other in Hg by congruence.
           rewrite visited_step by congruence. apply (Hin1 _ _ _ Hg).
        -- rewrite get_ep_put_other in Hg by congruence.
           rewrite visited_step by congruence. apply (Hin1 _ _ _ Hg).
      * apply (closed_put _ _ _ ep1); [| exact Hep1 | exact Hv1 | reflexivity].
        apply (follows_closed _ _ _ H1 Hc).
    + inv_ret H. split; [| split; [exact Hc | reflexivity]].
      intros i j e Hg.
      destruct (Nat.eq_dec i ti) as [-> | Hi].
      * rewrite visited_past.
        destruct (Nat.lt_ge_cases j ei) as [Hlt | Hge].
        -- assert (Hold := Hin _ _ _ Hg).
           rewrite <- (visited_next_target ti ei ti j) in Hold
             by (right; exact Hlt).
           rewrite visited_past in Hold. exact Hold.
        -- destruct (Nat.eq_dec j ei) as [-> | Hj].
           ++ assert (e = ep) by congruence. subst e.
              intros Hvalid. congruence.
           ++ assert (Hnone := Hc _ _ _ Hep Hv).
              rewrite (get_ep_beyond _ _ _ j Hnone) in Hg by lia.
              discriminate Hg.
      * rewrite (visited_next_target ti ei i j) by (left; exact Hi).
        apply (Hin _ _ _ Hg).
Qed.

Lemma in_round_done r ti targets :
  in_round (nqueries G) r ti 0 targets -> (List.length targets <= ti)%nat ->
  all_tight (nqueries G) r targets.
Proof.
  intros Hin Hlen i j ep Hg. assert (H := Hin _ _ _ Hg).
  assert (Hi : (i < List.length targets)%nat).
  { apply nth_error_Some. unfold get_ep in Hg.
    destruct (nth_error targets i); [discriminate | discriminate Hg]. }
  unfold visited in H.
  assert (Hlt : (i <? ti)%nat = true) by (apply Nat.ltb_lt; lia).
  rewrite Hlt in H. exact H.
Qed.

Lemma prepare_from_round fuel r : forall k ti targets w targets' w',
  1 <= r <= nqueries G ->
  in_round (nqueries G) r ti 0 targets -> closed targets ->
  (List.length targets <= k + ti)%nat ->
  prepare_from G E fuel k ti targets w = Done (targets', w') ->
  all_tight (nqueries G) r targets' /\ closed targets' /\
  map num_endpoints targets' = map num_endpoints targets.
Proof.
  induction k as [|k IH]; intros ti targets w targets' w' Hr Hin Hc Hlen H.
  - simpl in H. inv_ret H. split; [| split; [exact Hc | reflexivity]].
    apply (in_round_done _ _ _ Hin). lia.
  - rewrite prepare_from_S in H.
    destruct (nth_error targets ti) as [tp|] eqn:Hti.
    + inv_bind H as targets1 w1 Heps.
      destruct (prepare_eps_round _ _ _ _ _ _ _ _ _ Hr Hin Hc Heps)
        as (Hin1 & Hc1 & Hs1).
      apply IH in H; [| exact Hr | exact Hin1 | exact Hc1 |].
      * destruct H as (Ht & Hc' & Hs'). split; [exact Ht |].
        split; [exact Hc' | congruence].
      * assert (Hl : List.length targets1 = List.length targets).
        { rewrite <- (length_map num_endpoints targets1), Hs1.
          apply length_map. }
        lia.
    + inv_ret H. split; [| split; [exact Hc | reflexivity]].
      apply (in_round_done _ _ _ Hin). apply nth_error_None. exact Hti.
Qed.

Lemma prepare_round fuel r targets w targets' w' :
  1 <= r <= nqueries G ->
  all_settled (nqueries G) (r - 1) targets -> closed targets ->
  probed targets ->
  prepare G E fuel targets w = Done (targets', w') ->
  all_tight (nqueries G) r targets' /\ closed targets' /\
  map num_endpoints targets' = map num_endpoints targets.
Proof.
  intros Hr Hs Hc Hp H. unfold prepare in H.
  destruct targets as [|tp rest]; [discriminate |].
  simpl in Hp. apply Z.eqb_neq in Hp. rewrite Hp in H.
  apply (prepare_from_round _ _ _ _ _ _ _ _ Hr) in H;
    [exact H | | exact Hc | lia].
  intros i j ep Hg. unfold visited. simpl. rewrite andb_false_r.
  apply (Hs _ _ _ Hg).
Qed.

Lemma scanned_cell eps :
  (forall j ep, nth_error eps j = Some ep -> endpoint_valid ep = false ->
     nth_error eps (S j) = None) ->
  forall j ep, nth_error eps j = Some ep -> endpoint_valid ep = true ->
    In ep (scanned eps).
Proof.
  induction eps as [|a rest IH]; intros Hc j ep Hj Hv.
  - destruct j; discriminate Hj.
  - simpl. destruct (endpoint_valid a) eqn:Ha.
    + destruct j as [|j]; simpl in Hj.
      * injection Hj as <-. left. reflexivity.
      * right. apply (IH (fun j' e H1 H2 => Hc (S j') e H1 H2) j ep Hj Hv).
    + destruct j as [|j]; simpl in Hj.
      * injection Hj as <-. congruence.
      * assert (Hn := Hc 0%nat a eq_refl Ha). simpl in Hn.
        destruct rest; [destruct j; discriminate Hj | discriminate Hn].
Qed.

Lemma closed_pending targets i j ep :
  closed targets -> get_ep targets i j = Some ep ->
  endpoint_valid ep = true -> socket ep <> 0 ->
  In (socket ep) (pending_fds targets).
Proof.
  intros Hc Hg Hv Hnz. unfold pending_fds. apply in_flat_map.
  unfold get_ep in Hg. destruct (nth_error targets i) as [tp|] eqn:Hi;
    [| discriminate].
  exists tp. split; [apply (nth_error_In _ _ Hi) |].
  apply filter_In. split.
  - apply in_map. apply (scanned_cell (endpoints tp)) with (j := j);
      [| exact Hg | exact Hv].
    intros j' e H1 H2. assert (H := Hc i j' e). unfold get_ep in H.
    rewrite Hi in H. apply H; assumption.
  - apply negb_true_iff. apply Z.eqb_neq. exact Hnz.
Qed.

Lemma collect_round fuel r : forall targets w targets' w',
  0 <= r <= nqueries G ->
  all_tight (nqueries G) r targets -> closed targets ->
  collect G E fuel targets w = Done (targets', w') ->
  all_settled (nqueries G) r targets' /\ closed targets' /\
  map num_endpoints targets' = map num_endpoints targets.
Proof.
  induction fuel as [|fuel IH]; intros targets w targets' w' Hr Ht Hc H.
  - discriminate H.
  - simpl in H. inv_bind H as mf w1 Hgen. destruct mf as [max fdset].
    destruct (max =? -1) eqn:Hm.
    + apply Z.eqb_eq in Hm.
      destruct (generate_fdset_Done _ _ _ _ _ Hgen) as (_ & _ & Hmax).
      assert (Hneg : forall fd, In fd (pending_fds targets) -> fd < 0)
        by (apply no_pending_iff; rewrite <- Hmax; exact Hm).
      inv_ret H. split; [| split; [exact Hc | reflexivity]].
      intros i j ep Hg Hv.
      destruct (Ht _ _ _ Hg Hv) as ((H0 & H1 & H2) & H3 & H4 & H5).
      assert (Hz : socket ep = 0).
      { destruct (Z.eq_dec (socket ep) 0) as [Hz | Hnz]; [exact Hz |].
        assert (Hlt := Hneg _ (closed_pending _ _ _ _ Hc Hg Hv Hnz)). lia. }
      unfold pend in H3. rewrite Hz in H3. simpl in H3.
      repeat split; lia.
    + inv_bind H as rc w2 Hsel. destruct rc as [ready|]; [| discriminate].
      inv_bind H as targets1 w3 Hupd.
      assert (H1 : follows (nqueries G) targets targets1).
      { apply (update_follows _ _ _ _ _ Hupd). intros i j ep Hg Hv.
        apply (tight_settled_counters (nqueries G) r);
          [lia | lia | exact Hv | left; apply (Ht _ _ _ Hg)]. }
      apply IH in H; [| exact Hr | apply (follows_all_tight _ _ _ _ H1 Ht)
                      | apply (follows_closed _ _ _ H1 Hc)].
      destruct H as (Hs' & Hc' & Hsh). split; [exact Hs' |].
      split; [exact Hc' |]. rewrite Hsh. apply (follows_shape _ _ _ H1).
Qed.

Lemma rounds_settle fuel : forall n r targets w targets' w',
  0 <= r -> r + Z.of_nat n <= nqueries G ->
  all_settled (nqueries G) r targets -> closed targets -> probed targets ->
  rounds G E fuel n targets w = Done (targets', w') ->
  all_settled (nqueries G) (r + Z.of_nat n) targets'.
Proof.
  induction n as [|n IH]; intros r targets w targets' w' H0 Hr Hs Hc Hp H.
  - simpl in H. inv_ret H. rewrite Z.add_0_r. exact Hs.
  - cbn [rounds] in H. inv_bind H as t1 w1 Hprep. inv_bind H as t2 w2 Hcoll.
    destruct (prepare_round fuel (r + 1) _ _ _ _ ltac:(lia)
                ltac:(replace (r + 1 - 1) with r by lia; exact Hs) Hc Hp Hprep)
      as (Ht1 & Hc1 & Hs1).
    destruct (collect_round fuel (r + 1) _ _ _ _ ltac:(lia) Ht1 Hc1 Hcoll)
      as (Hs2 & Hc2 & Hsh2).
    replace (r + Z.of_nat (S n)) with (r + 1 + Z.of_nat n) by lia.
    apply (IH (r + 1) t2 w2 targets' w'); try lia; try assumption.
    apply (shape_probed targets); [congruence | exact Hp].
Qed.

End Exact.

Lemma fresh_one_target : fresh 3 (one_target fresh_endpoint).
Proof.
  split.
  - constructor; [| constructor]. right. left. reflexivity.
  - intros i j ep Hg Hv.
    destruct i as [|[|i]]; [| discriminate Hg | discriminate Hg].
    destruct j as [|[|[|j]]]; try discriminate Hg.
    + injection Hg as <-. repeat split.
    + injection Hg as <-. discriminate Hv.
Qed.

Lemma closed_one_target ep :
  endpoint_valid ep = true -> closed (one_target ep).
Proof.
  intros Hv i j e Hg Hinv.
  destruct i as [|[|i]]; [| discriminate Hg | discriminate Hg].
  destruct j as [|[|[|j]]]; try discriminate Hg.
  - injection Hg as <-. congruence.
  - reflexivity.
Qed.

Lemma probe_settles (G : globals) (E : env) (fuel : nat)
    (targets : list target) (w : world)
    (targets' : list target) (w' : world) :
  0 <= nqueries G < UINT_MOD -> cooperative E ->
  fresh (nqueries G) targets -> closed targets -> probed targets ->
  probe G E fuel targets w = Done (targets', w') ->
  all_settled (nqueries G) (nqueries G) targets'.
Proof.
  intros HN Hco (Hw & Hf) Hc Hp H. unfold probe in H.
  assert (Hs0 : all_settled (nqueries G) 0 targets).
  { intros i0 j0 e Hg0 Hv0.
    destruct (Hf _ _ _ Hg0 Hv0) as (Ht & Hcn & Hi & Hs & Hl).
    rewrite Ht, Hcn, Hi. repeat split; try lia; assumption. }
  assert (Hfin := rounds_settle G E HN Hco fuel (Z.to_nat (nqueries G)) 0
                    targets w targets' w' ltac:(lia) ltac:(lia) Hs0 Hc Hp H).
  replace (0 + Z.of_nat (Z.to_nat (nqueries G))) with (nqueries G) in Hfin
    by lia.
  exact Hfin.
Qed.

(** X8.  On a host that creates every socket with a positive descriptor
    and starts every connect, each round adds exactly one sample to
    every endpoint: when the probing loop returns, every endpoint holds
    [nqueries] samples and has no attempt pending.  The targets are as
    [expand] leaves them (fresh, the closing cell last in every vector)
    and the first target has endpoints, as [prepare] demands. *)
Theorem probe_fills_every_slot (G : globals) (E : env) (fuel : nat)
    (targets : list target) (w : world)
    (targets' : list target) (w' : world) :
  0 <= nqueries G < UINT_MOD -> cooperative E ->
  fresh (nqueries G) targets -> closed targets -> probed targets ->
  probe G E fuel targets w = Done (targets', w') ->
  forall i j ep, get_ep targets' i j = Some ep ->
    endpoint_valid ep = true ->
    idx ep = nqueries G /\ socket ep = 0 /\
    Z.of_nat (List.length (samples ep)) = nqueries G.
Proof.
  intros HN Hco Hf Hc Hp H i j ep Hg Hv.
  assert (Hfin := probe_settles G E fuel targets w targets' w'
                    HN Hco Hf Hc Hp H).
  destruct (Hfin _ _ _ Hg Hv) as ((H0 & H1 & H2) & H3 & H4 & H5).
  split; [exact H3 | split; [exact H5 |]].
  unfold samples. rewrite length_firstn, H3.
  rewrite Nat.min_l by lia. lia.
Qed.

Lemma probe_fills_every_slot_witness :
  let ep := mkEndpoint 2 1 6 "192.0.2.1" 16 0 (mkTimeval 1000 340000)
              60000 3 3 3 [20000; 20000; 20000] in
  idx ep = 3 /\ socket ep = 0 /\ Z.of_nat (List.length (samples ep)) = 3.
Proof.
  refine (probe_fills_every_slot default_globals env_steady 10
            (one_target fresh_endpoint) world0 (fst example_probe)
            (snd example_probe) _ _ _ _ _ _ 0%nat 0%nat
            (mkEndpoint 2 1 6 "192.0.2.1" 16 0 (mkTimeval 1000 340000)
               60000 3 3 3 [20000; 20000; 20000]) _ _);
    [| | | | | | reflexivity | reflexivity].
  - vm_compute. split; [discriminate | reflexivity].
  - split; [| split].
    + intros n fam st pr. unfold env_steady, env_ok, os_socket, fst. lia.
    + intros n. unfold env_steady, env_ok, os_setfl. discriminate.
    + intros n. right. reflexivity.
  - exact fresh_one_target.
  - apply closed_one_target. reflexivity.
  - simpl. discriminate.
  - vm_compute. reflexivity.
Defined.

(* ------------------------------------------------------------------ *)
(** ** The targets main builds *)

Lemma expand_ports_resolved G E host ports : forall targets,
  expand_ports G E host ports targets = targets ++ resolved G E ports host.
Proof.
  induction ports as [|port rest IH]; intros targets; simpl.
  - rewrite app_nil_r. reflexivity.
  - rewrite IH. unfold resolved. simpl.
    destruct (expand G E host port) as [tp|].
    + rewrite <- app_assoc. reflexivity.
    + reflexivity.
Qed.

Lemma expand_hosts_resolved G E ports hosts : forall targets,
  expand_hosts E G ports hosts targets =
  targets ++ flat_map (resolved G E ports) hosts.
Proof.
  induction hosts as [|h rest IH]; intros targets; simpl.
  - rewrite app_nil_r. reflexivity.
  - rewrite IH, expand_ports_resolved, <- app_assoc. reflexivity.
Qed.

Lemma closed_nil : closed [].
Proof. intros i j ep H. destruct i; discriminate H. Qed.

Lemma closed_app t1 t2 : closed t1 -> closed t2 -> closed (t1 ++ t2).
Proof.
  intros H1 H2 i j ep Hg Hinv. rewrite get_ep_app in *.
  destruct (i <? List.length t1)%nat;
    [apply (H1 _ _ _ Hg Hinv) | apply (H2 _ _ _ Hg Hinv)].
Qed.

Lemma nth_error_map_app_last {A B} (f : A -> B) (l : list A) (z : B) j b :
  nth_error (map f l ++ [z]) j = Some b ->
  (exists a, nth_error l j = Some a /\ b = f a) \/
  (j = List.length l /\ b = z).
Proof.
  revert j. induction l as [|a r IH]; intros j H; simpl in *.
  - destruct j as [|j]; [| destruct j; discriminate H].
    injection H as <-. right. split; reflexivity.
  - destruct j as [|j]; simpl in H.
    + injection H as <-. left. exists a. split; reflexivity.
    + destruct (IH _ H) as [(a0 & Ha & Hb) | (Hj & Hb)].
      * left. exists a0. split; assumption.
      * right. split; [f_equal; exact Hj | exact Hb].
Qed.

Section Ready.

Variable G : globals.
Variable E : env.

Hypothesis resolver : resolver_ok E.

Lemma expand_closed host port tp :
  expand G E host port = Some tp ->
  closed [tp] /\ num_endpoints tp <> 0 /\
  Z.of_nat (List.length (endpoints tp)) = num_endpoints tp + 1.
Proof.
  intros H. unfold expand in H.
  destruct (os_getaddrinfo E host port) as [l|] eqn:Hres; [| discriminate].
  injection H as <-. destruct (resolver _ _ _ Hres) as (Hne & Hall).
  simpl. split; [| split].
  - intros i j ep Hg Hinv.
    destruct i as [|i]; [| destruct i; discriminate Hg].
    rewrite get_ep_cons_O in *. cbn [endpoints] in *.
    destruct (nth_error_map_app_last _ _ _ _ _ Hg)
      as [(ai & Hai & ->) | (-> & ->)].
    + exfalso. rewrite Forall_forall in Hall.
      assert (Hlen := Hall _ (nth_error_In _ _ Hai)).
      unfold endpoint_valid in Hinv. simpl in Hinv.
      apply negb_false_iff in Hinv. apply Z.eqb_eq in Hinv. contradiction.
    + apply nth_error_None. rewrite length_app, length_map. simpl. lia.
  - destruct l; [congruence | simpl; lia].
  - rewrite length_app, length_map. simpl. lia.
Qed.

Lemma resolved_ready ports host :
  closed (resolved G E ports host) /\
  Forall (fun tp => num_endpoints tp <> 0) (resolved G E ports host).
Proof.
  induction ports as [|port rest (IHc & IHn)]; unfold resolved; simpl.
  - split; [apply closed_nil | constructor].
  - destruct (expand G E host port) as [tp|] eqn:He.
    + destruct (expand_closed _ _ _ He) as (Hc & Hn & _). split.
      * apply (closed_app [tp]); assumption.
      * simpl. constructor; assumption.
    + split; assumption.
Qed.

Lemma expand_hosts_ready ports hosts :
  closed (expand_hosts E G ports hosts []) /\
  probed (expand_hosts E G ports hosts []).
Proof.
  rewrite expand_hosts_resolved. simpl.
  assert (H : closed (flat_map (resolved G E ports) hosts) /\
              Forall (fun tp => num_endpoints tp <> 0)
                     (flat_map (resolved G E ports) hosts)).
  { induction hosts as [|h rest (IHc & IHn)]; simpl.
    - split; [apply closed_nil | constructor].
    - destruct (resolved_ready ports h) as (Hc & Hn). split.
      + apply closed_app; assumption.
      + apply Forall_app. split; assumption. }
  destruct H as (Hc & Hn). split; [exact Hc |].
  destruct (flat_map (resolved G E ports) hosts) as [|tp rest];
    [exact I |]. inversion Hn; subst. assumption.
Qed.

End Ready.

(** X9.  The targets main builds from the command line are the
    resolvable (host, port) pairs in the order given, host by host and
    port by port; a pair that does not resolve leaves no target and
    stops nothing.  With a resolver that meets the contract of
    [getaddrinfo], they are ready for probing: counters zero, no socket,
    [nqueries] zeroed sample slots, the closing cell last in every
    vector, and a first target with endpoints. *)
Theorem expand_builds_ready_targets (G : globals) (E : env)
    (ports hosts : list string) :
  resolver_ok E -> 0 <= nqueries G ->
  expand_hosts E G ports hosts [] = flat_map (resolved G E ports) hosts /\
  fresh (nqueries G) (expand_hosts E G ports hosts []) /\
  closed (expand_hosts E G ports hosts []) /\
  probed (expand_hosts E G ports hosts []).
Proof.
  intros Hres HN. split; [apply expand_hosts_resolved |].
  split; [apply expand_hosts_fresh; [exact HN | apply fresh_nil] |].
  apply expand_hosts_ready. exact Hres.
Qed.

Lemma resolver_ok_v4 E : os_getaddrinfo E = resolve_v4 -> resolver_ok E.
Proof.
  intros Heq host port l H. rewrite Heq in H. injection H as <-.
  split; [discriminate |]. repeat constructor. discriminate.
Qed.

Lemma expand_builds_ready_targets_witness :
  closed (expand_hosts env_ok default_globals ["80"; "443"]%string
            ["example.net"; "example.org"]%string []).
Proof.
  refine (proj1 (proj2 (proj2 (expand_builds_ready_targets default_globals
            env_ok ["80"; "443"]%string
            ["example.net"; "example.org"]%string _ _)))).
  - apply resolver_ok_v4. reflexivity.
  - vm_compute. discriminate.
Defined.

(** X10.  From the command line to the end of the probing loop: without
    -f, with a resolver that meets the contract of [getaddrinfo], on a
    host that creates every socket with a positive descriptor and starts
    every connect, a run that returns has taken exactly [nqueries]
    samples of every endpoint of every target, where [nqueries] is the
    value the options leave; no attempt is left pending. *)
Theorem main_takes_nqueries_samples (E : env) (fuel : nat)
    (opts : list option_arg) (hosts : list string) (w : world)
    (st : settings) (w' : world) :
  cooperative E -> resolver_ok E -> no_import opts ->
  main_probe E fuel opts hosts w = Done (st, w') ->
  forall i j ep, get_ep (targets_of st) i j = Some ep ->
    endpoint_valid ep = true ->
    idx ep = nqueries (globs st) /\ socket ep = 0.
Proof.
  intros Hco Hres Hno Hmain. unfold main_probe in Hmain.
  destruct (handle_options E initial_settings opts) as [st0| | |] eqn:Hopts;
    try discriminate.
  destruct (handle_options_no_import E opts _ _ Hno Hopts eq_refl)
    as (Ht & HN); [simpl; unfold UINT_MOD; lia |].
  rewrite Ht in Hmain.
  assert (Hf : fresh (nqueries (globs st0))
                 (expand_hosts E (globs st0) (ports_of st0) hosts []))
    by (apply expand_hosts_fresh; [lia | apply fresh_nil]).
  destruct (expand_hosts_ready (globs st0) E Hres (ports_of st0) hosts)
    as (Hc & Hp).
  destruct (expand_hosts E (globs st0) (ports_of st0) hosts [])
    as [|tp rest] eqn:Hexp.
  - injection Hmain as <- <-. rewrite Ht.
    intros i j ep Hg. destruct i; discriminate Hg.
  - destruct (probe (globs st0) E fuel (tp :: rest) w) as [[t1 w1]| | |]
      eqn:Hprobe; try discriminate.
    injection Hmain as <- <-. simpl.
    assert (Hfin := probe_settles (globs st0) E fuel _ w t1 w1
                      ltac:(lia) Hco Hf Hc Hp Hprobe).
    intros i j ep Hg Hv.
    destruct (Hfin _ _ _ Hg Hv) as (_ & H3 & _ & H5).
    split; assumption.
Qed.

Lemma main_takes_nqueries_samples_witness :
  let ep := mkEndpoint 2 1 6 "192.0.2.1" 16 0 (mkTimeval 1000 210000)
              40000 2 2 2 [20000; 20000] in
  idx ep = nqueries (globs (fst example_main)) /\ socket ep = 0.
Proof.
  refine (main_takes_nqueries_samples env_steady 10
            [Opt_q "2"%string; Opt_p "443"%string]
            ["example.net"%string] world0 (fst example_main)
            (snd example_main) _ _ _ _ 0%nat 0%nat
            (mkEndpoint 2 1 6 "192.0.2.1" 16 0 (mkTimeval 1000 210000)
               40000 2 2 2 [20000; 20000]) _ _);
    [| | | | reflexivity | reflexivity].
  - split; [| split].
    + intros n fam st pr. unfold env_steady, env_ok, os_socket, fst. lia.
    + intros n. unfold env_steady, env_ok, os_setfl. discriminate.
    + intros n. right. reflexivity.
  - apply resolver_ok_v4. reflexivity.
  - repeat constructor.
  - vm_compute. reflexivity.
Defined.

(* ------------------------------------------------------------------ *)
(** ** Hostnames read from a file *)

Lemma trim_cases (s : string) :
  no_nul s ->
  (all_spaces s = true -> trim s = Fault) /\
  (all_spaces s = false ->
   trim s = Done (strip s) /\ strip s <> EmptyString).
Proof.
  intros Hnn. unfold no_nul in Hnn. split.
  - intros Hsp. apply forallb_spaces in Hsp.
    unfold trim, c_string. rewrite trim_all_spaces by assumption.
    reflexivity.
  - intros Hsp. unfold all_spaces in Hsp.
    assert (Hns : ~ spaces (list_ascii_of_string s)).
    { intros H. apply forallb_spaces in H. congruence. }
    destruct (split_core _ Hns)
      as (lead & c0 & r0 & core' & c & tail & Hlead & Htail & Hc0 & Hc
          & Hcs & Hfirst & Hstrip).
    unfold strip. rewrite Hstrip. split.
    + rewrite <- (string_of_list_ascii_of_string s), Hcs.
      rewrite Hcs in Hnn.
      apply (trim_core lead core' c tail c0 r0); assumption.
    + intros Hempty.
      apply (f_equal list_ascii_of_string) in Hempty.
      rewrite list_ascii_of_string_of_list_ascii in Hempty. simpl in Hempty.
      destruct core'; discriminate Hempty.
Qed.

(** X11.  Reading hostnames from a file whose lines hold no NUL: if
    every line has a character that is not white space, [import] adds
    the same targets as the same names, stripped of the white space
    around them, would add on the command line, and it never takes the
    branch that skips an empty name; if some line is blank, the first
    such line makes [trim] read the byte before the line buffer.  A
    file that cannot be opened ends the run with [exit]. *)
Theorem import_reads_hostnames (E : env) (G : globals)
    (ports lines : list string) (targets : list target) :
  Forall no_nul lines ->
  (Forall (fun l => all_spaces l = false) lines ->
   import E G ports (Some lines) targets =
   Done (expand_hosts E G ports (map strip lines) targets)) /\
  (Exists (fun l => all_spaces l = true) lines ->
   import E G ports (Some lines) targets = Fault) /\
  import E G ports None targets = Exit.
Proof.
  intros Hnn. split; [| split; [| reflexivity]].
  - revert targets. induction Hnn as [|l rest Hl Hrest IH];
      intros targets Hall; simpl.
    + reflexivity.
    + inversion Hall as [|? ? Hsp Hall']; subst.
      destruct (proj2 (trim_cases l Hl) Hsp) as (Ht & Hne).
      rewrite Ht. apply String.eqb_neq in Hne. rewrite Hne. simpl.
      apply (IH _ Hall').
  - revert targets. induction Hnn as [|l rest Hl Hrest IH];
      intros targets Hex; simpl.
    + inversion Hex.
    + destruct (all_spaces l) eqn:Hsp.
      * rewrite (proj1 (trim_cases l Hl) Hsp). reflexivity.
      * destruct (proj2 (trim_cases l Hl) Hsp) as (Ht & Hne).
        rewrite Ht. apply IH.
        inversion Hex as [? ? Hhd | ? ? Htl]; subst;
          [congruence | exact Htl].
Qed.

Lemma import_reads_hostnames_witness :
  import env_ok default_globals ["80"%string]
    (Some [String.append "  example.net" (String "010" EmptyString)]) [] =
  Done (expand_hosts env_ok default_globals ["80"%string]
          (map strip [String.append "  example.net"
                        (String "010" EmptyString)]) []).
Proof.
  refine (proj1 (import_reads_hostnames env_ok default_globals ["80"%string]
                   [String.append "  example.net" (String "010" EmptyString)]
                   [] _) _).
  - repeat constructor.
  - repeat constructor.
Defined.

(* ------------------------------------------------------------------ *)
(** ** The numeric options *)

Lemma append_cons c (s t : string) :
  (String c s ++ t)%string = String c (s ++ t)%string.
Proof. reflexivity. Qed.

Lemma read_digits_numeral_rest ds rest :
  Forall (fun d => (d < 10)%nat) ds -> no_digit_ahead rest ->
  forall acc any,
  read_digits (numeral ds ++ rest)%string acc any =
    (numeral_value ds acc, match ds with [] => any | _ => true end, rest).
Proof.
  intros Hds Hrest. induction Hds as [|d r Hd Hr IH]; intros acc any.
  - change (numeral [] ++ rest)%string with rest. simpl numeral_value.
    destruct rest as [|c s]; [reflexivity |].
    rewrite read_digits_cons. simpl in Hrest. rewrite Hrest. reflexivity.
  - destruct (digit_char_facts d Hd) as (Hdig & _ & Hval & _).
    rewrite numeral_cons, append_cons, read_digits_cons, Hdig, Hval, IH.
    rewrite numeral_value_cons. destruct r; reflexivity.
Qed.

Lemma strtol_numeral_rest ds rest :
  ds <> [] -> Forall (fun d => (d < 10)%nat) ds -> no_digit_ahead rest ->
  strtol (numeral ds ++ rest) =
    (Z.min (numeral_value ds 0) LONG_MAX, rest).
Proof.
  intros Hne Hds Hrest. destruct ds as [|d r]; [congruence |].
  inversion Hds as [|? ? Hd Hr]; subst.
  destruct (digit_char_facts d Hd) as (Hdig & Hsp & Hval & Hm & Hp).
  unfold strtol. rewrite numeral_cons, append_cons, skip_spaces_cons, Hsp.
  rewrite (sign_of_digit d (numeral r ++ rest) Hd).
  rewrite <- append_cons, <- numeral_cons.
  rewrite read_digits_numeral_rest by assumption. reflexivity.
Qed.

Lemma strtol_minus_numeral ds rest :
  ds <> [] -> Forall (fun d => (d < 10)%nat) ds -> no_digit_ahead rest ->
  strtol (String "-" (numeral ds ++ rest)) =
    (Z.max (- numeral_value ds 0) LONG_MIN, rest).
Proof.
  intros Hne Hds Hrest. unfold strtol. rewrite skip_spaces_cons.
  change (isspace "-") with false. cbv iota.
  rewrite read_digits_numeral_rest by assumption.
  destruct ds; [congruence | reflexivity].
Qed.

(** X12.  The arguments of -d and -q (and -t, for the cases not settled
    above).  Text after the digits rejects the argument.  A numeral is
    read as a [long], clamped to LONG_MAX, and then reduced to an [int]:
    -d accepts it when that [int] is not negative, -q when it is
    positive, with that [int] as the value; so a numeral up to INT_MAX
    keeps its value, 0 switches the pacing off but is refused as a
    number of queries, and a numeral beyond INT_MAX is judged and stored
    by its low 32 bits.  With a minus sign in front, a numeral between 1
    and 2^31 is refused by all three options. *)
Theorem numeric_options_parse (ds : list nat) (rest : string) :
  ds <> [] -> Forall (fun d => (d < 10)%nat) ds -> no_digit_ahead rest ->
  let v := Z.min (numeral_value ds 0) LONG_MAX in
  (rest <> EmptyString ->
   parse_delay (numeral ds ++ rest) = None /\
   parse_nqueries (numeral ds ++ rest) = None /\
   parse_timeout (numeral ds ++ rest) = None) /\
  parse_delay (numeral ds) =
    (if to_int v >=? 0 then Some (to_int v) else None) /\
  parse_nqueries (numeral ds) =
    (if to_int v >? 0 then Some (to_int v) else None) /\
  (numeral_value ds 0 <= INT_MAX -> to_int v = numeral_value ds 0) /\
  (0 < numeral_value ds 0 <= 2 ^ 31 ->
   parse_delay (String "-" (numeral ds)) = None /\
   parse_nqueries (String "-" (numeral ds)) = None /\
   parse_timeout (String "-" (numeral ds)) = None).
Proof.
  intros Hne Hds Hrest v.
  assert (Hv0 : 0 <= numeral_value ds 0)
    by (apply numeral_value_nonneg; lia).
  split; [| split; [| split; [| split]]].
  - intros Hr. apply String.eqb_neq in Hr.
    unfold parse_delay, parse_nqueries, parse_timeout.
    rewrite strtol_numeral_rest by assumption.
    rewrite Hr, !andb_false_r. repeat split.
  - unfold parse_delay. rewrite strtol_numeral by assumption. fold v.
    rewrite andb_true_r. destruct (to_int v >=? 0) eqn:Hc; [| reflexivity].
    rewrite Z.geb_leb in Hc. apply Z.leb_le in Hc.
    assert (Hrg := to_int_range v). unfold INT_MAX in Hrg.
    rewrite to_uint_small by (unfold UINT_MOD; lia). reflexivity.
  - unfold parse_nqueries. rewrite strtol_numeral by assumption. fold v.
    rewrite andb_true_r. reflexivity.
  - intros Hle. unfold v, INT_MAX, LONG_MAX in *.
    rewrite Z.min_l by lia. apply to_int_small. lia.
  - intros Hrange.
    assert (Hs : strtol (String "-" (numeral ds)) =
                 (- numeral_value ds 0, EmptyString)).
    { replace (numeral ds) with (numeral ds ++ EmptyString)%string.
      - rewrite strtol_minus_numeral by (try assumption; exact I).
        unfold LONG_MIN. rewrite Z.max_l by lia. reflexivity.
      - clear. induction (numeral ds) as [|c s IH]; simpl;
          [reflexivity | rewrite IH; reflexivity]. }
    assert (Hneg : to_int (- numeral_value ds 0) = - numeral_value ds 0).
    { transitivity (to_int (to_uint (- numeral_value ds 0)));
        [| apply (to_int_neg _ Hrange)].
      unfold to_int, to_uint.
      rewrite Z.mod_mod by (unfold UINT_MOD; lia). reflexivity. }
    unfold parse_delay, parse_nqueries, parse_timeout. rewrite Hs, Hneg.
    assert (H1 : (- numeral_value ds 0 >=? 0) = false)
      by (rewrite Z.geb_leb; apply Z.leb_gt; lia).
    assert (H2 : (- numeral_value ds 0 >? 0) = false)
      by (rewrite Z.gtb_ltb; apply Z.ltb_ge; lia).
    rewrite H1, H2. repeat split.
Qed.

Lemma numeric_options_parse_witness :
  parse_nqueries (numeral [4; 2; 9; 4; 9; 6; 7; 2; 9; 7]%nat) = Some 1.
Proof.
  refine (proj1 (proj2 (proj2 (numeric_options_parse
            [4; 2; 9; 4; 9; 6; 7; 2; 9; 7]%nat EmptyString _ _ _)))).
  - discriminate.
  - repeat constructor; lia.
  - exact I.
Defined.

Lemma handle_options_split E pre o post : forall st st',
  handle_options E st (pre ++ o :: post) = Done st' ->
  exists st1 st2,
    handle_options E st pre = Done st1 /\
    handle_option E st1 o = Done st2 /\
    handle_options E st2 post = Done st'.
Proof.
  induction pre as [|o1 pre IH]; intros st st' H.
  - simpl in H. destruct (handle_option E st o) as [st2| | |] eqn:Ho;
      try discriminate.
    exists st, st2. repeat split; [exact Ho | exact H].
  - simpl in H. destruct (handle_option E st o1) as [sta| | |] eqn:Ho;
      try discriminate.
    destruct (IH _ _ H) as (st1 & st2 & H1 & H2 & H3).
    exists st1, st2. simpl. rewrite Ho. repeat split; assumption.
Qed.

Lemma options_ports E opts st :
  handle_options E initial_settings opts = Done st ->
  settings_ok (globs st) /\
  ports_of st = match p_args opts with
                | [] => ["80"%string]
                | l => l
                end.
Proof.
  intros H.
  destruct (handle_options_settings E opts _ _ H) as (Hok & Hp & Hports).
  - unfold settings_ok, INT_MAX. simpl. lia.
  - intros l Hl. discriminate Hl.
  - split; [exact Hok |]. simpl in Hports. rewrite <- Hports.
    unfold ports_of. destruct (usr_ports st) as [l|] eqn:Hu; [| reflexivity].
    assert (Hne := Hp l eq_refl). destruct l; [congruence | reflexivity].
Qed.

(** X13.  Whatever options main is given, in whatever order and however
    often, if the option loop ends without [exit] the settings lie in
    their ranges: [nqueries] and [timeout] between 1 and INT_MAX,
    [delay] between 0 and INT_MAX (so the probing loop runs at least one
    round, and the bounds [select] gets are never negative).  The port
    list the loop ends with, which main expands the hostnames of the
    command line with, holds the arguments of all -p options in the
    order given, and the default port 80 only if there is none.  A file
    named by -f is imported inside the loop, with the settings and the
    port list of that moment: the arguments of the -p options before
    the -f (or port 80), whatever -p follows. *)
Theorem options_leave_settings_in_range (E : env)
    (opts : list option_arg) (st : settings) :
  handle_options E initial_settings opts = Done st ->
  settings_ok (globs st) /\
  ports_of st = match p_args opts with
                | [] => ["80"%string]
                | l => l
                end /\
  forall pre file post, opts = pre ++ Opt_f file :: post ->
    exists st1 targets,
      handle_options E initial_settings pre = Done st1 /\
      settings_ok (globs st1) /\
      import E (globs st1)
        (match p_args pre with
         | [] => ["80"%string]
         | l => l
         end) file (targets_of st1) = Done targets /\
      handle_options E
        (mkSettings (globs st1) (smode st1) (skmode st1) (usr_ports st1)
           targets) post = Done st.
Proof.
  intros H. destruct (options_ports E opts st H) as (Hok & Hports).
  split; [exact Hok | split; [exact Hports |]].
  intros pre file post ->.
  destruct (handle_options_split E pre (Opt_f file) post _ _ H)
    as (st1 & st2 & H1 & H2 & H3).
  destruct (options_ports E pre st1 H1) as (Hok1 & Hports1).
  simpl in H2. rewrite Hports1 in H2.
  destruct (import E (globs st1)
              (match p_args pre with
               | [] => ["80"%string]
               | l => l
               end) file (targets_of st1)) as [targets| | |] eqn:Himp;
    try discriminate.
  injection H2 as <-.
  exists st1, targets. repeat split; try assumption; apply Hok1.
Qed.

Lemma options_leave_settings_in_range_witness :
  settings_ok (mkGlobals 5 2000 0) /\
  (ports_of imported_settings = ["443"%string] /\
   map port (targets_of imported_settings) = ["80"%string]) /\
  exists st1 targets,
    handle_options env_ok initial_settings [] = Done st1 /\
    settings_ok (globs st1) /\
    import env_ok (globs st1) ["80"%string] hosts_file (targets_of st1)
      = Done targets /\
    handle_options env_ok
      (mkSettings (globs st1) (smode st1) (skmode st1) (usr_ports st1)
         targets) [Opt_p "443"%string] = Done imported_settings.
Proof.
  split; [| split].
  - refine (proj1 (options_leave_settings_in_range env_ok
              [Opt_p "443"%string; Opt_q "5"%string; Opt_d "0"%string;
               Opt_p "80"%string]
              (mkSettings (mkGlobals 5 2000 0) false false
                 (Some ["443"; "80"]%string) []) _)).
    vm_compute. reflexivity.
  - split; reflexivity.
  - refine (proj2 (proj2 (options_leave_settings_in_range env_ok
              [Opt_f hosts_file; Opt_p "443"%string] imported_settings _))
              [] hosts_file [Opt_p "443"%string] _).
    + vm_compute. reflexivity.
    + reflexivity.
Defined.

(* ------------------------------------------------------------------ *)
(** ** Pacing switched off *)

Section Unpaced.

Variable G : globals.
Variable E : env.

Hypothesis no_delay : delay G = 0.

Lemma unpaced_start_connect ep : emits connecting (start_connect E ep).
Proof.
  unfold start_connect.
  apply emits_bind; [apply emits_syscall; intros; exact I | intros [rc errno]].
  destruct (socket (set_socket ep rc) <? 0).
  - destruct ((errno =? EAFNOSUPPORT) || (errno =? EPROTONOSUPPORT));
      apply emits_ret.
  - apply emits_bind.
    + apply emits_silent. intros w a w' H. unfold sys_setfl in H.
      injection H as <- <-. reflexivity.
    + intros rc2. destruct (rc2 =? -1).
      * apply emits_bind; [apply emits_syscall; intros; exact I | intros _].
        apply emits_ret.
      * apply emits_bind.
        -- apply emits_silent. intros w a w' H. unfold sys_connect in H.
           injection H as <- <-. reflexivity.
        -- intros [rc3 errno3].
           destruct ((rc3 =? -1) && negb (errno3 =? EINPROGRESS)).
           ++ apply emits_bind;
                [apply emits_syscall; intros; exact I | intros _].
              apply emits_ret.
           ++ apply emits_bind;
                [apply emits_syscall; intros; exact I | intros tv].
              apply emits_ret.
Qed.

Lemma unpaced_nap fuel targets w targets' w' :
  nap G E fuel targets w = Done (targets', w') -> targets' = targets /\ w' = w.
Proof.
  unfold nap. rewrite no_delay. simpl. intros H. inv_ret H.
  split; reflexivity.
Qed.

Lemma unpaced_prepare_eps fuel : forall k ti ei targets,
  emits connecting (prepare_eps G E fuel k ti ei targets).
Proof.
  induction k as [|k IH]; intros ti ei targets; simpl.
  - intros w a w' H. discriminate H.
  - destruct (get_ep targets ti ei) as [ep|];
      [| intros w a w' H; discriminate H].
    destruct (endpoint_valid ep); [| apply emits_ret].
    apply emits_bind.
    + apply emits_silent. intros w a w' H.
      destruct (unpaced_nap _ _ _ _ _ H) as (_ & ->). reflexivity.
    + intros targets1. destruct (get_ep targets1 ti ei) as [ep1|];
        [| intros w a w' H; discriminate H].
      apply emits_bind; [apply unpaced_start_connect | intros ep2]. apply IH.
Qed.

Lemma unpaced_prepare_from fuel : forall k ti targets,
  emits connecting (prepare_from G E fuel k ti targets).
Proof.
  induction k as [|k IH]; intros ti targets.
  - simpl. apply emits_ret.
  - rewrite prepare_from_S. destruct (nth_error targets ti) as [tp|].
    + apply emits_bind; [apply unpaced_prepare_eps | intros t1; apply IH].
    + apply emits_ret.
Qed.

End Unpaced.

(** X14.  With [delay] 0 the scheduler does not pace: a pass of
    [prepare] calls neither [select] nor [update]; all it asks of the
    operating system is [socket], the reading of the clock that stamps
    the start of an attempt, and [close] after a failed start, so the
    attempts of a round are started back to back. *)
Theorem prepare_without_delay_never_waits (G : globals) (E : env)
    (fuel : nat) (targets : list target) (w : world)
    (targets' : list target) (w' : world) :
  delay G = 0 ->
  prepare G E fuel targets w = Done (targets', w') ->
  exists seg, trace w' = seg ++ trace w /\ Forall connecting seg.
Proof.
  intros Hd H. unfold prepare in H. destruct targets as [|tp rest];
    [discriminate |].
  destruct (num_endpoints tp =? 0).
  - inv_ret H. exists []. split; [reflexivity | constructor].
  - apply (unpaced_prepare_from G E Hd fuel _ _ _ _ _ _ H).
Qed.

Lemma prepare_without_delay_never_waits_witness :
  exists seg,
    trace (mkWorld 4 [EvTime (mkTimeval 1000 3000); EvSocket]) =
      seg ++ trace world0 /\
    Forall connecting seg.
Proof.
  apply (prepare_without_delay_never_waits (mkGlobals 3 2000 0) env_ok 10
           (one_target fresh_endpoint) world0
           (one_target (set_tvs (set_socket fresh_endpoint 3)
                          (mkTimeval 1000 3000)))).
  - reflexivity.
  - vm_compute. reflexivity.
Defined.

(* ------------------------------------------------------------------ *)
(** ** Reporting after a run *)

Section Reporting.

Variable getnameinfo : endpoint -> option string.

Lemma report_eps_Done (line : endpoint -> string -> option string) eps :
  terminated eps ->
  Forall (fun ep => endpoint_valid ep = true ->
                    forall numeric, line ep numeric <> None) eps ->
  exists ls, report_eps getnameinfo line eps = Done ls /\
             List.length ls = List.length (named getnameinfo eps).
Proof.
  intros Ht. induction Ht as [ep rest Hinv | ep rest Hex IH]; intros Hall.
  - simpl. unfold named. simpl. rewrite Hinv. exists []. split; reflexivity.
  - inversion Hall as [|? ? Hep Hrest]; subst.
    destruct (IH Hrest) as (ls & Hls & Hlen).
    simpl. unfold named in *. simpl.
    destruct (endpoint_valid ep) eqn:Hv; [| exists []; split; reflexivity].
    simpl. destruct (getnameinfo ep) as [numeric|] eqn:Hn.
    + destruct (line ep numeric) as [l|] eqn:Hl;
        [| exfalso; apply (Hep eq_refl numeric Hl)].
      rewrite Hls. exists (l :: ls). split; [reflexivity |].
      simpl. rewrite Hlen. reflexivity.
    + exists ls. split; [exact Hls | exact Hlen].
Qed.

Lemma read_samples_in_range ep :
  0 <= idx ep <= Z.of_nat (List.length (values ep)) ->
  read_samples ep <> None.
Proof.
  intros (H0 & H1). unfold read_samples.
  apply Z.leb_le in H0. apply Z.leb_le in H1. rewrite H0, H1. discriminate.
Qed.

Lemma report_line_in_range ep numeric :
  0 <= idx ep <= Z.of_nat (List.length (values ep)) ->
  report_line ep numeric <> None.
Proof.
  intros H. unfold report_line.
  destruct (read_samples ep) eqn:Hr;
    [discriminate | exfalso; apply (read_samples_in_range ep H Hr)].
Qed.

Lemma report_sk_line_in_range now tp ep numeric :
  0 <= idx ep <= Z.of_nat (List.length (values ep)) ->
  report_sk_line now tp ep numeric <> None.
Proof.
  intros H. unfold report_sk_line, report_sk_fields.
  destruct (read_samples ep) eqn:Hr;
    [discriminate | exfalso; apply (read_samples_in_range ep H Hr)].
Qed.

Lemma reports_Done now targets :
  Forall (fun tp => terminated (endpoints tp) /\
            Forall (fun ep => endpoint_valid ep = true ->
                      0 <= idx ep <= Z.of_nat (List.length (values ep)))
                   (endpoints tp)) targets ->
  exists sk_lines,
    report_sk getnameinfo now targets = Done sk_lines /\
    List.length sk_lines =
      List.length (flat_map (fun tp => named getnameinfo (endpoints tp))
                     targets) /\
    forall first, exists lines,
      report_from getnameinfo first targets = Done lines /\
      List.length lines = (List.length targets + List.length sk_lines)%nat.
Proof.
  intros Hall. induction Hall as [|tp rest (Ht & Hr) Hrest IH].
  - exists []. repeat split. intros first. exists []. split; reflexivity.
  - destruct IH as (sk & Hsk & Hlen1 & Hrep).
    destruct (report_eps_Done report_line (endpoints tp) Ht) as (l1 & Hl1 & Hn1).
    { eapply Forall_impl; [| exact Hr]. intros ep Hep Hv numeric.
      apply report_line_in_range. apply Hep. exact Hv. }
    destruct (report_eps_Done (report_sk_line now tp) (endpoints tp) Ht)
      as (l2 & Hl2 & Hn2).
    { eapply Forall_impl; [| exact Hr]. intros ep Hep Hv numeric.
      apply report_sk_line_in_range. apply Hep. exact Hv. }
    exists (l2 ++ sk)%list. split; [| split].
    + simpl. rewrite Hl2, Hsk. reflexivity.
    + simpl. rewrite !length_app, Hn2, Hlen1. reflexivity.
    + intros first. destruct (Hrep false) as (lines & Hlines & Hlen2).
      simpl. rewrite Hl1, Hlines. eexists. split; [reflexivity |].
      simpl. rewrite !length_app, Hn1, Hn2, Hlen2. lia.
Qed.

End Reporting.

(** X15.  After a run on targets as [expand] leaves them, both reports
    can be printed without reading outside [values]: the report loops
    find the closing cell of every vector and only the recorded samples
    of every endpoint.  The machine-readable report has one line per
    endpoint whose address [getnameinfo] renders, the human report the
    same lines and one header per target; an endpoint whose address
    cannot be rendered is left out of both. *)
Theorem reports_stay_in_bounds (getnameinfo : endpoint -> option string)
    (now : Z) (G : globals) (E : env) (fuel : nat)
    (targets : list target) (w : world)
    (targets' : list target) (w' : world) :
  0 <= nqueries G < UINT_MOD ->
  fresh (nqueries G) targets ->
  probe G E fuel targets w = Done (targets', w') ->
  exists lines sk_lines,
    report getnameinfo targets' = Done lines /\
    report_sk getnameinfo now targets' = Done sk_lines /\
    List.length sk_lines =
      List.length (flat_map (fun tp => named getnameinfo (endpoints tp))
                     targets') /\
    List.length lines = (List.length targets' + List.length sk_lines)%nat.
Proof.
  intros HN Hf H. unfold probe in H.
  assert (Hs := safe_rounds True G E HN (fit_unless_True E) fuel
                  (Z.to_nat (nqueries G)) 0 targets
                  ltac:(lia) (proj1 Hf) (fresh_all_within True G targets Hf) w).
  rewrite H in Hs. destruct Hs as (Hw & Ha).
  destruct (reports_Done getnameinfo now targets') as (sk & Hsk & Hlen & Hrep).
  - apply all_within_Forall in Ha. unfold well_shaped in Hw.
    rewrite Forall_forall in *. intros tp Hin. split; [apply Hw; exact Hin |].
    specialize (Ha tp Hin). rewrite Forall_forall in *.
    intros ep Hep Hv.
    destruct (Ha ep Hep Hv) as ((H0 & H1 & H2) & H3 & H4 & _).
    assert (Hp := pend_range ep). lia.
  - destruct (Hrep true) as (lines & Hlines & Hlen2).
    exists lines, sk. repeat split; assumption.
Qed.

Lemma reports_stay_in_bounds_witness :
  exists lines sk_lines,
    report (fun ep => Some (addr ep)) (fst example_probe) = Done lines /\
    report_sk (fun ep => Some (addr ep)) 1700000000 (fst example_probe)
      = Done sk_lines /\
    List.length sk_lines =
      List.length (flat_map (fun tp => named (fun ep => Some (addr ep))
                                         (endpoints tp))
                     (fst example_probe)) /\
    List.length lines =
      (List.length (fst example_probe) + List.length sk_lines)%nat.
Proof.
  apply (reports_stay_in_bounds (fun ep => Some (addr ep)) 1700000000
           default_globals env_steady 10 (one_target fresh_endpoint) world0
           (fst example_probe) (snd example_probe)).
  - vm_compute. split; [discriminate | reflexivity].
  - exact fresh_one_target.
  - vm_compute. reflexivity.
Defined.

(* ------------------------------------------------------------------ *)
(** ** The layout of the human report *)

Lemma append_assoc_s (a b c : string) :
  ((a ++ b) ++ c)%string = (a ++ (b ++ c))%string.
Proof.
  induction a as [|x a IH]; simpl; [reflexivity | rewrite IH; reflexivity].
Qed.

Lemma append_nil_r_s (a : string) : (a ++ EmptyString)%string = a.
Proof.
  induction a as [|x a IH]; simpl; [reflexivity | rewrite IH; reflexivity].
Qed.

Lemma substring_skip (s : string) n m (t : string) :
  substring (String.length s + n) m (s ++ t) = substring n m t.
Proof. induction s as [|x s IH]; simpl; [reflexivity | exact IH]. Qed.

Lemma substring_take (s t : string) :
  substring 0 (String.length s) (s ++ t) = s.
Proof.
  induction s as [|x s IH]; simpl.
  - destruct t; reflexivity.
  - rewrite IH. reflexivity.
Qed.

Lemma concat_empty_cons x xs :
  String.concat EmptyString (x :: xs) =
  (x ++ String.concat EmptyString xs)%string.
Proof.
  destruct xs as [|y r]; simpl; [rewrite append_nil_r_s |]; reflexivity.
Qed.

Lemma report_field_width v :
  v < 10000000 -> String.length (report_field v) = 9%nat.
Proof.
  intros Hv. unfold report_field. destruct (v >=? 0) eqn:Hc.
  - rewrite Z.geb_leb in Hc. apply Z.leb_le in Hc.
    rewrite Z.quot_div_nonneg by lia. rewrite Z.rem_mod_nonneg by lia.
    assert (H4 : (String.length (dec (v / 1000)) <= 4)%nat).
    { apply dec_width_4. split.
      - apply Z.div_pos; lia.
      - apply Z.div_lt_upper_bound; lia. }
    assert (H3 : (String.length (dec (v mod 1000)) <= 3)%nat).
    { apply dec_width_3. apply Z.mod_pos_bound. lia. }
    simpl. rewrite length_append. rewrite (length_pad_left 4) by exact H4.
    simpl. rewrite (length_pad_left 3) by exact H3. reflexivity.
  - reflexivity.
Qed.

Lemma fields_length vs :
  Forall (fun v => v < 10000000) vs ->
  String.length (String.concat EmptyString (map report_field vs)) =
    (9 * List.length vs)%nat.
Proof.
  intros H. induction H as [|v r Hv Hr IH].
  - reflexivity.
  - cbn [map]. rewrite concat_empty_cons, length_append, IH.
    rewrite (report_field_width v Hv). simpl List.length. lia.
Qed.

Lemma fields_column vs (rest : string) :
  Forall (fun v => v < 10000000) vs ->
  forall j v, nth_error vs j = Some v ->
    substring (9 * j) 9
      (String.concat EmptyString (map report_field vs) ++ rest) =
    report_field v.
Proof.
  intros H. induction H as [|v0 r Hv Hr IH]; intros j v Hj.
  - destruct j; discriminate Hj.
  - cbn [map]. rewrite concat_empty_cons, append_assoc_s.
    destruct j as [|j].
    + injection Hj as <-. change (9 * 0)%nat with 0%nat.
      assert (Ht := substring_take (report_field v0)
                      (String.concat EmptyString (map report_field r)
                         ++ rest)).
      rewrite (report_field_width v0 Hv) in Ht. exact Ht.
    + replace (9 * S j)%nat
        with (String.length (report_field v0) + 9 * j)%nat
        by (rewrite (report_field_width v0 Hv); lia).
      rewrite substring_skip. apply IH. exact Hj.
Qed.

(** X16.  The columns of the human report line up: when the address
    printed has at most 41 characters and every recorded sample is below
    10 seconds, the line of an endpoint starts with a blank and the
    address, the field of its [j]-th sample fills the 9 columns from
    column [42 + 9 j] on, and the line is [42 + 9 idx] characters and a
    newline long. *)
Theorem report_columns_line_up (ep : endpoint) (numeric line : string) :
  report_line ep numeric = Some line ->
  (String.length numeric <= 41)%nat ->
  Forall (fun v => v < 10000000) (samples ep) ->
  String.length line = (42 + 9 * List.length (samples ep) + 1)%nat /\
  Z.of_nat (List.length (samples ep)) = idx ep /\
  substring 0 (1 + String.length numeric) line = String " " numeric /\
  forall j v, nth_error (samples ep) j = Some v ->
    substring (42 + 9 * j) 9 line = report_field v.
Proof.
  intros H Hlen Hvs. unfold report_line in H.
  destruct (read_samples ep) as [vs|] eqn:Hr; [| discriminate].
  apply read_samples_Some in Hr. destruct Hr as (-> & Hidx).
  apply (f_equal (fun o => match o with
                           | Some l => l
                           | None => EmptyString
                           end)) in H.
  cbv beta iota zeta in H. subst line.
  set (fields := String.concat EmptyString (map report_field (samples ep))).
  set (pad := replicate
                (Z.to_nat (Z.abs (42 - Z.of_nat
                   (String.length (" " ++ numeric)%string)))) " ").
  assert (Hpad : String.length pad = (41 - String.length numeric)%nat).
  { unfold pad. rewrite length_replicate.
    change (String.length (" " ++ numeric)%string)
      with (S (String.length numeric)). lia. }
  assert (Hline : (" " ++ numeric ++ pad ++ fields ++ newline)%string =
                  ((String " " numeric ++ pad) ++ fields ++ newline)%string).
  { rewrite append_assoc_s. reflexivity. }
  assert (Hpre : String.length (String " " numeric ++ pad) = 42%nat).
  { rewrite length_append, Hpad. cbn [String.length]. lia. }
  change (String "010" EmptyString) with newline.
  rewrite Hline.
  split; [| split; [exact Hidx | split]].
  - rewrite (length_append (String " " numeric ++ pad)), Hpre.
    rewrite length_append. unfold fields.
    rewrite (fields_length _ Hvs). reflexivity.
  - rewrite append_assoc_s. apply (substring_take (String " " numeric)).
  - intros j v Hj. rewrite <- Hpre, substring_skip.
    apply (fields_column _ _ Hvs _ _ Hj).
Qed.

Lemma report_columns_line_up_witness :
  substring (42 + 9 * 1) 9
    (" 192.0.2.1" ++ replicate 32 " " ++ "   20.000" ++ "     *   "
       ++ newline) = report_field (-1000).
Proof.
  refine (proj2 (proj2 (proj2 (report_columns_line_up
            (set_idx (set_values fresh_endpoint [20000; -1000; 0]) 2)
            "192.0.2.1"
            (" 192.0.2.1" ++ replicate 32 " " ++ "   20.000" ++ "     *   "
               ++ newline) _ _ _))) 1%nat (-1000) _).
  - vm_compute. reflexivity.
  - vm_compute. lia.
  - repeat constructor.
  - reflexivity.
Defined.

(* ------------------------------------------------------------------ *)
(** ** Termination on a responsive host *)

Lemma ticks_ret {A} (a : A) : ticks (ret a).
Proof. intros w a' w' H. inv_ret H. lia. Qed.

Lemma ticks_bind {A B} (c : M A) (k : A -> M B) :
  ticks c -> (forall a, ticks (k a)) -> ticks (bind c k).
Proof.
  intros Hc Hk w b w' H. inv_bind H as a w1 H1.
  specialize (Hc _ _ _ H1). specialize (Hk _ _ _ _ H). lia.
Qed.

Lemma ticks_syscall {A} (f : nat -> A) ev : ticks (syscall f ev).
Proof.
  intros w a w' H. unfold syscall in H. injection H as _ <-. simpl. lia.
Qed.

Lemma ticks_store l i v : ticks (store l i v).
Proof.
  intros w a w' H. apply store_Done in H. destruct H as (-> & _). lia.
Qed.

Lemma fuelless_ret {A} (a : A) : fuelless (ret a).
Proof. intros w. discriminate. Qed.

Lemma fuelless_bind {A B} (c : M A) (k : A -> M B) :
  fuelless c -> (forall a, fuelless (k a)) -> fuelless (bind c k).
Proof.
  intros Hc Hk w. unfold bind. specialize (Hc w).
  destruct (c w) as [[a w1]| | |]; try discriminate; [apply Hk | congruence].
Qed.

Lemma fuelless_syscall {A} (f : nat -> A) ev : fuelless (syscall f ev).
Proof. intros w. discriminate. Qed.

Lemma fuelless_store l i v : fuelless (store l i v).
Proof.
  intros w. unfold store. destruct (i <? 0); [discriminate |].
  destruct (store_nat l (Z.to_nat i) v); discriminate.
Qed.

Section Passes.

Variable G : globals.
Variable E : env.

Lemma update_ep_plain tv fdset ep :
  ticks (update_ep G E tv fdset ep) /\ fuelless (update_ep G E tv fdset ep).
Proof.
  unfold update_ep.
  destruct (negb (socket ep =? 0) && timed_out G (elapsed_us tv ep)).
  - split.
    + apply ticks_bind; [apply ticks_store | intros vs].
      apply ticks_bind; [apply ticks_syscall | intros _; apply ticks_ret].
    + apply fuelless_bind; [apply fuelless_store | intros vs].
      apply fuelless_bind; [apply fuelless_syscall | intros _].
      apply fuelless_ret.
  - destruct (negb (socket ep =? 0) && negb (in_fd_set (socket ep)));
      [split; [intros w a w' H; discriminate H | intros w; discriminate] |].
    destruct (negb (socket ep =? 0) && FD_ISSET (socket ep) fdset).
    + split.
      * apply ticks_bind.
        -- intros w a w' H. unfold getsockopt in H. injection H as _ <-.
           simpl. lia.
        -- intros [soerror|]; [| intros w a w' H; discriminate H].
           apply ticks_bind.
           ++ destruct (soerror =? 0);
                (apply ticks_bind; [apply ticks_store | intros vs];
                 apply ticks_ret).
           ++ intros ep1. apply ticks_bind;
                [apply ticks_syscall | intros _; apply ticks_ret].
      * apply fuelless_bind; [intros w; discriminate |].
        intros [soerror|]; [| intros w; discriminate].
        apply fuelless_bind.
        -- destruct (soerror =? 0);
             (apply fuelless_bind; [apply fuelless_store | intros vs];
              apply fuelless_ret).
        -- intros ep1. apply fuelless_bind;
             [apply fuelless_syscall | intros _; apply fuelless_ret].
    + split; [apply ticks_ret | apply fuelless_ret].
Qed.

Lemma update_eps_plain tv fdset eps :
  ticks (update_eps G E tv fdset eps) /\
  fuelless (update_eps G E tv fdset eps).
Proof.
  induction eps as [|ep rest (IHt & IHf)]; simpl.
  - split; [intros w a w' H; discriminate H | intros w; discriminate].
  - destruct (endpoint_valid ep);
      [| split; [apply ticks_ret | apply fuelless_ret]].
    destruct (update_ep_plain tv fdset ep) as (Ht & Hf). split.
    + apply ticks_bind; [exact Ht | intros ep1].
      apply ticks_bind; [exact IHt | intros r1; apply ticks_ret].
    + apply fuelless_bind; [exact Hf | intros ep1].
      apply fuelless_bind; [exact IHf | intros r1; apply fuelless_ret].
Qed.

Lemma update_from_plain tv fdset targets :
  ticks (update_from G E tv fdset targets) /\
  fuelless (update_from G E tv fdset targets).
Proof.
  induction targets as [|tp rest (IHt & IHf)]; simpl.
  - split; [apply ticks_ret | apply fuelless_ret].
  - destruct (update_eps_plain tv fdset (endpoints tp)) as (Ht & Hf). split.
    + apply ticks_bind; [exact Ht | intros eps1].
      apply ticks_bind; [exact IHt | intros r1; apply ticks_ret].
    + apply fuelless_bind; [exact Hf | intros eps1].
      apply fuelless_bind; [exact IHf | intros r1; apply fuelless_ret].
Qed.

Lemma update_plain targets fdset :
  ticks (update G E targets fdset) /\ fuelless (update G E targets fdset).
Proof.
  unfold update. split.
  - apply ticks_bind.
    + intros w a w' H. unfold log in H. injection H as _ <-. simpl. lia.
    + intros _. apply ticks_bind; [apply ticks_syscall | intros tv].
      apply update_from_plain.
  - apply fuelless_bind; [intros w; discriminate | intros _].
    apply fuelless_bind; [apply fuelless_syscall | intros tv].
    apply update_from_plain.
Qed.

Lemma generate_fdset_cases targets w :
  generate_fdset targets w = Fault \/
  exists max fdset, generate_fdset targets w = Done ((max, fdset), w).
Proof.
  unfold generate_fdset.
  assert (He : forall eps acc,
            generate_fdset_eps eps acc = Fault \/
            exists r, generate_fdset_eps eps acc = Done r).
  { induction eps as [|ep r IH]; intros [m f]; simpl;
      [left; reflexivity |].
    destruct (endpoint_valid ep); [| right; eexists; reflexivity].
    destruct (negb (socket ep =? 0)); [| apply IH].
    destruct (fd_bit (socket ep)); [apply IH | left; reflexivity]. }
  assert (Hf : forall tps acc,
            generate_fdset_from tps acc = Fault \/
            exists r, generate_fdset_from tps acc = Done r).
  { induction tps as [|tp r IH]; intros acc; simpl;
      [right; eexists; reflexivity |].
    destruct (He (endpoints tp) acc) as [-> | (acc1 & ->)];
      [left; reflexivity | apply IH]. }
  destruct (Hf targets (-1, [])) as [-> | ([m f] & ->)];
    [left; reflexivity | right; exists m, f; reflexivity].
Qed.

Lemma start_connect_fuelless ep : fuelless (start_connect E ep).
Proof.
  unfold start_connect.
  apply fuelless_bind; [apply fuelless_syscall | intros [rc errno]].
  destruct (socket (set_socket ep rc) <? 0).
  - destruct ((errno =? EAFNOSUPPORT) || (errno =? EPROTONOSUPPORT));
      apply fuelless_ret.
  - apply fuelless_bind; [intros w; discriminate | intros rc2].
    destruct (rc2 =? -1).
    + apply fuelless_bind; [apply fuelless_syscall | intros _].
      apply fuelless_ret.
    + apply fuelless_bind; [intros w; discriminate | intros [rc3 errno3]].
      destruct ((rc3 =? -1) && negb (errno3 =? EINPROGRESS)).
      * apply fuelless_bind; [apply fuelless_syscall | intros _].
        apply fuelless_ret.
      * apply fuelless_bind; [apply fuelless_syscall | intros tv].
        apply fuelless_ret.
Qed.

End Passes.

Lemma timercmp_false_usec G a b :
  normalized a -> normalized b -> 0 <= delay G ->
  timercmp_lt (dd G) (timersub a b) = false ->
  usec_of a - usec_of b <= delay G * 1000.
Proof.
  unfold normalized, timercmp_lt, timersub, dd, usec_of.
  intros Ha Hb Hd.
  assert (Hqr := Z.quot_rem' (delay G) 1000).
  assert (Hr := Z.rem_bound_pos (delay G) 1000 Hd ltac:(lia)).
  set (q := Z.quot (delay G) 1000) in *.
  set (r := Z.rem (delay G) 1000) in *.
  destruct (tv_usec a - tv_usec b <? 0) eqn:Hneg; simpl;
    [apply Z.ltb_lt in Hneg | apply Z.ltb_ge in Hneg];
    match goal with
    | |- context [?x =? ?y] => destruct (x =? y) eqn:Heq
    end;
    intros Hc; apply Z.ltb_ge in Hc;
    [apply Z.eqb_eq in Heq | apply Z.eqb_neq in Heq
     | apply Z.eqb_eq in Heq | apply Z.eqb_neq in Heq]; lia.
Qed.

Section Lively.

Variable G : globals.
Variable E : env.
Variable q : Z.

Hypothesis clock_ticking : ticking q E.
Hypothesis delay_nonneg : 0 <= delay G.

Lemma clock_advances m : forall n,
  (m <= n)%nat ->
  usec_of (clock E m) + q * Z.of_nat (n - m) <= usec_of (clock E n).
Proof.
  destruct clock_ticking as (Hq & _ & Hstep).
  induction n as [|n IH]; intros Hle.
  - assert (m = 0%nat) by lia. subst m. simpl. lia.
  - destruct (Nat.eq_dec m (S n)) as [-> | Hne].
    + rewrite Nat.sub_diag. simpl. lia.
    + assert (Hle' : (m <= n)%nat) by lia. specialize (IH Hle').
      specialize (Hstep n).
      replace (Z.of_nat (S n - m)) with (Z.of_nat (n - m) + 1) by lia. lia.
Qed.

Lemma nap_loop_lively fuel n0 : forall targets w,
  usec_of (clock E n0) + delay G * 1000 <
    usec_of (clock E (tick w)) + Z.of_nat fuel * q ->
  nap_loop G E (S fuel) (clock E n0) targets w <> Fuel.
Proof.
  destruct clock_ticking as (Hq & Hnorm & Hstep).
  induction fuel as [|fuel IH]; intros targets w Hm;
    cbn [nap_loop]; unfold bind at 1;
    (destruct (generate_fdset_cases targets w) as [-> | (max & fdset & ->)];
     [discriminate |]);
    unfold bind at 1, gettimeofday at 1, syscall at 1; cbv zeta;
    (destruct (timercmp_lt (dd G) (timersub (clock E (tick w)) (clock E n0)))
       eqn:Hc; [discriminate |]);
    assert (Hle := timercmp_false_usec G _ _ (Hnorm (tick w)) (Hnorm n0)
                     delay_nonneg Hc).
  - exfalso. simpl in Hm. lia.
  - unfold bind at 1, select at 1. cbv zeta.
    destruct (os_select E _ fdset) as [ready|]; [| discriminate].
    unfold bind at 1.
    match goal with
    | |- context [update G E targets ?r ?w2] =>
        destruct (update G E targets r w2) as [[t1 w3]| | |] eqn:Hupd;
          try discriminate;
          [| exfalso; apply (proj2 (update_plain G E targets r) w2 Hupd)]
    end.
    apply IH.
    apply (proj1 (update_plain G E _ _)) in Hupd. simpl in Hupd.
    assert (Hadv := clock_advances (tick w) (tick w3) ltac:(lia)).
    assert (Hk : 1 <= Z.of_nat (tick w3 - tick w)) by lia.
    replace (Z.of_nat (S fuel)) with (Z.of_nat fuel + 1) in Hm by lia.
    nia.
Qed.

Lemma nap_lively fuel targets w :
  delay G * 1000 < Z.of_nat fuel * q ->
  nap G E fuel targets w <> Fuel.
Proof.
  destruct clock_ticking as (Hq & Hnorm & Hstep).
  intros Hm. unfold nap. destruct (negb (delay G =? 0)); [| discriminate].
  unfold bind, gettimeofday, syscall. cbv zeta.
  destruct fuel as [|fuel]; [simpl in Hm; lia |].
  apply nap_loop_lively. simpl tick. specialize (Hstep (tick w)).
  replace (Z.of_nat (S fuel)) with (Z.of_nat fuel + 1) in Hm by lia. lia.
Qed.

Lemma prepare_eps_lively fuel : forall k ti ei targets w,
  delay G * 1000 < Z.of_nat fuel * q ->
  prepare_eps G E fuel k ti ei targets w <> Fuel.
Proof.
  induction k as [|k IH]; intros ti ei targets w Hm; simpl.
  - discriminate.
  - destruct (get_ep targets ti ei) as [ep|]; [| discriminate].
    destruct (endpoint_valid ep); [| discriminate].
    unfold bind at 1.
    destruct (nap G E fuel targets w) as [[t1 w1]| | |] eqn:Hnap;
      try discriminate; [| exfalso; apply (nap_lively _ _ _ Hm Hnap)].
    destruct (get_ep t1 ti ei) as [ep1|]; [| discriminate].
    unfold bind at 1.
    destruct (start_connect E ep1 w1) as [[ep2 w2]| | |] eqn:Hst;
      try discriminate;
      [| exfalso; apply (start_connect_fuelless E ep1 w1 Hst)].
    apply IH. exact Hm.
Qed.

Lemma prepare_from_lively fuel : forall k ti targets w,
  delay G * 1000 < Z.of_nat fuel * q ->
  prepare_from G E fuel k ti targets w <> Fuel.
Proof.
  induction k as [|k IH]; intros ti targets w Hm.
  - discriminate.
  - rewrite prepare_from_S. destruct (nth_error targets ti) as [tp|];
      [| discriminate].
    unfold bind.
    destruct (prepare_eps G E fuel (S (List.length (endpoints tp))) ti 0
                targets w) as [[t1 w1]| | |] eqn:Hp; try discriminate.
    + apply IH. exact Hm.
    + exfalso. apply (prepare_eps_lively _ _ _ _ _ _ Hm Hp).
Qed.

Lemma prepare_lively fuel targets w :
  delay G * 1000 < Z.of_nat fuel * q ->
  prepare G E fuel targets w <> Fuel.
Proof.
  intros Hm. unfold prepare. destruct targets as [|tp rest]; [discriminate |].
  destruct (num_endpoints tp =? 0); [discriminate |].
  apply prepare_from_lively. exact Hm.
Qed.

End Lively.

Lemma scanned_In eps ep :
  In ep (scanned eps) -> In ep eps /\ endpoint_valid ep = true.
Proof.
  induction eps as [|a r IH]; simpl; [intros [] |].
  destruct (endpoint_valid a) eqn:Ha; [| intros []].
  intros [<- | Hin]; [split; [left; reflexivity | exact Ha] |].
  destruct (IH Hin) as (H1 & H2). split; [right; exact H1 | exact H2].
Qed.

Section Drained.

Variable G : globals.
Variable E : env.

Lemma update_ep_drains tv ready ep w ep' w' :
  update_ep G E tv ready ep w = Done (ep', w') ->
  counters_ok ep ->
  (socket ep <> 0 -> FD_ISSET (socket ep) ready = true) ->
  socket ep' = 0 /\ endpoint_valid ep' = endpoint_valid ep.
Proof.
  intros H Hok Hready. apply update_ep_effect in H; [| exact Hok].
  unfold pass_effect in H. cbv zeta in H.
  assert (Hfin : forall v, finalized ep ep' v ->
            socket ep' = 0 /\ endpoint_valid ep' = endpoint_valid ep).
  { intros v ((_ & _ & _ & _ & Hal & _) & Hs0 & _).
    split; [exact Hs0 |]. unfold endpoint_valid. rewrite Hal. reflexivity. }
  destruct (socket ep =? 0) eqn:Hz.
  - simpl in H. subst ep'. apply Z.eqb_eq in Hz. split; [exact Hz | reflexivity].
  - apply Z.eqb_neq in Hz. rewrite (Hready Hz) in H. simpl in H.
    destruct (timed_out G (elapsed_us tv ep)).
    + destruct H as (Hf & _). apply (Hfin _ Hf).
    + destruct H as (_ & [(Hf & _) | (Hf & _)]); apply (Hfin _ Hf).
Qed.

Lemma update_eps_drains tv ready eps : forall w eps' w',
  update_eps G E tv ready eps w = Done (eps', w') ->
  (forall ep, In ep (scanned eps) ->
     counters_ok ep /\
     (socket ep <> 0 -> FD_ISSET (socket ep) ready = true)) ->
  forall ep', In ep' (scanned eps') -> socket ep' = 0.
Proof.
  induction eps as [|ep rest IH]; intros w eps' w' H Hall.
  - discriminate H.
  - simpl in H. simpl in Hall. destruct (endpoint_valid ep) eqn:Hv.
    + inv_bind H as ep1 w1 Hep. inv_bind H as rest1 w2 Hrest. inv_ret H.
      destruct (Hall ep (or_introl eq_refl)) as (Hok & Hrd).
      destruct (update_ep_drains _ _ _ _ _ _ Hep Hok Hrd) as (Hs0 & Hv1).
      intros ep' Hin. simpl in Hin. rewrite Hv1, Hv in Hin.
      destruct Hin as [<- | Hin]; [exact Hs0 |].
      apply (IH _ _ _ Hrest); [| exact Hin].
      intros e He. apply Hall. right. exact He.
    + inv_ret H. intros ep' Hin. simpl in Hin. rewrite Hv in Hin.
      destruct Hin.
Qed.

Lemma update_from_drains tv ready targets : forall w targets' w',
  update_from G E tv ready targets w = Done (targets', w') ->
  (forall tp ep, In tp targets -> In ep (scanned (endpoints tp)) ->
     counters_ok ep /\
     (socket ep <> 0 -> FD_ISSET (socket ep) ready = true)) ->
  pending_fds targets' = [].
Proof.
  induction targets as [|tp rest IH]; intros w targets' w' H Hall;
    simpl in H.
  - inv_ret H. reflexivity.
  - inv_bind H as eps1 w1 Heps. inv_bind H as rest1 w2 Hrest. inv_ret H.
    unfold pending_fds. simpl. fold (pending_fds rest1).
    rewrite (IH _ _ _ Hrest)
      by (intros tp0 ep Htp; apply Hall; right; exact Htp).
    rewrite app_nil_r.
    assert (Hz := update_eps_drains _ _ _ _ _ _ Heps
                    (fun ep Hin => Hall tp ep (or_introl eq_refl) Hin)).
    induction (scanned eps1) as [|e r IHr]; [reflexivity |].
    simpl. rewrite (Hz e (or_introl eq_refl)). simpl.
    apply IHr. intros e' He'. apply Hz. right. exact He'.
Qed.

End Drained.

Section Returns.

Variable G : globals.
Variable E : env.
Variable q : Z.

Hypothesis nqueries_range : 0 <= nqueries G < UINT_MOD.
Hypothesis os_cooperative : cooperative E.
Hypothesis os_responsive : responsive E.
Hypothesis clock_ticking : ticking q E.
Hypothesis delay_nonneg : 0 <= delay G.

Lemma collect_lively fuel r targets w :
  0 <= r <= nqueries G ->
  all_tight (nqueries G) r targets -> closed targets ->
  collect G E (S (S fuel)) targets w <> Fuel.
Proof.
  intros Hr Ht Hc. cbn [collect]. unfold bind at 1.
  destruct (generate_fdset_cases targets w) as [-> | (max & fdset & Hgen)];
    [discriminate |].
  rewrite Hgen. destruct (max =? -1); [discriminate |].
  destruct (generate_fdset_Done _ _ _ _ _ Hgen) as (_ & Hfd & Hmax).
  unfold bind at 1, select at 1. cbv zeta.
  rewrite (proj1 os_responsive).
  assert (Hfits := generate_fdset_fits _ _ _ _ Hgen).
  set (ready := filter (fun b => if b <? 1 + max then bit_set b fdset
                                 else select_words (1 + max) <=? b) fdset).
  unfold bind at 1.
  match goal with
  | |- context [update G E targets ready ?w2] =>
      destruct (update G E targets ready w2) as [[t1 w3]| | |] eqn:Hupd;
        try discriminate;
        [| exfalso; apply (proj2 (update_plain G E targets ready) w2 Hupd)]
  end.
  assert (Hnone : pending_fds t1 = []).
  { rewrite update_unfold in Hupd.
    apply (update_from_drains G E _ _ _ _ _ _ Hupd).
    intros tp ep Htp Hep. destruct (scanned_In _ _ Hep) as (Hin & Hv).
    apply In_nth_error in Htp. destruct Htp as (i & Hi).
    apply In_nth_error in Hin. destruct Hin as (j & Hj).
    assert (Hg : get_ep targets i j = Some ep)
      by (unfold get_ep; rewrite Hi; exact Hj).
    assert (Htight := Ht _ _ _ Hg).
    split.
    - apply (tight_settled_counters (nqueries G) r);
        [lia | lia | exact Hv | left; exact Htight].
    - intros Hnz. destruct (Htight Hv) as (_ & _ & _ & Hpos).
      assert (Hpend : In (socket ep) (pending_fds targets))
        by (apply (closed_pending _ _ _ _ Hc Hg Hv Hnz)).
      destruct (fold_max_facts (pending_fds targets) (-1)) as (_ & Hub & _).
      specialize (Hub _ Hpend). rewrite <- Hmax in Hub.
      assert (Hbit : fd_bit (socket ep) = Some (socket ep)).
      { apply fd_bit_Some. left. specialize (Hfits _ Hpend).
        split; [lia | reflexivity]. }
      assert (Hmem : In (socket ep) fdset).
      { rewrite Hfd, <- in_rev. apply in_bits_of.
        exists (socket ep). split; assumption. }
      assert (Hset : bit_set (socket ep) fdset = true).
      { unfold bit_set. apply existsb_exists. exists (socket ep).
        split; [exact Hmem | apply Z.eqb_refl]. }
      unfold FD_ISSET. rewrite Hbit. unfold bit_set.
      apply existsb_exists. exists (socket ep).
      split; [| apply Z.eqb_refl].
      unfold ready. apply filter_In. split; [exact Hmem |].
      assert (H2 : (socket ep <? 1 + max) = true) by (apply Z.ltb_lt; lia).
      rewrite H2. exact Hset. }
  cbn [collect]. unfold bind at 1.
  destruct (generate_fdset_cases t1 w3) as [-> | (max1 & fdset1 & Hgen1)];
    [discriminate |].
  rewrite Hgen1.
  destruct (generate_fdset_Done _ _ _ _ _ Hgen1) as (_ & _ & Hmax1).
  rewrite Hnone in Hmax1. simpl in Hmax1. subst max1. discriminate.
Qed.

Lemma rounds_lively fuel : forall n r targets w,
  delay G * 1000 < Z.of_nat (S (S fuel)) * q ->
  0 <= r -> r + Z.of_nat n <= nqueries G ->
  all_settled (nqueries G) r targets -> closed targets -> probed targets ->
  rounds G E (S (S fuel)) n targets w <> Fuel.
Proof.
  induction n as [|n IH]; intros r targets w Hm H0 Hr Hs Hc Hp.
  - discriminate.
  - cbn [rounds]. unfold bind at 1.
    destruct (prepare G E (S (S fuel)) targets w) as [[t1 w1]| | |] eqn:Hprep;
      try discriminate;
      [| exfalso;
         apply (prepare_lively G E q clock_ticking delay_nonneg _ _ _ Hm
                  Hprep)].
    destruct (prepare_round G E nqueries_range os_cooperative _ (r + 1)
                _ _ _ _ ltac:(lia)
                ltac:(replace (r + 1 - 1) with r by lia; exact Hs)
                Hc Hp Hprep) as (Ht1 & Hc1 & Hs1).
    unfold bind at 1.
    destruct (collect G E (S (S fuel)) t1 w1) as [[t2 w2]| | |] eqn:Hcoll;
      try discriminate;
      [| exfalso;
         apply (collect_lively fuel (r + 1) t1 w1 ltac:(lia) Ht1 Hc1 Hcoll)].
    destruct (collect_round G E nqueries_range _ (r + 1) _ _ _ _ ltac:(lia)
                Ht1 Hc1 Hcoll) as (Hs2 & Hc2 & Hsh2).
    apply (IH (r + 1)); try lia; try assumption.
    apply (shape_probed targets); [congruence | exact Hp].
Qed.

End Returns.

(** X17.  On a host that answers at once the probing loop terminates.
    The host creates every socket, on a descriptor from 1 to
    FD_SETSIZE - 1, and starts every connect, [select] reports every
    descriptor it is asked about, [getsockopt] does not fail, and the
    clock moves on by at least [q] microseconds per call.  Then the nap
    before a connect ends after at most [delay * 1000 / q] turns, every
    round is drained by one pass of [update], and the run over fresh
    targets returns: with more than [delay * 1000 / q] and at least 2
    units of fuel for each loop it ends in neither [exit], nor an
    access outside an array or the [fd_set], nor want of fuel. *)
Theorem probe_returns_on_responsive_host (G : globals) (E : env) (q : Z)
    (fuel : nat) (targets : list target) (w : world) :
  0 <= nqueries G < UINT_MOD -> 0 <= delay G ->
  cooperative E -> descriptors_fit E -> responsive E -> ticking q E ->
  fresh (nqueries G) targets -> closed targets -> probed targets ->
  targets <> [] ->
  delay G * 1000 < Z.of_nat (S (S fuel)) * q ->
  exists targets' w',
    probe G E (S (S fuel)) targets w = Done (targets', w').
Proof.
  intros HN Hd Hco Hfit Hre Hti Hf Hc Hp Hne Hm.
  assert (Hsafe := safe_probe False G E HN (fit_unless_False E Hfit)
                     (S (S fuel)) targets Hf w).
  assert (Hrel : reliable E).
  { destruct Hre as (Hsel & Hgs). split; [| exact Hgs].
    intros n fds. rewrite Hsel. discriminate. }
  assert (Hsteady := steady_rounds G E Hrel (S (S fuel))
                       (Z.to_nat (nqueries G)) targets Hne w).
  assert (Hs0 : all_settled (nqueries G) 0 targets).
  { destruct Hf as (_ & Hf). intros i0 j0 e Hg0 Hv0.
    destruct (Hf _ _ _ Hg0 Hv0) as (Ht & Hcn & Hi & Hs & Hl).
    rewrite Ht, Hcn, Hi. repeat split; try lia; assumption. }
  assert (Hlive := rounds_lively G E q HN Hco Hre Hti Hd fuel
                     (Z.to_nat (nqueries G)) 0 targets w Hm ltac:(lia)
                     ltac:(lia) Hs0 Hc Hp).
  unfold probe in *.
  destruct (rounds G E (S (S fuel)) (Z.to_nat (nqueries G)) targets w)
    as [[t' w']| | |]; try contradiction.
  exists t', w'. reflexivity.
Qed.

Lemma env_steady_cooperative : cooperative env_steady.
Proof.
  split; [| split].
  - intros n fam st pr. unfold env_steady, env_ok, os_socket, fst. lia.
  - intros n. unfold env_steady, env_ok, os_setfl. discriminate.
  - intros n. right. reflexivity.
Qed.

Lemma env_steady_ticking : ticking 10000 env_steady.
Proof.
  split; [lia | split].
  - intros n. unfold normalized. simpl.
    assert (H := Z.mod_pos_bound (Z.of_nat n) 100). lia.
  - intros n. unfold usec_of, env_steady, clock, tv_sec, tv_usec.
    rewrite Nat2Z.inj_succ. unfold Z.succ.
    assert (H1 := Z.div_mod (Z.of_nat n) 100 ltac:(lia)).
    assert (H2 := Z.mod_pos_bound (Z.of_nat n) 100 ltac:(lia)).
    assert (H3 := Z.div_mod (Z.of_nat n + 1) 100 ltac:(lia)).
    assert (H4 := Z.mod_pos_bound (Z.of_nat n + 1) 100 ltac:(lia)).
    lia.
Qed.

Lemma env_low_cooperative : cooperative env_low.
Proof.
  split; [| split].
  - intros n fam st pr. unfold env_low, os_socket, fst.
    assert (H := Z.mod_pos_bound (Z.of_nat n) 8 ltac:(lia)). lia.
  - intros n. unfold env_low, env_ok, os_setfl. discriminate.
  - intros n. right. reflexivity.
Qed.

Lemma probe_returns_on_responsive_host_witness :
  exists targets' w',
    probe default_globals env_low 10 (one_target fresh_endpoint) world0 =
    Done (targets', w').
Proof.
  apply (probe_returns_on_responsive_host default_globals env_low 10000
           8 (one_target fresh_endpoint) world0).
  - vm_compute. split; [discriminate | reflexivity].
  - vm_compute. discriminate.
  - exact env_low_cooperative.
  - exact env_low_fits.
  - split; [intros n fds; reflexivity | intros n fd; discriminate].
  - exact env_steady_ticking.
  - exact fresh_one_target.
  - apply closed_one_target. reflexivity.
  - simpl. discriminate.
  - discriminate.
  - vm_compute. reflexivity.
Defined.

(* ------------------------------------------------------------------ *)
(** ** What [sum] holds *)

Lemma total_latency_app l v :
  total_latency (l ++ [v]) = total_latency l + (if 0 <=? v then v else 0).
Proof.
  induction l as [|x r IH]; simpl; [lia | rewrite IH; lia].
Qed.

Section Sum.

Variable G : globals.
Variable E : env.

Lemma update_ep_sum tv fdset ep w ep' w' :
  update_ep G E tv fdset ep w = Done (ep', w') ->
  counters_ok ep -> sum_ok ep -> plausible tv ep -> sum_ok ep'.
Proof.
  intros H Hok Hsum Hpl. apply update_ep_effect in H; [| exact Hok].
  unfold pass_effect in H. cbv zeta in H. unfold sum_ok in *.
  assert (Hfail : finalized ep ep' (to_int (to_uint (- elapsed_us tv ep))) ->
                  socket ep <> 0 -> sum ep' = sum ep ->
                  sum ep' = to_uint (total_latency (samples ep'))).
  { intros (_ & _ & _ & _ & Hsm) Hnz Hs. specialize (Hpl Hnz).
    rewrite Hsm, total_latency_app, to_int_neg by lia.
    assert (Hneg : (0 <=? - elapsed_us tv ep) = false)
      by (apply Z.leb_gt; lia).
    rewrite Hneg, Z.add_0_r, Hs. exact Hsum. }
  destruct (negb (socket ep =? 0) && timed_out G (elapsed_us tv ep)) eqn:Hto.
  - apply andb_true_iff in Hto. destruct Hto as (Hnz & _).
    apply negb_true_iff in Hnz. apply Z.eqb_neq in Hnz.
    destruct H as (Hf & _ & _ & Hs). apply (Hfail Hf Hnz Hs).
  - destruct (negb (socket ep =? 0) && FD_ISSET (socket ep) fdset) eqn:Hrd.
    + apply andb_true_iff in Hrd. destruct Hrd as (Hnz & _).
      apply negb_true_iff in Hnz. apply Z.eqb_neq in Hnz.
      destruct H as (_ & [(Hf & _ & Hs) | (Hf & _ & Hs)]);
        [| apply (Hfail Hf Hnz Hs)].
      destruct Hf as (_ & _ & _ & _ & Hsm). specialize (Hpl Hnz).
      rewrite Hsm, total_latency_app, to_int_small by lia.
      assert (Hpos : (0 <=? elapsed_us tv ep) = true)
        by (apply Z.leb_le; lia).
      rewrite Hpos, Hs, Hsum. unfold to_uint.
      rewrite Z.add_mod_idemp_l by (unfold UINT_MOD; lia). reflexivity.
    + subst ep'. exact Hsum.
Qed.

Lemma update_eps_sum tv fdset eps : forall w eps' w',
  update_eps G E tv fdset eps w = Done (eps', w') ->
  Forall counters_ok eps -> Forall sum_ok eps ->
  Forall (plausible tv) eps -> Forall sum_ok eps'.
Proof.
  induction eps as [|ep rest IH]; intros w eps' w' H Hok Hs Hp.
  - discriminate H.
  - simpl in H. destruct (endpoint_valid ep).
    + inv_bind H as ep1 w1 Hep. inv_bind H as rest1 w2 Hrest. inv_ret H.
      inversion Hok; inversion Hs; inversion Hp; subst. constructor.
      * apply (update_ep_sum _ _ _ _ _ _ Hep); assumption.
      * apply (IH _ _ _ Hrest); assumption.
    + inv_ret H. exact Hs.
Qed.

Lemma update_from_sum tv fdset targets : forall w targets' w',
  update_from G E tv fdset targets w = Done (targets', w') ->
  all_eps counters_ok targets -> all_eps sum_ok targets ->
  all_eps (plausible tv) targets -> all_eps sum_ok targets'.
Proof.
  unfold all_eps.
  induction targets as [|tp rest IH]; intros w targets' w' H Hok Hs Hp;
    simpl in H.
  - inv_ret H. constructor.
  - inv_bind H as eps1 w1 Heps. inv_bind H as rest1 w2 Hrest. inv_ret H.
    inversion Hok; inversion Hs; inversion Hp; subst. constructor.
    + simpl. apply (update_eps_sum _ _ _ _ _ _ Heps); assumption.
    + apply (IH _ _ _ Hrest); assumption.
Qed.

End Sum.

(** X18.  [sum], the numerator of the mean that the ranker compares, is
    the sum of the samples that record a success, in unsigned 32-bit
    arithmetic: a pass of [update] keeps this for every endpoint, as
    long as every elapsed time it records lies strictly between 0 and
    2^31 microseconds.  A failure or a time-out adds nothing to it. *)
Theorem update_keeps_sum (G : globals) (E : env)
    (targets : list target) (fdset : list Z) (w : world)
    (targets' : list target) (w' : world) :
  update G E targets fdset w = Done (targets', w') ->
  all_eps counters_ok targets ->
  all_eps sum_ok targets ->
  all_eps (plausible (clock E (tick w))) targets ->
  all_eps sum_ok targets'.
Proof.
  intros H Hok Hs Hp. rewrite update_unfold in H.
  apply (update_from_sum G E _ _ _ _ _ _ H Hok Hs Hp).
Qed.

Lemma update_keeps_sum_witness :
  all_eps sum_ok
    (one_target (set_socket (set_idx (set_cnt (set_tot (set_sum
       (set_values pending_endpoint [5000; 0; 0]) 5000) 1) 1) 1) 0)).
Proof.
  apply (update_keeps_sum default_globals
           (mkEnv (fun _ => mkTimeval 1000 5000) (os_select env_ok)
              (os_getsockopt env_ok) (os_socket env_ok) (os_setfl env_ok)
              (os_connect env_ok) resolve_v4)
           (one_target pending_endpoint) [5] (mkWorld 5 [])
           (one_target (set_socket (set_idx (set_cnt (set_tot (set_sum
              (set_values pending_endpoint [5000; 0; 0]) 5000) 1) 1) 1) 0))
           (mkWorld 8 [EvClose 5; EvTime (mkTimeval 1000 5000); EvUpdate])).
  - vm_compute. reflexivity.
  - unfold all_eps, one_target. repeat constructor; vm_compute; decide_all.
  - unfold all_eps, one_target. repeat constructor.
  - unfold all_eps, one_target. repeat constructor;
      intros _; vm_compute; split; reflexivity.
Defined.

(* ------------------------------------------------------------------ *)
(** ** The time-out ends a round *)

Lemma usec_of_timersub a b :
  usec_of (timersub a b) = usec_of a - usec_of b.
Proof.
  unfold usec_of, timersub.
  destruct (tv_usec a - tv_usec b <? 0); simpl; lia.
Qed.

Lemma elapsed_us_exact tv ep :
  0 <= usec_of tv - usec_of (tvs ep) < UINT_MOD ->
  elapsed_us tv ep = usec_of tv - usec_of (tvs ep).
Proof.
  intros H. unfold elapsed_us. cbv zeta.
  change (tv_sec (timersub tv (tvs ep)) * 1000000
          + tv_usec (timersub tv (tvs ep)))
    with (usec_of (timersub tv (tvs ep))).
  rewrite usec_of_timersub. apply to_uint_small. exact H.
Qed.

Lemma pending_fds_cells targets fd :
  In fd (pending_fds targets) ->
  exists ep, In ep (pending_cells targets) /\ socket ep = fd.
Proof.
  unfold pending_fds, pending_cells, scanned_cells.
  rewrite in_flat_map. intros (tp & Htp & Hin).
  apply filter_In in Hin. destruct Hin as (Hin & Hnz).
  apply in_map_iff in Hin. destruct Hin as (ep & <- & Hep).
  exists ep. split; [| reflexivity].
  apply filter_In. split; [| exact Hnz].
  apply in_flat_map. exists tp. split; assumption.
Qed.

Section Pass.

Variable G : globals.
Variable E : env.

Lemma update_ep_pass tv fdset ep w ep' w' :
  update_ep G E tv fdset ep w = Done (ep', w') ->
  endpoint_valid ep' = endpoint_valid ep /\
  (tick w' <= tick w + 2)%nat /\
  (socket ep' <> 0 ->
   ep' = ep /\ timed_out G (elapsed_us tv ep) = false).
Proof.
  intros H. unfold update_ep in H.
  destruct (socket ep =? 0) eqn:Hz; simpl in H.
  - inv_ret H. split; [reflexivity | split; [lia |]].
    intros Hnz. apply Z.eqb_eq in Hz. congruence.
  - destruct (timed_out G (elapsed_us tv ep)) eqn:Hto.
    + inv_bind H as vs w1 Hst. inv_bind H as u w2 Hcl. inv_ret H.
      apply store_Done in Hst. destruct Hst as (-> & _).
      unfold close, syscall in Hcl. injection Hcl as _ <-.
      split; [reflexivity | split; [simpl; lia |]].
      intros Hnz. simpl in Hnz. congruence.
    + destruct (in_fd_set (socket ep)); [simpl in H | discriminate H].
      destruct (FD_ISSET (socket ep) fdset).
      * inv_bind H as r w1 Hgs. destruct r as [soerror|]; [| discriminate].
        unfold getsockopt in Hgs. injection Hgs as _ <-.
        inv_bind H as ep1 w2 Hbr. inv_bind H as u w3 Hcl. inv_ret H.
        unfold close, syscall in Hcl. injection Hcl as _ <-.
        destruct (soerror =? 0);
          inv_bind Hbr as vs w4 Hst; inv_ret Hbr;
          apply store_Done in Hst; destruct Hst as (-> & _);
          (split; [reflexivity | split; [simpl; lia |]]);
          intros Hnz; simpl in Hnz; congruence.
      * inv_ret H. split; [reflexivity | split; [lia |]].
        intros _. split; reflexivity.
Qed.

Lemma update_eps_pass tv fdset eps : forall w eps' w',
  update_eps G E tv fdset eps w = Done (eps', w') ->
  List.length (scanned eps') = List.length (scanned eps) /\
  (tick w' <= tick w + 2 * List.length (scanned eps))%nat /\
  forall ep', In ep' (scanned eps') -> socket ep' <> 0 ->
    In ep' (scanned eps) /\ timed_out G (elapsed_us tv ep') = false.
Proof.
  induction eps as [|ep rest IH]; intros w eps' w' H.
  - discriminate H.
  - simpl in H. destruct (endpoint_valid ep) eqn:Hv.
    + inv_bind H as ep1 w1 Hep. inv_bind H as rest1 w2 Hrest. inv_ret H.
      destruct (update_ep_pass _ _ _ _ _ _ Hep) as (Hv1 & Ht1 & Hs1).
      destruct (IH _ _ _ Hrest) as (Hl & Ht & Hs).
      simpl. rewrite Hv1, Hv. simpl. split; [lia | split; [lia |]].
      intros ep' [<- | Hin] Hnz.
      * destruct (Hs1 Hnz) as (-> & Hto). split; [left; reflexivity | exact Hto].
      * destruct (Hs _ Hin Hnz) as (Hin0 & Hto).
        split; [right; exact Hin0 | exact Hto].
    + inv_ret H. simpl. rewrite Hv. simpl. split; [reflexivity |].
      split; [lia | intros ep' []].
Qed.

Lemma update_from_pass tv fdset targets : forall w targets' w',
  update_from G E tv fdset targets w = Done (targets', w') ->
  List.length (scanned_cells targets') = List.length (scanned_cells targets)
  /\
  (tick w' <= tick w + 2 * List.length (scanned_cells targets))%nat /\
  forall ep', In ep' (pending_cells targets') ->
    In ep' (pending_cells targets) /\
    timed_out G (elapsed_us tv ep') = false.
Proof.
  induction targets as [|tp rest IH]; intros w targets' w' H; simpl in H.
  - inv_ret H. split; [reflexivity | split; [simpl; lia | intros ep' []]].
  - inv_bind H as eps1 w1 Heps. inv_bind H as rest1 w2 Hrest. inv_ret H.
    destruct (update_eps_pass _ _ _ _ _ _ Heps) as (Hl1 & Ht1 & Hs1).
    destruct (IH _ _ _ Hrest) as (Hl & Ht & Hs).
    unfold pending_cells, scanned_cells in *. simpl.
    rewrite !length_app. split; [lia | split; [lia |]].
    intros ep' Hin. apply filter_In in Hin. destruct Hin as (Hin & Hnz).
    assert (Hnz' : socket ep' <> 0)
      by (apply negb_true_iff in Hnz; apply Z.eqb_neq in Hnz; exact Hnz).
    apply in_app_or in Hin. destruct Hin as [Hin | Hin].
    + destruct (Hs1 _ Hin Hnz') as (Hin0 & Hto). split; [| exact Hto].
      apply filter_In. split; [apply in_or_app; left; exact Hin0 | exact Hnz].
    + destruct (Hs ep') as (Hin0 & Hto);
        [apply filter_In; split; assumption |].
      split; [| exact Hto].
      apply filter_In in Hin0. destruct Hin0 as (Hin0 & _).
      apply filter_In. split; [apply in_or_app; right; exact Hin0 | exact Hnz].
Qed.

End Pass.

Section Timeout.

Variable G : globals.
Variable E : env.
Variables q Q : Z.

Hypothesis clock_ticking : ticking q E.
Hypothesis clock_bounded : bounded_clock Q E.
Hypothesis timeout_range : 0 < timeout G /\ timeout G * 1000 <= INT_MAX.

Lemma clock_bounded_steps m : forall n,
  (m <= n)%nat ->
  usec_of (clock E n) <= usec_of (clock E m) + Q * Z.of_nat (n - m).
Proof.
  induction n as [|n IH]; intros Hle.
  - assert (m = 0%nat) by lia. subst m. simpl. lia.
  - destruct (Nat.eq_dec m (S n)) as [-> | Hne].
    + rewrite Nat.sub_diag. simpl. lia.
    + assert (Hle' : (m <= n)%nat) by lia. specialize (IH Hle').
      specialize (clock_bounded n).
      replace (Z.of_nat (S n - m)) with (Z.of_nat (n - m) + 1) by lia. lia.
Qed.

Lemma collect_terminates t0 c fuel : forall targets w,
  timeout G * 1000
    + Q * (2 * Z.of_nat c + 2) < UINT_MOD ->
  List.length (scanned_cells targets) = c ->
  (forall ep, In ep (pending_cells targets) ->
     usec_of (tvs ep) <= t0 /\
     usec_of (clock E (tick w)) - usec_of (tvs ep) + Q < UINT_MOD) ->
  t0 <= usec_of (clock E (tick w)) ->
  t0 + timeout G * 1000 < usec_of (clock E (tick w)) + Z.of_nat fuel * q ->
  collect G E (S (S fuel)) targets w <> Fuel.
Proof.
  destruct clock_ticking as (Hq & Hnorm & Hstep).
  destruct timeout_range as (Ht0 & Ht1).
  induction fuel as [|fuel IH]; intros targets w Hfit Hc Hpend Hnow Hm;
    cbn [collect]; unfold bind at 1;
    (destruct (generate_fdset_cases targets w) as [-> | (max & fdset & ->)];
     [discriminate |]);
    (destruct (max =? -1); [discriminate |]);
    unfold bind at 1, select at 1; cbv zeta;
    (destruct (os_select E (tick w) fdset) as [sel|]; [| discriminate]);
    unfold bind at 1;
    match goal with
    | |- context [update G E targets ?r ?w2] =>
        destruct (update G E targets r w2) as [[t1 w3]| | |] eqn:Hupd;
          try discriminate;
          [| exfalso; apply (proj2 (update_plain G E targets r) w2 Hupd)]
    end;
    assert (Hticks := proj1 (update_plain G E _ _) _ _ _ Hupd);
    rewrite update_unfold in Hupd;
    destruct (update_from_pass G E _ _ _ _ _ _ Hupd) as (Hlen & Hup & Hsurv);
    simpl tick in *;
    assert (Hadv := clock_advances E q clock_ticking (tick w) (S (tick w))
                      ltac:(lia));
    assert (Hbd := clock_bounded (tick w));
    replace (S (tick w) - tick w)%nat with 1%nat in Hadv by lia;
    assert (Hreal : forall ep, In ep (pending_cells t1) ->
              In ep (pending_cells targets) /\
              usec_of (clock E (S (tick w))) - usec_of (tvs ep)
                < timeout G * 1000);
    try (intros ep Hin; destruct (Hsurv ep Hin) as (Hin0 & Hto);
         split; [exact Hin0 |];
         destruct (Hpend ep Hin0) as (Hs & Hw);
         rewrite elapsed_us_exact in Hto by (unfold UINT_MOD in *; lia);
         unfold timed_out in Hto;
         rewrite to_uint_small in Hto
           by (unfold UINT_MOD, INT_MAX in *; lia);
         rewrite Z.geb_leb in Hto; apply Z.leb_gt in Hto; exact Hto).
  - (* the last pass finalizes every attempt that is left *)
    assert (Hnone : forall fd, In fd (pending_fds t1) -> fd < 0).
    { intros fd Hfd. destruct (pending_fds_cells _ _ Hfd) as (ep & Hep & _).
      destruct (Hreal ep Hep) as (Hin0 & Hlt).
      destruct (Hpend ep Hin0) as (Hs & _). simpl in Hm. lia. }
    cbn [collect]. unfold bind at 1.
    destruct (generate_fdset_cases t1 w3) as [-> | (max1 & fdset1 & Hgen1)];
      [discriminate |].
    rewrite Hgen1.
    destruct (generate_fdset_Done _ _ _ _ _ Hgen1) as (_ & _ & Hmax1).
    apply no_pending_iff in Hnone. rewrite <- Hmax1 in Hnone.
    rewrite Hnone. discriminate.
  - apply IH.
    + exact Hfit.
    + congruence.
    + intros ep Hin. destruct (Hreal ep Hin) as (Hin0 & Hlt).
      destruct (Hpend ep Hin0) as (Hs & _). split; [exact Hs |].
      assert (Hb := clock_bounded_steps (S (tick w)) (tick w3) ltac:(lia)).
      assert (Hk : Z.of_nat (tick w3 - S (tick w))
                   <= 2 * Z.of_nat c + 1) by lia.
      assert (HQ : 0 <= Q) by lia.
      nia.
    + assert (Ha := clock_advances E q clock_ticking (tick w) (tick w3)
                      ltac:(lia)).
      assert (Hk : 0 <= Z.of_nat (tick w3 - tick w)) by lia. nia.
    + assert (Ha := clock_advances E q clock_ticking (tick w) (tick w3)
                      ltac:(lia)).
      assert (Hk : 1 <= Z.of_nat (tick w3 - tick w)) by lia.
      replace (Z.of_nat (S fuel)) with (Z.of_nat fuel + 1) in Hm by lia.
      nia.
Qed.

End Timeout.

(** X19.  With a positive time-out a round ends even if no peer ever
    answers.  Let the clock return normalized timevals and move on by at
    least [q] and at most [Q] microseconds per call, let every pending
    attempt have been started in the past, at most [W] microseconds
    ago, and let [W + Q] and [timeout * 1000 + Q * (2 c + 2)] fit into
    the 32 bits of the elapsed time, [c] being the number of endpoints
    the scans visit.  Then [collect] ends after at most
    [timeout * 1000 / q + 3] turns of its loop, whatever [select] and
    [getsockopt] answer. *)
Theorem collect_ends_by_timeout (G : globals) (E : env) (q Q W : Z)
    (fuel : nat) (targets : list target) (w : world) :
  ticking q E -> bounded_clock Q E ->
  0 < timeout G -> timeout G * 1000 <= INT_MAX ->
  W + Q < UINT_MOD ->
  timeout G * 1000
    + Q * (2 * Z.of_nat (List.length (scanned_cells targets)) + 2)
    < UINT_MOD ->
  (forall ep, In ep (pending_cells targets) ->
     usec_of (clock E (tick w)) - W <= usec_of (tvs ep)
       <= usec_of (clock E (tick w))) ->
  timeout G * 1000 < Z.of_nat fuel * q ->
  collect G E (S (S fuel)) targets w <> Fuel.
Proof.
  intros Hti Hbd Ht0 Ht1 HW Hfit Hpend Hm.
  apply (collect_terminates G E q Q Hti Hbd (conj Ht0 Ht1)
           (usec_of (clock E (tick w)))
           (List.length (scanned_cells targets))).
  - exact Hfit.
  - reflexivity.
  - intros ep Hin. specialize (Hpend ep Hin). lia.
  - lia.
  - lia.
Qed.

Lemma collect_ends_by_timeout_witness :
  collect default_globals env_silent 5 (one_target pending_endpoint)
    (mkWorld 5 []) <> Fuel.
Proof.
  apply (collect_ends_by_timeout default_globals env_silent
           1000000 1000000 5000000 3 (one_target pending_endpoint)
           (mkWorld 5 [])).
  - split; [lia | split].
    + intros n. unfold normalized. simpl. lia.
    + intros n. unfold usec_of, env_silent, clock, tv_sec, tv_usec.
      rewrite Nat2Z.inj_succ. lia.
  - intros n. unfold usec_of, env_silent, clock, tv_sec, tv_usec.
    rewrite Nat2Z.inj_succ. lia.
  - vm_compute. reflexivity.
  - vm_compute. discriminate.
  - vm_compute. reflexivity.
  - vm_compute. reflexivity.
  - intros ep [<- | []]. vm_compute. split; discriminate.
  - vm_compute. reflexivity.
Defined.

(* ------------------------------------------------------------------ *)
(** ** The list of targets in memory *)

Lemma linked_empty : linked empty_chain [].
Proof.
  repeat split. intros i tp H. destruct i; discriminate H.
Qed.

Lemma linked_walk c l :
  linked c l -> walk (List.length l) (nodes c) (head c) = Some l.
Proof.
  intros (Hlen & Hnodes & Hhead & _).
  assert (Hfrom : forall k i,
            (i + k = List.length l)%nat ->
            walk k (nodes c)
              (if (i <? List.length l)%nat then Some i else None) =
            Some (skipn i l)).
  { induction k as [|k IH]; intros i Hi.
    - assert (Hge : (i <? List.length l)%nat = false)
        by (apply Nat.ltb_ge; lia).
      rewrite Hge. simpl. rewrite skipn_all2 by lia. reflexivity.
    - assert (Hlt : (i <? List.length l)%nat = true)
        by (apply Nat.ltb_lt; lia).
      rewrite Hlt. cbn [walk].
      destruct (nth_error l i) as [tp|] eqn:Hi';
        [| apply nth_error_None in Hi'; lia].
      rewrite (Hnodes _ _ Hi'). cbn [next payload].
      rewrite (IH (S i)) by lia.
      f_equal. clear -Hi'. revert i Hi'.
      induction l as [|x r IHl]; intros i Hi'; destruct i; simpl in *;
        try discriminate.
      + injection Hi' as ->. reflexivity.
      + apply IHl. exact Hi'. }
  rewrite Hhead. specialize (Hfrom (List.length l) 0%nat eq_refl).
  simpl skipn in Hfrom.
  destruct l as [|x r]; [reflexivity | exact Hfrom].
Qed.

Lemma linked_append c l tp :
  linked c l ->
  exists c', append_expanded (Some tp) c = Done c' /\
             linked c' (l ++ [tp]).
Proof.
  intros (Hlen & Hnodes & Hhead & Hlast).
  unfold append_expanded, new_node, append. cbn [head last_target nodes].
  rewrite Hhead. destruct (List.length l =? 0)%nat eqn:Hz.
  - apply Nat.eqb_eq in Hz. destruct l; [| discriminate Hz].
    destruct (nodes c) as [|nd ns] eqn:Hn; [| discriminate Hlen].
    eexists. split; [reflexivity |]. repeat split; simpl.
    intros i t Hi. destruct i as [|i]; [| destruct i; discriminate Hi].
    injection Hi as <-. reflexivity.
  - apply Nat.eqb_neq in Hz. rewrite Hlast.
    destruct (nth_error l (List.length l - 1)) as [t0|] eqn:Ht0;
      [| apply nth_error_None in Ht0; lia].
    assert (Hnd := Hnodes _ _ Ht0).
    rewrite nth_error_app1 by lia. rewrite Hnd.
    eexists. split; [reflexivity |].
    assert (Hl' : List.length (l ++ [tp]) = S (List.length l))
      by (rewrite length_app; simpl; lia).
    split; [| split; [| split]]; cbn [nodes head last_target payload].
    + rewrite length_replace_nth, length_app, Hl'. simpl. lia.
    + intros i t Hi. rewrite Hl'.
      destruct (Nat.eq_dec i (List.length l - 1)) as [-> | Hne].
      * rewrite (nth_error_replace_nth_same _ _
                   (mkNode t0 (if (S (List.length l - 1)
                                     <? List.length l)%nat
                               then Some (S (List.length l - 1))
                               else None)))
          by (rewrite nth_error_app1 by lia; exact Hnd).
        rewrite nth_error_app1 in Hi by lia.
        assert (t = t0) by congruence. subst t.
        assert (Hc : (S (List.length l - 1) <? S (List.length l))%nat = true)
          by (apply Nat.ltb_lt; lia).
        rewrite Hc. do 3 f_equal. lia.
      * rewrite nth_error_replace_nth_other by congruence.
        destruct (Nat.lt_ge_cases i (List.length l)) as [Hlt | Hge].
        -- rewrite nth_error_app1 in Hi by exact Hlt.
           rewrite nth_error_app1 by lia. rewrite (Hnodes _ _ Hi).
           assert (H1 : (S i <? List.length l)%nat = true)
             by (apply Nat.ltb_lt; lia).
           assert (H2 : (S i <? S (List.length l))%nat = true)
             by (apply Nat.ltb_lt; lia).
           rewrite H1, H2. reflexivity.
        -- rewrite nth_error_app2 in Hi by exact Hge.
           destruct (i - List.length l)%nat as [|k] eqn:Hk;
             [| destruct k; discriminate Hi].
           injection Hi as <-.
           assert (i = List.length l) by lia. subst i.
           rewrite nth_error_app2 by lia. rewrite Hlen, Nat.sub_diag.
           assert (H2 : (S (List.length l) <? S (List.length l))%nat = false)
             by (apply Nat.ltb_ge; lia).
           rewrite H2. reflexivity.
    + rewrite Hl'. reflexivity.
    + rewrite Hl'. simpl. do 2 f_equal. lia.
Qed.

(** X20.  [append] keeps the targets in the order in which they are
    appended.  Starting from the empty list, after [append(expand(...))]
    for a sequence of results, the traversal from [targets] along the
    [next] pointers meets exactly the targets of the successful calls,
    in the order of the calls; a NULL result changes nothing; and
    [append] never follows a NULL [last_target]. *)
Theorem append_keeps_order (results : list (option target)) :
  exists c,
    fold_left (fun o r => match o with
                          | Done c => append_expanded r c
                          | other => other
                          end) results (Done empty_chain) = Done c /\
    walk (List.length (nodes c)) (nodes c) (head c) =
      Some (flat_map (fun r => match r with
                               | Some tp => [tp]
                               | None => []
                               end) results).
Proof.
  assert (Hgen : forall rs c l, linked c l ->
            exists c', fold_left (fun o r => match o with
                                             | Done c => append_expanded r c
                                             | other => other
                                             end) rs (Done c) = Done c' /\
                       linked c' (l ++ flat_map (fun r => match r with
                                                          | Some tp => [tp]
                                                          | None => []
                                                          end) rs)).
  { induction rs as [|r rs IH]; intros c l Hl.
    - exists c. simpl. rewrite app_nil_r. split; [reflexivity | exact Hl].
    - destruct r as [tp|].
      + destruct (linked_append c l tp Hl) as (c1 & Hc1 & Hl1).
        destruct (IH c1 _ Hl1) as (c' & Hc' & Hl').
        exists c'. cbn [fold_left flat_map]. rewrite Hc1. split; [exact Hc' |].
        rewrite <- app_assoc in Hl'. exact Hl'.
      + destruct (IH c l Hl) as (c' & Hc' & Hl').
        exists c'. split; [exact Hc' | exact Hl']. }
  destruct (Hgen results empty_chain [] linked_empty) as (c & Hc & Hl).
  exists c. split; [exact Hc |].
  simpl in Hl. rewrite (proj1 Hl). apply (linked_walk _ _ Hl).
Qed.

(* ------------------------------------------------------------------ *)
(** ** C8: the paced pass of the scheduler *)

Lemma all_eps_get P targets ti ei ep :
  all_eps P targets -> get_ep targets ti ei = Some ep -> P ep.
Proof.
  unfold all_eps, get_ep. intros Hall Hg.
  destruct (nth_error targets ti) as [tp|] eqn:Hti; [| discriminate].
  rewrite Forall_forall in Hall.
  specialize (Hall tp (nth_error_In _ _ Hti)).
  rewrite Forall_forall in Hall. apply Hall.
  apply (nth_error_In _ _ Hg).
Qed.

Lemma all_eps_put P targets ti ei ep :
  all_eps P targets -> P ep -> all_eps P (put_ep targets ti ei ep).
Proof.
  unfold all_eps, put_ep. intros Hall Hp.
  destruct (nth_error targets ti) as [tp|] eqn:Hti; [| exact Hall].
  apply Forall_replace_nth; [exact Hall |]. simpl.
  apply Forall_replace_nth; [| exact Hp].
  rewrite Forall_forall in Hall. apply Hall.
  apply (nth_error_In _ _ Hti).
Qed.

Section PacedPass.

Variable G : globals.
Variable E : env.

Lemma update_collected targets ready w targets' w' :
  all_eps counters_ok targets ->
  update G E targets ready w = Done (targets', w') ->
  collected G E ready targets w targets' w' /\ all_eps counters_ok targets'.
Proof.
  intros Hok H. rewrite update_unfold in H.
  split; [split; [| split] |].
  - apply (update_from_effect G E _ _ _ _ _ _ H Hok).
  - assert (Ht := proj1 (update_from_plain G E (clock E (tick w)) ready
                           targets) _ _ _ H).
    simpl in Ht. lia.
  - destruct (emits_update_from G E _ _ _ _ _ _ H) as (useg & Htr & Hq).
    exists useg. split; [exact Htr | exact Hq].
  - apply (update_from_invariant G E _ _ _ _ _ _ H Hok).
Qed.

Lemma nap_loop_napping fuel dts : forall targets w targets' w',
  all_eps counters_ok targets ->
  nap_loop G E fuel dts targets w = Done (targets', w') ->
  napping G E dts targets w targets' w' /\ all_eps counters_ok targets'.
Proof.
  induction fuel as [|fuel IH]; intros targets w targets' w' Hok H.
  - discriminate H.
  - simpl in H. inv_bind H as mf w1 Hgen. destruct mf as [max fdset].
    destruct (generate_fdset_Done _ _ _ _ _ Hgen) as (-> & -> & ->).
    inv_bind H as dtn w2 Htime.
    unfold gettimeofday, syscall in Htime. injection Htime as <- <-.
    destruct (timercmp_lt (dd G) (timersub (clock E (tick w)) dts)) eqn:Hcmp.
    + inv_ret H. split; [apply napping_over; exact Hcmp | exact Hok].
    + inv_bind H as rc w3 Hsel. destruct rc as [ready|]; [| discriminate].
      inv_bind H as targets1 w4 Hupd.
      destruct (update_collected _ _ _ _ _ Hok Hupd) as (Hcol & Hok1).
      destruct (IH _ _ _ _ Hok1 H) as (Hnap & Hok').
      split; [| exact Hok'].
      apply (napping_turn G E dts targets w ready w3 targets1 w4);
        assumption.
Qed.

Lemma nap_napping fuel targets w targets' w' :
  delay G <> 0 -> all_eps counters_ok targets ->
  nap G E fuel targets w = Done (targets', w') ->
  napping G E (clock E (tick w)) targets (after_time E w) targets' w' /\
  all_eps counters_ok targets'.
Proof.
  intros Hd Hok H. unfold nap in H. apply Z.eqb_neq in Hd. rewrite Hd in H.
  simpl in H. inv_bind H as dts w1 Htime.
  unfold gettimeofday, syscall in Htime. injection Htime as <- <-.
  apply (nap_loop_napping _ _ _ _ _ _ Hok H).
Qed.

Lemma start_connect_counters ep w ep' w' :
  start_connect E ep w = Done (ep', w') -> counters_ok ep -> counters_ok ep'.
Proof.
  intros H Hok.
  destruct (start_connect_keeps_counters _ _ _ _ _ H) as (Ht & Hc & Hi & Hv).
  unfold counters_ok in *. rewrite Ht, Hc, Hi, Hv. exact Hok.
Qed.

Lemma prepare_eps_pacing fuel t0 w0 k :
  forall ti ei targets w targets' w',
  delay G <> 0 -> all_eps counters_ok targets ->
  forall ns, pacing G E t0 w0 ns targets w ->
  prepare_eps G E fuel k ti ei targets w = Done (targets', w') ->
  exists ns', pacing G E t0 w0 ns' targets' w' /\
              all_eps counters_ok targets'.
Proof.
  induction k as [|k IH]; intros ti ei targets w targets' w' Hd Hok ns Hp H.
  - discriminate H.
  - simpl in H. destruct (get_ep targets ti ei) as [ep|]; [| discriminate].
    destruct (endpoint_valid ep).
    + inv_bind H as targets1 w1 Hnap.
      destruct (nap_napping _ _ _ _ _ Hd Hok Hnap) as (Hn & Hok1).
      destruct (get_ep targets1 ti ei) as [ep1|] eqn:Hg1; [| discriminate].
      inv_bind H as ep2 w2 Hconn.
      apply (IH _ _ _ _ _ _ Hd) with (ns := tick w1 :: ns) in H.
      * exact H.
      * apply all_eps_put; [exact Hok1 |].
        apply (start_connect_counters _ _ _ _ Hconn).
        apply (all_eps_get _ _ _ _ _ Hok1 Hg1).
      * apply (pacing_issue G E t0 w0 ns targets w targets1 w1 ti ei ep1 ep2
                 w2); assumption.
    + inv_ret H. exists ns. split; assumption.
Qed.

Lemma prepare_from_pacing fuel t0 w0 k : forall ti targets w targets' w',
  delay G <> 0 -> all_eps counters_ok targets ->
  forall ns, pacing G E t0 w0 ns targets w ->
  prepare_from G E fuel k ti targets w = Done (targets', w') ->
  exists ns', pacing G E t0 w0 ns' targets' w' /\
              all_eps counters_ok targets'.
Proof.
  induction k as [|k IH]; intros ti targets w targets' w' Hd Hok ns Hp H.
  - simpl in H. inv_ret H. exists ns. split; assumption.
  - rewrite prepare_from_S in H. destruct (nth_error targets ti) as [tp|].
    + inv_bind H as targets1 w1 Heps.
      destruct (prepare_eps_pacing _ _ _ _ _ _ _ _ _ _ Hd Hok _ Hp Heps)
        as (ns1 & Hp1 & Hok1).
      apply (IH _ _ _ _ _ Hd Hok1 _ Hp1 H).
    + inv_ret H. exists ns. split; assumption.
Qed.

Lemma prepare_pacing fuel targets w targets' w' :
  delay G <> 0 -> all_eps counters_ok targets ->
  prepare G E fuel targets w = Done (targets', w') ->
  exists ns, pacing G E targets w ns targets' w' /\
             all_eps counters_ok targets'.
Proof.
  intros Hd Hok H. unfold prepare in H. destruct targets as [|tp rest].
  - discriminate H.
  - destruct (num_endpoints tp =? 0).
    + inv_ret H. exists []. split; [apply pacing_start | exact Hok].
    + apply (prepare_from_pacing _ _ _ _ _ _ _ _ _ Hd Hok _
               (pacing_start G E _ _) H).
Qed.

(** how a pacing wait ends: with a reading of the clock that is more
    than [delay] after the reading it began with, and not before the
    calls of its turns *)
Lemma napping_ends dts targets w targets' w' :
  napping G E dts targets w targets' w' ->
  (tick w < tick w')%nat /\
  exists dtn rest,
    trace w' = EvTime dtn :: rest /\ dtn = clock E (tick w' - 1) /\
    timercmp_lt (dd G) (timersub dtn dts) = true.
Proof.
  intros H.
  induction H as [targets w Hc
                 | targets w ready wsel targets1 w1 targets' w' Hc Hsel Hcol
                     Hn IH].
  - split; [simpl; lia |].
    exists (clock E (tick w)), (trace w). simpl.
    rewrite Nat.sub_0_r. repeat split. exact Hc.
  - destruct IH as (Ht & Hend). split; [| exact Hend].
    unfold select in Hsel. injection Hsel as _ <-.
    destruct Hcol as (_ & Hlt & _). simpl in Hlt. lia.
Qed.

Lemma napping_sockets dts targets w targets' w' :
  napping G E dts targets w targets' w' ->
  sockets (trace w') = sockets (trace w).
Proof.
  intros H.
  induction H as [targets w Hc
                 | targets w ready wsel targets1 w1 targets' w' Hc Hsel Hcol
                     Hn IH].
  - reflexivity.
  - rewrite IH. unfold select in Hsel. injection Hsel as _ <-.
    destruct Hcol as (_ & _ & useg & -> & Hq). simpl.
    unfold sockets. rewrite filter_app, length_app. simpl.
    assert (Hz : filter (fun ev => match ev with
                                   | EvSocket => true
                                   | _ => false
                                   end) useg = []).
    { clear -Hq. induction Hq as [|ev l Hev Hl IH]; [reflexivity |].
      simpl. destruct ev; simpl in *; try exact IH. contradiction. }
    rewrite Hz. reflexivity.
Qed.

Lemma start_connect_calls ep w ep' w' :
  start_connect E ep w = Done (ep', w') ->
  (tick w < tick w')%nat /\ sockets (trace w') = S (sockets (trace w)).
Proof.
  intros H. split.
  - unfold start_connect in H. inv_bind H as se w1 Hs.
    unfold sys_socket, syscall in Hs. injection Hs as _ <-.
    destruct se as [rc errno].
    destruct (socket (set_socket ep rc) <? 0).
    + destruct ((errno =? EAFNOSUPPORT) || (errno =? EPROTONOSUPPORT));
        inv_ret H; simpl; lia.
    + inv_bind H as rc2 w2 Hf. unfold sys_setfl in Hf.
      injection Hf as _ <-. destruct (rc2 =? -1).
      * inv_bind H as u w3 Hc. unfold close, syscall in Hc.
        injection Hc as _ <-. inv_ret H. simpl. lia.
      * inv_bind H as ce w3 Hc. unfold sys_connect in Hc.
        injection Hc as _ <-. destruct ce as [rc3 errno3].
        destruct ((rc3 =? -1) && negb (errno3 =? EINPROGRESS)).
        -- inv_bind H as u w4 Hcl. unfold close, syscall in Hcl.
           injection Hcl as _ <-. inv_ret H. simpl. lia.
        -- inv_bind H as tv w4 Ht. unfold gettimeofday, syscall in Ht.
           injection Ht as _ <-. inv_ret H. simpl. lia.
  - destruct (start_connect_log E _ _ _ _ H) as (cseg & -> & Hq).
    unfold sockets. rewrite filter_app, length_app. simpl.
    assert (Hz : filter (fun ev => match ev with
                                   | EvSocket => true
                                   | _ => false
                                   end) cseg = []).
    { clear -Hq. induction Hq as [|ev l Hev Hl IH]; [reflexivity |].
      simpl. destruct ev; simpl in *; try exact IH. contradiction. }
    rewrite Hz. reflexivity.
Qed.

(** the issuances of a paced pass are as many as its [socket] calls,
    and on a clock that does not run backwards they are more than
    [delay] apart *)
Lemma pacing_spaced targets w ns targets' w' :
  pacing G E targets w ns targets' w' ->
  sockets (trace w') = (List.length ns + sockets (trace w))%nat /\
  Forall (fun n => (tick w <= n < tick w')%nat) ns /\
  (tick w <= tick w')%nat /\
  (monotone E -> 0 <= delay G -> spaced G E ns).
Proof.
  intros H.
  induction H as [| ns t1 w1 t2 w2 ti ei ep ep' w3 Hp IH Hn Hg Hc].
  - split; [reflexivity |]. split; [constructor |].
    split; [lia | intros _ _; exact I].
  - destruct IH as (Hs & Hall & Hle & Hsp).
    destruct (napping_ends _ _ _ _ _ Hn) as (Ht & dtn & rest & Htr & Hdtn & Hcmp).
    destruct (start_connect_calls _ _ _ _ Hc) as (Ht3 & Hs3).
    simpl in Ht.
    split; [| split; [| split]].
    + assert (Hn2 : sockets (trace w2) = sockets (trace w1))
        by (rewrite (napping_sockets _ _ _ _ _ Hn); reflexivity).
      rewrite Hs3, Hn2, Hs. reflexivity.
    + constructor; [lia |].
      rewrite Forall_forall in *. intros n Hin. specialize (Hall n Hin). lia.
    + lia.
    + intros (Hnorm & Hmono) Hd. simpl.
      split; [| apply Hsp; [split; assumption | exact Hd]].
      destruct ns as [|n1 ns]; [exact I |].
      assert (Hn1 : (tick w <= n1 < tick w1)%nat)
        by (inversion Hall; assumption).
      split; [lia |].
      assert (Hgap := timercmp_usec G dtn (clock E (tick w1))
                        ltac:(rewrite Hdtn; apply Hnorm) (Hnorm _) Hd Hcmp).
      assert (H1 := Hmono n1 (tick w1) ltac:(lia)).
      assert (H2 := Hmono (tick w2 - 1)%nat (tick w2) ltac:(lia)).
      rewrite <- Hdtn in H2. lia.
Qed.

End PacedPass.

(** C8.  With a non-zero [delay] a pass of [prepare] is a paced pass.
    Every connection attempt is issued after a pacing wait of its own,
    which begins by reading the clock ([dts]) once the attempt before it
    has been issued and ends only at a reading [dtn] that is more than
    [delay] milliseconds after [dts]: on a clock that does not run
    backwards, the readings at two successive [socket] calls are more
    than [delay] apart.  As long as the wait lasts, each turn of its
    loop calls [select] on the descriptors of all pending attempts, for
    what is left of the delay ([dts + delay - dtn]) and no longer, and
    the completion collector runs as soon as [select] returns: at the
    clock reading that follows, every attempt whose descriptor [select]
    reports (or that has timed out) is finalized, with the time elapsed
    at that reading as its sample. *)
Theorem prepare_paces_connects (G : globals) (E : env) (fuel : nat)
    (targets : list target) (w : world)
    (targets' : list target) (w' : world) :
  delay G <> 0 ->
  prepare G E fuel targets w = Done (targets', w') ->
  (exists seg,
     trace w' = seg ++ trace w /\ paced G seg /\
     forall post pre, seg = post ++ EvSocket :: pre ->
     exists dtn wseg dts rest,
       pre = EvTime dtn :: wseg ++ rest /\
       waiting G dts wseg /\ paced G rest /\
       timercmp_lt (dd G) (timersub dtn dts) = true /\
       (normalized dtn -> normalized dts -> 0 <= delay G ->
        delay G * 1000 < usec_of dtn - usec_of dts)) /\
  (all_eps counters_ok targets ->
   exists ns,
     pacing G E targets w ns targets' w' /\
     sockets (trace w') = (List.length ns + sockets (trace w))%nat /\
     Forall (fun n => (tick w <= n < tick w')%nat) ns /\
     (monotone E -> 0 <= delay G -> spaced G E ns)).
Proof.
  intros Hd H. split.
  - apply (prepare_log_gaps G E fuel targets w targets' w' Hd H).
  - intros Hok.
    destruct (prepare_pacing G E fuel targets w targets' w' Hd Hok H)
      as (ns & Hp & _).
    exists ns. split; [exact Hp |].
    destruct (pacing_spaced G E _ _ _ _ _ Hp) as (Hs & Hall & _ & Hsp).
    split; [exact Hs | split; [exact Hall | exact Hsp]].
Qed.

Lemma env_low_monotone : monotone env_low.
Proof.
  destruct env_steady_ticking as (Hq & Hnorm & Hstep).
  split; [exact Hnorm |]. intros n m Hle.
  assert (H := clock_advances env_steady 10000 env_steady_ticking n m Hle).
  change (clock env_low) with (clock env_steady). lia.
Qed.

(** the pass over two endpoints: the first attempt is issued at call 5
    on descriptor 8; during the wait before the second one [select] is
    called on that descriptor for the 15 ms left of the delay, reports
    it, and the collector finalizes the attempt with the 40 ms elapsed
    at its reading of the clock; the second attempt follows *)
Example example_paced_run :
  map (fun ep => (socket ep, samples ep))
      (flat_map endpoints (fst example_paced)) =
    [(0, [40000]); (3, []); (0, [])] /\
  trace (snd example_paced) =
    [EvTime (mkTimeval 1000 190000); EvSocket;
     EvTime (mkTimeval 1000 150000);
     EvClose 8; EvTime (mkTimeval 1000 120000); EvUpdate;
     EvSelect (Some (mkTimeval 0 15000)) [8];
     EvTime (mkTimeval 1000 100000);
     EvTime (mkTimeval 1000 90000);
     EvTime (mkTimeval 1000 80000); EvSocket;
     EvTime (mkTimeval 1000 40000);
     EvTime (mkTimeval 1000 30000); EvUpdate;
     EvSelect (Some (mkTimeval 0 15000)) [];
     EvTime (mkTimeval 1000 10000);
     EvTime (mkTimeval 1000 0)].
Proof. split; reflexivity. Qed.

Lemma prepare_paces_connects_witness :
  exists ns,
    pacing default_globals env_low two_endpoints world0 ns
      (fst example_paced) (snd example_paced) /\
    List.length ns = 2%nat /\
    spaced default_globals env_low ns.
Proof.
  destruct (proj2 (prepare_paces_connects default_globals env_low 10
              two_endpoints world0 (fst example_paced) (snd example_paced)
              ltac:(discriminate) eq_refl))
    as (ns & Hp & Hs & _ & Hsp).
  - unfold all_eps, two_endpoints. repeat constructor; vm_compute; decide_all.
  - exists ns. split; [exact Hp |]. split.
    + assert (H2 : sockets (trace (snd example_paced)) = 2%nat)
        by reflexivity.
      rewrite H2 in Hs. change (sockets (trace world0)) with 0%nat in Hs.
      rewrite Nat.add_0_r in Hs. symmetry. exact Hs.
    + apply Hsp; [exact env_low_monotone | vm_compute; discriminate].
Defined.
